(** * Hua Rong Dao solver ([hrd.py]): a shallow embedding and its properties

    The development follows the layout of the Python module: Python
    values and exceptions, [Piece], [Board] (grid derivation, equality,
    rendering, cloning), [State] and successor generation, the loader
    [read_from_file] with [find_min_index], the heuristic
    [init_manhattan_distance], the standard library's [heapq], the two
    search loops [astar] and [dfs], and the output ([display],
    [grid_to_string], [output_solution]). *)

From Stdlib Require Import ZArith Lia Ascii String List.
From stdpp Require Import base option list gmap strings.

Local Open Scope Z_scope.
#[local] Set Warnings "-clear-no-such-hyp".

(** ** Python exceptions as an error monad *)

Inductive exn : Type := IndexError | KeyError | TypeError | AttributeError.

Inductive res (A : Type) : Type :=
| Ok (a : A)
| Raise (e : exn).
Arguments Ok {A} a.
Arguments Raise {A} e.

#[global] Instance res_ret : MRet res := @Ok.
#[global] Instance res_bind : MBind res := fun A B k m =>
  match m with
  | Ok a => k a
  | Raise e => Raise e
  end.

Definition is_Ok {A} (m : res A) : Prop := exists a, m = Ok a.

(** A [for] loop whose body may raise: left-to-right, stopping at the
    first exception. *)
Fixpoint for_each {A S : Type} (body : S -> A -> res S) (xs : list A) (s : S) : res S :=
  match xs with
  | [] => Ok s
  | x :: xs' => s' ← body s x; for_each body xs' s'
  end.

(** ** Python lists indexed by an [int]

    [l[i]] accepts [-len <= i < len]; a negative index counts from the
    end; anything else raises [IndexError]. *)

Definition py_index (len : nat) (i : Z) : res nat :=
  if (0 <=? i) && (i <? Z.of_nat len) then Ok (Z.to_nat i)
  else if (- Z.of_nat len <=? i) && (i <? 0) then Ok (Z.to_nat (Z.of_nat len + i))
  else Raise IndexError.

Definition py_getitem {A : Type} (l : list A) (i : Z) : res A :=
  n ← py_index (length l) i;
  match l !! n with
  | Some a => Ok a
  | None => Raise IndexError
  end.

Definition py_setitem {A : Type} (l : list A) (i : Z) (a : A) : res (list A) :=
  n ← py_index (length l) i;
  Ok (<[n := a]> l).

(** ** Python dicts with insertion order

    [Board.pieces] is iterated ([values()]), so the order of the entries
    is part of the behaviour: an association list with unique keys, new
    keys appended at the end, an assignment to an existing key replacing
    the value in place. *)

Abbreviation dict K V := (list (K * V)) (only parsing).

Section Dict.
Context {K V : Type} `{EqDecision K}.

Definition dict_values (d : dict K V) : list V := d.*2.
Definition dict_keys (d : dict K V) : list K := d.*1.

Fixpoint dict_get (k : K) (d : dict K V) : option V :=
  match d with
  | [] => None
  | (k', v) :: d' => if decide (k' = k) then Some v else dict_get k d'
  end.

(** [d[k] = v] *)
Fixpoint dict_set (k : K) (v : V) (d : dict K V) : dict K V :=
  match d with
  | [] => [(k, v)]
  | (k', v') :: d' =>
      if decide (k' = k) then (k, v) :: d' else (k', v') :: dict_set k v d'
  end.

Fixpoint dict_remove (k : K) (d : dict K V) : dict K V :=
  match d with
  | [] => []
  | (k', v) :: d' => if decide (k' = k) then d' else (k', v) :: dict_remove k d'
  end.

(** [d.pop(k)] *)
Definition dict_pop (k : K) (d : dict K V) : res (V * dict K V) :=
  match dict_get k d with
  | Some v => Ok (v, dict_remove k d)
  | None => Raise KeyError
  end.
End Dict.

(** ** Piece *)

Definition char_single : ascii := "2"%char.
Definition char_empty : ascii := "."%char.

(** [uid] is the value of [uuid.uuid4()]; the embedding draws identities
    from a counter, so that two calls never return the same value. A UUID
    is always truthy, which makes [if uid:] in [Piece.__init__] succeed
    for every identity that is passed in. *)
Record Piece : Type := mkPiece {
  is_2_by_2 : bool;
  is_single : bool;
  coord_x : Z;
  coord_y : Z;
  orientation : option string;
  uid : positive
}.

#[global] Instance Piece_eq_dec : EqDecision Piece.
Proof. solve_decision. Defined.

Definition set_coords (p : Piece) (x y : Z) : Piece :=
  {| is_2_by_2 := is_2_by_2 p; is_single := is_single p;
     coord_x := x; coord_y := y;
     orientation := orientation p; uid := uid p |}.

Definition orientation_is (p : Piece) (o : string) : bool :=
  match orientation p with
  | Some s => String.eqb s o
  | None => false
  end.

(** ** Board *)

Abbreviation Grid := (list (list ascii)) (only parsing).

Record Board : Type := mkBoard {
  width : Z;
  height : Z;
  pieces : dict (Z * Z) Piece;
  goal_board_dict : option (gmap positive Piece);
  grid : Grid
}.

Definition with_grid (b : Board) (g : Grid) : Board :=
  {| width := width b; height := height b; pieces := pieces b;
     goal_board_dict := goal_board_dict b; grid := g |}.

(** [grid[y][x]] *)
Definition grid_get (g : Grid) (y x : Z) : res ascii :=
  row ← py_getitem g y; py_getitem row x.

(** [grid[y][x] = c]; the rows are distinct list objects, so the write
    touches one row only. *)
Definition grid_set (g : Grid) (y x : Z) (c : ascii) : res Grid :=
  row ← py_getitem g y;
  row' ← py_setitem row x c;
  py_setitem g y row'.

Definition blank_grid (w h : Z) : Grid :=
  replicate (Z.to_nat h) (replicate (Z.to_nat w) "."%char).

(** The body of the loop of [update_grid] for one piece. *)
Definition stamp (g : Grid) (p : Piece) : res Grid :=
  let x := coord_x p in
  let y := coord_y p in
  if is_2_by_2 p then
    g ← grid_set g y x "1"%char;
    g ← grid_set g y (x + 1) "1"%char;
    g ← grid_set g (y + 1) x "1"%char;
    grid_set g (y + 1) (x + 1) "1"%char
  else if is_single p then
    grid_set g y x char_single
  else if orientation_is p "h" then
    g ← grid_set g y x "<"%char;
    grid_set g y (x + 1) ">"%char
  else if orientation_is p "v" then
    g ← grid_set g y x "^"%char;
    grid_set g (y + 1) x "v"%char
  else Ok g.

Definition derive_grid (w h : Z) (ps : dict (Z * Z) Piece) : res Grid :=
  for_each stamp (dict_values ps) (blank_grid w h).

Definition update_grid (b : Board) : res Board :=
  g ← derive_grid (width b) (height b) (pieces b);
  Ok (with_grid b g).

(** [Board.__init__] *)
Definition Board_init (height : Z) (pieces : dict (Z * Z) Piece)
    (goal_board_dict : option (gmap positive Piece)) : res Board :=
  update_grid {| width := 4; height := height; pieces := pieces;
                 goal_board_dict := goal_board_dict; grid := [] |}.

(** [Board.__eq__]: the right operand is any Python value. *)
Inductive pyval : Type :=
| VBoard (b : Board)
| VNone
| VInt (n : Z)
| VStr (s : string).

(** [==] on lists of lists of one-character strings. *)
Fixpoint row_eqb (r1 r2 : list ascii) : bool :=
  match r1, r2 with
  | [], [] => true
  | c1 :: r1', c2 :: r2' => Ascii.eqb c1 c2 && row_eqb r1' r2'
  | _, _ => false
  end.

Fixpoint grid_eqb (g1 g2 : Grid) : bool :=
  match g1, g2 with
  | [], [] => true
  | r1 :: g1', r2 :: g2' => row_eqb r1 r2 && grid_eqb g1' g2'
  | _, _ => false
  end.

Definition Board_eq (self : Board) (other : pyval) : bool :=
  match other with
  | VBoard o => grid_eqb (grid self) (grid o)
  | _ => false
  end.

(** [Board.__str__]: the concatenation of [str(row)] over the rows. The
    cells are the seven symbols written by [update_grid], whose [repr] is
    the symbol between single quotes. *)
Definition repr_char (c : ascii) : string := String "'" (String c (String "'" EmptyString)).

Fixpoint join_comma (xs : list string) : string :=
  match xs with
  | [] => ""
  | [x] => x
  | x :: xs' => x +:+ ", " +:+ join_comma xs'
  end.

Definition str_row (row : list ascii) : string :=
  "[" +:+ join_comma (map repr_char row) +:+ "]".

Definition Board_str (b : Board) : string :=
  fold_left (fun s arr => s +:+ str_row arr) (grid b) ""%string.

(** [Board.copy_board]: every piece is rebuilt with [Piece(...)], the
    board is constructed (which derives the grid once), the entry of
    [old] is popped and stored under [new_key], the moved piece gets its
    new coordinates and the grid is derived again. *)
Definition copy_piece (p : Piece) : Piece :=
  mkPiece (is_2_by_2 p) (is_single p) (coord_x p) (coord_y p) (orientation p) (uid p).

Definition copy_board (self : Board) (new_key old : Z * Z) : res Board :=
  let pieces0 := map (fun kp => (kp.1, copy_piece kp.2)) (pieces self) in
  board ← Board_init (height self) pieces0 (goal_board_dict self);
  '(moved, rest) ← dict_pop old (pieces board);
  let pieces1 := dict_set new_key moved rest in
  match dict_get new_key pieces1 with
  | None => Raise KeyError
  | Some p =>
      let pieces2 := dict_set new_key (set_coords p new_key.1 new_key.2) pieces1 in
      update_grid {| width := width board; height := height board;
                     pieces := pieces2;
                     goal_board_dict := goal_board_dict board;
                     grid := grid board |}
  end.

(** ** [copy_board] on piece objects

    [Piece] objects are mutable ([set_coords]) and a board refers to them,
    so whether a clone shares pieces with its source decides whether
    moving a piece of the clone changes the source. Here the pieces live
    in a store, a board maps positions to addresses, [Piece(...)] puts a
    new object at the next free address and [set_coords] overwrites the
    object at an address. *)

Abbreviation addr := nat (only parsing).
Abbreviation Store := (list Piece) (only parsing).

Record BoardRef : Type := mkBoardRef {
  r_width : Z;
  r_height : Z;
  r_pieces : dict (Z * Z) addr;
  r_goal_board_dict : option (gmap positive Piece);
  r_grid : Grid
}.

(** Reading an attribute of the object at an address; Python has no
    dangling references, so the failure case is not reached from a store
    that contains the objects of the board. *)
Definition load (st : Store) (a : addr) : res Piece :=
  match st !! a with
  | Some p => Ok p
  | None => Raise AttributeError
  end.

(** [Piece(is_2_by_2, is_single, coord_x, coord_y, orientation, uid)] *)
Definition new_piece (st : Store) (p : Piece) : addr * Store :=
  (length st, st ++ [copy_piece p]).

(** [list(self.pieces.values())], dereferenced *)
Definition load_all (st : Store) (ps : dict (Z * Z) addr) : res (list Piece) :=
  for_each (fun acc a => p ← load st a; Ok (acc ++ [p])) (dict_values ps) [].

Definition update_grid_ref (st : Store) (b : BoardRef) : res BoardRef :=
  ps ← load_all st (r_pieces b);
  g ← for_each stamp ps (blank_grid (r_width b) (r_height b));
  Ok {| r_width := r_width b; r_height := r_height b; r_pieces := r_pieces b;
        r_goal_board_dict := r_goal_board_dict b; r_grid := g |}.

Definition BoardRef_init (st : Store) (height : Z) (pieces : dict (Z * Z) addr)
    (goal_board_dict : option (gmap positive Piece)) : res BoardRef :=
  update_grid_ref st {| r_width := 4; r_height := height; r_pieces := pieces;
                        r_goal_board_dict := goal_board_dict; r_grid := [] |}.

(** The loop [for piece_key in self.pieces: ...] of [copy_board]. *)
Definition copy_entry (acc : Store * dict (Z * Z) addr) (entry : (Z * Z) * addr)
    : res (Store * dict (Z * Z) addr) :=
  piece ← load acc.1 entry.2;
  let '(a, st) := new_piece acc.1 piece in
  Ok (st, dict_set entry.1 a acc.2).

Definition copy_board_ref (st : Store) (self : BoardRef) (new_key old : Z * Z)
    : res (Store * BoardRef) :=
  '(st, pieces) ← for_each copy_entry (r_pieces self) (st, []);
  board ← BoardRef_init st (r_height self) pieces (r_goal_board_dict self);
  '(moved, rest) ← dict_pop old (r_pieces board);
  let pieces := dict_set new_key moved rest in
  match dict_get new_key pieces with
  | None => Raise KeyError
  | Some a =>
      p ← load st a;
      let st := <[a := set_coords p new_key.1 new_key.2]> st in
      b ← update_grid_ref st {| r_width := r_width board; r_height := r_height board;
                                r_pieces := pieces;
                                r_goal_board_dict := r_goal_board_dict board;
                                r_grid := r_grid board |};
      Ok (st, b)
  end.

(** The board a [BoardRef] denotes in a store. *)
Fixpoint deref (st : Store) (ps : dict (Z * Z) addr) : option (dict (Z * Z) Piece) :=
  match ps with
  | [] => Some []
  | (k, a) :: ps' =>
      match st !! a, deref st ps' with
      | Some p, Some qs => Some ((k, p) :: qs)
      | _, _ => None
      end
  end.

Definition board_of (st : Store) (b : BoardRef) : option Board :=
  match deref st (r_pieces b) with
  | Some ps => Some {| width := r_width b; height := r_height b; pieces := ps;
                       goal_board_dict := r_goal_board_dict b; grid := r_grid b |}
  | None => None
  end.

(** ** State *)

#[warnings="-register-all"]
Inductive State : Type := mkState {
  board : Board;
  hfn : Z;
  f : Z;
  depth : Z;
  parent : option State
}.

(** [State.__lt__] *)
Definition State_lt (self other : State) : bool := f self <? f other.

Definition set_f (s : State) (v : Z) : State :=
  {| board := board s; hfn := hfn s; f := v; depth := depth s; parent := parent s |}.

(** [grid[y][x] == char_empty] *)
Definition cell_empty (b : Board) (y x : Z) : res bool :=
  c ← grid_get (grid b) y x; Ok (Ascii.eqb c char_empty).

(** Python's short-circuit [and] of two tests that may raise. *)
Definition and_then (t1 t2 : res bool) : res bool :=
  t1 ≫= fun v : bool => if v then t2 else Ok false.

(** [if bound: if occupancy: new_keys.append(k)] *)
Definition try_move (bound : bool) (occupancy : res bool) (k : Z * Z)
    (new_keys : list (Z * Z)) : res (list (Z * Z)) :=
  if bound then
    occupancy ≫= fun free : bool =>
    Ok (if free then new_keys ++ [k] else new_keys)
  else Ok new_keys.

(** The first half of the loop body of [generate_successors]: the
    destinations of one piece. *)
Definition new_keys_of (b : Board) (piece : Piece) : res (list (Z * Z)) :=
  let x := coord_x piece in
  let y := coord_y piece in
  let e := cell_empty b in
  if is_2_by_2 piece then
    ks ← try_move (0 <=? x - 1) (and_then (e y (x - 1)) (e (y + 1) (x - 1))) (x - 1, y) [];
    ks ← try_move (0 <=? y - 1) (and_then (e (y - 1) x) (e (y - 1) (x + 1))) (x, y - 1) ks;
    ks ← try_move (x + 2 <? width b) (and_then (e y (x + 2)) (e (y + 1) (x + 2))) (x + 1, y) ks;
    try_move (y + 2 <? height b) (and_then (e (y + 2) x) (e (y + 2) (x + 1))) (x, y + 1) ks
  else if is_single piece then
    ks ← try_move (0 <=? x - 1) (e y (x - 1)) (x - 1, y) [];
    ks ← try_move (0 <=? y - 1) (e (y - 1) x) (x, y - 1) ks;
    ks ← try_move (x + 1 <? width b) (e y (x + 1)) (x + 1, y) ks;
    try_move (y + 1 <? height b) (e (y + 1) x) (x, y + 1) ks
  else if orientation_is piece "h" then
    ks ← try_move (0 <=? x - 1) (e y (x - 1)) (x - 1, y) [];
    ks ← try_move (0 <=? y - 1) (and_then (e (y - 1) x) (e (y - 1) (x + 1))) (x, y - 1) ks;
    ks ← try_move (x + 2 <? width b) (e y (x + 2)) (x + 1, y) ks;
    try_move (y + 1 <? height b) (and_then (e (y + 1) x) (e (y + 1) (x + 1))) (x, y + 1) ks
  else
    ks ← try_move (0 <=? x - 1) (and_then (e y (x - 1)) (e (y + 1) (x - 1))) (x - 1, y) [];
    ks ← try_move (0 <=? y - 1) (e (y - 1) x) (x, y - 1) ks;
    ks ← try_move (x + 1 <? width b) (and_then (e y (x + 1)) (e (y + 1) (x + 1))) (x + 1, y) ks;
    try_move (y + 2 <? height b) (e (y + 2) x) (x, y + 1) ks.

(** [goal_board_dict[uid]]: subscripting [None] is a [TypeError], a
    missing key a [KeyError]. *)
Definition goal_lookup (b : Board) (u : positive) : res Piece :=
  match goal_board_dict b with
  | None => Raise TypeError
  | Some d =>
      match d !! u with
      | Some g => Ok g
      | None => Raise KeyError
      end
  end.

Definition man_dist (x y : Z) (g : Piece) : Z :=
  Z.abs (x - coord_x g) + Z.abs (y - coord_y g).

(** The second half of the loop body: one successor per destination. *)
Definition successor (self : State) (piece : Piece) (new_states : list State)
    (new_key : Z * Z) : res (list State) :=
  let x := coord_x piece in
  let y := coord_y piece in
  goal_piece ← goal_lookup (board self) (uid piece);
  let old_man_dist := man_dist x y goal_piece in
  let new_man_dist := man_dist new_key.1 new_key.2 goal_piece in
  b ← copy_board (board self) new_key (x, y);
  Ok (new_states ++
      [mkState b (hfn self - old_man_dist + new_man_dist) (f self) (depth self + 1) (Some self)]).

Definition expand_piece (self : State) (new_states : list State) (piece : Piece)
    : res (list State) :=
  new_keys ← new_keys_of (board self) piece;
  for_each (successor self piece) new_keys new_states.

Definition generate_successors (self : State) : res (list State) :=
  for_each (expand_piece self) (dict_values (pieces (board self))) [].

(** ** The heuristic *)

Definition init_manhattan_distance (board goal_board : Board) : Z :=
  fold_left (fun total piece =>
    fold_left (fun total goal_piece =>
      if decide (uid piece = uid goal_piece) then
        total + (Z.abs (coord_x goal_piece - coord_x piece)
                 + Z.abs (coord_y goal_piece - coord_y piece))
      else total)
      (dict_values (pieces goal_board)) total)
    (dict_values (pieces board)) 0.

(** ** The loader *)

(** [float('inf')] is the only non-integer distance: [None] stands for it. *)
Definition lt_inf (d : Z) (min_dist : option Z) : bool :=
  match min_dist with
  | None => true
  | Some m => d <? m
  end.

Fixpoint find_min_loop (arr : list Piece) (x y : Z) (i min_i : nat) (min_dist : option Z) : nat :=
  match arr with
  | [] => min_i
  | piece :: arr' =>
      let new_dist := Z.abs (x - coord_x piece) + Z.abs (y - coord_y piece) in
      if lt_inf new_dist min_dist
      then find_min_loop arr' x y (S i) i (Some new_dist)
      else find_min_loop arr' x y (S i) min_i min_dist
  end.

Definition find_min_index (arr : list Piece) (x y : Z) : nat :=
  find_min_loop arr x y 0 0 None.

(** [l.pop(i)] for [0 <= i] *)
Definition list_pop {A : Type} (l : list A) (i : nat) : res (A * list A) :=
  match l !! i with
  | Some a => Ok (a, delete i l)
  | None => Raise IndexError
  end.

(** The local variables of [read_from_file], and the supply of fresh
    identities. *)
Record Loader : Type := mkLoader {
  ld_goal_board_dict : gmap positive Piece;
  ld_singles : list Piece;
  ld_vert : list Piece;
  ld_hori : list Piece;
  ld_double : option Piece;
  ld_line_index : Z;
  ld_pieces : dict (Z * Z) Piece;
  ld_final_pieces : dict (Z * Z) Piece;
  ld_final : bool;
  ld_found_2by2 : bool;
  ld_finalfound_2by2 : bool;
  ld_height : Z;
  ld_next_uid : positive
}.

Definition loader_init : Loader :=
  mkLoader ∅ [] [] [] None 0 [] [] false false false 0 1%positive.

(** One character of a line of the initial layout. *)
Definition initial_char (st : Loader) (x : Z) (ch : ascii) : Loader :=
  let '(mkLoader gd singles vert hori double li ps fps final found ffound h next) := st in
  if Ascii.eqb ch "^" then
    let piece := mkPiece false false x li (Some "v"%string) next in
    mkLoader gd singles (vert ++ [piece]) hori double li (dict_set (x, li) piece ps) fps
             final found ffound h (Pos.succ next)
  else if Ascii.eqb ch "<" then
    let piece := mkPiece false false x li (Some "h"%string) next in
    mkLoader gd singles vert (hori ++ [piece]) double li (dict_set (x, li) piece ps) fps
             final found ffound h (Pos.succ next)
  else if Ascii.eqb ch char_single then
    let piece := mkPiece false true x li None next in
    mkLoader gd (singles ++ [piece]) vert hori double li (dict_set (x, li) piece ps) fps
             final found ffound h (Pos.succ next)
  else if Ascii.eqb ch "1" then
    if found then st
    else
      let piece := mkPiece true false x li None next in
      mkLoader gd singles vert hori (Some piece) li (dict_set (x, li) piece ps) fps
               final true ffound h (Pos.succ next)
  else st.

(** One character of a line of the goal layout. *)
Definition goal_char (st : Loader) (x : Z) (ch : ascii) : res Loader :=
  let '(mkLoader gd singles vert hori double li ps fps final found ffound h next) := st in
  if Ascii.eqb ch "^" then
    '(m, vert') ← list_pop vert (find_min_index vert x li);
    let piece := mkPiece false false x li (Some "v"%string) (uid m) in
    Ok (mkLoader (<[uid m := piece]> gd) singles vert' hori double li ps
                 (dict_set (x, li) piece fps) final found ffound h next)
  else if Ascii.eqb ch "<" then
    '(m, hori') ← list_pop hori (find_min_index hori x li);
    let piece := mkPiece false false x li (Some "h"%string) (uid m) in
    Ok (mkLoader (<[uid m := piece]> gd) singles vert hori' double li ps
                 (dict_set (x, li) piece fps) final found ffound h next)
  else if Ascii.eqb ch char_single then
    '(m, singles') ← list_pop singles (find_min_index singles x li);
    let piece := mkPiece false true x li None (uid m) in
    Ok (mkLoader (<[uid m := piece]> gd) singles' vert hori double li ps
                 (dict_set (x, li) piece fps) final found ffound h next)
  else if Ascii.eqb ch "1" then
    if ffound then Ok st
    else
      match double with
      | None => Raise AttributeError
      | Some d =>
          let piece := mkPiece true false x li None (uid d) in
          Ok (mkLoader (<[uid d := piece]> gd) singles vert hori double li ps
                       (dict_set (x, li) piece fps) final found true h next)
      end
  else Ok st.

(** [for x, ch in enumerate(line)] *)
Fixpoint enumerate_from {A : Type} (x : Z) (l : list A) : list (Z * A) :=
  match l with
  | [] => []
  | a :: l' => (x, a) :: enumerate_from (x + 1) l'
  end.

Definition newline : string := String (ascii_of_nat 10) EmptyString.

Definition bump_height (st : Loader) : Loader :=
  let '(mkLoader gd singles vert hori double li ps fps final found ffound h next) := st in
  mkLoader gd singles vert hori double li ps fps final found ffound (h + 1) next.

Definition start_goal (st : Loader) : Loader :=
  let '(mkLoader gd singles vert hori double li ps fps final found ffound h next) := st in
  mkLoader gd singles vert hori double 0 ps fps true found ffound 0 next.

Definition next_line (st : Loader) : Loader :=
  let '(mkLoader gd singles vert hori double li ps fps final found ffound h next) := st in
  mkLoader gd singles vert hori double (li + 1) ps fps final found ffound h next.

(** The body of [for line in puzzle_file]. *)
Definition read_line (st : Loader) (line : string) : res Loader :=
  let st := bump_height st in
  if String.eqb line newline then
    Ok (if ld_final st then st else start_goal st)
  else
    let chars := enumerate_from 0 (list_ascii_of_string line) in
    st ← (if ld_final st
          then for_each (fun s xc => goal_char s xc.1 xc.2) chars st
          else Ok (fold_left (fun s xc => initial_char s xc.1 xc.2) chars st));
    Ok (next_line st).

(** [read_from_file], on the lines of the file (each with its line end,
    as the file iterator yields them). The model starts from the decoded
    lines: [open] and the decoding done by the file iterator, with the
    [OSError] and [UnicodeDecodeError] they can raise, are outside it. *)
Definition read_from_file (lines : list string) : res (Board * Board) :=
  st ← for_each read_line lines loader_init;
  board ← Board_init (ld_height st) (ld_pieces st) (Some (ld_goal_board_dict st));
  goal_board ← Board_init (ld_height st) (ld_final_pieces st) None;
  Ok (board, goal_board).

(** ** [heapq]

    The binary heap of Python's standard library, on a list: [heappush]
    appends and sifts the new item towards the root ([_siftdown]);
    [heappop] removes the last item, puts it at the root and lets it sink
    ([_siftup], which moves the smaller child up until a leaf is reached
    and then calls [_siftdown]). Items are compared with [<] only. *)

Section Heapq.
Context {A : Type} (lt : A -> A -> bool).

(** The [while] loop of [_siftdown]. The position decreases at every
    turn, so [pos] turns are enough; with none left [pos] is [0] and the
    loop is over. *)
Fixpoint siftdown_loop (fuel : nat) (heap : list A) (startpos pos : nat) (newitem : A) : list A :=
  match fuel with
  | O => <[pos := newitem]> heap
  | S fuel' =>
      if decide (startpos < pos)%nat then
        let parentpos := ((pos - 1) / 2)%nat in
        let parent := nth parentpos heap newitem in
        if lt newitem parent
        then siftdown_loop fuel' (<[pos := parent]> heap) startpos parentpos newitem
        else <[pos := newitem]> heap
      else <[pos := newitem]> heap
  end.

Definition siftdown (heap : list A) (startpos pos : nat) : list A :=
  match heap !! pos with
  | Some newitem => siftdown_loop pos heap startpos pos newitem
  | None => heap
  end.

(** The [while] loop of [_siftup]: returns the heap and the position of
    the hole. The position increases at every turn and stays below
    [endpos]. *)
Fixpoint siftup_loop (fuel : nat) (heap : list A) (endpos pos : nat) (newitem : A) : list A * nat :=
  match fuel with
  | O => (heap, pos)
  | S fuel' =>
      let childpos := (2 * pos + 1)%nat in
      if decide (childpos < endpos)%nat then
        let rightpos := (childpos + 1)%nat in
        let childpos :=
          if bool_decide (rightpos < endpos)%nat
             && negb (lt (nth childpos heap newitem) (nth rightpos heap newitem))
          then rightpos else childpos in
        siftup_loop fuel' (<[pos := nth childpos heap newitem]> heap) endpos childpos newitem
      else (heap, pos)
  end.

Definition siftup (heap : list A) (pos : nat) : list A :=
  match heap !! pos with
  | Some newitem =>
      let '(heap, pos') := siftup_loop (length heap) heap (length heap) pos newitem in
      siftdown (<[pos' := newitem]> heap) pos pos'
  | None => heap
  end.

Definition heappush (heap : list A) (item : A) : list A :=
  siftdown (heap ++ [item]) 0 (length heap).

(** [l.pop()] *)
Definition pop_last (l : list A) : res (A * list A) :=
  match reverse l with
  | [] => Raise IndexError
  | a :: r => Ok (a, reverse r)
  end.

Definition heappop (heap : list A) : res (A * list A) :=
  '(lastelt, heap) ← pop_last heap;
  match heap with
  | [] => Ok (lastelt, heap)
  | returnitem :: _ => Ok (returnitem, siftup (<[0%nat := lastelt]> heap) 0)
  end.
End Heapq.

(** The items of the frontier of [astar] are the tuples [(f, state)].
    Tuples compare lexicographically: the first components decide unless
    they are equal, then the states are compared, with [State.__lt__]. *)
Definition item : Type := Z * State.

Definition item_lt (a b : item) : bool :=
  if a.1 =? b.1 then State_lt a.2 b.2 else a.1 <? b.1.

(** ** The search loops *)

(** What one turn of a search loop does. *)
Inductive turn (F : Type) : Type :=
| Returned (curr : State)
| Discarded (frontier : F) (visited : gset string)
| Expanded (key : string) (frontier : F) (visited : gset string).
Arguments Returned {F} curr.
Arguments Discarded {F} frontier visited.
Arguments Expanded {F} key frontier visited.

(** The body of [while heap_lst:] in [astar]. *)
Definition astar_push (visited : gset string) (heap_lst : list item) (state : State) : list item :=
  if decide (Board_str (board state) ∈ visited) then heap_lst
  else
    let state := set_f state (depth state + hfn state) in
    heappush item_lt heap_lst (f state, state).

Definition astar_body (goal_board : Board) (heap_lst : list item) (visited : gset string)
    : res (turn (list item)) :=
  '(curr_item, heap_lst) ← heappop item_lt heap_lst;
  let curr := curr_item.2 in
  if decide (Board_str (board curr) ∈ visited) then Ok (Discarded heap_lst visited)
  else
    let visited := visited ∪ {[Board_str (board curr)]} in
    if Board_eq (board curr) (VBoard goal_board) then Ok (Returned curr)
    else
      successors ← generate_successors curr;
      Ok (Expanded (Board_str (board curr))
            (fold_left (astar_push visited) successors heap_lst) visited).

(** The body of [while stack:] in [dfs]. *)
Definition dfs_push (visited : gset string) (stack : list State) (state : State) : list State :=
  if decide (Board_str (board state) ∈ visited) then stack else stack ++ [state].

Definition dfs_body (goal_board : Board) (stack : list State) (visited : gset string)
    : res (turn (list State)) :=
  '(curr, stack) ← pop_last stack;
  if decide (Board_str (board curr) ∈ visited) then Ok (Discarded stack visited)
  else
    let visited := visited ∪ {[Board_str (board curr)]} in
    if Board_eq (board curr) (VBoard goal_board) then Ok (Returned curr)
    else
      successors ← generate_successors curr;
      Ok (Expanded (Board_str (board curr))
            (fold_left (dfs_push visited) successors stack) visited).

(** A [while frontier:] loop, run for at most [fuel] turns. [None]: the
    turns ran out; [Some (Ok None)]: the loop ended and the function
    returned [None]; [Some (Ok (Some s))]: it returned [s]. *)
Section Loop.
Context {F : Type} (is_empty : F -> bool) (body : F -> gset string -> res (turn F)).

Fixpoint search_loop (fuel : nat) (frontier : F) (visited : gset string)
    : option (res (option State)) :=
  match fuel with
  | O => None
  | S fuel' =>
      if is_empty frontier then Some (Ok None)
      else
        match body frontier visited with
        | Raise e => Some (Raise e)
        | Ok (Returned curr) => Some (Ok (Some curr))
        | Ok (Discarded frontier' visited') => search_loop fuel' frontier' visited'
        | Ok (Expanded _ frontier' visited') => search_loop fuel' frontier' visited'
        end
  end.

(** The grid strings for which successors were generated, in order. *)
Fixpoint search_trace (fuel : nat) (frontier : F) (visited : gset string) : list string :=
  match fuel with
  | O => []
  | S fuel' =>
      if is_empty frontier then []
      else
        match body frontier visited with
        | Ok (Discarded frontier' visited') => search_trace fuel' frontier' visited'
        | Ok (Expanded key frontier' visited') => key :: search_trace fuel' frontier' visited'
        | _ => []
        end
  end.
End Loop.

Definition list_is_empty {A : Type} (l : list A) : bool :=
  match l with [] => true | _ => false end.

Definition astar (fuel : nat) (initial : State) (goal_board : Board) : option (res (option State)) :=
  search_loop list_is_empty (astar_body goal_board) fuel
    (heappush item_lt [] (f initial, initial)) ∅.

Definition dfs (fuel : nat) (initial : State) (goal_board : Board) : option (res (option State)) :=
  search_loop list_is_empty (dfs_body goal_board) fuel [initial] ∅.

(** [output_solution] builds the root state of each strategy. *)
Definition dfs_root (b : Board) : State := mkState b 0 0 0 None.

Definition astar_root (b goal_board : Board) : State :=
  let man_dist := init_manhattan_distance b goal_board in
  mkState b man_dist man_dist 0 None.

(** ** Output *)

(** The chain of parents that [output_solution] walks from the state
    found: the state first, the root last. *)
Fixpoint path_to (state : State) : list State :=
  state :: match parent state with
           | Some p => path_to p
           | None => []
           end.

(** [grid_to_string] *)
Definition grid_to_string (grid : list (list ascii)) : string :=
  fold_left (fun string line =>
               fold_left (fun string ch => string +:+ String ch EmptyString) line string
               +:+ newline) grid ""%string.

(** [Board.display], as the text it appends to the standard output:
    [print(ch, end='')] writes [ch] and [print()] ends the line. *)
Definition display (b : Board) (out : string) : string :=
  fold_left (fun out line =>
               fold_left (fun out ch => out +:+ String ch EmptyString) line out +:+ newline)
            (grid b) out.

(** The second half of [output_solution]: what is written to the output
    file for the result of the search. *)
Definition write_solution (state : option State) : string :=
  match state with
  | Some s =>
      let states := reverse (path_to s) in
      fold_left (fun out st => display (board st) out +:+ newline) states ""%string
  | None => "No solution" +:+ newline
  end.

(** [output_solution]: the text of the output file, when the search
    ends within [fuel] turns. *)
Definition output_solution (fuel : nat) (board goal_board : Board) (algo : string)
    : option (res string) :=
  let found :=
    if String.eqb algo "dfs" then dfs fuel (dfs_root board) goal_board
    else astar fuel (astar_root board goal_board) goal_board in
  match found with
  | None => None
  | Some (Raise e) => Some (Raise e)
  | Some (Ok state) => Some (Ok (write_solution state))
  end.

(** * Properties *)

(** ** The error monad and Python indexing *)

Lemma bind_Ok {A B : Type} (m : res A) (k : A -> res B) (b : B) :
  m ≫= k = Ok b <-> exists a, m = Ok a /\ k a = Ok b.
Proof.
  destruct m as [a|e]; simpl; split.
  - intros H. exists a. auto.
  - intros (a' & [= <-] & H). exact H.
  - discriminate.
  - intros (a' & [=] & _).
Qed.

Lemma for_each_app {A S : Type} (body : S -> A -> res S) (xs ys : list A) (s : S) :
  for_each body (xs ++ ys) s = for_each body xs s ≫= for_each body ys.
Proof.
  revert s. induction xs as [|x xs IH]; intros s; simpl; [reflexivity|].
  destruct (body s x) as [s'|e]; simpl; [apply IH | reflexivity].
Qed.

(** A loop whose body keeps an invariant and cannot raise under it runs
    to its end and keeps the invariant. *)
Lemma for_each_invariant {A S : Type} (I : S -> Prop) (P : A -> Prop)
    (body : S -> A -> res S) (xs : list A) (s : S) :
  (forall s x, I s -> P x -> exists s', body s x = Ok s' /\ I s') ->
  I s -> Forall P xs ->
  exists s', for_each body xs s = Ok s' /\ I s'.
Proof.
  intros Hbody. revert s. induction xs as [|x xs IH]; intros s Hs Hxs; simpl.
  - exists s. auto.
  - inversion Hxs as [|? ? Hx Hxs']; subst.
    destruct (Hbody s x Hs Hx) as (s' & -> & Hs'). simpl. apply IH; assumption.
Qed.

(** If the loop ends, every turn kept the invariant. *)
Lemma for_each_preserves {A S : Type} (I : S -> Prop) (P : A -> Prop)
    (body : S -> A -> res S) (xs : list A) (s s' : S) :
  (forall s x s', I s -> P x -> body s x = Ok s' -> I s') ->
  I s -> Forall P xs -> for_each body xs s = Ok s' -> I s'.
Proof.
  intros Hbody. revert s. induction xs as [|x xs IH]; intros s Hs Hxs; simpl.
  - intros [= <-]. exact Hs.
  - inversion Hxs as [|? ? Hx Hxs']; subst.
    destruct (body s x) as [s1|e] eqn:E; simpl; [|discriminate].
    apply IH; [eapply Hbody; eassumption | assumption].
Qed.

Lemma py_index_nonneg (len : nat) (i : Z) :
  0 <= i ->
  py_index len i = if bool_decide (i < Z.of_nat len) then Ok (Z.to_nat i) else Raise IndexError.
Proof.
  intros Hi. unfold py_index.
  destruct (Z.leb_spec 0 i); [|lia].
  destruct (Z.ltb_spec i (Z.of_nat len)); simpl.
  - rewrite bool_decide_eq_true_2 by assumption. reflexivity.
  - rewrite bool_decide_eq_false_2 by lia.
    destruct (Z.ltb_spec i 0); [lia|]. rewrite andb_false_r. reflexivity.
Qed.

Lemma py_getitem_nonneg {A : Type} (l : list A) (i : Z) :
  0 <= i ->
  py_getitem l i = match l !! Z.to_nat i with Some a => Ok a | None => Raise IndexError end.
Proof.
  intros Hi. unfold py_getitem. rewrite py_index_nonneg by assumption.
  case_bool_decide as Hlt; simpl; [reflexivity|].
  rewrite lookup_ge_None_2 by lia. reflexivity.
Qed.

Lemma py_setitem_nonneg {A : Type} (l : list A) (i : Z) (a : A) :
  0 <= i ->
  py_setitem l i a =
    if bool_decide (i < Z.of_nat (length l)) then Ok (<[Z.to_nat i := a]> l) else Raise IndexError.
Proof.
  intros Hi. unfold py_setitem. rewrite py_index_nonneg by assumption.
  case_bool_decide; reflexivity.
Qed.

(** ** Cells of a grid *)

(** The symbol at column [c.1] and row [c.2], when the cell exists. *)
Definition cell (g : Grid) (c : Z * Z) : option ascii :=
  if bool_decide (0 <= c.1 /\ 0 <= c.2)
  then row ← g !! Z.to_nat c.2; row !! Z.to_nat c.1
  else None.

Definition in_grid (w h : Z) (c : Z * Z) : Prop :=
  0 <= c.1 < w /\ 0 <= c.2 < h.

#[global] Instance in_grid_dec w h c : Decision (in_grid w h c).
Proof. unfold in_grid. apply _. Defined.

Definition grid_dims (w h : Z) (g : Grid) : Prop :=
  length g = Z.to_nat h /\ Forall (fun row => length row = Z.to_nat w) g.

(** Writing one symbol, as a pure update. *)
Definition paint (g : Grid) (wr : (Z * Z) * ascii) : Grid :=
  alter (fun row => <[Z.to_nat wr.1.1 := wr.2]> row) (Z.to_nat wr.1.2) g.

Lemma grid_dims_blank (w h : Z) : grid_dims w h (blank_grid w h).
Proof.
  unfold grid_dims, blank_grid. split.
  - apply length_replicate.
  - apply Forall_replicate. apply length_replicate.
Qed.

Lemma grid_dims_paint (w h : Z) (g : Grid) wr :
  grid_dims w h g -> grid_dims w h (paint g wr).
Proof.
  intros [Hl Hr]. unfold paint. split.
  - rewrite length_alter. exact Hl.
  - rewrite Forall_lookup in Hr |- *. intros i row Hrow.
    destruct (decide (i = Z.to_nat wr.1.2)) as [->|Hne].
    + rewrite list_lookup_alter_eq in Hrow.
      destruct (g !! Z.to_nat wr.1.2) as [r|] eqn:E; simplify_eq/=.
      rewrite length_insert. eapply Hr; eassumption.
    + rewrite list_lookup_alter_ne in Hrow by congruence. eapply Hr; eassumption.
Qed.

Lemma grid_dims_row (w h : Z) (g : Grid) (y : Z) :
  grid_dims w h g -> 0 <= y < h ->
  exists row, g !! Z.to_nat y = Some row /\ length row = Z.to_nat w.
Proof.
  intros [Hl Hr] Hy.
  destruct (lookup_lt_is_Some_2 g (Z.to_nat y)) as [row Hrow]; [lia|].
  exists row. split; [assumption|].
  rewrite Forall_lookup in Hr. eapply Hr; eassumption.
Qed.

Lemma cell_in_grid (w h : Z) (g : Grid) (c : Z * Z) :
  grid_dims w h g -> in_grid w h c -> is_Some (cell g c).
Proof.
  intros Hd [Hx Hy]. unfold cell.
  rewrite bool_decide_eq_true_2 by lia.
  destruct (grid_dims_row w h g c.2 Hd Hy) as (row & -> & Hlen). simpl.
  apply lookup_lt_is_Some_2. lia.
Qed.

Lemma cell_Some_in_grid (w h : Z) (g : Grid) (c : Z * Z) (a : ascii) :
  grid_dims w h g -> cell g c = Some a -> in_grid w h c.
Proof.
  intros [Hl Hr] Hc. unfold cell in Hc.
  case_bool_decide as Hnn; [|discriminate].
  destruct (g !! Z.to_nat c.2) as [row|] eqn:E; simpl in Hc; [|discriminate].
  pose proof (lookup_lt_Some _ _ _ E) as Hy.
  pose proof (lookup_lt_Some _ _ _ Hc) as Hx.
  rewrite Forall_lookup in Hr. rewrite (Hr _ _ E) in Hx.
  unfold in_grid. lia.
Qed.

(** Reading a cell with non-negative coordinates. *)
Lemma grid_get_cell (g : Grid) (y x : Z) :
  0 <= x -> 0 <= y ->
  grid_get g y x = match cell g (x, y) with Some a => Ok a | None => Raise IndexError end.
Proof.
  intros Hx Hy. unfold grid_get, cell. simpl.
  rewrite bool_decide_eq_true_2 by lia.
  rewrite py_getitem_nonneg by assumption.
  destruct (g !! Z.to_nat y) as [row|]; simpl; [|reflexivity].
  apply py_getitem_nonneg. assumption.
Qed.

(** Writing a cell with non-negative coordinates: inside the grid it is
    [paint], outside it raises. *)
Lemma grid_set_paint (w h : Z) (g : Grid) (y x : Z) (a : ascii) :
  grid_dims w h g -> 0 <= x -> 0 <= y ->
  grid_set g y x a =
    if bool_decide (in_grid w h (x, y)) then Ok (paint g ((x, y), a)) else Raise IndexError.
Proof.
  intros Hd Hx Hy. unfold grid_set.
  rewrite py_getitem_nonneg by assumption.
  destruct (decide (y < h)) as [Hyh|Hyh].
  - destruct (grid_dims_row w h g y Hd (conj Hy Hyh)) as (row & Hrow & Hlen).
    rewrite Hrow. simpl. rewrite py_setitem_nonneg by assumption.
    destruct (decide (x < w)) as [Hxw|Hxw].
    + rewrite bool_decide_eq_true_2 by lia. simpl.
      rewrite py_setitem_nonneg by assumption.
      rewrite bool_decide_eq_true_2 by (destruct Hd; lia).
      rewrite bool_decide_eq_true_2 by (unfold in_grid; simpl; lia).
      f_equal. unfold paint. simpl.
      apply list_eq. intros i.
      destruct (decide (i = Z.to_nat y)) as [->|Hne].
      * rewrite list_lookup_insert_eq by (destruct Hd; lia).
        rewrite list_lookup_alter_eq, Hrow. reflexivity.
      * rewrite list_lookup_insert_ne by congruence.
        rewrite list_lookup_alter_ne by congruence. reflexivity.
    + rewrite bool_decide_eq_false_2 by lia. simpl.
      rewrite bool_decide_eq_false_2 by (unfold in_grid; simpl; lia). reflexivity.
  - rewrite lookup_ge_None_2 by (destruct Hd; lia). simpl.
    rewrite bool_decide_eq_false_2 by (unfold in_grid; simpl; lia). reflexivity.
Qed.

Lemma cell_paint (w h : Z) (g : Grid) (c c' : Z * Z) (a : ascii) :
  grid_dims w h g -> in_grid w h c -> in_grid w h c' ->
  cell (paint g (c, a)) c' = if decide (c = c') then Some a else cell g c'.
Proof.
  intros Hd [Hx Hy] [Hx' Hy']. unfold cell, paint. simpl.
  rewrite bool_decide_eq_true_2 by lia.
  destruct (grid_dims_row w h g c'.2 Hd Hy') as (row & Hrow & Hlen).
  destruct c as [x y], c' as [x' y']; simpl in *.
  destruct (decide (y = y')) as [->|Hney].
  - rewrite list_lookup_alter_eq, Hrow. simpl.
    destruct (decide (x = x')) as [->|Hnex].
    + rewrite list_lookup_insert_eq by lia.
      rewrite decide_True by reflexivity. reflexivity.
    + rewrite list_lookup_insert_ne by lia.
      rewrite decide_False by congruence. reflexivity.
  - rewrite list_lookup_alter_ne by lia. rewrite Hrow. simpl.
    rewrite decide_False by congruence. reflexivity.
Qed.

(** ** Footprints and the derived grid *)

(** The cells [update_grid] writes for one piece, with their symbols, in
    the order of the assignments. *)
Definition writes (p : Piece) : list ((Z * Z) * ascii) :=
  let x := coord_x p in
  let y := coord_y p in
  if is_2_by_2 p then
    [((x, y), "1"%char); ((x + 1, y), "1"%char); ((x, y + 1), "1"%char); ((x + 1, y + 1), "1"%char)]
  else if is_single p then [((x, y), char_single)]
  else if orientation_is p "h" then [((x, y), "<"%char); ((x + 1, y), ">"%char)]
  else if orientation_is p "v" then [((x, y), "^"%char); ((x, y + 1), "v"%char)]
  else [].

Definition footprint (p : Piece) : list (Z * Z) := (writes p).*1.

Definition write_all (g : Grid) (ws : list ((Z * Z) * ascii)) : res Grid :=
  for_each (fun g wr => grid_set g wr.1.2 wr.1.1 wr.2) ws g.

(** The symbol of the last write to [c], or [init] when there is none. *)
Definition last_write (ws : list ((Z * Z) * ascii)) (c : Z * Z) (init : option ascii) : option ascii :=
  fold_left (fun acc wr => if decide (wr.1 = c) then Some wr.2 else acc) ws init.

Definition nonneg (p : Piece) : Prop := 0 <= coord_x p /\ 0 <= coord_y p.

Lemma bind_Ok_r {A : Type} (m : res A) : m ≫= Ok = m.
Proof. destruct m; reflexivity. Qed.

Lemma stamp_write_all (g : Grid) (p : Piece) : stamp g p = write_all g (writes p).
Proof.
  unfold stamp, writes, write_all.
  destruct (is_2_by_2 p); [|destruct (is_single p); [|destruct (orientation_is p "h");
    [|destruct (orientation_is p "v")]]]; simpl;
  repeat match goal with
  | |- context [grid_set ?g ?y ?x ?c] =>
      lazymatch g with
      | context [grid_set] => fail
      | _ => destruct (grid_set g y x c); simpl; try reflexivity
      end
  end; reflexivity.
Qed.

Lemma for_each_stamp (ps : list Piece) (g : Grid) :
  for_each stamp ps g = write_all g (ps ≫= writes).
Proof.
  revert g. induction ps as [|p ps IH]; intros g; [reflexivity|].
  rewrite bind_cons. unfold write_all in *. rewrite for_each_app.
  cbn [for_each]. rewrite stamp_write_all. unfold write_all.
  destruct (for_each _ (writes p) g); cbn [mbind res_bind]; [apply IH | reflexivity].
Qed.

Lemma writes_nonneg (p : Piece) :
  nonneg p -> Forall (fun wr : Z * Z * ascii => 0 <= wr.1.1 /\ 0 <= wr.1.2) (writes p).
Proof.
  intros [Hx Hy]. unfold writes.
  repeat case_match; repeat constructor; simpl; lia.
Qed.

Lemma write_all_paint (w h : Z) (ws : list ((Z * Z) * ascii)) (g : Grid) :
  grid_dims w h g ->
  Forall (fun wr : Z * Z * ascii => 0 <= wr.1.1 /\ 0 <= wr.1.2) ws ->
  write_all g ws =
    if bool_decide (Forall (in_grid w h) ws.*1) then Ok (fold_left paint ws g)
    else Raise IndexError.
Proof.
  revert g. induction ws as [|[[x y] a] ws IH]; intros g Hd Hnn.
  - rewrite bool_decide_eq_true_2 by constructor. reflexivity.
  - inversion Hnn as [|? ? [Hx Hy] Hnn']; subst. cbn [fst snd] in Hx, Hy.
    unfold write_all in *. cbn [for_each fst snd].
    rewrite (grid_set_paint w h) by assumption.
    rewrite fmap_cons. cbn [fst fold_left].
    destruct (decide (in_grid w h (x, y))) as [Hin|Hin].
    + rewrite (bool_decide_eq_true_2 _ Hin). cbn [mbind res_bind].
      rewrite IH by (auto using grid_dims_paint).
      destruct (decide (Forall (in_grid w h) ws.*1)) as [Hall|Hall].
      * rewrite (bool_decide_eq_true_2 _ Hall).
        rewrite bool_decide_eq_true_2 by (constructor; assumption). reflexivity.
      * rewrite (bool_decide_eq_false_2 _ Hall).
        rewrite bool_decide_eq_false_2; [reflexivity|].
        intros Hc. inversion Hc; subst. contradiction.
    + rewrite (bool_decide_eq_false_2 _ Hin). cbn [mbind res_bind].
      rewrite bool_decide_eq_false_2; [reflexivity|].
      intros Hc. inversion Hc; subst. contradiction.
Qed.

Lemma grid_dims_fold_paint (w h : Z) (ws : list ((Z * Z) * ascii)) (g : Grid) :
  grid_dims w h g -> grid_dims w h (fold_left paint ws g).
Proof.
  revert g. induction ws as [|wr ws IH]; intros g Hd; simpl; [assumption|].
  apply IH, grid_dims_paint, Hd.
Qed.

Lemma cell_fold_paint (w h : Z) (ws : list ((Z * Z) * ascii)) (g : Grid) (c : Z * Z) :
  grid_dims w h g -> Forall (in_grid w h) ws.*1 -> in_grid w h c ->
  cell (fold_left paint ws g) c = last_write ws c (cell g c).
Proof.
  revert g. induction ws as [|[c0 a] ws IH]; intros g Hd Hin Hc; simpl; [reflexivity|].
  inversion Hin as [|? ? Hc0 Hin']; subst. simpl in Hc0.
  unfold last_write. simpl.
  rewrite IH by (auto using grid_dims_paint).
  rewrite (cell_paint w h) by assumption. reflexivity.
Qed.

Lemma cell_blank (w h : Z) (c : Z * Z) :
  in_grid w h c -> cell (blank_grid w h) c = Some "."%char.
Proof.
  intros [Hx Hy]. unfold cell, blank_grid.
  rewrite bool_decide_eq_true_2 by lia.
  rewrite lookup_replicate_2 by lia. simpl.
  apply lookup_replicate_2. lia.
Qed.

(** Every symbol a piece writes differs from the empty symbol. *)
Lemma writes_not_empty (p : Piece) : Forall (fun wr : Z * Z * ascii => wr.2 <> "."%char) (writes p).
Proof.
  unfold writes. repeat case_match; repeat constructor; simpl; discriminate.
Qed.

Lemma last_write_empty (ws : list ((Z * Z) * ascii)) (c : Z * Z) :
  Forall (fun wr : Z * Z * ascii => wr.2 <> "."%char) ws ->
  last_write ws c (Some "."%char) = Some "."%char <-> c ∉ ws.*1.
Proof.
  intros Hne. unfold last_write.
  induction ws as [|[c0 a] ws IH] using rev_ind.
  - simpl. split; [intros _; apply not_elem_of_nil | reflexivity].
  - rewrite fold_left_app, fmap_app. simpl.
    apply Forall_app in Hne as [Hne Hlast].
    inversion Hlast as [|? ? Ha _]; subst. simpl in Ha.
    rewrite not_elem_of_app, list_elem_of_singleton.
    destruct (decide (c0 = c)) as [->|Hc].
    + split; [intros [= ->]; contradiction | intros [_ H]; contradiction].
    + rewrite IH by assumption. split; [intros H; split; [assumption|congruence] | tauto].
Qed.

Lemma last_write_mono (ws : list ((Z * Z) * ascii)) (c : Z * Z) (a : ascii) :
  Forall (fun wr : Z * Z * ascii => wr.2 <> "."%char) ws -> a <> "."%char ->
  last_write ws c (Some a) <> Some "."%char.
Proof.
  intros Hne Ha. unfold last_write. revert a Ha.
  induction ws as [|[c0 a0] ws IH]; intros a Ha; simpl; [congruence|].
  inversion Hne as [|? ? Ha0 Hne']; subst. simpl in Ha0.
  destruct (decide (c0 = c)); auto.
Qed.

Definition all_writes (ps : dict (Z * Z) Piece) : list ((Z * Z) * ascii) :=
  dict_values ps ≫= writes.

(** The cells covered by some piece. *)
Definition occupied (ps : dict (Z * Z) Piece) : list (Z * Z) :=
  dict_values ps ≫= footprint.

Lemma occupied_all_writes (ps : dict (Z * Z) Piece) : (all_writes ps).*1 = occupied ps.
Proof.
  unfold all_writes, occupied, footprint.
  induction (dict_values ps) as [|p l IH]; [reflexivity|].
  rewrite !bind_cons, fmap_app, IH. reflexivity.
Qed.

Lemma all_writes_not_empty (ps : dict (Z * Z) Piece) :
  Forall (fun wr : Z * Z * ascii => wr.2 <> "."%char) (all_writes ps).
Proof.
  unfold all_writes. apply Forall_bind, Forall_forall.
  intros p _. apply writes_not_empty.
Qed.

Lemma all_writes_nonneg (ps : dict (Z * Z) Piece) :
  Forall nonneg (dict_values ps) ->
  Forall (fun wr : Z * Z * ascii => 0 <= wr.1.1 /\ 0 <= wr.1.2) (all_writes ps).
Proof.
  intros Hnn. unfold all_writes. apply Forall_bind.
  eapply Forall_impl; [exact Hnn|]. intros p Hp. apply writes_nonneg, Hp.
Qed.

(** [update_grid] on pieces with non-negative coordinates: it succeeds
    exactly when every footprint lies in the grid, whether or not the
    footprints overlap, and then it is the sequence of all writes. *)
Lemma derive_grid_paint (w h : Z) (ps : dict (Z * Z) Piece) :
  Forall nonneg (dict_values ps) ->
  derive_grid w h ps =
    if bool_decide (Forall (in_grid w h) (occupied ps))
    then Ok (fold_left paint (all_writes ps) (blank_grid w h))
    else Raise IndexError.
Proof.
  intros Hnn. unfold derive_grid. rewrite for_each_stamp.
  fold (all_writes ps).
  rewrite (write_all_paint w h); [|apply grid_dims_blank|apply all_writes_nonneg, Hnn].
  rewrite occupied_all_writes. reflexivity.
Qed.

Lemma derive_grid_Ok (w h : Z) (ps : dict (Z * Z) Piece) (g : Grid) :
  Forall nonneg (dict_values ps) ->
  derive_grid w h ps = Ok g ->
  Forall (in_grid w h) (occupied ps) /\ grid_dims w h g /\
  forall c, in_grid w h c -> cell g c = last_write (all_writes ps) c (Some "."%char).
Proof.
  intros Hnn Hg. rewrite derive_grid_paint in Hg by assumption.
  case_bool_decide as Hin; [|discriminate]. injection Hg as <-.
  split; [assumption|]. split; [apply grid_dims_fold_paint, grid_dims_blank|].
  intros c Hc.
  rewrite (cell_fold_paint w h)
    by (rewrite ?occupied_all_writes; auto using grid_dims_blank).
  rewrite cell_blank by assumption. reflexivity.
Qed.

(** A cell of a derived grid is empty exactly when no piece covers it. *)
Lemma derive_grid_empty (w h : Z) (ps : dict (Z * Z) Piece) (g : Grid) (c : Z * Z) :
  Forall nonneg (dict_values ps) ->
  derive_grid w h ps = Ok g ->
  cell g c = Some "."%char <-> in_grid w h c /\ c ∉ occupied ps.
Proof.
  intros Hnn Hg. destruct (derive_grid_Ok w h ps g Hnn Hg) as (Hin & Hd & Hcell).
  split.
  - intros Hc. pose proof (cell_Some_in_grid w h g c _ Hd Hc) as Hcg.
    split; [assumption|].
    rewrite Hcell in Hc by assumption.
    rewrite <- occupied_all_writes.
    apply last_write_empty in Hc; [assumption | apply all_writes_not_empty].
  - intros [Hcg Hno]. rewrite Hcell by assumption.
    apply last_write_empty; [apply all_writes_not_empty|].
    rewrite occupied_all_writes. assumption.
Qed.

(** ** Grid derivation ([update_grid]) *)

(** Two distinct entries of the mapping cover a common cell. *)
Definition footprints_overlap (ps : dict (Z * Z) Piece) : Prop :=
  exists (i j : nat) (p q : Piece) (c : Z * Z),
    i <> j /\ dict_values ps !! i = Some p /\ dict_values ps !! j = Some q /\
    c ∈ footprint p /\ c ∈ footprint q.

(** A 2x2 block at (0,0) and a single at (1,1), on two rows. *)
Definition overlapping_board : Board :=
  {| width := 4; height := 2;
     pieces := [((0, 0), mkPiece true false 0 0 None 1);
                ((1, 1), mkPiece false true 1 1 None 2)];
     goal_board_dict := None; grid := [] |}.

(** C7, as stated, fails: the footprints of the two pieces of
    [overlapping_board] share the cell (1,1), and [update_grid] returns a
    grid, in which the single has overwritten the block's cell. *)
Lemma update_grid_overlap_returns :
  footprints_overlap (pieces overlapping_board) /\
  update_grid overlapping_board =
    Ok (with_grid overlapping_board
          [["1"; "1"; "."; "."]; ["1"; "2"; "."; "."]]%char).
Proof.
  split; [|reflexivity].
  exists 0%nat, 1%nat, (mkPiece true false 0 0 None 1), (mkPiece false true 1 1 None 2), (1, 1).
  repeat split; [discriminate | |]; unfold footprint; simpl; set_solver.
Qed.

(** C7, amended: [update_grid] stamps the footprint of each piece, in the
    order of the mapping, onto a blank [width] x [height] grid of empty
    symbols (four ['1'] for the block, one ['2'] for a single, ['<'] ['>']
    for a horizontal piece, ['^'] ['v'] for a vertical one). With
    non-negative coordinates it returns a grid exactly when every
    footprint cell lies inside the grid, and raises [IndexError]
    otherwise. Overlap is not detected: every cell holds the symbol of
    the last write to it, so a later piece overwrites an earlier one. *)
Theorem update_grid_stamps (b : Board) :
  Forall nonneg (dict_values (pieces b)) ->
  (Forall (in_grid (width b) (height b)) (occupied (pieces b)) ->
   exists g, update_grid b = Ok (with_grid b g) /\
     grid_dims (width b) (height b) g /\
     forall c, in_grid (width b) (height b) c ->
       cell g c = last_write (all_writes (pieces b)) c (Some char_empty)) /\
  (~ Forall (in_grid (width b) (height b)) (occupied (pieces b)) ->
   update_grid b = Raise IndexError).
Proof.
  intros Hnn. unfold update_grid.
  rewrite derive_grid_paint by assumption. split; intros Hin.
  - rewrite bool_decide_eq_true_2 by assumption. cbn [mbind res_bind].
    eexists. split; [reflexivity|].
    assert (Hg : derive_grid (width b) (height b) (pieces b)
                 = Ok (fold_left paint (all_writes (pieces b)) (blank_grid (width b) (height b)))).
    { rewrite derive_grid_paint by assumption.
      rewrite bool_decide_eq_true_2 by assumption. reflexivity. }
    destruct (derive_grid_Ok _ _ _ _ Hnn Hg) as (_ & Hd & Hcell). auto.
  - rewrite bool_decide_eq_false_2 by assumption. reflexivity.
Qed.

Lemma update_grid_stamps_witness :
  exists g, update_grid overlapping_board = Ok (with_grid overlapping_board g) /\
    cell g (1, 1) = Some char_single /\ cell g (0, 0) = Some "1"%char /\
    cell g (3, 1) = Some char_empty.
Proof.
  assert (Hnn : Forall nonneg (dict_values (pieces overlapping_board))).
  { repeat constructor; simpl; lia. }
  assert (Hin : Forall (in_grid (width overlapping_board) (height overlapping_board))
                  (occupied (pieces overlapping_board))).
  { repeat constructor; simpl; lia. }
  destruct (update_grid_stamps overlapping_board Hnn) as [Hok _].
  destruct (Hok Hin) as (g & Hg & _ & Hcell).
  exists g. split; [exact Hg|].
  rewrite !Hcell by (split; simpl; lia).
  repeat split; reflexivity.
Defined.

(** ** Board equality ([Board.__eq__]) *)

Lemma row_eqb_eq (r1 r2 : list ascii) : row_eqb r1 r2 = true <-> r1 = r2.
Proof.
  revert r2. induction r1 as [|c1 r1 IH]; intros [|c2 r2]; simpl; try easy.
  rewrite andb_true_iff, Ascii.eqb_eq, IH. split.
  - intros [-> ->]. reflexivity.
  - intros [= -> ->]. auto.
Qed.

Lemma grid_eqb_eq (g1 g2 : Grid) : grid_eqb g1 g2 = true <-> g1 = g2.
Proof.
  revert g2. induction g1 as [|r1 g1 IH]; intros [|r2 g2]; simpl; try easy.
  rewrite andb_true_iff, row_eqb_eq, IH. split.
  - intros [-> ->]. reflexivity.
  - intros [= -> ->]. auto.
Qed.

(** Two layouts with the same pattern, the two singles exchanged. *)
Definition twin_left : Board :=
  {| width := 4; height := 1;
     pieces := [((0, 0), mkPiece false true 0 0 None 1);
                ((2, 0), mkPiece false true 2 0 None 2)];
     goal_board_dict := None;
     grid := [["2"; "."; "2"; "."]]%char |}.

Definition twin_right : Board :=
  {| width := 4; height := 1;
     pieces := [((0, 0), mkPiece false true 0 0 None 2);
                ((2, 0), mkPiece false true 2 0 None 1)];
     goal_board_dict := None;
     grid := [["2"; "."; "2"; "."]]%char |}.

(** C5: a board equals another board exactly when their grids are equal,
    whatever the identities of the pieces in the cells, and it equals no
    value that is not a board. *)
Theorem Board_eq_is_grid_equality (self : Board) (other : pyval) :
  match other with
  | VBoard o => Board_eq self other = true <-> grid self = grid o
  | _ => Board_eq self other = false
  end.
Proof.
  destruct other as [o| | |]; simpl; try reflexivity.
  apply grid_eqb_eq.
Qed.

Lemma Board_eq_is_grid_equality_witness :
  Board_init 1 (pieces twin_left) None = Ok twin_left /\
  Board_init 1 (pieces twin_right) None = Ok twin_right /\
  uid <$> dict_values (pieces twin_left) <> uid <$> dict_values (pieces twin_right) /\
  Board_eq twin_left (VBoard twin_right) = true /\
  Board_eq twin_left VNone = false.
Proof.
  split; [reflexivity|]. split; [reflexivity|]. split; [discriminate|]. split.
  - apply (Board_eq_is_grid_equality twin_left (VBoard twin_right)). reflexivity.
  - exact (Board_eq_is_grid_equality twin_left VNone).
Defined.

(** ** The move generator *)

Inductive shape : Type := Block | Single | Horizontal | Vertical.

Inductive direction : Type := Leftward | Upward | Rightward | Downward.

(** The shape of a piece, read off its flags as [update_grid] does. *)
Definition shape_of (p : Piece) : option shape :=
  if is_2_by_2 p then Some Block
  else if is_single p then Some Single
  else if orientation_is p "h" then Some Horizontal
  else if orientation_is p "v" then Some Vertical
  else None.

Definition shape_cells (s : shape) (c : Z * Z) : list (Z * Z) :=
  let '(x, y) := c in
  match s with
  | Block => [(x, y); (x + 1, y); (x, y + 1); (x + 1, y + 1)]
  | Single => [(x, y)]
  | Horizontal => [(x, y); (x + 1, y)]
  | Vertical => [(x, y); (x, y + 1)]
  end.

(** The top-left cell after a slide by one cell. *)
Definition shift (d : direction) (c : Z * Z) : Z * Z :=
  let '(x, y) := c in
  match d with
  | Leftward => (x - 1, y)
  | Upward => (x, y - 1)
  | Rightward => (x + 1, y)
  | Downward => (x, y + 1)
  end.

(** The cells a piece at [(x, y)] enters when it slides: both cells of the
    leading edge of a block; the adjacent cell of a single; for a
    horizontal piece the one cell beside it (left, right) or the two cells
    of the destination row (up, down); for a vertical piece the same with
    rows and columns exchanged. *)
Definition leading_edge (s : shape) (c : Z * Z) (d : direction) : list (Z * Z) :=
  let '(x, y) := c in
  match s, d with
  | Block, Leftward => [(x - 1, y); (x - 1, y + 1)]
  | Block, Upward => [(x, y - 1); (x + 1, y - 1)]
  | Block, Rightward => [(x + 2, y); (x + 2, y + 1)]
  | Block, Downward => [(x, y + 2); (x + 1, y + 2)]
  | Single, _ => [shift d (x, y)]
  | Horizontal, Leftward => [(x - 1, y)]
  | Horizontal, Upward => [(x, y - 1); (x + 1, y - 1)]
  | Horizontal, Rightward => [(x + 2, y)]
  | Horizontal, Downward => [(x, y + 1); (x + 1, y + 1)]
  | Vertical, Leftward => [(x - 1, y); (x - 1, y + 1)]
  | Vertical, Upward => [(x, y - 1)]
  | Vertical, Rightward => [(x + 1, y); (x + 1, y + 1)]
  | Vertical, Downward => [(x, y + 2)]
  end.

Definition position (p : Piece) : Z * Z := (coord_x p, coord_y p).

Definition is_empty_cell (b : Board) (c : Z * Z) : Prop :=
  cell (grid b) c = Some char_empty.

(** A slide is legal when the footprint at the destination lies in the
    board and every cell of the leading edge is empty. *)
Definition legal_move (b : Board) (p : Piece) (d : direction) : Prop :=
  match shape_of p with
  | Some s =>
      Forall (in_grid (width b) (height b)) (shape_cells s (shift d (position p))) /\
      Forall (is_empty_cell b) (leading_edge s (position p) d)
  | None => False
  end.

#[global] Instance is_empty_cell_dec b c : Decision (is_empty_cell b c).
Proof. unfold is_empty_cell. apply _. Defined.

#[global] Instance legal_move_dec b p d : Decision (legal_move b p d).
Proof. unfold legal_move. destruct (shape_of p); apply _. Defined.

(** The legal destinations, in the order left, up, right, down. *)
Definition legal_destinations (b : Board) (p : Piece) : list (Z * Z) :=
  (fun d => shift d (position p)) <$>
    filter (legal_move b p) [Leftward; Upward; Rightward; Downward].

Lemma footprint_shape (p : Piece) (s : shape) :
  shape_of p = Some s -> footprint p = shape_cells s (position p).
Proof.
  unfold shape_of, footprint, writes, position.
  repeat case_match; intros [= <-]; reflexivity.
Qed.

Lemma footprint_no_shape (p : Piece) : shape_of p = None -> footprint p = [].
Proof.
  unfold shape_of, footprint, writes. repeat case_match; intros [=]; reflexivity.
Qed.

Lemma cell_empty_in (b : Board) (x y : Z) :
  grid_dims (width b) (height b) (grid b) -> in_grid (width b) (height b) (x, y) ->
  cell_empty b y x = Ok (bool_decide (is_empty_cell b (x, y))).
Proof.
  intros Hd Hin. unfold cell_empty.
  destruct Hin as [Hx Hy]. simpl in Hx, Hy.
  rewrite grid_get_cell by lia.
  destruct (cell_in_grid _ _ _ (x, y) Hd (conj Hx Hy)) as [a Ha]. rewrite Ha.
  cbn [mbind res_bind]. f_equal.
  destruct (Ascii.eqb_spec a char_empty) as [->|Hne].
  - rewrite bool_decide_eq_true_2; [reflexivity | exact Ha].
  - rewrite bool_decide_eq_false_2; [reflexivity|].
    unfold is_empty_cell. rewrite Ha. congruence.
Qed.

Lemma occupancy_one (b : Board) (x y : Z) :
  grid_dims (width b) (height b) (grid b) -> in_grid (width b) (height b) (x, y) ->
  cell_empty b y x = Ok (bool_decide (Forall (is_empty_cell b) [(x, y)])).
Proof.
  intros Hd Hin. rewrite cell_empty_in by assumption. f_equal.
  apply bool_decide_ext. rewrite Forall_singleton. reflexivity.
Qed.

Lemma occupancy_two (b : Board) (x1 y1 x2 y2 : Z) :
  grid_dims (width b) (height b) (grid b) ->
  in_grid (width b) (height b) (x1, y1) -> in_grid (width b) (height b) (x2, y2) ->
  and_then (cell_empty b y1 x1) (cell_empty b y2 x2)
  = Ok (bool_decide (Forall (is_empty_cell b) [(x1, y1); (x2, y2)])).
Proof.
  intros Hd H1 H2. unfold and_then. rewrite !cell_empty_in by assumption.
  cbn [mbind res_bind].
  destruct (decide (is_empty_cell b (x1, y1))) as [E1|E1].
  - rewrite (bool_decide_eq_true_2 _ E1). f_equal.
    apply bool_decide_ext. rewrite Forall_cons, Forall_singleton. tauto.
  - rewrite (bool_decide_eq_false_2 _ E1). f_equal. symmetry.
    apply bool_decide_eq_false_2. rewrite Forall_cons. tauto.
Qed.

(** One [if bound: if occupancy: append] step of [generate_successors]
    appends the destination of direction [d] exactly when the slide is
    legal, provided the bound test decides whether the destination
    footprint fits and the occupancy test, run under it, decides whether
    the leading edge is empty. *)
Lemma try_move_legal (b : Board) (p : Piece) (s : shape) (d : direction)
    (bound : bool) (occupancy : res bool) (ks : list (Z * Z)) :
  shape_of p = Some s ->
  (bound = true <->
     Forall (in_grid (width b) (height b)) (shape_cells s (shift d (position p)))) ->
  (bound = true ->
     occupancy = Ok (bool_decide (Forall (is_empty_cell b) (leading_edge s (position p) d)))) ->
  try_move bound occupancy (shift d (position p)) ks
  = Ok (ks ++ ((fun d => shift d (position p)) <$> filter (legal_move b p) [d])).
Proof.
  intros Hs Hb Hocc. unfold try_move.
  rewrite filter_cons, filter_nil.
  destruct bound.
  - rewrite Hocc by reflexivity. cbn [mbind res_bind]. f_equal.
    case_bool_decide as Hfree.
    + rewrite decide_True; [reflexivity|].
      unfold legal_move. rewrite Hs. split; [apply Hb; reflexivity | exact Hfree].
    + rewrite decide_False; [rewrite app_nil_r; reflexivity|].
      unfold legal_move. rewrite Hs. tauto.
  - rewrite decide_False; [rewrite app_nil_r; reflexivity|].
    unfold legal_move. rewrite Hs. intros [Hin _]. apply Hb in Hin. discriminate.
Qed.

Ltac unfold_cells :=
  unfold position, shift, shape_cells, leading_edge, in_grid in *;
  cbn [fst snd] in *;
  rewrite ?Forall_cons, ?Forall_nil in *;
  cbn [fst snd] in *.

Ltac solve_in_grid := unfold_cells; lia.

Ltac solve_bound :=
  rewrite ?Z.leb_le, ?Z.ltb_lt; unfold_cells; split; intros; lia.

Ltac solve_occupancy Hd :=
  intros ?Hbound;
  rewrite ?Z.leb_le, ?Z.ltb_lt in *;
  first [ apply occupancy_one; [exact Hd | solve_in_grid]
        | apply occupancy_two; [exact Hd | solve_in_grid | solve_in_grid] ].

Ltac move_step b p s d Hs Hd :=
  match goal with
  | |- context [try_move ?bd ?occ ?k ?ks] =>
      lazymatch ks with
      | context [try_move] => fail
      | _ =>
          change (try_move bd occ k ks) with (try_move bd occ (shift d (position p)) ks);
          rewrite (try_move_legal b p s d bd occ ks Hs);
          [cbn [mbind res_bind] | solve_bound | solve_occupancy Hd]
      end
  end.

Lemma shape_of_flags (p : Piece) (s : shape) :
  shape_of p = Some s ->
  match s with
  | Block => is_2_by_2 p = true
  | Single => is_2_by_2 p = false /\ is_single p = true
  | Horizontal => is_2_by_2 p = false /\ is_single p = false /\ orientation_is p "h" = true
  | Vertical => is_2_by_2 p = false /\ is_single p = false /\ orientation_is p "h" = false
  end.
Proof.
  unfold shape_of. repeat case_match; intros ?; simplify_eq; auto.
Qed.

(** The destinations computed by the code are the legal destinations, in
    the order left, up, right, down, and no read of the grid raises. *)
Lemma new_keys_of_legal (b : Board) (p : Piece) (s : shape) :
  grid_dims (width b) (height b) (grid b) ->
  shape_of p = Some s ->
  Forall (in_grid (width b) (height b)) (footprint p) ->
  new_keys_of b p = Ok (legal_destinations b p).
Proof.
  intros Hd Hs Hfp. rewrite (footprint_shape p s Hs) in Hfp.
  pose proof (shape_of_flags p s Hs) as Hflags.
  unfold new_keys_of, legal_destinations.
  change [Leftward; Upward; Rightward; Downward]
    with ([Leftward] ++ [Upward] ++ [Rightward] ++ [Downward]).
  rewrite !filter_app, !fmap_app.
  destruct s; destruct_and?;
    repeat match goal with H : _ = _ :> bool |- _ => rewrite H; clear H end;
    move_step b p Block Leftward Hs Hd || move_step b p Single Leftward Hs Hd
    || move_step b p Horizontal Leftward Hs Hd || move_step b p Vertical Leftward Hs Hd;
    (move_step b p Block Upward Hs Hd || move_step b p Single Upward Hs Hd
    || move_step b p Horizontal Upward Hs Hd || move_step b p Vertical Upward Hs Hd);
    (move_step b p Block Rightward Hs Hd || move_step b p Single Rightward Hs Hd
    || move_step b p Horizontal Rightward Hs Hd || move_step b p Vertical Rightward Hs Hd);
    (move_step b p Block Downward Hs Hd || move_step b p Single Downward Hs Hd
    || move_step b p Horizontal Downward Hs Hd || move_step b p Vertical Downward Hs Hd);
    rewrite app_nil_l, <- ?app_assoc; reflexivity.
Qed.

(** ** Boards as the program builds them *)

Definition valid_piece (p : Piece) : Prop := nonneg p /\ is_Some (shape_of p).

(** What every board built by [Board.__init__] from a loaded layout, or
    by [copy_board] from such a board, satisfies: the width is 4, the
    pieces have a shape and non-negative coordinates, every key is the
    position of its piece, and the grid is the one derived from the
    pieces. *)
Record sound_board (b : Board) : Prop := {
  sb_width : width b = 4;
  sb_valid : Forall valid_piece (dict_values (pieces b));
  sb_keys : Forall (fun kp : (Z * Z) * Piece => kp.1 = position kp.2) (pieces b);
  sb_nodup : NoDup (dict_keys (pieces b));
  sb_grid : derive_grid (width b) (height b) (pieces b) = Ok (grid b)
}.

(** The invariant of the specification: moreover no two footprints
    overlap. *)
Definition wf_board (b : Board) : Prop :=
  sound_board b /\ NoDup (occupied (pieces b)).

Lemma valid_pieces_nonneg (ps : list Piece) : Forall valid_piece ps -> Forall nonneg ps.
Proof. intros H. eapply Forall_impl; [exact H|]. intros p [Hn _]. exact Hn. Qed.

Lemma sound_board_dims (b : Board) :
  sound_board b -> grid_dims (width b) (height b) (grid b).
Proof.
  intros [_ Hv _ _ Hg].
  apply (derive_grid_Ok _ _ _ _ (valid_pieces_nonneg _ Hv) Hg).
Qed.

Lemma sound_board_occupied (b : Board) :
  sound_board b -> Forall (in_grid (width b) (height b)) (occupied (pieces b)).
Proof.
  intros [_ Hv _ _ Hg].
  apply (derive_grid_Ok _ _ _ _ (valid_pieces_nonneg _ Hv) Hg).
Qed.

Lemma sound_board_footprint (b : Board) (p : Piece) :
  sound_board b -> p ∈ dict_values (pieces b) ->
  Forall (in_grid (width b) (height b)) (footprint p).
Proof.
  intros Hb Hp. pose proof (sound_board_occupied b Hb) as Hocc.
  unfold occupied in Hocc. rewrite Forall_forall in Hocc |- *.
  intros c Hc. apply Hocc. apply list_elem_of_bind. exists p. auto.
Qed.

Lemma sound_board_valid (b : Board) (p : Piece) :
  sound_board b -> p ∈ dict_values (pieces b) -> valid_piece p.
Proof.
  intros [_ Hv _ _ _] Hp. rewrite Forall_forall in Hv. auto.
Qed.

Lemma shift_injective (c : Z * Z) (d1 d2 : direction) :
  shift d1 c = shift d2 c -> d1 = d2.
Proof.
  destruct c as [x y], d1, d2; simpl; intros H; try reflexivity;
    injection H; intros; lia.
Qed.

Lemma legal_destinations_NoDup (b : Board) (p : Piece) : NoDup (legal_destinations b p).
Proof.
  unfold legal_destinations. apply NoDup_fmap_2.
  - intros d1 d2. apply shift_injective.
  - apply NoDup_filter. repeat constructor; set_solver.
Qed.

Lemma elem_of_legal_destinations (b : Board) (p : Piece) (k : Z * Z) :
  k ∈ legal_destinations b p <-> exists d, k = shift d (position p) /\ legal_move b p d.
Proof.
  unfold legal_destinations. rewrite list_elem_of_fmap. split.
  - intros (d & -> & Hd). apply list_elem_of_filter in Hd as [Hl _]. eauto.
  - intros (d & -> & Hl). exists d. split; [reflexivity|].
    apply list_elem_of_filter. split; [exact Hl|]. destruct d; set_solver.
Qed.

(** The footprint of a piece does not depend on its identity. *)
Lemma footprint_set_coords (p : Piece) (s : shape) (k : Z * Z) :
  shape_of p = Some s -> footprint (set_coords p k.1 k.2) = shape_cells s k.
Proof.
  intros Hs. rewrite (footprint_shape _ s); [destruct k; reflexivity|].
  unfold shape_of, orientation_is in *. exact Hs.
Qed.

(** The board of the running example: a single at (0,0), the block at
    (0,1), a vertical piece at (2,1), on three rows. *)
Definition example_goal_map : gmap positive Piece :=
  <[3%positive := mkPiece false false 3 1 (Some "v"%string) 3]>
  (<[2%positive := mkPiece true false 0 1 None 2]>
  (<[1%positive := mkPiece false true 2 0 None 1]> ∅)).

Definition example_board : Board :=
  {| width := 4; height := 3;
     pieces := [((0, 0), mkPiece false true 0 0 None 1);
                ((0, 1), mkPiece true false 0 1 None 2);
                ((2, 1), mkPiece false false 2 1 (Some "v"%string) 3)];
     goal_board_dict := Some example_goal_map;
     grid := [["2"; "."; "."; "."]; ["1"; "1"; "^"; "."]; ["1"; "1"; "v"; "."]]%char |}.

Definition example_goal : Board :=
  {| width := 4; height := 3;
     pieces := [((2, 0), mkPiece false true 2 0 None 1);
                ((0, 1), mkPiece true false 0 1 None 2);
                ((3, 1), mkPiece false false 3 1 (Some "v"%string) 3)];
     goal_board_dict := None;
     grid := [["."; "."; "2"; "."]; ["1"; "1"; "."; "^"]; ["1"; "1"; "."; "v"]]%char |}.

Ltac solve_concrete :=
  repeat first
    [ reflexivity
    | progress (simpl; unfold nonneg; simpl)
    | lia
    | match goal with
      | |- is_Some _ => eexists; reflexivity
      | |- Forall _ _ => constructor
      | |- NoDup _ => constructor
      | |- _ /\ _ => split
      | |- _ ∉ _ => set_solver
      | |- valid_piece _ => split
      end ].

Lemma example_board_sound : sound_board example_board.
Proof. constructor; solve_concrete. Qed.

Lemma example_board_wf : wf_board example_board.
Proof.
  split; [exact example_board_sound|].
  unfold occupied, footprint. simpl.
  repeat (constructor; [set_solver|]). constructor.
Qed.

(** C1: for a board and one of its pieces, the move generator returns,
    without an out-of-range read, exactly the legal single-slide
    destinations, each once: the destinations [shift d] of the piece's
    position for which the leading edge of its shape in direction [d] is
    empty and the footprint at the destination lies inside
    [0,width) x [0,height). *)
Theorem new_keys_exact (b : Board) (p : Piece) :
  sound_board b -> p ∈ dict_values (pieces b) ->
  exists ks, new_keys_of b p = Ok ks /\ NoDup ks /\
    (forall k, k ∈ ks <-> exists d, k = shift d (position p) /\ legal_move b p d) /\
    (forall k, k ∈ ks ->
       Forall (in_grid (width b) (height b)) (footprint (set_coords p k.1 k.2))).
Proof.
  intros Hb Hp.
  destruct (sound_board_valid b p Hb Hp) as [_ [s Hs]].
  exists (legal_destinations b p). split; [|split; [|split]].
  - apply (new_keys_of_legal b p s); auto using sound_board_dims, sound_board_footprint.
  - apply legal_destinations_NoDup.
  - apply elem_of_legal_destinations.
  - intros k Hk. apply elem_of_legal_destinations in Hk as (d & -> & Hl).
    unfold legal_move in Hl. rewrite Hs in Hl.
    rewrite (footprint_set_coords p s) by assumption. apply Hl.
Qed.

Lemma new_keys_exact_witness :
  new_keys_of example_board (mkPiece false false 2 1 (Some "v"%string) 3) = Ok [(2, 0); (3, 1)] /\
  legal_move example_board (mkPiece false false 2 1 (Some "v"%string) 3) Upward /\
  ~ legal_move example_board (mkPiece false false 2 1 (Some "v"%string) 3) Leftward.
Proof.
  destruct (new_keys_exact example_board (mkPiece false false 2 1 (Some "v"%string) 3)
              example_board_sound) as (ks & Hks & _ & Hiff & _).
  { set_solver. }
  split; [reflexivity|]. split.
  - assert (Hin : (2, 0) ∈ ks) by (vm_compute in Hks; injection Hks as <-; set_solver).
    apply Hiff in Hin as (d & Hd & Hl).
    destruct d; try discriminate Hd. exact Hl.
  - intros Hl.
    assert (Hin : (1, 1) ∈ ks) by (apply Hiff; exists Leftward; auto).
    vm_compute in Hks. injection Hks as <-. set_solver.
Defined.

(** ** Dicts *)

Section DictFacts.
Context {K V : Type} `{EqDecision K}.
Implicit Types (d : dict K V) (k : K) (v : V).

Lemma dict_get_elem d k v : dict_get k d = Some v -> (k, v) ∈ d.
Proof.
  induction d as [|[k' v'] d IH]; simpl; [discriminate|].
  case_decide as Hk.
  - intros [= ->]. subst. left.
  - intros Hget. right. auto.
Qed.

Lemma dict_get_None d k : dict_get k d = None <-> k ∉ dict_keys d.
Proof.
  unfold dict_keys. induction d as [|[k' v'] d IH]; simpl.
  - split; [intros _; apply not_elem_of_nil | reflexivity].
  - rewrite not_elem_of_cons. case_decide as Hk.
    + split; [discriminate | intros [H _]; congruence].
    + rewrite IH. split; [intros H; split; [congruence|exact H] | tauto].
Qed.

Lemma dict_get_is_Some d k : is_Some (dict_get k d) <-> k ∈ dict_keys d.
Proof.
  rewrite <- not_eq_None_Some, dict_get_None.
  destruct (decide (k ∈ dict_keys d)); [tauto|]. split; [tauto | contradiction].
Qed.

Lemma elem_dict_get d k v : NoDup (dict_keys d) -> (k, v) ∈ d -> dict_get k d = Some v.
Proof.
  unfold dict_keys. induction d as [|[k' v'] d IH]; simpl.
  - intros _ H. inversion H.
  - intros Hnd Hin. apply NoDup_cons in Hnd as [Hk' Hnd].
    apply elem_of_cons in Hin as [[= -> ->]|Hin].
    + rewrite decide_True; reflexivity.
    + rewrite decide_False; [auto|].
      intros ->. apply Hk'. apply list_elem_of_fmap. exists (k, v). auto.
Qed.

Lemma elem_dict_remove d k kv : kv ∈ dict_remove k d -> kv ∈ d.
Proof.
  induction d as [|[k' v'] d IH]; simpl; [auto|].
  case_decide; [intros Hin; right; exact Hin|].
  intros [->|Hin]%elem_of_cons; [left | right; auto].
Qed.

Lemma elem_dict_remove_ne d k kv : NoDup (dict_keys d) -> kv ∈ dict_remove k d -> kv.1 <> k.
Proof.
  unfold dict_keys. induction d as [|[k' v'] d IH]; simpl.
  - intros _ H. inversion H.
  - intros Hnd. apply NoDup_cons in Hnd as [Hk' Hnd]. case_decide as Hk.
    + intros Hin Heq. apply Hk'. apply list_elem_of_fmap. exists kv.
      split; [congruence | exact Hin].
    + intros [->|Hin]%elem_of_cons; [exact Hk | auto].
Qed.

Lemma dict_remove_elem d k kv : kv ∈ d -> kv.1 <> k -> kv ∈ dict_remove k d.
Proof.
  induction d as [|[k' v'] d IH]; simpl; [auto|].
  intros [->|Hin]%elem_of_cons Hne.
  - simpl in Hne. rewrite decide_False by assumption. left.
  - case_decide; [exact Hin | right; auto].
Qed.

Lemma dict_remove_keys_sub d k k' : k' ∈ dict_keys (dict_remove k d) -> k' ∈ dict_keys d.
Proof.
  unfold dict_keys. rewrite !list_elem_of_fmap.
  intros (kv & -> & Hin). exists kv. eauto using elem_dict_remove.
Qed.

Lemma dict_remove_NoDup d k : NoDup (dict_keys d) -> NoDup (dict_keys (dict_remove k d)).
Proof.
  unfold dict_keys. induction d as [|[k' v'] d IH]; simpl; [auto|].
  intros Hnd. apply NoDup_cons in Hnd as [Hk' Hnd].
  case_decide; [exact Hnd|]. simpl. apply NoDup_cons. split; [|auto].
  intros Hin. apply Hk'. apply (dict_remove_keys_sub d k). exact Hin.
Qed.

Lemma dict_remove_not_key d k : NoDup (dict_keys d) -> k ∉ dict_keys (dict_remove k d).
Proof.
  intros Hnd Hin. unfold dict_keys in Hin. apply list_elem_of_fmap in Hin as (kv & -> & Hin).
  eapply elem_dict_remove_ne; eauto.
Qed.

Lemma dict_remove_Permutation d k v :
  dict_get k d = Some v -> d ≡ₚ (k, v) :: dict_remove k d.
Proof.
  induction d as [|[k' v'] d IH]; simpl; [discriminate|].
  case_decide as Hk.
  - intros [= ->]. subst. reflexivity.
  - intros Hget. rewrite (IH Hget) at 1. apply Permutation_swap.
Qed.

Lemma dict_set_fresh d k v : k ∉ dict_keys d -> dict_set k v d = d ++ [(k, v)].
Proof.
  unfold dict_keys. induction d as [|[k' v'] d IH]; simpl; [reflexivity|].
  rewrite not_elem_of_cons. intros [Hne Hk].
  rewrite decide_False by congruence. rewrite IH by assumption. reflexivity.
Qed.

Lemma dict_get_set d k v : dict_get k (dict_set k v d) = Some v.
Proof.
  induction d as [|[k' v'] d IH]; simpl.
  - rewrite decide_True; reflexivity.
  - case_decide as Hk; simpl.
    + rewrite decide_True; reflexivity.
    + rewrite decide_False by assumption. exact IH.
Qed.

Lemma dict_set_set d k v v' : dict_set k v' (dict_set k v d) = dict_set k v' d.
Proof.
  induction d as [|[k' v0] d IH]; simpl.
  - rewrite decide_True; reflexivity.
  - case_decide as Hk; simpl.
    + rewrite decide_True; reflexivity.
    + rewrite decide_False by assumption. rewrite IH. reflexivity.
Qed.

Lemma elem_dict_set d k v kv : kv ∈ dict_set k v d -> kv = (k, v) \/ kv ∈ d.
Proof.
  induction d as [|[k' v'] d IH]; simpl.
  - intros ->%list_elem_of_singleton. auto.
  - case_decide as Hk.
    + intros [->|Hin]%elem_of_cons; [auto|]. right. right. exact Hin.
    + intros [->|Hin]%elem_of_cons; [right; left|].
      destruct (IH Hin) as [->|Hd]; [auto|]. right. right. exact Hd.
Qed.

Lemma Forall_dict_set (P : K * V -> Prop) d k v :
  Forall P d -> P (k, v) -> Forall P (dict_set k v d).
Proof.
  intros Hd Hkv. apply Forall_forall. intros kv Hin.
  destruct (elem_dict_set _ _ _ _ Hin) as [->|Hin']; [exact Hkv|].
  rewrite Forall_forall in Hd. auto.
Qed.

Lemma Forall_dict_remove (P : K * V -> Prop) d k :
  Forall P d -> Forall P (dict_remove k d).
Proof.
  rewrite !Forall_forall. intros Hd kv Hin. eauto using elem_dict_remove.
Qed.

Lemma dict_set_keys d k v k' :
  k' ∈ dict_keys (dict_set k v d) <-> k' = k \/ k' ∈ dict_keys d.
Proof.
  unfold dict_keys. induction d as [|[k0 v0] d IH]; simpl.
  - rewrite list_elem_of_singleton. split; [auto|]. intros [->|Hin]; [reflexivity|inversion Hin].
  - case_decide as Hk; simpl; rewrite !elem_of_cons.
    + subst. tauto.
    + rewrite IH. tauto.
Qed.

Lemma dict_set_NoDup d k v : NoDup (dict_keys d) -> NoDup (dict_keys (dict_set k v d)).
Proof.
  unfold dict_keys. induction d as [|[k0 v0] d IH]; simpl.
  - intros _. repeat constructor. apply not_elem_of_nil.
  - intros Hnd. apply NoDup_cons in Hnd as [Hk0 Hnd]. case_decide as Hk; simpl.
    + subst. apply NoDup_cons. auto.
    + apply NoDup_cons. split; [|auto].
      intros Hin. apply (dict_set_keys d k v k0) in Hin as [->|Hin]; [congruence|auto].
Qed.
End DictFacts.

(** ** Cloning a board with one piece moved ([copy_board]) *)

Lemma copy_piece_id (p : Piece) : copy_piece p = p.
Proof. destruct p; reflexivity. Qed.

Lemma copy_pieces_id (ps : dict (Z * Z) Piece) :
  map (fun kp : (Z * Z) * Piece => (kp.1, copy_piece kp.2)) ps = ps.
Proof.
  induction ps as [|[k p] ps IH]; simpl; [reflexivity|].
  rewrite copy_piece_id, IH. reflexivity.
Qed.

(** The mapping of the clone: the entry of [old] is removed and the moved
    piece is stored under [new_key] with its new coordinates. *)
Definition moved_pieces (ps : dict (Z * Z) Piece) (new_key old : Z * Z) (p : Piece)
    : dict (Z * Z) Piece :=
  dict_set new_key (set_coords p new_key.1 new_key.2) (dict_remove old ps).

Lemma copy_board_unfold (self : Board) (new_key old : Z * Z) :
  copy_board self new_key old =
    board ← Board_init (height self) (pieces self) (goal_board_dict self);
    match dict_get old (pieces self) with
    | None => Raise KeyError
    | Some p =>
        update_grid {| width := 4; height := height self;
                       pieces := moved_pieces (pieces self) new_key old p;
                       goal_board_dict := goal_board_dict self;
                       grid := grid board |}
    end.
Proof.
  unfold copy_board. rewrite copy_pieces_id.
  unfold Board_init, update_grid. cbn [width height pieces goal_board_dict].
  destruct (derive_grid 4 (height self) (pieces self)) as [g|e]; [|reflexivity].
  cbn [mbind res_bind with_grid pieces height width goal_board_dict grid].
  unfold dict_pop. destruct (dict_get old (pieces self)) as [p|]; [|reflexivity].
  cbn [mbind res_bind]. rewrite dict_get_set, dict_set_set. reflexivity.
Qed.

Lemma Forall_occupied (P : Z * Z -> Prop) (ps : dict (Z * Z) Piece) :
  Forall P (occupied ps) <->
  Forall (fun kp : (Z * Z) * Piece => Forall P (footprint kp.2)) ps.
Proof.
  unfold occupied, dict_values. rewrite Forall_bind, Forall_fmap. reflexivity.
Qed.

Lemma Forall_dict_values (P : Piece -> Prop) (ps : dict (Z * Z) Piece) :
  Forall P (dict_values ps) <-> Forall (fun kp : (Z * Z) * Piece => P kp.2) ps.
Proof. unfold dict_values. rewrite Forall_fmap. reflexivity. Qed.

(** When the source pieces fit the grid, [old] is a key and the moved
    piece fits at [new_key], the clone is the board with the mapping
    [moved_pieces] and the grid derived from it. *)
Lemma copy_board_Ok (self : Board) (new_key old : Z * Z) (p : Piece) :
  Forall nonneg (dict_values (pieces self)) ->
  Forall (in_grid 4 (height self)) (occupied (pieces self)) ->
  dict_get old (pieces self) = Some p ->
  0 <= new_key.1 -> 0 <= new_key.2 ->
  Forall (in_grid 4 (height self)) (footprint (set_coords p new_key.1 new_key.2)) ->
  exists g,
    derive_grid 4 (height self) (moved_pieces (pieces self) new_key old p) = Ok g /\
    copy_board self new_key old =
      Ok {| width := 4; height := height self;
            pieces := moved_pieces (pieces self) new_key old p;
            goal_board_dict := goal_board_dict self; grid := g |}.
Proof.
  intros Hnn Hocc Hget Hx Hy Hfp.
  assert (Hnn' : Forall nonneg (dict_values (moved_pieces (pieces self) new_key old p))).
  { apply Forall_dict_values, Forall_dict_set.
    - apply Forall_dict_remove, Forall_dict_values, Hnn.
    - split; assumption. }
  assert (Hocc' : Forall (in_grid 4 (height self))
                    (occupied (moved_pieces (pieces self) new_key old p))).
  { apply Forall_occupied, Forall_dict_set.
    - apply Forall_dict_remove, Forall_occupied, Hocc.
    - exact Hfp. }
  eexists. split.
  - rewrite derive_grid_paint by assumption.
    rewrite bool_decide_eq_true_2 by assumption. reflexivity.
  - rewrite copy_board_unfold. unfold Board_init, update_grid.
    cbn [width height pieces goal_board_dict].
    rewrite derive_grid_paint by assumption.
    rewrite bool_decide_eq_true_2 by assumption.
    cbn [mbind res_bind]. rewrite Hget.
    cbn [width height pieces goal_board_dict].
    rewrite derive_grid_paint by assumption.
    rewrite bool_decide_eq_true_2 by assumption. reflexivity.
Qed.

Lemma shape_of_set_coords (p : Piece) (x y : Z) :
  shape_of (set_coords p x y) = shape_of p.
Proof. reflexivity. Qed.

Lemma shape_cells_head (s : shape) (k : Z * Z) : k ∈ shape_cells s k.
Proof. destruct k, s; simpl; left. Qed.

Lemma sound_board_get (b : Board) (p : Piece) :
  sound_board b -> p ∈ dict_values (pieces b) ->
  dict_get (position p) (pieces b) = Some p.
Proof.
  intros [_ _ Hk Hnd _] Hp. unfold dict_values in Hp.
  apply list_elem_of_fmap in Hp as ([k q] & -> & Hin).
  rewrite Forall_forall in Hk. pose proof (Hk _ Hin) as Hkq. simpl in Hkq |- *.
  subst k. apply elem_dict_get; assumption.
Qed.

(** A legal move of a piece of a sound board yields a sound board with
    the same height and the same goal map. *)
Lemma copy_board_sound (self : Board) (p : Piece) (k : Z * Z) :
  sound_board self -> p ∈ dict_values (pieces self) ->
  k ∈ legal_destinations self p ->
  exists b', copy_board self k (position p) = Ok b' /\ sound_board b' /\
    height b' = height self /\ goal_board_dict b' = goal_board_dict self /\
    pieces b' = moved_pieces (pieces self) k (position p) p.
Proof.
  intros Hb Hp Hk.
  destruct (sound_board_valid self p Hb Hp) as [_ [s Hs]].
  apply elem_of_legal_destinations in Hk as (d & -> & Hl).
  unfold legal_move in Hl. rewrite Hs in Hl. destruct Hl as [Hdest _].
  set (k := shift d (position p)) in *.
  pose proof (sound_board_occupied self Hb) as Hocc.
  pose proof (sb_width self Hb) as Hw. pose proof (sb_valid self Hb) as Hv.
  pose proof (sb_keys self Hb) as Hkeys. pose proof (sb_nodup self Hb) as Hnd.
  rewrite Hw in *.
  assert (Hkin : in_grid 4 (height self) k).
  { rewrite Forall_forall in Hdest. apply Hdest, shape_cells_head. }
  assert (Hfp : Forall (in_grid 4 (height self)) (footprint (set_coords p k.1 k.2))).
  { rewrite (footprint_set_coords p s) by assumption. exact Hdest. }
  destruct (copy_board_Ok self k (position p) p) as (g & Hg' & Hcopy);
    [exact (valid_pieces_nonneg _ Hv) | exact Hocc
    | apply sound_board_get; [exact Hb | exact Hp]
    | apply Hkin | apply Hkin | exact Hfp |].
  eexists. split; [exact Hcopy|]. split; [|auto].
  constructor; cbn [width height pieces goal_board_dict grid].
  - reflexivity.
  - apply Forall_dict_values, Forall_dict_set.
    + apply Forall_dict_remove, Forall_dict_values, Hv.
    + cbn [snd]. split; [split; apply Hkin|].
      rewrite shape_of_set_coords, Hs. eauto.
  - apply Forall_dict_set; [apply Forall_dict_remove, Hkeys|].
    destruct k; reflexivity.
  - apply dict_set_NoDup, dict_remove_NoDup, Hnd.
  - exact Hg'.
Qed.

(** ** Legal moves keep the footprints apart *)

Ltac pick_cell :=
  first [ solve [f_equal; lia] | left; pick_cell | right; pick_cell ].

(** The cells of the footprint after a slide are cells of the footprint
    before it or cells of the leading edge. *)
Lemma shape_cells_shift (s : shape) (c c' : Z * Z) (d : direction) :
  c' ∈ shape_cells s (shift d c) -> c' ∈ shape_cells s c \/ c' ∈ leading_edge s c d.
Proof.
  destruct c as [x y], s, d; simpl;
    rewrite ?elem_of_cons, ?elem_of_nil;
    intros H; decompose [or] H; subst; try contradiction; pick_cell.
Qed.

(** The leading edge is what the slide adds to the footprint. *)
Lemma leading_edge_new (s : shape) (c c' : Z * Z) (d : direction) :
  c' ∈ leading_edge s c d <-> c' ∈ shape_cells s (shift d c) /\ c' ∉ shape_cells s c.
Proof.
  destruct c as [x y], c' as [x' y'], s, d; simpl;
    rewrite ?not_elem_of_cons, ?elem_of_cons, ?elem_of_nil;
    (split; [intros H; decompose [or] H; try contradiction;
              repeat match goal with E : (_, _) = (_, _) |- _ => injection E as -> -> end;
              (split; [pick_cell | repeat split; try (intros E; injection E; lia); tauto])
            | intros [H Hn]; decompose [and] Hn; decompose [or] H; try contradiction;
              repeat match goal with E : (_, _) = (_, _) |- _ => injection E as ? ? end;
              subst;
              first [ exfalso; match goal with N : (_, _) <> (_, _) |- _ =>
                        apply N; f_equal; lia end
                    | pick_cell ]]).
Qed.

Lemma shape_cells_NoDup (s : shape) (c : Z * Z) : NoDup (shape_cells s c).
Proof.
  destruct c as [x y], s; simpl;
    repeat (apply NoDup_cons; split;
            [rewrite ?not_elem_of_cons; repeat split;
             try (intros E; injection E; lia); apply not_elem_of_nil|]);
    apply NoDup_nil_2.
Qed.

Lemma occupied_Permutation (ps qs : dict (Z * Z) Piece) :
  ps ≡ₚ qs -> occupied ps ≡ₚ occupied qs.
Proof. intros H. unfold occupied, dict_values. rewrite H. reflexivity. Qed.

Lemma occupied_cons (k : Z * Z) (p : Piece) (ps : dict (Z * Z) Piece) :
  occupied ((k, p) :: ps) = footprint p ++ occupied ps.
Proof. reflexivity. Qed.

Lemma occupied_snoc (k : Z * Z) (p : Piece) (ps : dict (Z * Z) Piece) :
  occupied (ps ++ [(k, p)]) = occupied ps ++ footprint p.
Proof.
  unfold occupied, dict_values. rewrite fmap_app, bind_app. simpl.
  rewrite app_nil_r. reflexivity.
Qed.

Lemma key_occupied (ps : dict (Z * Z) Piece) (k : Z * Z) :
  Forall valid_piece (dict_values ps) ->
  Forall (fun kp : (Z * Z) * Piece => kp.1 = position kp.2) ps ->
  k ∈ dict_keys ps -> k ∈ occupied ps.
Proof.
  intros Hv Hk Hin. unfold dict_keys in Hin.
  apply list_elem_of_fmap in Hin as ([k' q] & -> & Hin). simpl.
  rewrite Forall_forall in Hk. pose proof (Hk _ Hin) as Hkq. simpl in Hkq. subst k'.
  apply Forall_dict_values in Hv. rewrite Forall_forall in Hv.
  destruct (Hv _ Hin) as [_ [s Hs]]. simpl in Hs.
  unfold occupied. apply list_elem_of_bind. exists q. split.
  - rewrite (footprint_shape q s Hs). apply shape_cells_head.
  - unfold dict_values. apply list_elem_of_fmap. exists (position q, q). auto.
Qed.

(** On a well-formed board, no cell of the footprint at a legal
    destination is covered by another piece. *)
Lemma destination_free (b : Board) (p : Piece) (s : shape) (d : direction) (c : Z * Z) :
  wf_board b -> p ∈ dict_values (pieces b) -> shape_of p = Some s ->
  legal_move b p d ->
  c ∈ shape_cells s (shift d (position p)) ->
  c ∉ occupied (dict_remove (position p) (pieces b)).
Proof.
  intros [Hb Hno] Hp Hs Hl Hc.
  pose proof (sound_board_get b p Hb Hp) as Hget.
  pose proof (occupied_Permutation _ _ (dict_remove_Permutation _ _ _ Hget)) as Hperm.
  rewrite occupied_cons in Hperm. rewrite Hperm in Hno.
  apply NoDup_app in Hno as (_ & Hdisj & _).
  unfold legal_move in Hl. rewrite Hs in Hl. destruct Hl as [_ Hempty].
  apply shape_cells_shift in Hc as [Hc|Hc].
  - apply Hdisj. rewrite (footprint_shape p s Hs). exact Hc.
  - rewrite Forall_forall in Hempty. specialize (Hempty c Hc).
    apply (derive_grid_empty (width b) (height b) (pieces b)) in Hempty.
    + intros Hin. apply Hempty. rewrite Hperm. apply elem_of_app. auto.
    + apply valid_pieces_nonneg, Hb.
    + apply Hb.
Qed.

Lemma destination_fresh_key (b : Board) (p : Piece) (k : Z * Z) :
  wf_board b -> p ∈ dict_values (pieces b) -> k ∈ legal_destinations b p ->
  k ∉ dict_keys (dict_remove (position p) (pieces b)).
Proof.
  intros Hwf Hp Hk Hin. pose proof Hwf as [Hb _].
  destruct (sound_board_valid b p Hb Hp) as [_ [s Hs]].
  apply elem_of_legal_destinations in Hk as (d & -> & Hl).
  apply (destination_free b p s d (shift d (position p)) Hwf Hp Hs Hl).
  - apply shape_cells_head.
  - apply key_occupied; [| |exact Hin].
    + apply Forall_dict_values, Forall_dict_remove, Forall_dict_values, Hb.
    + apply Forall_dict_remove, Hb.
Qed.

(** On a well-formed board a legal move appends the moved piece to the
    remaining entries. *)
Lemma moved_pieces_wf (b : Board) (p : Piece) (k : Z * Z) :
  wf_board b -> p ∈ dict_values (pieces b) -> k ∈ legal_destinations b p ->
  moved_pieces (pieces b) k (position p) p
  = dict_remove (position p) (pieces b) ++ [(k, set_coords p k.1 k.2)].
Proof.
  intros Hwf Hp Hk. unfold moved_pieces.
  apply dict_set_fresh. eapply destination_fresh_key; eassumption.
Qed.

(** A legal move of a piece of a well-formed board yields a well-formed
    board. *)
Lemma copy_board_wf (self : Board) (p : Piece) (k : Z * Z) :
  wf_board self -> p ∈ dict_values (pieces self) ->
  k ∈ legal_destinations self p ->
  exists b', copy_board self k (position p) = Ok b' /\ wf_board b' /\
    height b' = height self /\ goal_board_dict b' = goal_board_dict self /\
    pieces b' = dict_remove (position p) (pieces self) ++ [(k, set_coords p k.1 k.2)].
Proof.
  intros Hwf Hp Hk. pose proof Hwf as [Hb Hno].
  destruct (copy_board_sound self p k Hb Hp Hk) as (b' & Hcopy & Hb' & Hh & Hgd & Hps).
  rewrite (moved_pieces_wf self p k Hwf Hp Hk) in Hps.
  exists b'. split; [exact Hcopy|]. split; [|auto]. split; [exact Hb'|].
  rewrite Hps, occupied_snoc.
  destruct (sound_board_valid self p Hb Hp) as [_ [s Hs]].
  pose proof (sound_board_get self p Hb Hp) as Hget.
  pose proof (occupied_Permutation _ _ (dict_remove_Permutation _ _ _ Hget)) as Hperm.
  rewrite occupied_cons in Hperm. rewrite Hperm in Hno.
  apply NoDup_app in Hno as (_ & _ & Hrest).
  rewrite (footprint_set_coords p s) by assumption.
  apply NoDup_app. split; [exact Hrest|]. split; [|apply shape_cells_NoDup].
  intros c Hc Hc'.
  pose proof Hk as Hk'. apply elem_of_legal_destinations in Hk' as (d & -> & Hl).
  exact (destination_free self p s d c Hwf Hp Hs Hl Hc' Hc).
Qed.

(** ** Successor generation *)

Lemma for_each_Ok_body {A S : Type} (body : S -> A -> res S) (xs : list A) (s s' : S) (x : A) :
  for_each body xs s = Ok s' -> x ∈ xs -> exists s1 s2, body s1 x = Ok s2.
Proof.
  revert s. induction xs as [|y xs IH]; intros s Hrun Hx; [inversion Hx|].
  simpl in Hrun. destruct (body s y) as [s1|e] eqn:E; [|discriminate].
  cbn [mbind res_bind] in Hrun.
  apply elem_of_cons in Hx as [->|Hx]; [eauto | eapply IH; eassumption].
Qed.

Lemma for_each_Raise_body {A S : Type} (body : S -> A -> res S) (xs : list A) (s : S) (e : exn) :
  for_each body xs s = Raise e -> exists x s1, x ∈ xs /\ body s1 x = Raise e.
Proof.
  revert s. induction xs as [|y xs IH]; intros s Hrun; [discriminate|].
  simpl in Hrun. destruct (body s y) as [s1|e1] eqn:E.
  - cbn [mbind res_bind] in Hrun. destruct (IH _ Hrun) as (x & s2 & Hx & Hb).
    exists x, s2. split; [right; exact Hx | exact Hb].
  - injection Hrun as ->. exists y, s. split; [left | exact E].
Qed.

(** [s'] is the state [generate_successors] builds for the move of piece
    [p] of the board of [self] to the destination [k]. *)
Definition successor_for (self : State) (p : Piece) (k : Z * Z) (s' : State) : Prop :=
  exists (g : Piece) (b' : Board),
    goal_lookup (board self) (uid p) = Ok g /\
    copy_board (board self) k (position p) = Ok b' /\
    s' = mkState b'
           (hfn self - man_dist (coord_x p) (coord_y p) g + man_dist k.1 k.2 g)
           (f self) (depth self + 1) (Some self).

Definition is_successor (self s' : State) : Prop :=
  exists (p : Piece) (k : Z * Z),
    p ∈ dict_values (pieces (board self)) /\
    k ∈ legal_destinations (board self) p /\
    successor_for self p k s'.

(** The goal map has an entry for every piece that can move. *)
Definition goal_ready (b : Board) : Prop :=
  forall p, p ∈ dict_values (pieces b) -> legal_destinations b p <> [] ->
    is_Ok (goal_lookup b (uid p)).

(** The goal map has an entry for every piece. *)
Definition goal_complete (b : Board) : Prop :=
  forall p, p ∈ dict_values (pieces b) -> is_Ok (goal_lookup b (uid p)).

Lemma goal_complete_ready (b : Board) : goal_complete b -> goal_ready b.
Proof. intros H p Hp _. auto. Qed.

Lemma successor_Ok (self : State) (p : Piece) (k : Z * Z) (acc : list State) :
  sound_board (board self) -> p ∈ dict_values (pieces (board self)) ->
  k ∈ legal_destinations (board self) p ->
  is_Ok (goal_lookup (board self) (uid p)) ->
  exists s', successor self p acc k = Ok (acc ++ [s']) /\ successor_for self p k s'.
Proof.
  intros Hb Hp Hk [g Hg].
  destruct (copy_board_sound _ p k Hb Hp Hk) as (b' & Hcopy & _).
  unfold successor. rewrite Hg. cbn [mbind res_bind].
  fold (position p). rewrite Hcopy. cbn [mbind res_bind].
  eexists. split; [reflexivity|]. exists g, b'. auto.
Qed.

Lemma expand_piece_Ok (self : State) (p : Piece) (acc : list State) :
  sound_board (board self) -> p ∈ dict_values (pieces (board self)) ->
  (legal_destinations (board self) p <> [] -> is_Ok (goal_lookup (board self) (uid p))) ->
  Forall (is_successor self) acc ->
  exists acc', expand_piece self acc p = Ok acc' /\ Forall (is_successor self) acc'.
Proof.
  intros Hb Hp Hgoal Hacc. unfold expand_piece.
  destruct (sound_board_valid _ p Hb Hp) as [_ [s Hs]].
  rewrite (new_keys_of_legal _ p s)
    by (auto using sound_board_dims, sound_board_footprint).
  cbn [mbind res_bind].
  apply (for_each_invariant (Forall (is_successor self))
           (fun k => k ∈ legal_destinations (board self) p)).
  - intros acc0 k Hacc0 Hk.
    destruct (successor_Ok self p k acc0 Hb Hp Hk) as (s' & Hrun & Hs').
    { apply Hgoal. intros E. rewrite E in Hk. inversion Hk. }
    exists (acc0 ++ [s']). split; [exact Hrun|].
    apply Forall_app. split; [exact Hacc0|]. constructor; [|constructor].
    exists p, k. auto.
  - exact Hacc.
  - apply Forall_forall. auto.
Qed.

(** On a sound board whose goal map covers the pieces that can move,
    [generate_successors] raises nothing and returns successors of legal
    moves only. *)
Lemma generate_successors_Ok (self : State) :
  sound_board (board self) -> goal_ready (board self) ->
  exists succs, generate_successors self = Ok succs /\ Forall (is_successor self) succs.
Proof.
  intros Hb Hgoal. unfold generate_successors.
  apply (for_each_invariant (Forall (is_successor self))
           (fun p => p ∈ dict_values (pieces (board self)))).
  - intros acc p Hacc Hp. apply expand_piece_Ok; auto.
  - constructor.
  - apply Forall_forall. auto.
Qed.

(** Conversely, if [generate_successors] returns, the goal map covers
    every piece that can move. *)
Lemma generate_successors_ready (self : State) (succs : list State) :
  sound_board (board self) ->
  generate_successors self = Ok succs -> goal_ready (board self).
Proof.
  intros Hb Hrun p Hp Hmoves.
  destruct (for_each_Ok_body _ _ _ _ p Hrun Hp) as (acc & acc' & Hexp).
  unfold expand_piece in Hexp.
  destruct (sound_board_valid _ p Hb Hp) as [_ [s Hs]].
  rewrite (new_keys_of_legal _ p s) in Hexp
    by (auto using sound_board_dims, sound_board_footprint).
  cbn [mbind res_bind] in Hexp.
  destruct (legal_destinations (board self) p) as [|k ks]; [congruence|].
  cbn [for_each] in Hexp. unfold successor in Hexp.
  destruct (goal_lookup (board self) (uid p)) as [g|e]; [eexists; reflexivity | discriminate].
Qed.


(** On a sound board the only exceptions of [generate_successors] come
    from the lookup in the goal map, for a piece that can move. *)
Lemma generate_successors_Raise (self : State) (e : exn) :
  sound_board (board self) ->
  generate_successors self = Raise e ->
  exists p, p ∈ dict_values (pieces (board self)) /\
    legal_destinations (board self) p <> [] /\
    goal_lookup (board self) (uid p) = Raise e.
Proof.
  intros Hb Hrun.
  destruct (for_each_Raise_body _ _ _ _ Hrun) as (p & acc & Hp & Hexp).
  exists p. split; [exact Hp|].
  unfold expand_piece in Hexp.
  destruct (sound_board_valid _ p Hb Hp) as [_ [s Hs]].
  rewrite (new_keys_of_legal _ p s) in Hexp
    by (auto using sound_board_dims, sound_board_footprint).
  cbn [mbind res_bind] in Hexp.
  destruct (for_each_Raise_body _ _ _ _ Hexp) as (k & acc' & Hk & Hsucc).
  split; [intros E; rewrite E in Hk; inversion Hk|].
  unfold successor in Hsucc.
  destruct (goal_lookup (board self) (uid p)) as [g|e'] eqn:Hg.
  - cbn [mbind res_bind] in Hsucc. fold (position p) in Hsucc.
    destruct (copy_board_sound _ p k Hb Hp Hk) as (b' & Hcopy & _).
    rewrite Hcopy in Hsucc. discriminate.
  - injection Hsucc as ->. reflexivity.
Qed.

Lemma generate_successors_sound (self : State) (succs : list State) (s' : State) :
  sound_board (board self) ->
  generate_successors self = Ok succs -> s' ∈ succs -> is_successor self s'.
Proof.
  intros Hb Hrun Hin.
  destruct (generate_successors_Ok self Hb (generate_successors_ready _ _ Hb Hrun))
    as (succs' & Hrun' & Hall).
  rewrite Hrun in Hrun'. injection Hrun' as <-.
  rewrite Forall_forall in Hall. auto.
Qed.

(** ** The heuristic *)

(** The distance of one piece to the goal piece with its identity. *)
Definition goal_distance (gd : gmap positive Piece) (p : Piece) : Z :=
  match gd !! uid p with
  | Some g => man_dist (coord_x p) (coord_y p) g
  | None => 0
  end.

Definition Zsum (l : list Z) : Z := foldr Z.add 0 l.

(** The heuristic of a board, from scratch: the sum over its pieces of
    the Manhattan distance to the goal position of the same identity. *)
Definition heuristic (b : Board) : Z :=
  match goal_board_dict b with
  | Some gd => Zsum (goal_distance gd <$> dict_values (pieces b))
  | None => 0
  end.

(** The goal map and the goal board describe the same pieces. *)
Definition goal_agrees (gd : gmap positive Piece) (goal_board : Board) : Prop :=
  NoDup (uid <$> dict_values (pieces goal_board)) /\
  forall u g, gd !! u = Some g <-> g ∈ dict_values (pieces goal_board) /\ uid g = u.

Lemma Zsum_app (l1 l2 : list Z) : Zsum (l1 ++ l2) = Zsum l1 + Zsum l2.
Proof. unfold Zsum. induction l1 as [|x l1 IH]; simpl; [reflexivity|]. rewrite IH. lia. Qed.

Lemma Zsum_cons (x : Z) (l : list Z) : Zsum (x :: l) = x + Zsum l.
Proof. reflexivity. Qed.

Lemma Zsum_Permutation (l1 l2 : list Z) : l1 ≡ₚ l2 -> Zsum l1 = Zsum l2.
Proof.
  unfold Zsum. induction 1; simpl; lia.
Qed.

(** The inner loop of [init_manhattan_distance] adds the distance to the
    goal piece with the identity of [piece], if there is one. *)
Lemma inner_loop_no_match (piece : Piece) (gs : list Piece) (total : Z) :
  uid piece ∉ uid <$> gs ->
  fold_left (fun total goal_piece =>
      if decide (uid piece = uid goal_piece) then
        total + (Z.abs (coord_x goal_piece - coord_x piece)
                 + Z.abs (coord_y goal_piece - coord_y piece))
      else total) gs total = total.
Proof.
  revert total. induction gs as [|g gs IH]; intros total Hno; simpl; [reflexivity|].
  rewrite fmap_cons, not_elem_of_cons in Hno. destruct Hno as [Hne Hno].
  rewrite decide_False by assumption. apply IH, Hno.
Qed.

Lemma inner_loop_match (piece g : Piece) (gs : list Piece) (total : Z) :
  NoDup (uid <$> gs) -> g ∈ gs -> uid g = uid piece ->
  fold_left (fun total goal_piece =>
      if decide (uid piece = uid goal_piece) then
        total + (Z.abs (coord_x goal_piece - coord_x piece)
                 + Z.abs (coord_y goal_piece - coord_y piece))
      else total) gs total = total + man_dist (coord_x piece) (coord_y piece) g.
Proof.
  revert total. induction gs as [|g0 gs IH]; intros total Hnd Hin Hu; [inversion Hin|].
  rewrite fmap_cons in Hnd. apply NoDup_cons in Hnd as [Hg0 Hnd]. simpl.
  apply elem_of_cons in Hin as [->|Hin].
  - rewrite decide_True by congruence.
    rewrite inner_loop_no_match by congruence.
    unfold man_dist. lia.
  - rewrite decide_False.
    + apply IH; assumption.
    + intros E. apply Hg0. rewrite <- E, <- Hu.
      apply list_elem_of_fmap. exists g. auto.
Qed.

(** [init_manhattan_distance] is the heuristic from scratch when the
    goal board and the goal map agree. *)
Lemma init_manhattan_distance_heuristic (b goal_board : Board) (gd : gmap positive Piece) :
  goal_board_dict b = Some gd -> goal_agrees gd goal_board ->
  init_manhattan_distance b goal_board = heuristic b.
Proof.
  intros Hgd [Hnd Hag]. unfold init_manhattan_distance, heuristic. rewrite Hgd.
  generalize (dict_values (pieces b)). intros ps.
  assert (Hgen : forall total,
    fold_left (fun total piece =>
      fold_left (fun total goal_piece =>
        if decide (uid piece = uid goal_piece) then
          total + (Z.abs (coord_x goal_piece - coord_x piece)
                   + Z.abs (coord_y goal_piece - coord_y piece))
        else total) (dict_values (pieces goal_board)) total) ps total
    = total + Zsum (goal_distance gd <$> ps)).
  { induction ps as [|p ps IH]; intros total; [unfold Zsum; simpl; lia|].
    rewrite fmap_cons, Zsum_cons. cbn [fold_left]. rewrite IH.
    unfold goal_distance at 2.
    destruct (gd !! uid p) as [g|] eqn:E.
    - apply Hag in E as [Hin Hu].
      rewrite (inner_loop_match p g) by assumption. lia.
    - rewrite inner_loop_no_match; [lia|].
      intros Hin. apply list_elem_of_fmap in Hin as (g & Hu & Hin).
      assert (Hsome : gd !! uid p = Some g) by (apply Hag; auto).
      congruence. }
  rewrite Hgen. lia.
Qed.

Lemma goal_lookup_Ok (b : Board) (u : positive) (g : Piece) :
  goal_lookup b u = Ok g <-> exists gd, goal_board_dict b = Some gd /\ gd !! u = Some g.
Proof.
  unfold goal_lookup. destruct (goal_board_dict b) as [gd|].
  - destruct (gd !! u) as [g'|] eqn:E; split.
    + intros [= ->]. eauto.
    + intros (gd' & [= <-] & H). congruence.
    + discriminate.
    + intros (gd' & [= <-] & H). congruence.
  - split; [discriminate | intros (gd' & [=] & _)].
Qed.

(** One legal move on a well-formed board: the incremental update of the
    heuristic gives the heuristic of the new board. *)
Lemma successor_heuristic (self s' : State) :
  wf_board (board self) -> hfn self = heuristic (board self) ->
  is_successor self s' ->
  wf_board (board s') /\ hfn s' = heuristic (board s').
Proof.
  intros Hwf Hh (p & k & Hp & Hk & g & b' & Hg & Hcopy & ->).
  destruct (copy_board_wf _ p k Hwf Hp Hk) as (b'' & Hcopy' & Hwf' & _ & Hgd & Hps).
  rewrite Hcopy in Hcopy'. injection Hcopy' as <-.
  cbn [board hfn]. split; [exact Hwf'|].
  apply goal_lookup_Ok in Hg as (gd & Hgd0 & Hlook).
  rewrite Hh. unfold heuristic. rewrite Hgd, Hgd0, Hps.
  destruct Hwf as [Hb _].
  pose proof (sound_board_get _ p Hb Hp) as Hget.
  pose proof (dict_remove_Permutation _ _ _ Hget) as Hperm.
  unfold dict_values.
  rewrite (Zsum_Permutation _ _
             (fmap_Permutation _ _ _ (fmap_Permutation snd _ _ Hperm))).
  rewrite !fmap_app, Zsum_app, !fmap_cons, !fmap_nil, !Zsum_cons. cbn [snd].
  assert (E1 : goal_distance gd p = man_dist (coord_x p) (coord_y p) g).
  { unfold goal_distance. rewrite Hlook. reflexivity. }
  assert (E2 : goal_distance gd (set_coords p k.1 k.2) = man_dist k.1 k.2 g).
  { unfold goal_distance. cbn [uid set_coords coord_x coord_y]. rewrite Hlook. reflexivity. }
  rewrite E1, E2. change (Zsum []) with 0. lia.
Qed.

Definition example_state : State := mkState example_board 3 3 0 None.

Definition example_successors : list State :=
  Eval vm_compute in
    match generate_successors example_state with
    | Ok l => l
    | Raise _ => []
    end.

Lemma example_successors_eq : generate_successors example_state = Ok example_successors.
Proof. vm_compute. reflexivity. Qed.

Lemma example_goal_agrees : goal_agrees example_goal_map example_goal.
Proof.
  split.
  - simpl. repeat (constructor; [set_solver|]). constructor.
  - intros u g. unfold example_goal_map. simpl.
    rewrite !lookup_insert_Some, lookup_empty, !elem_of_cons, elem_of_nil.
    split.
    + intros H. decompose [and or] H; subst; try discriminate; split; auto.
    + intros [H <-]. decompose [or] H; subst; simpl; try contradiction;
        intuition congruence.
Qed.

(** The states the search can hold: the root, the successors of such
    states, and such states with their priority set (as [astar] does
    before a push). *)
Inductive descends (root : State) : State -> Prop :=
| descends_root : descends root root
| descends_succ s succs s' :
    descends root s -> generate_successors s = Ok succs -> s' ∈ succs ->
    descends root s'
| descends_set_f s v : descends root s -> descends root (set_f s v).

Lemma descends_heuristic (root s : State) :
  wf_board (board root) -> hfn root = heuristic (board root) -> descends root s ->
  wf_board (board s) /\ hfn s = heuristic (board s).
Proof.
  intros Hwf Hh Hd. induction Hd as [|s succs s' _ IH Hrun Hin|s v _ IH].
  - auto.
  - destruct IH as [Hwfs Hhs]. pose proof Hwfs as [Hbs _].
    apply (successor_heuristic s s' Hwfs Hhs).
    eapply generate_successors_sound; eassumption.
  - exact IH.
Qed.

(** A layout whose single lies on a cell of the block: the loader reads
    the block at the first ['1'] and the single at ['2']. *)
Definition covered_lines : list string :=
  ["12.." +:+ newline; "11.." +:+ newline; newline;
   "11.2" +:+ newline; "11.." +:+ newline]%string.

(** C3, as stated, fails: [read_from_file] returns boards for
    [covered_lines], on which the single at (1,0) lies inside the
    footprint of the block at (0,0). The root that [output_solution]
    builds carries the heuristic of its board, 2. The slide of the block
    to the right is legal; [copy_board] stores the block under the key
    (1,0) of the single, which is lost. The first successor carries
    2 - 0 + 1 = 3, while the heuristic recomputed from scratch on its
    board is 1. *)
Lemma incremental_heuristic_lost_piece :
  match read_from_file covered_lines with
  | Ok (b, goal_board) =>
      let root := astar_root b goal_board in
      hfn root = 2 /\ heuristic (board root) = 2 /\
      match dict_get (0, 0) (pieces b), generate_successors root with
      | Some block, Ok (s' :: _) =>
          legal_destinations b block = [(1, 0)] /\
          copy_board b (1, 0) (position block) = Ok (board s') /\
          dict_keys (pieces (board s')) = [(1, 0)] /\
          hfn s' = 3 /\ heuristic (board s') = 1 /\
          init_manhattan_distance (board s') goal_board = 1
      | _, _ => False
      end
  | Raise _ => False
  end.
Proof. vm_compute. repeat split; reflexivity. Qed.

(** C3, amended: let the root of a search have a well-formed board (no
    two pieces cover a common cell) and carry the heuristic of that
    board. Then for every state [self] reached from it
    and every successor [s'] of [self]: [s'] is the move of one piece [p]
    from its position to a legal destination [k]; its heuristic, computed
    as [hfn - distance(P, goal) + distance(P', goal)] with the goal piece
    of the identity of [p], equals the heuristic recomputed from scratch
    on the new board, as the sum over the pieces of the distance to the
    goal piece of the same identity, and as [init_manhattan_distance]
    against a goal board that agrees with the goal map. The new board is
    again well-formed. *)
Theorem incremental_heuristic_is_recomputed (root self : State) (succs : list State)
    (s' : State) :
  wf_board (board root) -> hfn root = heuristic (board root) ->
  descends root self ->
  generate_successors self = Ok succs -> s' ∈ succs ->
  (exists p k g,
     p ∈ dict_values (pieces (board self)) /\ k ∈ legal_destinations (board self) p /\
     goal_lookup (board self) (uid p) = Ok g /\
     copy_board (board self) k (position p) = Ok (board s') /\
     hfn s' = hfn self - man_dist (coord_x p) (coord_y p) g + man_dist k.1 k.2 g) /\
  hfn s' = heuristic (board s') /\
  wf_board (board s') /\
  (forall goal_board gd,
     goal_board_dict (board s') = Some gd -> goal_agrees gd goal_board ->
     hfn s' = init_manhattan_distance (board s') goal_board).
Proof.
  intros Hwf0 Hh0 Hdesc Hrun Hin.
  destruct (descends_heuristic root self Hwf0 Hh0 Hdesc) as [Hwf Hh].
  pose proof Hwf as [Hb _].
  pose proof (generate_successors_sound self succs s' Hb Hrun Hin) as Hsucc.
  destruct (successor_heuristic self s' Hwf Hh Hsucc) as [Hwf' Hh'].
  split; [|split; [exact Hh'|split; [exact Hwf'|]]].
  - destruct Hsucc as (p & k & Hp & Hk & g & b' & Hg & Hcopy & ->).
    exists p, k, g. auto.
  - intros goal_board gd Hgd Hag.
    rewrite (init_manhattan_distance_heuristic _ goal_board gd Hgd Hag). exact Hh'.
Qed.

Lemma incremental_heuristic_is_recomputed_witness :
  Forall (fun s' => hfn s' = heuristic (board s') /\
                    hfn s' = init_manhattan_distance (board s') example_goal)
         example_successors /\
  length example_successors = 3%nat.
Proof.
  split; [|reflexivity].
  apply Forall_forall. intros s' Hin.
  destruct (incremental_heuristic_is_recomputed example_state example_state
              example_successors s'
              example_board_wf eq_refl (descends_root example_state)
              example_successors_eq Hin)
    as (_ & Hh & Hwf & Hinit).
  split; [exact Hh|].
  apply (Hinit example_goal example_goal_map); [|exact example_goal_agrees].
  apply list_elem_of_In in Hin. unfold example_successors in Hin.
  cbn [In] in Hin. decompose [or] Hin; subst; try reflexivity; contradiction.
Defined.

(** ** [copy_board] on piece objects: the clone owns its pieces *)

(** The addresses given to the copies: consecutive, from the first free
    one. *)
Fixpoint fresh_refs (n : nat) (ps : dict (Z * Z) addr) : dict (Z * Z) addr :=
  match ps with
  | [] => []
  | (k, _) :: ps' => (k, n) :: fresh_refs (S n) ps'
  end.

Lemma fresh_refs_keys (n : nat) (ps : dict (Z * Z) addr) :
  dict_keys (fresh_refs n ps) = dict_keys ps.
Proof.
  unfold dict_keys. revert n.
  induction ps as [|[k a] ps IH]; intros n; [reflexivity|].
  cbn [fresh_refs]. rewrite !fmap_cons, IH. reflexivity.
Qed.

Lemma fresh_refs_addrs (n : nat) (ps : dict (Z * Z) addr) :
  dict_values (fresh_refs n ps) = seq n (length ps).
Proof.
  unfold dict_values. revert n.
  induction ps as [|[k a] ps IH]; intros n; [reflexivity|].
  cbn [fresh_refs length seq]. rewrite fmap_cons, IH. reflexivity.
Qed.

Lemma deref_keys (st : Store) (ps : dict (Z * Z) addr) (L : dict (Z * Z) Piece) :
  deref st ps = Some L -> dict_keys L = dict_keys ps.
Proof.
  unfold dict_keys. revert L. induction ps as [|[k a] ps IH]; intros L; cbn [deref].
  - intros [= <-]. reflexivity.
  - destruct (st !! a) as [p|]; [|discriminate].
    destruct (deref st ps) as [qs|]; [|discriminate].
    intros [= <-]. rewrite !fmap_cons, (IH qs eq_refl). reflexivity.
Qed.

(** Allocation keeps what a board denotes. *)
Lemma deref_app_store (st st' : Store) (ps : dict (Z * Z) addr) (L : dict (Z * Z) Piece) :
  deref st ps = Some L -> deref (st ++ st') ps = Some L.
Proof.
  revert L. induction ps as [|[k a] ps IH]; intros L; simpl; [auto|].
  destruct (st !! a) as [p|] eqn:E; [|discriminate].
  destruct (deref st ps) as [qs|]; [|discriminate].
  intros [= <-]. rewrite (lookup_app_l_Some _ _ _ _ E), (IH qs eq_refl). reflexivity.
Qed.

Lemma deref_app (st : Store) (ps qs : dict (Z * Z) addr) (L M : dict (Z * Z) Piece) :
  deref st ps = Some L -> deref st qs = Some M -> deref st (ps ++ qs) = Some (L ++ M).
Proof.
  revert L. induction ps as [|[k a] ps IH]; intros L; simpl.
  - intros [= <-] HM. exact HM.
  - destruct (st !! a) as [p|]; [|discriminate].
    destruct (deref st ps) as [L'|]; [|discriminate].
    intros [= <-] HM. rewrite (IH L' eq_refl HM). reflexivity.
Qed.

(** Overwriting an object that a board does not refer to keeps what the
    board denotes. *)
Lemma deref_insert_other (st : Store) (a0 : addr) (q : Piece) (ps : dict (Z * Z) addr) :
  a0 ∉ dict_values ps -> deref (<[a0 := q]> st) ps = deref st ps.
Proof.
  unfold dict_values. induction ps as [|[k a] ps IH]; [reflexivity|].
  rewrite fmap_cons, not_elem_of_cons. cbn [snd deref]. intros [Hne Hno].
  rewrite list_lookup_insert_ne by congruence. rewrite IH by assumption. reflexivity.
Qed.

Lemma deref_remove (st : Store) (ps : dict (Z * Z) addr) (L : dict (Z * Z) Piece) (k : Z * Z) :
  deref st ps = Some L -> deref st (dict_remove k ps) = Some (dict_remove k L).
Proof.
  revert L. induction ps as [|[k' a] ps IH]; intros L; simpl.
  - intros [= <-]. reflexivity.
  - destruct (st !! a) as [p|] eqn:E; [|discriminate].
    destruct (deref st ps) as [qs|] eqn:Eq; [|discriminate].
    intros [= <-]. simpl. case_decide; [exact Eq|].
    cbn [deref]. rewrite E, (IH qs eq_refl). reflexivity.
Qed.

Lemma deref_get (st : Store) (ps : dict (Z * Z) addr) (L : dict (Z * Z) Piece)
    (k : Z * Z) (p : Piece) :
  deref st ps = Some L -> dict_get k L = Some p ->
  exists a, dict_get k ps = Some a /\ st !! a = Some p.
Proof.
  revert L. induction ps as [|[k' a] ps IH]; intros L; simpl.
  - intros [= <-]. discriminate.
  - destruct (st !! a) as [p'|] eqn:E; [|discriminate].
    destruct (deref st ps) as [qs|] eqn:Eq; [|discriminate].
    intros [= <-]. simpl. case_decide.
    + intros [= <-]. eauto.
    + intros Hget. apply (IH qs eq_refl Hget).
Qed.

Lemma deref_fresh_refs (st : Store) (ps : dict (Z * Z) addr) (L : dict (Z * Z) Piece) :
  deref st ps = Some L ->
  deref (st ++ dict_values L) (fresh_refs (length st) ps) = Some L.
Proof.
  revert st L. induction ps as [|[k a] ps IH]; intros st L; cbn [deref fresh_refs].
  - intros [= <-]. reflexivity.
  - destruct (st !! a) as [p|] eqn:E; [|discriminate].
    destruct (deref st ps) as [qs|] eqn:Eq; [|discriminate].
    intros [= <-]. unfold dict_values. rewrite fmap_cons. cbn [snd].
    rewrite list_lookup_middle by reflexivity.
    replace (st ++ p :: qs.*2) with ((st ++ [p]) ++ qs.*2) by (rewrite <- app_assoc; reflexivity).
    replace (S (length st)) with (length (st ++ [p])) by (rewrite length_app; simpl; lia).
    fold (dict_values qs). rewrite (IH (st ++ [p]) qs); [reflexivity|].
    apply deref_app_store, Eq.
Qed.

Lemma load_Some (st : Store) (a : addr) (p : Piece) : st !! a = Some p -> load st a = Ok p.
Proof. intros E. unfold load. rewrite E. reflexivity. Qed.

Lemma load_all_deref (st : Store) (ps : dict (Z * Z) addr) (L : dict (Z * Z) Piece) :
  deref st ps = Some L -> load_all st ps = Ok (dict_values L).
Proof.
  unfold load_all.
  assert (Hgen : forall acc L, deref st ps = Some L ->
    for_each (fun acc a => p ← load st a; Ok (acc ++ [p])) (dict_values ps) acc
    = Ok (acc ++ dict_values L)).
  { unfold dict_values. induction ps as [|[k a] ps IH]; intros acc L0; cbn [deref].
    - intros [= <-]. rewrite app_nil_r. reflexivity.
    - destruct (st !! a) as [p|] eqn:E; [|discriminate].
      destruct (deref st ps) as [qs|] eqn:Eq; [|discriminate].
      intros [= <-]. rewrite !fmap_cons. cbn [for_each snd].
      rewrite (load_Some st a p E). cbn [mbind res_bind].
      rewrite (IH (acc ++ [p]) qs eq_refl), <- app_assoc. reflexivity. }
  intros HL. apply (Hgen [] L HL).
Qed.

Lemma update_grid_ref_deref (st : Store) (b : BoardRef) (L : dict (Z * Z) Piece) :
  deref st (r_pieces b) = Some L ->
  update_grid_ref st b =
    g ← derive_grid (r_width b) (r_height b) L;
    Ok {| r_width := r_width b; r_height := r_height b; r_pieces := r_pieces b;
          r_goal_board_dict := r_goal_board_dict b; r_grid := g |}.
Proof.
  intros HL. unfold update_grid_ref. rewrite (load_all_deref st _ L HL). reflexivity.
Qed.

Lemma copy_loop (st : Store) (ps acc : dict (Z * Z) addr) (L : dict (Z * Z) Piece) :
  deref st ps = Some L -> NoDup (dict_keys ps) ->
  (forall k, k ∈ dict_keys ps -> k ∉ dict_keys acc) ->
  for_each copy_entry ps (st, acc)
  = Ok (st ++ dict_values L, acc ++ fresh_refs (length st) ps).
Proof.
  revert st acc L. induction ps as [|[k a] ps IH]; intros st acc L;
    cbn [deref for_each fresh_refs].
  - intros [= <-] _ _. rewrite !app_nil_r. reflexivity.
  - destruct (st !! a) as [p|] eqn:E; [|discriminate].
    destruct (deref st ps) as [qs|] eqn:Eq; [|discriminate].
    intros [= <-] Hnd Hacc. unfold dict_keys in Hnd. rewrite fmap_cons in Hnd.
    apply NoDup_cons in Hnd as [Hk Hnd].
    assert (Hstep : copy_entry (st, acc) (k, a) = Ok (st ++ [p], acc ++ [(k, length st)])).
    { unfold copy_entry. cbn [fst snd]. rewrite (load_Some st a p E).
      cbn [mbind res_bind new_piece]. rewrite copy_piece_id.
      rewrite dict_set_fresh by (apply Hacc; unfold dict_keys; rewrite fmap_cons; left).
      reflexivity. }
    rewrite Hstep. cbn [mbind res_bind].
    rewrite (IH (st ++ [p]) (acc ++ [(k, length st)]) qs).
    + rewrite length_app. cbn [length]. rewrite Nat.add_1_r.
      unfold dict_values. rewrite fmap_cons, <- !app_assoc. reflexivity.
    + apply deref_app_store, Eq.
    + exact Hnd.
    + intros k' Hk'. unfold dict_keys. rewrite fmap_app, not_elem_of_app. split.
      * apply Hacc. unfold dict_keys. rewrite fmap_cons. right. exact Hk'.
      * rewrite fmap_cons, fmap_nil, list_elem_of_singleton. cbn [fst].
        intros ->. contradiction.
Qed.

Lemma deref_addrs_valid (st : Store) (ps : dict (Z * Z) addr) (L : dict (Z * Z) Piece) :
  deref st ps = Some L -> Forall (fun a => (a < length st)%nat) (dict_values ps).
Proof.
  unfold dict_values. revert L. induction ps as [|[k a] ps IH]; intros L; cbn [deref].
  - intros _. constructor.
  - destruct (st !! a) as [p|] eqn:E; [|discriminate].
    destruct (deref st ps) as [qs|] eqn:Eq; [|discriminate].
    intros _. rewrite fmap_cons. constructor.
    + apply lookup_lt_Some in E. exact E.
    + apply (IH qs eq_refl).
Qed.

Lemma dict_values_Permutation {V : Type} (d1 d2 : dict (Z * Z) V) :
  d1 ≡ₚ d2 -> dict_values d1 ≡ₚ dict_values d2.
Proof. intros H. unfold dict_values. rewrite H. reflexivity. Qed.

(** Two singles side by side on one row, as objects 0 and 1 of a store. *)
Definition pair_store : Store :=
  [mkPiece false true 0 0 None 1; mkPiece false true 1 0 None 2].

Definition pair_board : BoardRef :=
  {| r_width := 4; r_height := 1; r_pieces := [((0, 0), 0%nat); ((1, 0), 1%nat)];
     r_goal_board_dict := None; r_grid := [["2"; "2"; "."; "."]]%char |}.

(** C4, as stated, fails for some new positions. Moving the piece keyed
    (0,0) to the key (1,0) of the other piece replaces that piece: the
    clone has one piece and the identity 2 is gone. Moving it to (7,0),
    outside the grid, raises [IndexError] and produces no board. *)
Lemma copy_board_drops_piece :
  (exists st' b' B',
     copy_board_ref pair_store pair_board (1, 0) (0, 0) = Ok (st', b') /\
     board_of st' b' = Some B' /\
     uid <$> dict_values (pieces B') = [1%positive]) /\
  copy_board_ref pair_store pair_board (7, 0) (0, 0) = Raise IndexError.
Proof.
  split; [|reflexivity].
  eexists _, _, _. split; [reflexivity|]. split; reflexivity.
Qed.

(** C4, amended: for a board whose pieces fit the grid, a key [old] of
    its mapping with piece [p], and a new position that is not the key of
    another piece and at which [p] fits the grid, [copy_board] returns a
    board whose mapping is the source's without the entry of [old],
    followed by [p] at the new position: the other pieces keep key,
    position and identity, the piece count and the identities are those
    of the source, and the grid is derived from the new mapping. The
    piece objects of the clone are all new, and no object that existed
    before the call is changed, so the source denotes the same board as
    before. The result is the one of the value-level [copy_board]. *)
Theorem copy_board_clones (st : Store) (self : BoardRef) (B : Board)
    (new_key old : Z * Z) (p : Piece) :
  board_of st self = Some B ->
  NoDup (dict_keys (pieces B)) ->
  Forall nonneg (dict_values (pieces B)) ->
  Forall (in_grid 4 (height B)) (occupied (pieces B)) ->
  dict_get old (pieces B) = Some p ->
  new_key ∉ dict_keys (dict_remove old (pieces B)) ->
  0 <= new_key.1 -> 0 <= new_key.2 ->
  Forall (in_grid 4 (height B)) (footprint (set_coords p new_key.1 new_key.2)) ->
  exists st' b' B',
    copy_board_ref st self new_key old = Ok (st', b') /\
    board_of st' b' = Some B' /\
    copy_board B new_key old = Ok B' /\
    pieces B' = dict_remove old (pieces B) ++ [(new_key, set_coords p new_key.1 new_key.2)] /\
    length (pieces B') = length (pieces B) /\
    uid <$> dict_values (pieces B') ≡ₚ uid <$> dict_values (pieces B) /\
    height B' = height B /\ goal_board_dict B' = goal_board_dict B /\
    derive_grid (width B') (height B') (pieces B') = Ok (grid B') /\
    Forall (fun a => (length st <= a)%nat) (dict_values (r_pieces b')) /\
    (forall a, (a < length st)%nat -> st' !! a = st !! a) /\
    board_of st' self = Some B.
Proof.
  intros HB Hnd Hnn Hocc Hget Hfresh Hx Hy Hfp.
  unfold board_of in HB.
  destruct (deref st (r_pieces self)) as [L|] eqn:HL; [|discriminate].
  injection HB as <-. cbn [pieces height goal_board_dict] in *.
  set (p' := set_coords p new_key.1 new_key.2) in *.
  set (st1 := st ++ dict_values L).
  set (pieces0 := fresh_refs (length st) (r_pieces self)).
  set (rest := dict_remove old pieces0).
  (* the copies *)
  assert (Hloop : for_each copy_entry (r_pieces self) (st, []) = Ok (st1, pieces0)).
  { rewrite (copy_loop st (r_pieces self) [] L HL).
    - reflexivity.
    - rewrite <- (deref_keys _ _ _ HL). exact Hnd.
    - intros k _. apply not_elem_of_nil. }
  assert (HL0 : deref st1 pieces0 = Some L) by (apply deref_fresh_refs, HL).
  destruct (deref_get st1 pieces0 L old p HL0 Hget) as (am & Hgetm & Ham).
  assert (Hvals0 : dict_values pieces0 = seq (length st) (length (r_pieces self)))
    by apply fresh_refs_addrs.
  pose proof (dict_values_Permutation _ _ (dict_remove_Permutation _ _ _ Hgetm)) as Hpermv.
  fold rest in Hpermv. unfold dict_values at 2 in Hpermv.
  rewrite fmap_cons in Hpermv. cbn [snd] in Hpermv. fold (dict_values rest) in Hpermv.
  assert (Hndv : NoDup (am :: dict_values rest)).
  { rewrite <- Hpermv, Hvals0. apply NoDup_seq. }
  apply NoDup_cons in Hndv as [Ham_rest _].
  assert (Hge : forall a, a ∈ am :: dict_values rest -> (length st <= a)%nat).
  { intros a Ha. rewrite <- Hpermv, Hvals0 in Ha. apply elem_of_seq in Ha. lia. }
  assert (Hrest : deref st1 rest = Some (dict_remove old L)) by (apply deref_remove, HL0).
  assert (Hkeys_rest : dict_keys rest = dict_keys (dict_remove old L)).
  { symmetry. apply (deref_keys st1), Hrest. }
  assert (Hpieces1 : dict_set new_key am rest = rest ++ [(new_key, am)]).
  { apply dict_set_fresh. rewrite Hkeys_rest. exact Hfresh. }
  set (st2 := <[am := p']> st1).
  assert (Hlt : (am < length st1)%nat) by (apply lookup_lt_Some in Ham; exact Ham).
  assert (HL2 : deref st2 (rest ++ [(new_key, am)]) = Some (dict_remove old L ++ [(new_key, p')])).
  { apply deref_app.
    - unfold st2. rewrite deref_insert_other by exact Ham_rest. exact Hrest.
    - cbn [deref]. unfold st2. rewrite list_lookup_insert_eq by exact Hlt. reflexivity. }
  (* the pure clone *)
  destruct (copy_board_Ok
              {| width := r_width self; height := r_height self; pieces := L;
                 goal_board_dict := r_goal_board_dict self; grid := r_grid self |}
              new_key old p Hnn Hocc Hget Hx Hy Hfp) as (g & Hg & Hpure).
  cbn [pieces height goal_board_dict] in Hg, Hpure.
  unfold moved_pieces in Hg, Hpure. fold p' in Hg, Hpure.
  rewrite (dict_set_fresh _ _ _ Hfresh) in Hg, Hpure.
  assert (Hinit : derive_grid 4 (r_height self) L
                  = Ok (fold_left paint (all_writes L) (blank_grid 4 (r_height self)))).
  { rewrite derive_grid_paint by assumption.
    rewrite bool_decide_eq_true_2 by assumption. reflexivity. }
  (* the run *)
  assert (Hrun : copy_board_ref st self new_key old
                 = Ok (st2, {| r_width := 4; r_height := r_height self;
                               r_pieces := rest ++ [(new_key, am)];
                               r_goal_board_dict := r_goal_board_dict self;
                               r_grid := g |})).
  { unfold copy_board_ref. rewrite Hloop. cbn [mbind res_bind].
    unfold BoardRef_init. erewrite update_grid_ref_deref by (cbn [r_pieces]; exact HL0).
    cbn [r_width r_height r_pieces r_goal_board_dict]. rewrite Hinit.
    cbn [mbind res_bind r_width r_height r_pieces r_goal_board_dict r_grid].
    unfold dict_pop. rewrite Hgetm. cbn [mbind res_bind]. fold rest.
    rewrite Hpieces1.
    assert (Hgetn : dict_get new_key (rest ++ [(new_key, am)]) = Some am).
    { rewrite <- Hpieces1. apply dict_get_set. }
    rewrite Hgetn, (load_Some st1 am p Ham). cbn [mbind res_bind]. fold p' st2.
    erewrite update_grid_ref_deref by (cbn [r_pieces]; exact HL2).
    cbn [r_width r_height r_pieces r_goal_board_dict]. rewrite Hg. reflexivity. }
  pose proof (dict_remove_Permutation _ _ _ Hget) as HpermL.
  eexists _, _, _. split; [exact Hrun|].
  split; [unfold board_of; cbn [r_pieces]; rewrite HL2; reflexivity|].
  cbn [r_width r_height r_goal_board_dict r_grid pieces height width goal_board_dict grid].
  split; [exact Hpure|]. split; [reflexivity|].
  split.
  { rewrite length_app. cbn [length]. rewrite (Permutation_length HpermL). cbn [length]. lia. }
  split.
  { rewrite (dict_values_Permutation _ _ HpermL).
    unfold dict_values. rewrite !fmap_app, !fmap_cons, !fmap_nil. cbn [snd].
    rewrite <- Permutation_cons_append. reflexivity. }
  split; [reflexivity|]. split; [reflexivity|]. split; [exact Hg|].
  split.
  { cbn [r_pieces]. unfold dict_values. rewrite fmap_app, fmap_cons, fmap_nil. cbn [snd].
    apply Forall_app. split.
    - apply Forall_forall. intros a Ha. apply Hge. right. exact Ha.
    - constructor; [apply Hge; left | constructor]. }
  assert (Hframe : forall a, (a < length st)%nat -> st2 !! a = st !! a).
  { intros a Ha. unfold st2, st1.
    rewrite list_lookup_insert_ne by (specialize (Hge am (list_elem_of_here _ _)); lia).
    apply lookup_app_l. exact Ha. }
  split; [exact Hframe|].
  unfold board_of.
  assert (Hself : deref st2 (r_pieces self) = Some L).
  { unfold st2. rewrite deref_insert_other.
    - apply deref_app_store, HL.
    - intros Hin. pose proof (deref_addrs_valid _ _ _ HL) as Hvalid.
      rewrite Forall_forall in Hvalid. specialize (Hvalid _ Hin).
      specialize (Hge am (list_elem_of_here _ _)). lia. }
  rewrite Hself. reflexivity.
Qed.

Lemma copy_board_clones_witness :
  exists st' b' B',
    copy_board_ref pair_store pair_board (2, 0) (1, 0) = Ok (st', b') /\
    board_of st' b' = Some B' /\
    pieces B' = [((0, 0), mkPiece false true 0 0 None 1);
                 ((2, 0), mkPiece false true 2 0 None 2)] /\
    grid B' = [["2"; "."; "2"; "."]]%char /\
    st' !! 0%nat = Some (mkPiece false true 0 0 None 1) /\
    st' !! 1%nat = Some (mkPiece false true 1 0 None 2).
Proof.
  destruct (copy_board_clones pair_store pair_board
              {| width := 4; height := 1;
                 pieces := [((0, 0), mkPiece false true 0 0 None 1);
                            ((1, 0), mkPiece false true 1 0 None 2)];
                 goal_board_dict := None; grid := [["2"; "2"; "."; "."]]%char |}
              (2, 0) (1, 0) (mkPiece false true 1 0 None 2))
    as (st' & b' & B' & Hrun & Hbo & _ & Hps & _ & _ & Hh & _ & Hg & _ & Hframe & _).
  - reflexivity.
  - simpl. repeat (constructor; [set_solver|]). constructor.
  - repeat constructor; simpl; lia.
  - repeat constructor; simpl; lia.
  - reflexivity.
  - simpl. set_solver.
  - simpl. lia.
  - simpl. lia.
  - repeat constructor; simpl; lia.
  - exists st', b', B'. split; [exact Hrun|]. split; [exact Hbo|].
    split; [exact Hps|]. split.
    + unfold board_of in Hbo.
      vm_compute in Hrun. injection Hrun as <- <-.
      vm_compute in Hbo. injection Hbo as <-. reflexivity.
    + split; rewrite Hframe by (simpl; lia); reflexivity.
Defined.

(** ** The loader: the boards it returns *)

Lemma enumerate_from_nonneg {A : Type} (x0 : Z) (l : list A) :
  0 <= x0 -> Forall (fun xc : Z * A => 0 <= xc.1) (enumerate_from x0 l).
Proof.
  revert x0. induction l as [|a l IH]; intros x0 Hx; simpl; constructor.
  - exact Hx.
  - apply IH. lia.
Qed.

Lemma fold_left_invariant {A S : Type} (I : S -> Prop) (P : A -> Prop)
    (step : S -> A -> S) (xs : list A) (s : S) :
  (forall s x, I s -> P x -> I (step s x)) -> I s -> Forall P xs -> I (fold_left step xs s).
Proof.
  intros Hstep. revert s. induction xs as [|x xs IH]; intros s Hs Hxs; simpl; [exact Hs|].
  inversion Hxs; subst. apply IH; auto.
Qed.

(** What the loader maintains about the two layouts: the line index is
    not negative; every entry of either layout is keyed by the position
    of its piece, which has a shape and non-negative coordinates; the keys
    are distinct; every goal piece has an entry in the goal map. *)
Definition layout_ok (ps : dict (Z * Z) Piece) : Prop :=
  Forall (fun kp : (Z * Z) * Piece => kp.1 = position kp.2 /\ valid_piece kp.2) ps /\
  NoDup (dict_keys ps).

Record loader_ok (st : Loader) : Prop := {
  lo_line : 0 <= ld_line_index st;
  lo_pieces : layout_ok (ld_pieces st);
  lo_final : layout_ok (ld_final_pieces st);
  lo_goal : Forall (fun kp : (Z * Z) * Piece =>
                      is_Some (ld_goal_board_dict st !! uid kp.2)) (ld_final_pieces st)
}.

Lemma layout_ok_nil : layout_ok [].
Proof. split; [constructor | apply NoDup_nil_2]. Qed.

Lemma layout_ok_set (ps : dict (Z * Z) Piece) (p : Piece) :
  layout_ok ps -> valid_piece p -> layout_ok (dict_set (position p) p ps).
Proof.
  intros [Hall Hnd] Hp. split.
  - apply Forall_dict_set; [exact Hall | split; [reflexivity | exact Hp]].
  - apply dict_set_NoDup, Hnd.
Qed.

Lemma loader_init_ok : loader_ok loader_init.
Proof.
  constructor; simpl; [lia | apply layout_ok_nil | apply layout_ok_nil | constructor].
Qed.

Ltac valid_new_piece :=
  split; [split; simpl; lia | eexists; reflexivity].

Lemma initial_char_ok (st : Loader) (x : Z) (ch : ascii) :
  loader_ok st -> 0 <= x -> loader_ok (initial_char st x ch).
Proof.
  intros [Hli Hps Hfs Hg] Hx. destruct st; simpl in *.
  unfold initial_char.
  repeat case_match; constructor; simpl; try assumption;
    match goal with
    | |- layout_ok (dict_set (?x, ?y) ?p _) =>
        apply (layout_ok_set _ p); [assumption | valid_new_piece]
    end.
Qed.

Lemma Forall_goal_insert (gd : gmap positive Piece) (u : positive) (g : Piece)
    (ps : dict (Z * Z) Piece) :
  Forall (fun kp : (Z * Z) * Piece => is_Some (gd !! uid kp.2)) ps ->
  Forall (fun kp : (Z * Z) * Piece => is_Some (<[u := g]> gd !! uid kp.2)) ps.
Proof.
  intros H. eapply Forall_impl; [exact H|]. intros kp Hkp. cbn beta in *.
  destruct (decide (u = uid kp.2)) as [->|Hne].
  - rewrite lookup_insert_eq. eauto.
  - rewrite lookup_insert_ne by assumption. exact Hkp.
Qed.

Lemma list_pop_Ok {A : Type} (l : list A) (i : nat) (a : A) (l' : list A) :
  list_pop l i = Ok (a, l') -> l !! i = Some a /\ l' = delete i l.
Proof.
  unfold list_pop. destruct (l !! i) as [a0|]; [|discriminate].
  intros [= <- <-]. auto.
Qed.

Lemma goal_char_ok (st st' : Loader) (x : Z) (ch : ascii) :
  loader_ok st -> 0 <= x -> goal_char st x ch = Ok st' -> loader_ok st'.
Proof.
  intros [Hli Hps Hfs Hg] Hx. destruct st; simpl in *.
  unfold goal_char.
  repeat case_match; intros Hrun; simplify_eq/=;
    repeat match goal with
    | H : _ ≫= _ = Ok _ |- _ => apply bind_Ok in H as ([? ?] & ? & ?); simplify_eq/=
    end;
    try (constructor; simpl; assumption);
    (constructor; simpl;
      [ assumption | assumption
      | match goal with
        | |- layout_ok (dict_set (?x, ?y) ?p _) =>
            apply (layout_ok_set _ p); [assumption | valid_new_piece]
        end
      | apply Forall_dict_set;
          [apply Forall_goal_insert; assumption
          | simpl; rewrite lookup_insert_eq; eauto] ]).
Qed.

Lemma bump_height_ok (st : Loader) : loader_ok st -> loader_ok (bump_height st).
Proof. intros [? ? ? ?]. destruct st; constructor; simpl in *; assumption. Qed.

Lemma start_goal_ok (st : Loader) : loader_ok st -> loader_ok (start_goal st).
Proof. intros [? ? ? ?]. destruct st; constructor; simpl in *; try assumption; lia. Qed.

Lemma next_line_ok (st : Loader) : loader_ok st -> loader_ok (next_line st).
Proof. intros [? ? ? ?]. destruct st; constructor; simpl in *; try assumption; lia. Qed.

Lemma read_line_ok (st st' : Loader) (line : string) :
  loader_ok st -> read_line st line = Ok st' -> loader_ok st'.
Proof.
  intros Hst. unfold read_line.
  pose proof (bump_height_ok st Hst) as Hb.
  destruct (String.eqb line newline).
  - intros [= <-]. destruct (ld_final (bump_height st)); auto using start_goal_ok.
  - intros Hrun. apply bind_Ok in Hrun as (st1 & Hchars & [= <-]).
    apply next_line_ok.
    pose proof (enumerate_from_nonneg 0 (list_ascii_of_string line) (Z.le_refl 0)) as Hnn.
    destruct (ld_final (bump_height st)).
    + eapply (for_each_preserves loader_ok); [| exact Hb | exact Hnn | exact Hchars].
      intros s xc s' Hs Hxc Hstep. exact (goal_char_ok s s' xc.1 xc.2 Hs Hxc Hstep).
    + injection Hchars as <-.
      apply (fold_left_invariant loader_ok (fun xc : Z * ascii => 0 <= xc.1));
        [|exact Hb|exact Hnn].
      intros s xc Hs Hxc. apply initial_char_ok; assumption.
Qed.

Lemma read_lines_ok (lines : list string) (st : Loader) :
  for_each read_line lines loader_init = Ok st -> loader_ok st.
Proof.
  apply (for_each_preserves loader_ok (fun _ => True)).
  - intros s line s' Hs _ Hstep. eapply read_line_ok; eassumption.
  - apply loader_init_ok.
  - apply Forall_forall. auto.
Qed.

Lemma Board_init_sound (h : Z) (ps : dict (Z * Z) Piece) (gd : option (gmap positive Piece))
    (b : Board) :
  layout_ok ps -> Board_init h ps gd = Ok b ->
  sound_board b /\ height b = h /\ pieces b = ps /\ goal_board_dict b = gd.
Proof.
  intros [Hall Hnd] Hinit. unfold Board_init, update_grid in Hinit.
  cbn [width height pieces goal_board_dict] in Hinit.
  apply bind_Ok in Hinit as (g & Hg & [= <-]).
  split; [|auto]. constructor; cbn [width height pieces goal_board_dict grid with_grid].
  - reflexivity.
  - apply Forall_dict_values. eapply Forall_impl; [exact Hall|]. intros kp [_ H]. exact H.
  - eapply Forall_impl; [exact Hall|]. intros kp [H _]. exact H.
  - exact Hnd.
  - exact Hg.
Qed.

(** The boards returned by [read_from_file] are sound, the live board
    carries the goal map, and every piece of the goal board has an entry
    in that map. *)
Lemma read_from_file_sound (lines : list string) (b goal_board : Board) :
  read_from_file lines = Ok (b, goal_board) ->
  sound_board b /\ sound_board goal_board /\
  exists gd, goal_board_dict b = Some gd /\
    forall g, g ∈ dict_values (pieces goal_board) -> is_Some (gd !! uid g).
Proof.
  unfold read_from_file. intros Hrun.
  apply bind_Ok in Hrun as (st & Hlines & Hrun).
  apply bind_Ok in Hrun as (b1 & Hb1 & Hrun).
  apply bind_Ok in Hrun as (b2 & Hb2 & [= <- <-]).
  destruct (read_lines_ok lines st Hlines) as [_ Hps Hfs Hgoal].
  destruct (Board_init_sound _ _ _ _ Hps Hb1) as (Hs1 & _ & _ & Hgd1).
  destruct (Board_init_sound _ _ _ _ Hfs Hb2) as (Hs2 & _ & Hp2 & _).
  split; [exact Hs1|]. split; [exact Hs2|].
  exists (ld_goal_board_dict st). split; [exact Hgd1|].
  intros g Hg. rewrite Hp2 in Hg. unfold dict_values in Hg.
  apply list_elem_of_fmap in Hg as (kp & -> & Hin).
  rewrite Forall_forall in Hgoal. apply Hgoal, Hin.
Qed.

(** ** The goal map along the search *)

Lemma moved_pieces_values (ps : dict (Z * Z) Piece) (k old : Z * Z) (p q : Piece) :
  q ∈ dict_values (moved_pieces ps k old p) ->
  q = set_coords p k.1 k.2 \/ q ∈ dict_values ps.
Proof.
  unfold dict_values, moved_pieces. rewrite !list_elem_of_fmap.
  intros (kq & -> & Hin).
  destruct (elem_dict_set _ _ _ _ Hin) as [->|Hin']; [left; reflexivity|].
  right. exists kq. split; [reflexivity|]. eapply elem_dict_remove, Hin'.
Qed.

Lemma successor_keeps_goal (self s' : State) :
  sound_board (board self) -> goal_complete (board self) -> is_successor self s' ->
  sound_board (board s') /\ goal_complete (board s') /\
  goal_board_dict (board s') = goal_board_dict (board self).
Proof.
  intros Hb Hgc (p & k & Hp & Hk & g & b' & Hg & Hcopy & ->).
  destruct (copy_board_sound _ p k Hb Hp Hk) as (b'' & Hcopy' & Hb' & _ & Hgd & Hps).
  rewrite Hcopy in Hcopy'. injection Hcopy' as <-. cbn [board].
  split; [exact Hb'|]. split; [|exact Hgd].
  intros q Hq. rewrite Hps in Hq.
  unfold goal_lookup. rewrite Hgd. fold (goal_lookup (board self) (uid q)).
  apply moved_pieces_values in Hq as [->|Hq]; [apply (Hgc p Hp) | apply (Hgc q Hq)].
Qed.


(** A layout with a single and a goal layout without one. *)
Definition unmatched_lines : list string :=
  ["2..." +:+ newline; newline; "...." +:+ newline]%string.


Definition example_lines : list string :=
  ["2..." +:+ newline; "11^." +:+ newline; "11v." +:+ newline; newline;
   "..2." +:+ newline; "11.^" +:+ newline; "11.v" +:+ newline]%string.

Lemma example_lines_load : read_from_file example_lines = Ok (example_board, example_goal).
Proof. vm_compute. reflexivity. Qed.



(** ** Identity assignment: greedy nearest-first matching *)

(** [m], at index [i] of the pool, is the candidate nearest to [(x, y)],
    and the earliest one among the nearest. *)
Definition nearest_first (pool : list Piece) (x y : Z) (i : nat) (m : Piece) : Prop :=
  pool !! i = Some m /\
  (forall j q, pool !! j = Some q -> man_dist x y m <= man_dist x y q) /\
  (forall j q, (j < i)%nat -> pool !! j = Some q -> man_dist x y m < man_dist x y q).

Lemma find_min_loop_spec (done todo : list Piece) (x y : Z) (min_i : nat) (min_dist : option Z) :
  (done = [] /\ min_dist = None \/
   exists m, min_dist = Some (man_dist x y m) /\ nearest_first done x y min_i m) ->
  todo <> [] \/ done <> [] ->
  exists m, nearest_first (done ++ todo) x y
              (find_min_loop todo x y (length done) min_i min_dist) m.
Proof.
  revert done min_i min_dist.
  induction todo as [|p todo IH]; intros done min_i min_dist Hinv Hne.
  - simpl. rewrite app_nil_r.
    destruct Hinv as [[-> _]|(m & _ & Hm)]; [destruct Hne; congruence | eauto].
  - cbn [find_min_loop]. fold (man_dist x y p).
    replace (done ++ p :: todo) with ((done ++ [p]) ++ todo)
      by (rewrite <- app_assoc; reflexivity).
    replace (S (length done)) with (length (done ++ [p]))
      by (rewrite length_app; simpl; lia).
    destruct (lt_inf (man_dist x y p) min_dist) eqn:Hlt.
    + apply IH; [|right; destruct done; discriminate].
      right. exists p. split; [reflexivity|]. split; [|split].
      * apply list_lookup_middle. reflexivity.
      * intros j q Hq. apply lookup_snoc_Some in Hq as [[Hj Hq]|[_ <-]]; [|lia].
        destruct Hinv as [[-> _]|(m & -> & _ & Hmin & _)]; [discriminate|].
        simpl in Hlt. apply Z.ltb_lt in Hlt. specialize (Hmin j q Hq). lia.
      * intros j q Hj Hq. rewrite lookup_app_l in Hq by exact Hj.
        destruct Hinv as [[-> _]|(m & -> & _ & Hmin & _)]; [discriminate|].
        simpl in Hlt. apply Z.ltb_lt in Hlt. specialize (Hmin j q Hq). lia.
    + destruct Hinv as [[_ ->]|(m & -> & Hi & Hmin & Hfirst)]; [discriminate|].
      simpl in Hlt. apply Z.ltb_ge in Hlt.
      apply IH; [|right; destruct done; discriminate].
      right. exists m. split; [reflexivity|]. split; [|split].
      * apply lookup_app_l_Some, Hi.
      * intros j q Hq. apply lookup_snoc_Some in Hq as [[Hj Hq]|[_ <-]]; [eauto | lia].
      * intros j q Hj Hq. apply lookup_lt_Some in Hi.
        rewrite lookup_app_l in Hq by lia. eauto.
Qed.

(** [find_min_index] returns the index of the nearest candidate, the
    earliest one in case of a tie. *)
Lemma find_min_index_nearest (pool : list Piece) (x y : Z) :
  pool <> [] -> exists m, nearest_first pool x y (find_min_index pool x y) m.
Proof.
  intros Hne. unfold find_min_index.
  apply (find_min_loop_spec [] pool x y 0 None); auto.
Qed.


(** The matching state: the candidate pools (the initial pieces not yet
    matched, by shape, in load order) and the goal map built so far. The
    block is a pool of at most one piece. *)
Record Matching : Type := mkMatching {
  m_vert : list Piece;
  m_hori : list Piece;
  m_singles : list Piece;
  m_double : option Piece;
  m_block_matched : bool;
  m_goal : gmap positive Piece
}.

Definition matching_of (st : Loader) : Matching :=
  {| m_vert := ld_vert st; m_hori := ld_hori st; m_singles := ld_singles st;
     m_double := ld_double st; m_block_matched := ld_finalfound_2by2 st;
     m_goal := ld_goal_board_dict st |}.

Definition pool (s : shape) (M : Matching) : list Piece :=
  match s with
  | Vertical => m_vert M
  | Horizontal => m_hori M
  | Single => m_singles M
  | Block =>
      match m_double M with
      | Some d => if m_block_matched M then [] else [d]
      | None => []
      end
  end.

(** The record of a goal piece of shape [s] at [(x, y)] with identity [u]. *)
Definition goal_record (s : shape) (x y : Z) (u : positive) : Piece :=
  match s with
  | Block => mkPiece true false x y None u
  | Single => mkPiece false true x y None u
  | Horizontal => mkPiece false false x y (Some "h"%string) u
  | Vertical => mkPiece false false x y (Some "v"%string) u
  end.

(** One step of the greedy matching, for the goal piece of shape [s] at
    [(x, y)]: the nearest candidate of that shape, the earliest among the
    nearest, is removed from its pool and the goal map sends its identity
    to the record of the goal piece. *)
Definition match_piece (M : Matching) (gp : shape * Z * Z) (M' : Matching) : Prop :=
  let '(s, x, y) := gp in
  exists i m,
    nearest_first (pool s M) x y i m /\
    pool s M' = delete i (pool s M) /\
    (forall s', s' <> s -> pool s' M' = pool s' M) /\
    m_goal M' = <[uid m := goal_record s x y (uid m)]> (m_goal M).

(** The matching over the goal pieces in file order. *)
Inductive greedy_run : Matching -> list (shape * Z * Z) -> Matching -> Prop :=
| greedy_done M : greedy_run M [] M
| greedy_next M gp M1 gps M' :
    match_piece M gp M1 -> greedy_run M1 gps M' -> greedy_run M (gp :: gps) M'.

(** The goal piece a character of the goal layout stands for. Only the
    first ['1'] of the layout is the block (its top-left cell). *)
Definition char_piece (block_seen : bool) (ch : ascii) : option shape :=
  if Ascii.eqb ch "^" then Some Vertical
  else if Ascii.eqb ch "<" then Some Horizontal
  else if Ascii.eqb ch char_single then Some Single
  else if Ascii.eqb ch "1" then (if block_seen then None else Some Block)
  else None.

Definition block_seen_after (block_seen : bool) (ch : ascii) : bool :=
  block_seen || Ascii.eqb ch "1".

(** The goal pieces among the cells of the goal layout, in file order. *)
Fixpoint goal_pieces (block_seen : bool) (cells : list ((Z * Z) * ascii))
    : list (shape * Z * Z) :=
  match cells with
  | [] => []
  | ((x, y), ch) :: cells' =>
      match char_piece block_seen ch with
      | Some s => (s, x, y) :: goal_pieces (block_seen_after block_seen ch) cells'
      | None => goal_pieces (block_seen_after block_seen ch) cells'
      end
  end.

Definition line_cells (li : Z) (line : string) : list ((Z * Z) * ascii) :=
  (fun xc : Z * ascii => ((xc.1, li), xc.2)) <$> enumerate_from 0 (list_ascii_of_string line).

(** The cells of the lines of the goal layout with their coordinates:
    blank lines do not count as rows. *)
Fixpoint goal_cells (li : Z) (lines : list string) : list ((Z * Z) * ascii) :=
  match lines with
  | [] => []
  | line :: lines' =>
      if String.eqb line newline then goal_cells li lines'
      else line_cells li line ++ goal_cells (li + 1) lines'
  end.

Lemma nearest_first_singleton (d : Piece) (x y : Z) : nearest_first [d] x y 0 d.
Proof.
  split; [reflexivity|]. split.
  - intros [|j] q Hq; simpl in Hq; [injection Hq as <-; lia | discriminate].
  - intros j q Hj. lia.
Qed.

(** What [goal_char] leaves alone. *)
Definition same_frame (st st' : Loader) : Prop :=
  ld_line_index st' = ld_line_index st /\ ld_final st' = ld_final st /\
  ld_pieces st' = ld_pieces st /\ ld_height st' = ld_height st /\
  ld_double st' = ld_double st /\ ld_next_uid st' = ld_next_uid st.

(** One character of the goal layout: when it stands for a goal piece,
    the nearest candidate [m] of its shape, the earliest among the
    nearest, leaves its pool, the goal map sends the identity of [m] to
    the record of the goal piece, and that record is stored in the goal
    layout under its position; otherwise nothing changes. *)
Lemma goal_char_step (st st' : Loader) (x : Z) (ch : ascii) :
  goal_char st x ch = Ok st' ->
  same_frame st st' /\
  ld_finalfound_2by2 st' = block_seen_after (ld_finalfound_2by2 st) ch /\
  match char_piece (ld_finalfound_2by2 st) ch with
  | Some s =>
      exists i m,
        nearest_first (pool s (matching_of st)) x (ld_line_index st) i m /\
        pool s (matching_of st') = delete i (pool s (matching_of st)) /\
        (forall s', s' <> s -> pool s' (matching_of st') = pool s' (matching_of st)) /\
        ld_goal_board_dict st'
        = <[uid m := goal_record s x (ld_line_index st) (uid m)]> (ld_goal_board_dict st) /\
        ld_final_pieces st'
        = dict_set (x, ld_line_index st) (goal_record s x (ld_line_index st) (uid m))
            (ld_final_pieces st)
  | None => matching_of st' = matching_of st /\ ld_final_pieces st' = ld_final_pieces st
  end.
Proof.
  destruct st as [gd singles vert hori double li ps fps final found ffound h next].
  unfold goal_char, char_piece, block_seen_after, same_frame.
  cbn [ld_finalfound_2by2 ld_line_index ld_final ld_pieces ld_height ld_double ld_next_uid
       ld_final_pieces ld_goal_board_dict].
  destruct (Ascii.eqb ch "^") eqn:E1;
    [|destruct (Ascii.eqb ch "<") eqn:E2;
      [|destruct (Ascii.eqb ch char_single) eqn:E3;
        [|destruct (Ascii.eqb ch "1") eqn:E4; [destruct ffound|]]]];
    intros Hrun;
    try (apply Ascii.eqb_eq in E1; subst ch);
    try (apply Ascii.eqb_eq in E2; subst ch);
    try (apply Ascii.eqb_eq in E3; subst ch).
  - apply bind_Ok in Hrun as ([m vert'] & Hpop & [= <-]).
    apply list_pop_Ok in Hpop as [Hm ->].
    destruct (find_min_index_nearest vert x li) as (m' & Hnear);
      [intros ->; discriminate|].
    pose proof Hnear as [Hm' _]. rewrite Hm in Hm'. injection Hm' as <-.
    cbn. rewrite orb_false_r. repeat split; try reflexivity.
    exists (find_min_index vert x li), m. repeat split; try apply Hnear.
    intros [] Hs; try reflexivity. contradiction.
  - apply bind_Ok in Hrun as ([m hori'] & Hpop & [= <-]).
    apply list_pop_Ok in Hpop as [Hm ->].
    destruct (find_min_index_nearest hori x li) as (m' & Hnear);
      [intros ->; discriminate|].
    pose proof Hnear as [Hm' _]. rewrite Hm in Hm'. injection Hm' as <-.
    cbn. rewrite orb_false_r. repeat split; try reflexivity.
    exists (find_min_index hori x li), m. repeat split; try apply Hnear.
    intros [] Hs; try reflexivity. contradiction.
  - apply bind_Ok in Hrun as ([m singles'] & Hpop & [= <-]).
    apply list_pop_Ok in Hpop as [Hm ->].
    destruct (find_min_index_nearest singles x li) as (m' & Hnear);
      [intros ->; discriminate|].
    pose proof Hnear as [Hm' _]. rewrite Hm in Hm'. injection Hm' as <-.
    cbn. rewrite orb_false_r. repeat split; try reflexivity.
    exists (find_min_index singles x li), m. repeat split; try apply Hnear.
    intros [] Hs; try reflexivity. contradiction.
  - injection Hrun as <-. cbn. repeat split; reflexivity.
  - destruct double as [d|]; [|discriminate]. injection Hrun as <-.
    cbn. repeat split; try reflexivity.
    exists 0%nat, d. repeat split; try apply nearest_first_singleton.
    intros [] Hs; try reflexivity. contradiction.
  - injection Hrun as <-. cbn. rewrite orb_false_r. repeat split; reflexivity.
Qed.

(** One character of the goal layout is one step of the matching, or no
    step when the character is not a piece. *)
Lemma goal_char_matches (st st' : Loader) (x : Z) (ch : ascii) :
  goal_char st x ch = Ok st' ->
  same_frame st st' /\
  ld_finalfound_2by2 st' = block_seen_after (ld_finalfound_2by2 st) ch /\
  match char_piece (ld_finalfound_2by2 st) ch with
  | Some s => match_piece (matching_of st) (s, x, ld_line_index st) (matching_of st')
  | None => matching_of st' = matching_of st /\ ld_final_pieces st' = ld_final_pieces st
  end.
Proof.
  intros Hrun. destruct (goal_char_step st st' x ch Hrun) as (Hframe & Hseen & Hstep).
  split; [exact Hframe|]. split; [exact Hseen|].
  destruct (char_piece (ld_finalfound_2by2 st) ch) as [s|]; [|exact Hstep].
  destruct Hstep as (i & m & Hnear & Hpool & Hothers & Hgd & _).
  exists i, m. auto.
Qed.

Lemma greedy_run_app (M M1 M2 : Matching) (l1 l2 : list (shape * Z * Z)) :
  greedy_run M l1 M1 -> greedy_run M1 l2 M2 -> greedy_run M (l1 ++ l2) M2.
Proof.
  induction 1 as [|M gp Ma gps Mb Hstep _ IH]; intros H2; simpl; [exact H2|].
  eapply greedy_next; [exact Hstep | apply IH, H2].
Qed.

Definition seen_after (block_seen : bool) (cells : list ((Z * Z) * ascii)) : bool :=
  fold_left (fun b (c : (Z * Z) * ascii) => block_seen_after b c.2) cells block_seen.

Lemma goal_pieces_app (block_seen : bool) (c1 c2 : list ((Z * Z) * ascii)) :
  goal_pieces block_seen (c1 ++ c2)
  = goal_pieces block_seen c1 ++ goal_pieces (seen_after block_seen c1) c2.
Proof.
  revert block_seen. induction c1 as [|[[x y] ch] c1 IH]; intros block_seen; simpl;
    [reflexivity|].
  unfold seen_after in *. destruct (char_piece block_seen ch); simpl; rewrite IH; reflexivity.
Qed.

Lemma same_frame_refl (st : Loader) : same_frame st st.
Proof. repeat split. Qed.

Lemma same_frame_trans (st1 st2 st3 : Loader) :
  same_frame st1 st2 -> same_frame st2 st3 -> same_frame st1 st3.
Proof. unfold same_frame. intros H1 H2. destruct_and!. repeat split; congruence. Qed.

(** The characters of one line of the goal layout. *)
Lemma goal_chars_match (chars : list (Z * ascii)) (st st' : Loader) :
  for_each (fun s (xc : Z * ascii) => goal_char s xc.1 xc.2) chars st = Ok st' ->
  let cells := (fun xc : Z * ascii => ((xc.1, ld_line_index st), xc.2)) <$> chars in
  same_frame st st' /\
  ld_finalfound_2by2 st' = seen_after (ld_finalfound_2by2 st) cells /\
  greedy_run (matching_of st) (goal_pieces (ld_finalfound_2by2 st) cells) (matching_of st').
Proof.
  revert st. induction chars as [|[x ch] chars IH]; intros st Hrun; cbn zeta.
  - injection Hrun as <-. split; [apply same_frame_refl|]. split; [reflexivity|constructor].
  - cbn [for_each] in Hrun. apply bind_Ok in Hrun as (st1 & Hstep & Hrest).
    cbn [fst snd] in Hstep.
    destruct (goal_char_matches st st1 x ch Hstep) as (Hframe & Hseen & Hmatch).
    destruct (IH st1 Hrest) as (Hframe' & Hseen' & Hrun').
    assert (Hli : ld_line_index st1 = ld_line_index st) by apply Hframe.
    rewrite Hli, Hseen in *.
    rewrite fmap_cons. cbn [fst snd goal_pieces]. unfold seen_after in *. cbn [fold_left snd].
    split; [eapply same_frame_trans; eassumption|]. split; [exact Hseen'|].
    destruct (char_piece (ld_finalfound_2by2 st) ch) as [s|].
    + eapply greedy_next; [exact Hmatch | exact Hrun'].
    + destruct Hmatch as [Hm _]. rewrite <- Hm. exact Hrun'.
Qed.

Lemma matching_of_bump_height (st : Loader) : matching_of (bump_height st) = matching_of st.
Proof. destruct st; reflexivity. Qed.

Lemma matching_of_next_line (st : Loader) : matching_of (next_line st) = matching_of st.
Proof. destruct st; reflexivity. Qed.

Lemma matching_of_start_goal (st : Loader) : matching_of (start_goal st) = matching_of st.
Proof. destruct st; reflexivity. Qed.

(** The lines of the goal layout. *)
Lemma goal_lines_match (lines : list string) (st st' : Loader) :
  ld_final st = true ->
  for_each read_line lines st = Ok st' ->
  ld_pieces st' = ld_pieces st /\
  greedy_run (matching_of st)
    (goal_pieces (ld_finalfound_2by2 st) (goal_cells (ld_line_index st) lines))
    (matching_of st').
Proof.
  revert st. induction lines as [|line lines IH]; intros st Hfinal Hrun.
  - injection Hrun as <-. split; [reflexivity|constructor].
  - cbn [for_each] in Hrun. apply bind_Ok in Hrun as (st1 & Hline & Hrest).
    unfold read_line in Hline. cbn [goal_cells].
    assert (Hb : ld_final (bump_height st) = true) by (destruct st; exact Hfinal).
    rewrite Hb in Hline.
    destruct (String.eqb line newline).
    + injection Hline as <-.
      destruct (IH (bump_height st) Hb Hrest) as (Hps & Hgreedy).
      rewrite matching_of_bump_height in Hgreedy.
      replace (ld_pieces (bump_height st)) with (ld_pieces st) in Hps by (destruct st; reflexivity).
      replace (ld_finalfound_2by2 (bump_height st)) with (ld_finalfound_2by2 st) in Hgreedy
        by (destruct st; reflexivity).
      replace (ld_line_index (bump_height st)) with (ld_line_index st) in Hgreedy
        by (destruct st; reflexivity).
      auto.
    + apply bind_Ok in Hline as (st2 & Hchars & [= <-]).
      destruct (goal_chars_match _ _ _ Hchars) as (Hframe & Hseen & Hgreedy).
      destruct Hframe as (Hli & Hfin & Hps & _).
      rewrite matching_of_bump_height in Hgreedy.
      replace (ld_pieces (bump_height st)) with (ld_pieces st) in Hps by (destruct st; reflexivity).
      replace (ld_finalfound_2by2 (bump_height st)) with (ld_finalfound_2by2 st) in *
        by (destruct st; reflexivity).
      replace (ld_line_index (bump_height st)) with (ld_line_index st) in *
        by (destruct st; reflexivity).
      destruct (IH (next_line st2)) as (Hps' & Hgreedy'); [|exact Hrest|].
      { destruct st2; simpl in *. congruence. }
      rewrite matching_of_next_line in Hgreedy'.
      replace (ld_pieces (next_line st2)) with (ld_pieces st2) in Hps' by (destruct st2; reflexivity).
      replace (ld_finalfound_2by2 (next_line st2)) with (ld_finalfound_2by2 st2) in Hgreedy'
        by (destruct st2; reflexivity).
      replace (ld_line_index (next_line st2)) with (ld_line_index st + 1) in Hgreedy'
        by (destruct st2; simpl in *; congruence).
      split; [congruence|].
      rewrite goal_pieces_app. fold (line_cells (ld_line_index st) line) in Hgreedy, Hseen.
      eapply greedy_run_app; [exact Hgreedy|]. rewrite <- Hseen. exact Hgreedy'.
Qed.

#[global] Instance shape_eq_dec : EqDecision shape.
Proof. solve_decision. Defined.

(** During the initial layout: the pools list the pieces loaded so far,
    by shape, in the order of the mapping; nothing is matched; the keys
    loaded so far lie before the current cell. *)
Definition pools_agree (st : Loader) : Prop :=
  forall s, pool s (matching_of st)
            = filter (fun p => shape_of p = Some s) (dict_values (ld_pieces st)).

Definition keys_before (li x : Z) (ps : dict (Z * Z) Piece) : Prop :=
  Forall (fun kp : (Z * Z) * Piece => kp.1.2 < li \/ (kp.1.2 = li /\ kp.1.1 < x)) ps.

Record initial_ok (x : Z) (st : Loader) : Prop := {
  io_final : ld_final st = false;
  io_goal : ld_goal_board_dict st = ∅;
  io_ffound : ld_finalfound_2by2 st = false;
  io_found : ld_found_2by2 st = bool_decide (is_Some (ld_double st));
  io_pools : pools_agree st;
  io_keys : keys_before (ld_line_index st) x (ld_pieces st)
}.

Lemma keys_before_fresh (li x : Z) (ps : dict (Z * Z) Piece) :
  keys_before li x ps -> (x, li) ∉ dict_keys ps.
Proof.
  unfold keys_before, dict_keys. rewrite Forall_forall. intros Hall Hin.
  apply list_elem_of_fmap in Hin as (kp & Hk & Hin).
  specialize (Hall kp Hin). rewrite <- Hk in Hall. simpl in Hall. lia.
Qed.

Lemma keys_before_next (li x : Z) (ps : dict (Z * Z) Piece) (p : Piece) :
  keys_before li x ps -> keys_before li (x + 1) (ps ++ [((x, li), p)]).
Proof.
  unfold keys_before. intros Hall. apply Forall_app. split.
  - eapply Forall_impl; [exact Hall|]. intros kp Hkp. simpl in *. lia.
  - constructor; [simpl; lia | constructor].
Qed.

Lemma keys_before_skip (li x : Z) (ps : dict (Z * Z) Piece) :
  keys_before li x ps -> keys_before li (x + 1) ps.
Proof.
  unfold keys_before. intros Hall.
  eapply Forall_impl; [exact Hall|]. intros kp Hkp. simpl in *. lia.
Qed.

Lemma filter_shape_snoc (s : shape) (ps : list Piece) (p : Piece) (s' : shape) :
  shape_of p = Some s' ->
  filter (fun q => shape_of q = Some s) (ps ++ [p])
  = filter (fun q => shape_of q = Some s) ps ++ (if decide (s' = s) then [p] else []).
Proof.
  intros Hs. rewrite filter_app, filter_cons, filter_nil. f_equal.
  rewrite Hs. destruct (decide (s' = s)) as [->|Hne].
  - rewrite decide_True; reflexivity.
  - rewrite decide_False; [reflexivity | congruence].
Qed.

Lemma dict_values_snoc (ps : dict (Z * Z) Piece) (k : Z * Z) (p : Piece) :
  dict_values (ps ++ [(k, p)]) = dict_values ps ++ [p].
Proof. unfold dict_values. rewrite fmap_app. reflexivity. Qed.

(** One character of the initial layout. *)
Lemma initial_char_initial_ok (st : Loader) (x : Z) (ch : ascii) :
  initial_ok x st ->
  initial_ok (x + 1) (initial_char st x ch) /\
  ld_line_index (initial_char st x ch) = ld_line_index st.
Proof.
  intros [Hfinal Hgoal Hff Hfound Hpools Hkeys].
  destruct st as [gd singles vert hori double li ps fps final found ffound h next].
  cbn [ld_final ld_goal_board_dict ld_finalfound_2by2 ld_found_2by2 ld_double
       ld_line_index ld_pieces] in *.
  pose proof (keys_before_fresh _ _ _ Hkeys) as Hfresh.
  unfold initial_char.
  destruct (Ascii.eqb ch "^");
    [|destruct (Ascii.eqb ch "<");
      [|destruct (Ascii.eqb ch char_single);
        [|destruct (Ascii.eqb ch "1"); [destruct found eqn:Ef|]]]];
    (split; [|reflexivity]);
    constructor;
    cbn [ld_final ld_goal_board_dict ld_finalfound_2by2 ld_found_2by2 ld_double
         ld_line_index ld_pieces];
    try assumption; try reflexivity;
    try (apply keys_before_skip; assumption);
    try (rewrite (dict_set_fresh _ _ _ Hfresh); apply keys_before_next; assumption);
    try (intros s; specialize (Hpools s); unfold pools_agree, matching_of, pool in *;
         cbn [ld_vert ld_hori ld_singles ld_double ld_finalfound_2by2 ld_pieces
              m_vert m_hori m_singles m_double m_block_matched] in *;
         rewrite (dict_set_fresh _ _ _ Hfresh), dict_values_snoc;
         first [ erewrite (filter_shape_snoc s _ _ Vertical) by reflexivity
               | erewrite (filter_shape_snoc s _ _ Horizontal) by reflexivity
               | erewrite (filter_shape_snoc s _ _ Single) by reflexivity
               | erewrite (filter_shape_snoc s _ _ Block) by reflexivity ];
         rewrite <- Hpools; destruct s; subst ffound; simpl;
         rewrite ?app_nil_r; try reflexivity).
  - (* the first ['1']: no block was loaded before *)
    symmetry in Hfound. apply bool_decide_eq_false in Hfound.
    destruct double; [exfalso; apply Hfound; eauto | reflexivity].
Qed.

Lemma initial_chars_initial_ok (chars : list ascii) (x : Z) (st : Loader) :
  initial_ok x st ->
  let st' := fold_left (fun s (xc : Z * ascii) => initial_char s xc.1 xc.2)
               (enumerate_from x chars) st in
  initial_ok (x + Z.of_nat (length chars)) st' /\ ld_line_index st' = ld_line_index st.
Proof.
  revert x st. induction chars as [|ch chars IH]; intros x st Hst; cbn zeta.
  - simpl. rewrite Z.add_0_r. auto.
  - cbn [enumerate_from fold_left fst snd length].
    destruct (initial_char_initial_ok st x ch Hst) as [Hst1 Hli1].
    destruct (IH (x + 1) _ Hst1) as [Hst' Hli'].
    split; [|congruence].
    replace (x + Z.of_nat (S (length chars))) with (x + 1 + Z.of_nat (length chars)) by lia.
    exact Hst'.
Qed.

Lemma initial_line_ok (st : Loader) (line : string) :
  initial_ok 0 st -> line <> newline ->
  exists st', read_line st line = Ok st' /\ initial_ok 0 st'.
Proof.
  intros Hst Hne. unfold read_line.
  destruct (String.eqb_spec line newline) as [E|_]; [contradiction|].
  assert (Hb : initial_ok 0 (bump_height st)).
  { destruct Hst. destruct st; constructor; assumption. }
  rewrite (io_final _ _ Hb). cbn [mbind res_bind].
  eexists. split; [reflexivity|].
  destruct (initial_chars_initial_ok (list_ascii_of_string line) 0 _ Hb) as [Hst' _].
  cbn zeta in Hst'.
  destruct Hst' as [Hfinal Hgoal Hff Hfound Hpools Hkeys].
  set (st1 := fold_left _ _ _) in *.
  destruct st1; constructor; cbn in *; try assumption.
  unfold keys_before in *. eapply Forall_impl; [exact Hkeys|].
  intros kp Hkp. simpl in *. lia.
Qed.

(** The lines of the initial layout never raise. *)
Lemma initial_lines_ok (lines : list string) (st : Loader) :
  initial_ok 0 st -> newline ∉ lines ->
  exists st', for_each read_line lines st = Ok st' /\ initial_ok 0 st'.
Proof.
  revert st. induction lines as [|line lines IH]; intros st Hst Hno.
  - exists st. auto.
  - apply not_elem_of_cons in Hno as [Hne Hno].
    destruct (initial_line_ok st line Hst) as (st1 & Hline & Hst1); [congruence|].
    destruct (IH st1 Hst1 Hno) as (st' & Hrest & Hst').
    exists st'. split; [|exact Hst']. cbn [for_each]. rewrite Hline. exact Hrest.
Qed.

Lemma loader_init_initial_ok : initial_ok 0 loader_init.
Proof.
  constructor; try reflexivity.
  - intros []; reflexivity.
  - constructor.
Qed.

(** C8: for a file made of the lines of the initial layout, a blank
    line and the lines of the goal layout, the goal map returned by
    [read_from_file] is the result of the greedy nearest-first matching:
    starting from the pools of the pieces of the initial board by shape,
    in load order, with an empty goal map, the goal pieces are taken in
    file order; each is matched to the candidate of its shape at the
    least Manhattan distance, the earliest loaded among the nearest; that
    candidate leaves the pool and the goal map sends its identity to the
    record of the goal piece. *)
Theorem read_from_file_greedy (init_lines goal_lines : list string) (b goal_board : Board) :
  newline ∉ init_lines ->
  read_from_file (init_lines ++ newline :: goal_lines) = Ok (b, goal_board) ->
  exists M0 M,
    (forall s, pool s M0 = filter (fun p => shape_of p = Some s) (dict_values (pieces b))) /\
    m_goal M0 = ∅ /\
    greedy_run M0 (goal_pieces false (goal_cells 0 goal_lines)) M /\
    goal_board_dict b = Some (m_goal M).
Proof.
  intros Hno Hrun. unfold read_from_file in Hrun.
  apply bind_Ok in Hrun as (st & Hlines & Hrun).
  apply bind_Ok in Hrun as (b1 & Hb1 & Hrun).
  apply bind_Ok in Hrun as (b2 & Hb2 & [= <- <-]).
  rewrite for_each_app in Hlines.
  destruct (initial_lines_ok init_lines loader_init loader_init_initial_ok Hno)
    as (st0 & Hinit & Hst0).
  rewrite Hinit in Hlines. cbn [mbind res_bind for_each] in Hlines.
  apply bind_Ok in Hlines as (st1 & Hblank & Hgoal).
  unfold read_line in Hblank. rewrite String.eqb_refl in Hblank.
  assert (Hfb : ld_final (bump_height st0) = false).
  { destruct Hst0. destruct st0; assumption. }
  rewrite Hfb in Hblank. injection Hblank as <-.
  destruct (goal_lines_match goal_lines (start_goal (bump_height st0)) st)
    as (Hps & Hgreedy); [destruct st0; reflexivity | exact Hgoal |].
  rewrite matching_of_start_goal, matching_of_bump_height in Hgreedy.
  replace (ld_finalfound_2by2 (start_goal (bump_height st0))) with false in Hgreedy
    by (destruct Hst0; destruct st0; simpl in *; congruence).
  replace (ld_line_index (start_goal (bump_height st0))) with 0 in Hgreedy
    by (destruct st0; reflexivity).
  replace (ld_pieces (start_goal (bump_height st0))) with (ld_pieces st0) in Hps
    by (destruct st0; reflexivity).
  exists (matching_of st0), (matching_of st).
  unfold Board_init, update_grid in Hb1. cbn [width height pieces goal_board_dict] in Hb1.
  apply bind_Ok in Hb1 as (g & _ & [= <-]).
  cbn [pieces goal_board_dict with_grid]. rewrite Hps.
  split; [apply (io_pools _ _ Hst0)|]. split; [apply (io_goal _ _ Hst0)|].
  split; [exact Hgreedy | reflexivity].
Qed.

Lemma read_from_file_greedy_witness :
  exists M,
    greedy_run
      {| m_vert := [mkPiece false false 2 1 (Some "v"%string) 3]; m_hori := [];
         m_singles := [mkPiece false true 0 0 None 1];
         m_double := Some (mkPiece true false 0 1 None 2);
         m_block_matched := false; m_goal := ∅ |}
      [(Single, 2, 0); (Block, 0, 1); (Vertical, 3, 1)] M /\
    m_goal M = example_goal_map.
Proof.
  destruct (read_from_file_greedy
              ["2..." +:+ newline; "11^." +:+ newline; "11v." +:+ newline]%string
              ["..2." +:+ newline; "11.^" +:+ newline; "11.v" +:+ newline]%string
              example_board example_goal) as (M0 & M & Hpools & Hgoal0 & Hrun & Hgd).
  - intros Hin. repeat (apply elem_of_cons in Hin as [Hin|Hin]; [discriminate|]).
    inversion Hin.
  - exact example_lines_load.
  - exists M. split; [|simpl in Hgd; congruence].
    change (goal_pieces false _) with [(Single, 2, 0); (Block, 0, 1); (Vertical, 3, 1)] in Hrun.
    destruct M0 as [v0 h0 s0 d0 bm0 g0]. simpl in Hgoal0. subst g0.
    pose proof (Hpools Vertical) as Hv. pose proof (Hpools Horizontal) as Hh.
    pose proof (Hpools Single) as Hs. pose proof (Hpools Block) as Hb.
    cbn in Hv, Hh, Hs, Hb. subst v0 h0 s0.
    destruct d0 as [d0|]; [|discriminate]. destruct bm0; [discriminate|].
    injection Hb as ->. exact Hrun.
Defined.

(** ** [heapq]: the heap invariant *)

Section HeapqFacts.
Context {A : Type} (lt : A -> A -> bool).

(** [a <= b] in the order of the items: not [b < a]. *)
Definition ord_le (a b : A) : Prop := lt b a = false.

Hypothesis lt_asym : forall a b, lt a b = true -> lt b a = false.
Hypothesis ord_le_trans : forall a b c, ord_le a b -> ord_le b c -> ord_le a c.

Definition parent_pos (i : nat) : nat := ((i - 1) / 2)%nat.

(** Every item is at least its parent_pos. *)
Definition heap_ok (h : list A) : Prop :=
  forall i a b, (0 < i)%nat -> h !! i = Some a -> h !! parent_pos i = Some b -> ord_le b a.

(** The heap with a hole at [pos] that is to receive [x]: the order
    holds between positions other than the hole, the children of the hole
    are at least [x] and at least the parent_pos of the hole. *)
Record hole_ok (h : list A) (pos : nat) (x : A) : Prop := {
  hole_rest : forall i a b, (0 < i)%nat -> i <> pos -> parent_pos i <> pos ->
    h !! i = Some a -> h !! parent_pos i = Some b -> ord_le b a;
  hole_below : forall i a, (0 < i)%nat -> parent_pos i = pos -> h !! i = Some a -> ord_le x a;
  hole_above : forall i a b, (0 < i)%nat -> parent_pos i = pos -> (0 < pos)%nat ->
    h !! i = Some a -> h !! parent_pos pos = Some b -> ord_le b a
}.

Lemma ord_le_refl (a : A) : ord_le a a.
Proof.
  unfold ord_le. destruct (lt a a) eqn:E; [|reflexivity].
  rewrite (lt_asym a a E) in E. discriminate.
Qed.

Lemma lt_ord_le (a b : A) : lt a b = true -> ord_le a b.
Proof. apply lt_asym. Qed.

Lemma parent_pos_lt (i : nat) : (0 < i)%nat -> (parent_pos i < i)%nat.
Proof.
  intros Hi. unfold parent_pos.
  assert ((i - 1) / 2 <= i - 1)%nat by (apply Nat.Div0.div_le_upper_bound; lia). lia.
Qed.

Lemma nth_of_lookup (h : list A) (i : nat) (d a : A) :
  h !! i = Some a -> nth i h d = a.
Proof. intros H. apply (nth_lookup_Some _ _ d) in H. exact H. Qed.

Lemma parent_pos_child (i pos : nat) :
  (0 < i)%nat ->
  parent_pos i = pos <-> i = (2 * pos + 1)%nat \/ i = (2 * pos + 2)%nat.
Proof.
  intros Hi. unfold parent_pos.
  pose proof (Nat.div_mod_eq (i - 1) 2) as Hdm.
  pose proof (Nat.mod_upper_bound (i - 1) 2) as Hmod.
  split; [intros <-|intros [->| ->]].
  - lia.
  - replace (2 * pos + 1 - 1)%nat with (pos * 2)%nat by lia. apply Nat.div_mul. lia.
  - replace (2 * pos + 2 - 1)%nat with (1 + pos * 2)%nat by lia.
    rewrite Nat.div_add by lia. reflexivity.
Qed.

(** The root is a least item. *)
Lemma heap_ok_root (h : list A) (r : A) :
  heap_ok h -> h !! 0%nat = Some r -> Forall (ord_le r) h.
Proof.
  intros Hok Hr. apply Forall_lookup. intros i.
  induction i as [i IH] using lt_wf_ind. intros a Ha.
  destruct (decide (i = 0%nat)) as [->|Hi].
  - rewrite Hr in Ha. injection Ha as <-. apply ord_le_refl.
  - assert (Hpos : (0 < i)%nat) by lia.
    pose proof (parent_pos_lt i Hpos) as Hlt.
    destruct (lookup_lt_is_Some_2 h (parent_pos i)) as [b Hb].
    { apply lookup_lt_Some in Ha. lia. }
    eapply ord_le_trans; [apply (IH (parent_pos i) Hlt b Hb) | eapply Hok; eassumption].
Qed.

Lemma heap_ok_nil : heap_ok [].
Proof. intros i a b _ Ha. discriminate. Qed.

(** Filling a hole whose children are at least [x], when [x] is at
    least the parent of the hole (or the hole is the root). *)
Lemma hole_fill (h : list A) (pos : nat) (x : A) :
  (pos < length h)%nat -> hole_ok h pos x ->
  (forall b, (0 < pos)%nat -> h !! parent_pos pos = Some b -> ord_le b x) ->
  heap_ok (<[pos := x]> h).
Proof.
  intros Hlen [Hrest Hbelow Habove] Hup i a b Hi Ha Hb.
  destruct (decide (i = pos)) as [->|Hne].
  - rewrite list_lookup_insert_eq in Ha by exact Hlen. injection Ha as <-.
    rewrite list_lookup_insert_ne in Hb by (pose proof (parent_pos_lt pos Hi); lia).
    apply Hup; assumption.
  - rewrite list_lookup_insert_ne in Ha by congruence.
    destruct (decide (parent_pos i = pos)) as [Hp|Hp].
    + rewrite Hp, list_lookup_insert_eq in Hb by exact Hlen. injection Hb as <-.
      eapply Hbelow; eassumption.
    + rewrite list_lookup_insert_ne in Hb by congruence. eapply Hrest; eassumption.
Qed.

(** [_siftdown] towards the root restores the heap order. *)
Lemma siftdown_loop_ok (fuel : nat) (h : list A) (pos : nat) (x : A) :
  (pos < length h)%nat -> (pos <= fuel)%nat -> hole_ok h pos x ->
  heap_ok (siftdown_loop lt fuel h 0 pos x).
Proof.
  revert h pos. induction fuel as [|fuel IH]; intros h pos Hlen Hfuel Hhole.
  - simpl. apply hole_fill; [exact Hlen | exact Hhole | intros b Hpos; lia].
  - cbn [siftdown_loop]. case_decide as Hpos;
      [|apply hole_fill; [exact Hlen | exact Hhole | intros b Hp; lia]].
    pose proof (parent_pos_lt pos Hpos) as Hplt. fold (parent_pos pos).
    destruct (lookup_lt_is_Some_2 h (parent_pos pos)) as [b Hb]; [lia|].
    rewrite (nth_of_lookup h _ x b Hb).
    destruct (lt x b) eqn:Hlt.
    + apply IH; [rewrite length_insert; lia | lia |].
      destruct Hhole as [Hrest Hbelow Habove].
      constructor.
      * intros i a c Hi Hne Hpne Ha Hc.
        assert (Hip : i <> pos) by (intros ->; congruence).
        rewrite list_lookup_insert_ne in Ha by congruence.
        destruct (decide (parent_pos i = pos)) as [Hp|Hp].
        -- rewrite Hp, list_lookup_insert_eq in Hc by exact Hlen. injection Hc as <-.
           eapply Habove; eassumption.
        -- rewrite list_lookup_insert_ne in Hc by congruence. eapply Hrest; eassumption.
      * intros i a Hi Hp Ha.
        destruct (decide (i = pos)) as [->|Hne].
        -- rewrite list_lookup_insert_eq in Ha by exact Hlen. injection Ha as <-.
           apply lt_ord_le, Hlt.
        -- rewrite list_lookup_insert_ne in Ha by congruence.
           apply (ord_le_trans x b a); [apply lt_ord_le, Hlt|].
           eapply Hrest; [exact Hi | exact Hne | lia | exact Ha | rewrite Hp; exact Hb].
      * intros i a c Hi Hp Hpp Ha Hc.
        rewrite list_lookup_insert_ne in Hc
          by (pose proof (parent_pos_lt (parent_pos pos) Hpp); lia).
        assert (Hcb : ord_le c b).
        { eapply Hrest; [exact Hpp | lia | | exact Hb | exact Hc].
          pose proof (parent_pos_lt (parent_pos pos) Hpp). lia. }
        destruct (decide (i = pos)) as [->|Hne].
        -- rewrite list_lookup_insert_eq in Ha by exact Hlen. injection Ha as <-. exact Hcb.
        -- rewrite list_lookup_insert_ne in Ha by congruence.
           apply (ord_le_trans c b a); [exact Hcb|].
           eapply Hrest; [exact Hi | exact Hne | lia | exact Ha | rewrite Hp; exact Hb].
    + apply hole_fill; [exact Hlen | exact Hhole |].
      intros b' _ Hb'. rewrite Hb in Hb'. injection Hb' as <-. exact Hlt.
Qed.

Lemma hole_ok_insert (h : list A) (pos : nat) (x y : A) :
  hole_ok h pos x -> hole_ok (<[pos := y]> h) pos x.
Proof.
  intros [Hrest Hbelow Habove]. constructor.
  - intros i a b Hi Hne Hpne Ha Hb.
    rewrite list_lookup_insert_ne in Ha, Hb by congruence. eapply Hrest; eassumption.
  - intros i a Hi Hp Ha.
    rewrite list_lookup_insert_ne in Ha by (pose proof (parent_pos_lt i Hi); lia).
    eapply Hbelow; eassumption.
  - intros i a b Hi Hp Hpos Ha Hb.
    rewrite list_lookup_insert_ne in Ha by (pose proof (parent_pos_lt i Hi); lia).
    rewrite list_lookup_insert_ne in Hb by (pose proof (parent_pos_lt pos Hpos); lia).
    eapply (Habove i); eassumption.
Qed.

Lemma siftdown_ok (h : list A) (pos : nat) (x : A) :
  h !! pos = Some x -> hole_ok h pos x -> heap_ok (siftdown lt h 0 pos).
Proof.
  intros Hx Hhole. unfold siftdown. rewrite Hx.
  apply siftdown_loop_ok; [apply lookup_lt_Some in Hx; exact Hx | lia | exact Hhole].
Qed.

Lemma heappush_ok (h : list A) (x : A) : heap_ok h -> heap_ok (heappush lt h x).
Proof.
  intros Hok. unfold heappush. apply (siftdown_ok _ _ x).
  - apply list_lookup_middle. reflexivity.
  - constructor.
    + intros i a b Hi Hne Hpne Ha Hb.
      assert (Hlt : (i < length h)%nat).
      { apply lookup_lt_Some in Ha. rewrite length_app in Ha. simpl in Ha. lia. }
      rewrite lookup_app_l in Ha by exact Hlt.
      rewrite lookup_app_l in Hb by (pose proof (parent_pos_lt i Hi); lia).
      eapply Hok; eassumption.
    + intros i a Hi Hp Ha. apply lookup_lt_Some in Ha.
      rewrite length_app in Ha. simpl in Ha.
      apply parent_pos_child in Hp; [lia | exact Hi].
    + intros i a b Hi Hp _ Ha _. apply lookup_lt_Some in Ha.
      rewrite length_app in Ha. simpl in Ha.
      apply parent_pos_child in Hp; [lia | exact Hi].
Qed.

(** The hole during [_siftup]: as [hole_ok], without the condition on
    the item to place. *)
Definition sinking_ok (h : list A) (pos : nat) : Prop :=
  (forall i a b, (0 < i)%nat -> i <> pos -> parent_pos i <> pos ->
     h !! i = Some a -> h !! parent_pos i = Some b -> ord_le b a) /\
  (forall i a b, (0 < i)%nat -> parent_pos i = pos -> (0 < pos)%nat ->
     h !! i = Some a -> h !! parent_pos pos = Some b -> ord_le b a).

(** The loop of [_siftup] moves the hole to a leaf. *)
Lemma siftup_loop_ok (fuel : nat) (h : list A) (pos : nat) (x : A) :
  (pos < length h)%nat -> (length h - pos <= fuel)%nat -> sinking_ok h pos ->
  let '(h', pos') := siftup_loop lt fuel h (length h) pos x in
  length h' = length h /\ (pos' < length h)%nat /\ (length h <= 2 * pos' + 1)%nat /\
  sinking_ok h' pos'.
Proof.
  revert h pos. induction fuel as [|fuel IH]; intros h pos Hlen Hfuel Hsink.
  - simpl. repeat split; try apply Hsink; lia.
  - cbn [siftup_loop]. case_decide as Hchild; [|repeat split; try apply Hsink; lia].
    set (left := (2 * pos + 1)%nat) in *.
    set (child := if bool_decide (left + 1 < length h)%nat
                     && negb (lt (nth left h x) (nth (left + 1) h x))
                  then (left + 1)%nat else left).
    assert (Hc : (child = left \/ child = left + 1)%nat /\ (child < length h)%nat).
    { unfold child. case_bool_decide; simpl; [destruct (lt _ _); simpl|]; lia. }
    destruct Hc as [Hc Hclen].
    destruct (lookup_lt_is_Some_2 h child Hclen) as [c Hcv].
    rewrite (nth_of_lookup h child x c Hcv).
    specialize (IH (<[pos := c]> h) child).
    rewrite length_insert in IH.
    assert (Hpc : parent_pos child = pos).
    { apply parent_pos_child; [lia|]. unfold left in Hc. lia. }
    destruct (siftup_loop lt fuel (<[pos := c]> h) (length h) child x) as [h' pos'].
    destruct IH as (Hl & Hp & Hleaf & Hs); [exact Hclen | unfold left in Hc; lia | |auto].
    destruct Hsink as [Hrest Habove]. split.
    + intros i a b Hi Hne Hpne Ha Hb.
      destruct (decide (i = pos)) as [->|Hip].
      * rewrite list_lookup_insert_eq in Ha by exact Hlen. injection Ha as <-.
        rewrite list_lookup_insert_ne in Hb by (pose proof (parent_pos_lt pos Hi); lia).
        eapply (Habove child); [lia | exact Hpc | exact Hi | exact Hcv | exact Hb].
      * rewrite list_lookup_insert_ne in Ha by congruence.
        destruct (decide (parent_pos i = pos)) as [Hpi|Hpi].
        -- rewrite Hpi, list_lookup_insert_eq in Hb by exact Hlen. injection Hb as <-.
           (* [i] is the other child of [pos] *)
           apply parent_pos_child in Hpi; [|exact Hi].
           pose proof (lookup_lt_Some _ _ _ Ha) as Hilen.
           unfold child in *. fold left in Hpi.
           assert (Hbd : bool_decide (left + 1 < length h)%nat = true).
           { apply bool_decide_eq_true_2. destruct Hc; lia. }
           rewrite Hbd in *. simpl in *.
           destruct (lt (nth left h x) (nth (left + 1) h x)) eqn:Hcmp; simpl in *.
           ++ assert (i = left + 1)%nat as -> by lia.
              apply lt_ord_le.
              rewrite (nth_of_lookup h left x c Hcv), (nth_of_lookup h _ x a Ha) in Hcmp.
              exact Hcmp.
           ++ assert (i = left) as -> by lia. unfold ord_le.
              rewrite (nth_of_lookup h left x a Ha), (nth_of_lookup h _ x c Hcv) in Hcmp.
              exact Hcmp.
        -- rewrite list_lookup_insert_ne in Hb by congruence. eapply Hrest; eassumption.
    + intros i a b Hi Hpi _ Ha Hb.
      rewrite Hpc, list_lookup_insert_eq in Hb by exact Hlen. injection Hb as <-.
      rewrite list_lookup_insert_ne in Ha by (pose proof (parent_pos_lt i Hi); lia).
      pose proof (proj1 (parent_pos_child i child Hi) Hpi) as Hic.
      clearbody child. unfold left in Hc.
      eapply Hrest; [exact Hi | lia | lia | exact Ha | rewrite Hpi; exact Hcv].
Qed.

Lemma siftup_root_ok (h : list A) (x : A) :
  h !! 0%nat = Some x -> sinking_ok h 0 -> heap_ok (siftup lt h 0).
Proof.
  intros Hx Hsink. unfold siftup. rewrite Hx.
  pose proof (siftup_loop_ok (length h) h 0 x) as Hloop.
  destruct (siftup_loop lt (length h) h (length h) 0 x) as [h' pos'].
  destruct Hloop as (Hl & Hp & Hleaf & [Hrest Habove]);
    [apply lookup_lt_Some in Hx; exact Hx | lia | exact Hsink |].
  apply (siftdown_ok _ _ x).
  - apply list_lookup_insert_eq. lia.
  - apply hole_ok_insert. constructor.
    + exact Hrest.
    + intros i a Hi Hpi Ha. apply lookup_lt_Some in Ha.
      apply parent_pos_child in Hpi; [lia | exact Hi].
    + exact Habove.
Qed.

Lemma heap_ok_prefix (h : list A) (x : A) : heap_ok (h ++ [x]) -> heap_ok h.
Proof.
  intros Hok i a b Hi Ha Hb.
  eapply Hok; [exact Hi | apply lookup_app_l_Some, Ha | apply lookup_app_l_Some, Hb].
Qed.


End HeapqFacts.

(** *** What the heap holds

    The sifting loops only move items: the length is kept, and a
    property of all items of the heap and of the new item holds of all
    items afterwards. These facts need nothing of the order. *)

Section HeapqContents.
Context {A : Type} (lt : A -> A -> bool) (P : A -> Prop).

Lemma pop_last_Ok (l : list A) (a : A) (l' : list A) :
  pop_last l = Ok (a, l') <-> l = l' ++ [a].
Proof.
  unfold pop_last. destruct (reverse l) as [|b r] eqn:E.
  - split; [discriminate|]. intros ->. rewrite reverse_snoc in E. discriminate.
  - assert (Hl : l = reverse r ++ [b]).
    { rewrite <- (reverse_involutive l), E, reverse_cons. reflexivity. }
    split.
    + intros [= <- <-]. exact Hl.
    + intros ->. apply app_inj_tail in Hl as [-> ->]. reflexivity.
Qed.

Lemma pop_last_nonempty (l : list A) : l <> [] -> exists a l', pop_last l = Ok (a, l').
Proof.
  intros Hne. destruct l as [|b l _] using rev_ind; [contradiction|].
  exists b, l. apply pop_last_Ok. reflexivity.
Qed.

Lemma nth_Forall (l : list A) (i : nat) (d : A) : Forall P l -> P d -> P (nth i l d).
Proof.
  intros Hl Hd. rewrite Forall_forall in Hl.
  destruct (nth_in_or_default i l d) as [Hin| ->]; [|exact Hd].
  apply Hl, list_elem_of_In, Hin.
Qed.

Lemma siftdown_loop_length (fuel : nat) (h : list A) (startpos pos : nat) (x : A) :
  length (siftdown_loop lt fuel h startpos pos x) = length h.
Proof.
  revert h pos. induction fuel as [|fuel IH]; intros h pos; simpl.
  - apply length_insert.
  - repeat case_match; rewrite ?IH, ?length_insert; reflexivity.
Qed.

Lemma siftdown_loop_Forall (fuel : nat) (h : list A) (startpos pos : nat) (x : A) :
  Forall P h -> P x -> Forall P (siftdown_loop lt fuel h startpos pos x).
Proof.
  revert h pos. induction fuel as [|fuel IH]; intros h pos Hh Hx; simpl.
  - apply Forall_insert; assumption.
  - repeat case_match; try (apply Forall_insert; assumption).
    apply IH; [|exact Hx]. apply Forall_insert; [exact Hh|]. apply nth_Forall; assumption.
Qed.

Lemma siftdown_length (h : list A) (startpos pos : nat) :
  length (siftdown lt h startpos pos) = length h.
Proof.
  unfold siftdown. destruct (h !! pos); [apply siftdown_loop_length | reflexivity].
Qed.

Lemma siftdown_Forall (h : list A) (startpos pos : nat) :
  Forall P h -> Forall P (siftdown lt h startpos pos).
Proof.
  intros Hh. unfold siftdown. destruct (h !! pos) as [x|] eqn:E; [|exact Hh].
  apply siftdown_loop_Forall; [exact Hh|].
  rewrite Forall_lookup in Hh. eapply Hh, E.
Qed.

Lemma siftup_loop_length (fuel : nat) (h : list A) (endpos pos : nat) (x : A) :
  length (siftup_loop lt fuel h endpos pos x).1 = length h.
Proof.
  revert h pos. induction fuel as [|fuel IH]; intros h pos; simpl; [reflexivity|].
  case_decide; [|reflexivity]. rewrite IH, length_insert. reflexivity.
Qed.

Lemma siftup_loop_Forall (fuel : nat) (h : list A) (endpos pos : nat) (x : A) :
  Forall P h -> P x -> Forall P (siftup_loop lt fuel h endpos pos x).1.
Proof.
  revert h pos. induction fuel as [|fuel IH]; intros h pos Hh Hx; simpl; [exact Hh|].
  case_decide; [|exact Hh]. apply IH; [|exact Hx].
  apply Forall_insert; [exact Hh|]. apply nth_Forall; assumption.
Qed.

Lemma siftup_length (h : list A) (pos : nat) : length (siftup lt h pos) = length h.
Proof.
  unfold siftup. destruct (h !! pos) as [x|]; [|reflexivity].
  pose proof (siftup_loop_length (length h) h (length h) pos x) as Hl.
  destruct (siftup_loop lt (length h) h (length h) pos x) as [h' pos']. simpl in Hl.
  rewrite siftdown_length, length_insert. exact Hl.
Qed.

Lemma siftup_Forall (h : list A) (pos : nat) : Forall P h -> Forall P (siftup lt h pos).
Proof.
  intros Hh. unfold siftup. destruct (h !! pos) as [x|] eqn:E; [|exact Hh].
  assert (Hx : P x) by (rewrite Forall_lookup in Hh; eapply Hh, E).
  pose proof (siftup_loop_Forall (length h) h (length h) pos x Hh Hx) as Hl.
  destruct (siftup_loop lt (length h) h (length h) pos x) as [h' pos']. simpl in Hl.
  apply siftdown_Forall, Forall_insert; assumption.
Qed.

Lemma heappush_length (h : list A) (x : A) : length (heappush lt h x) = S (length h).
Proof.
  unfold heappush. rewrite siftdown_length, length_app. simpl. lia.
Qed.

Lemma heappush_Forall (h : list A) (x : A) : Forall P h -> P x -> Forall P (heappush lt h x).
Proof.
  intros Hh Hx. unfold heappush. apply siftdown_Forall, Forall_app.
  split; [exact Hh | constructor; [exact Hx | constructor]].
Qed.

Lemma heappop_nonempty (h : list A) : h <> [] -> exists x h', heappop lt h = Ok (x, h').
Proof.
  intros Hne. destruct (pop_last_nonempty h Hne) as (a & l' & Hl).
  unfold heappop. rewrite Hl. cbn [mbind res_bind]. destruct l'; eauto.
Qed.

Lemma heappop_length (h : list A) (x : A) (h' : list A) :
  heappop lt h = Ok (x, h') -> length h = S (length h').
Proof.
  unfold heappop. intros Hpop.
  apply bind_Ok in Hpop as ([lastelt rest] & Hlast & Hpop).
  apply pop_last_Ok in Hlast. subst h. rewrite length_app. simpl.
  destruct rest as [|r rest]; injection Hpop as <- <-.
  - reflexivity.
  - rewrite siftup_length. simpl. lia.
Qed.

Lemma heappop_Forall (h : list A) (x : A) (h' : list A) :
  Forall P h -> heappop lt h = Ok (x, h') -> P x /\ Forall P h'.
Proof.
  unfold heappop. intros Hh Hpop.
  apply bind_Ok in Hpop as ([lastelt rest] & Hlast & Hpop).
  apply pop_last_Ok in Hlast. subst h.
  apply Forall_app in Hh as [Hrest Hlast]. rewrite Forall_singleton in Hlast.
  destruct rest as [|r rest]; injection Hpop as <- <-.
  - auto.
  - inversion Hrest; subst. split; [assumption|].
    apply siftup_Forall. constructor; assumption.
Qed.

(** Exchanging the items at two positions permutes the list. *)
Lemma insert_head_Permutation (h : list A) (j : nat) (x a : A) :
  (j < length h)%nat -> x :: <[j := a]> h ≡ₚ a :: <[j := x]> h.
Proof.
  revert j. induction h as [|c h IH]; intros j Hj; [simpl in Hj; lia|].
  destruct j as [|j]; simpl.
  - apply Permutation_swap.
  - etransitivity; [apply Permutation_swap|].
    etransitivity; [apply Permutation_skip, (IH j); simpl in Hj; lia|].
    apply Permutation_swap.
Qed.

Lemma insert_swap_Permutation (h : list A) (i j : nat) (x b : A) :
  i <> j -> h !! i = Some b -> (j < length h)%nat ->
  <[i := x]> (<[j := b]> h) ≡ₚ <[j := x]> h.
Proof.
  revert i j. induction h as [|a h IH]; intros i j Hne Hi Hj; [discriminate|].
  destruct i as [|i], j as [|j]; simpl in *; try congruence.
  - injection Hi as ->. apply insert_head_Permutation. lia.
  - rewrite <- (list_insert_id h i b Hi) at 2.
    symmetry. apply insert_head_Permutation. apply lookup_lt_Some in Hi. exact Hi.
  - apply Permutation_skip, IH; [congruence | exact Hi | lia].
Qed.

Lemma siftdown_loop_Permutation (fuel : nat) (h : list A) (pos : nat) (x : A) :
  (pos < length h)%nat -> siftdown_loop lt fuel h 0 pos x ≡ₚ <[pos := x]> h.
Proof.
  revert h pos. induction fuel as [|fuel IH]; intros h pos Hlen; cbn [siftdown_loop];
    [reflexivity|].
  case_decide as Hpos; [|reflexivity].
  assert (Hp : ((pos - 1) / 2 < pos)%nat).
  { assert ((pos - 1) / 2 <= pos - 1)%nat by (apply Nat.Div0.div_le_upper_bound; lia). lia. }
  destruct (lookup_lt_is_Some_2 h ((pos - 1) / 2)) as [b Hb]; [lia|].
  rewrite (nth_lookup_Some _ _ x _ Hb).
  destruct (lt x b); [|reflexivity].
  rewrite IH by (rewrite length_insert; lia).
  apply insert_swap_Permutation; [lia | exact Hb | exact Hlen].
Qed.

Lemma siftdown_Permutation (h : list A) (pos : nat) : siftdown lt h 0 pos ≡ₚ h.
Proof.
  unfold siftdown. destruct (h !! pos) as [x|] eqn:E; [|reflexivity].
  rewrite siftdown_loop_Permutation by (apply lookup_lt_Some in E; exact E).
  rewrite list_insert_id by exact E. reflexivity.
Qed.

Lemma siftup_loop_Permutation (fuel : nat) (h : list A) (pos : nat) (x : A) :
  (pos < length h)%nat ->
  let '(h', pos') := siftup_loop lt fuel h (length h) pos x in
  (pos' < length h')%nat /\ <[pos' := x]> h' ≡ₚ <[pos := x]> h.
Proof.
  revert h pos. induction fuel as [|fuel IH]; intros h pos Hlen; cbn [siftup_loop]; [auto|].
  case_decide as Hchild; [|auto].
  set (child := if bool_decide (2 * pos + 1 + 1 < length h)%nat && _
                then (2 * pos + 1 + 1)%nat else (2 * pos + 1)%nat).
  assert (Hc : (pos < child < length h)%nat).
  { unfold child. case_bool_decide; simpl; [destruct (lt _ _); simpl|]; lia. }
  destruct (lookup_lt_is_Some_2 h child) as [c Hcv]; [lia|].
  rewrite (nth_lookup_Some _ _ x _ Hcv).
  specialize (IH (<[pos := c]> h) child). rewrite length_insert in IH.
  destruct (siftup_loop lt fuel (<[pos := c]> h) (length h) child x) as [h' pos'].
  destruct IH as [Hp Hperm]; [lia|]. split; [exact Hp|].
  rewrite Hperm. apply insert_swap_Permutation; [lia | exact Hcv | exact Hlen].
Qed.

Lemma siftup_Permutation (h : list A) : siftup lt h 0 ≡ₚ h.
Proof.
  unfold siftup. destruct (h !! 0%nat) as [x|] eqn:E; [|reflexivity].
  pose proof (siftup_loop_Permutation (length h) h 0 x) as Hloop.
  destruct (siftup_loop lt (length h) h (length h) 0 x) as [h' pos'].
  destruct Hloop as [Hp Hperm]; [apply lookup_lt_Some in E; exact E|].
  rewrite siftdown_Permutation, Hperm, list_insert_id by exact E. reflexivity.
Qed.

(** [heappush] adds the item and [heappop] removes the returned item:
    nothing else enters or leaves the heap. *)
Lemma heappush_Permutation (h : list A) (x : A) : heappush lt h x ≡ₚ x :: h.
Proof.
  unfold heappush. rewrite siftdown_Permutation. symmetry. apply Permutation_cons_append.
Qed.

Lemma heappop_Permutation (h : list A) (x : A) (h' : list A) :
  heappop lt h = Ok (x, h') -> h ≡ₚ x :: h'.
Proof.
  unfold heappop. intros Hpop.
  apply bind_Ok in Hpop as ([lastelt rest] & Hlast & Hpop).
  apply pop_last_Ok in Hlast. subst h.
  destruct rest as [|r rest]; injection Hpop as <- <-; [reflexivity|].
  rewrite siftup_Permutation. simpl.
  apply Permutation_skip. symmetry. apply Permutation_cons_append.
Qed.
End HeapqContents.

Section HeapqOrder.
Context {A : Type} (lt : A -> A -> bool).
Hypothesis lt_asym : forall a b, lt a b = true -> lt b a = false.
Hypothesis ord_le_trans : forall a b c, ord_le lt a b -> ord_le lt b c -> ord_le lt a c.

(** [heappop] returns a least item of the heap and leaves a heap. *)
Lemma heappop_ok (h : list A) (x : A) (h' : list A) :
  heap_ok lt h -> heappop lt h = Ok (x, h') ->
  heap_ok lt h' /\ Forall (ord_le lt x) h.
Proof.
  intros Hok Hpop. unfold heappop in Hpop.
  apply bind_Ok in Hpop as ([lastelt rest] & Hlast & Hpop).
  apply pop_last_Ok in Hlast. subst h.
  pose proof (heap_ok_prefix lt _ _ Hok) as Hrest.
  destruct rest as [|r rest]; injection Hpop as <- <-.
  - split; [apply heap_ok_nil|].
    repeat constructor. apply (ord_le_refl lt lt_asym).
  - split.
    + apply (siftup_root_ok lt lt_asym ord_le_trans _ lastelt); [reflexivity|].
      split.
      * intros i a b Hi Hne Hpne Ha Hb.
        apply (Hrest i a b Hi).
        -- destruct i as [|i']; [congruence | exact Ha].
        -- destruct (parent_pos i) as [|j]; [congruence | exact Hb].
      * intros i a b _ _ Hpos. lia.
    + apply (heap_ok_root lt lt_asym ord_le_trans); [exact Hok | reflexivity].
Qed.
End HeapqOrder.

(** ** The frontier of [astar] *)

Lemma item_lt_asym (a b : item) : item_lt a b = true -> item_lt b a = false.
Proof.
  unfold item_lt, State_lt.
  destruct (Z.eqb_spec a.1 b.1) as [E|E]; destruct (Z.eqb_spec b.1 a.1) as [E'|E'];
    try congruence; rewrite ?Z.ltb_lt, ?Z.ltb_ge; lia.
Qed.

Lemma item_le_trans (a b c : item) :
  ord_le item_lt a b -> ord_le item_lt b c -> ord_le item_lt a c.
Proof.
  unfold ord_le, item_lt, State_lt.
  destruct (Z.eqb_spec b.1 a.1); destruct (Z.eqb_spec c.1 b.1); destruct (Z.eqb_spec c.1 a.1);
    rewrite ?Z.ltb_lt, ?Z.ltb_ge; lia.
Qed.

Lemma item_le_key (a b : item) : ord_le item_lt a b -> a.1 <= b.1.
Proof.
  unfold ord_le, item_lt, State_lt.
  destruct (Z.eqb_spec b.1 a.1); rewrite ?Z.ltb_lt, ?Z.ltb_ge; lia.
Qed.

(** The item [astar] pushes for a state. *)
Definition pushed_item (state : State) : item :=
  (depth state + hfn state, set_f state (depth state + hfn state)).

(** The pushes of one turn of [astar]: one per successor whose grid
    string is not visited, in the order of the successors. *)
Lemma astar_pushes (visited : gset string) (succs : list State) (heap_lst : list item) :
  fold_left (astar_push visited) succs heap_lst
  = fold_left (heappush item_lt)
      (pushed_item <$> filter (fun s' => Board_str (board s') ∉ visited) succs) heap_lst.
Proof.
  revert heap_lst. induction succs as [|s' succs IH]; intros heap_lst; [reflexivity|].
  cbn [fold_left]. rewrite filter_cons. unfold astar_push at 2.
  destruct (decide (Board_str (board s') ∈ visited)) as [Hin|Hnin].
  - rewrite decide_False by (intros H; contradiction). apply IH.
  - rewrite decide_True by exact Hnin. rewrite fmap_cons. cbn [fold_left]. apply IH.
Qed.

Lemma dfs_pushes (visited : gset string) (succs : list State) (stack : list State) :
  fold_left (dfs_push visited) succs stack
  = stack ++ filter (fun s' => Board_str (board s') ∉ visited) succs.
Proof.
  revert stack. induction succs as [|s' succs IH]; intros stack.
  - rewrite app_nil_r. reflexivity.
  - cbn [fold_left]. rewrite filter_cons. unfold dfs_push at 2.
    destruct (decide (Board_str (board s') ∈ visited)) as [Hin|Hnin].
    + rewrite decide_False by (intros H; contradiction). apply IH.
    + rewrite decide_True by exact Hnin. rewrite IH, <- app_assoc. reflexivity.
Qed.

(** What holds of the frontier of [astar] at every turn: it is a heap,
    every item carries the priority [f] of its state, and the boards are
    sound. *)
Record astar_inv (heap_lst : list item) : Prop := {
  ai_heap : heap_ok item_lt heap_lst;
  ai_key : Forall (fun it : item => it.1 = f it.2) heap_lst;
  ai_sound : Forall (fun it : item => sound_board (board it.2)) heap_lst
}.

Lemma astar_inv_push (heap_lst : list item) (it : item) :
  astar_inv heap_lst -> it.1 = f it.2 -> sound_board (board it.2) ->
  astar_inv (heappush item_lt heap_lst it).
Proof.
  intros [Hh Hk Hs] Hit Hsound. constructor.
  - apply (heappush_ok item_lt item_lt_asym item_le_trans), Hh.
  - apply heappush_Forall; assumption.
  - apply heappush_Forall; assumption.
Qed.

Lemma astar_inv_pushes (heap_lst : list item) (its : list item) :
  astar_inv heap_lst ->
  Forall (fun it : item => it.1 = f it.2 /\ sound_board (board it.2)) its ->
  astar_inv (fold_left (heappush item_lt) its heap_lst).
Proof.
  revert heap_lst. induction its as [|it its IH]; intros heap_lst Hinv Hits; [exact Hinv|].
  inversion Hits as [|? ? [Hk Hs] Hits']; subst.
  cbn [fold_left]. apply IH; [apply astar_inv_push; assumption | exact Hits'].
Qed.

Lemma heappushes_Permutation (heap_lst its : list item) :
  fold_left (heappush item_lt) its heap_lst ≡ₚ its ++ heap_lst.
Proof.
  revert heap_lst. induction its as [|it its IH]; intros heap_lst; [reflexivity|].
  cbn [fold_left]. rewrite IH, heappush_Permutation. simpl.
  symmetry. apply Permutation_middle.
Qed.

Lemma astar_inv_nil : astar_inv [].
Proof. constructor; [apply heap_ok_nil | constructor | constructor]. Qed.

Lemma astar_inv_pop (heap_lst : list item) (it : item) (rest : list item) :
  astar_inv heap_lst -> heappop item_lt heap_lst = Ok (it, rest) ->
  astar_inv rest /\ it.1 = f it.2 /\ sound_board (board it.2) /\
  Forall (fun other : item => f it.2 <= f other.2) heap_lst.
Proof.
  intros [Hh Hk Hs] Hpop.
  destruct (heappop_ok item_lt item_lt_asym item_le_trans _ _ _ Hh Hpop) as [Hh' Hmin].
  destruct (heappop_Forall item_lt _ _ _ _ Hk Hpop) as [Hkit Hk'].
  destruct (heappop_Forall item_lt _ _ _ _ Hs Hpop) as [Hsit Hs'].
  split; [constructor; assumption|]. split; [exact Hkit|]. split; [exact Hsit|].
  rewrite Forall_forall in Hmin, Hk |- *. intros other Hin.
  rewrite <- Hkit, <- (Hk other Hin). apply item_le_key, Hmin, Hin.
Qed.

Lemma successor_sound (self s' : State) :
  sound_board (board self) -> is_successor self s' ->
  sound_board (board s') /\ height (board s') = height (board self) /\
  depth s' = depth self + 1 /\ f s' = f self /\ parent s' = Some self.
Proof.
  intros Hb (p & k & Hp & Hk & g & b' & Hg & Hcopy & ->).
  destruct (copy_board_sound _ p k Hb Hp Hk) as (b'' & Hcopy' & Hb' & Hh & _).
  rewrite Hcopy in Hcopy'. injection Hcopy' as <-. cbn. auto.
Qed.

(** The running example as an [astar] problem. *)
Definition example_heap : list item := heappush item_lt [] (f example_state, example_state).

(** C9: the frontier of best-first search starts as a heap holding the
    root under its priority. At every turn the popped state has the
    least [f] of the frontier. When the turn expands it, every successor
    is the move of one piece, with depth (path cost) one more than its
    parent's, the parent's heuristic updated incrementally, and the
    parent as parent; the turn pushes, in order, exactly the successors
    whose grid string is not in the visited set (which then contains the
    grid string of the popped state), each under the recomputed priority
    [f = depth + hfn]; and the new frontier is again such a heap. *)
Theorem astar_expansion (goal_board : Board) (initial : State)
    (heap_lst : list item) (visited : gset string) :
  (sound_board (board initial) -> astar_inv (heappush item_lt [] (f initial, initial))) /\
  (astar_inv heap_lst -> heap_lst <> [] ->
   exists curr_item rest,
     heappop item_lt heap_lst = Ok (curr_item, rest) /\
     Forall (fun other : item => f curr_item.2 <= f other.2) heap_lst /\
     heap_lst ≡ₚ curr_item :: rest /\
     astar_inv rest /\
     forall t, astar_body goal_board heap_lst visited = Ok t ->
       match t with
       | Returned c => c = curr_item.2
       | Discarded fr v' => fr = rest /\ v' = visited
       | Expanded key fr v' =>
           v' = visited ∪ {[key]} /\
           exists succs,
             generate_successors curr_item.2 = Ok succs /\
             Forall (fun s' => is_successor curr_item.2 s' /\
                               depth s' = depth curr_item.2 + 1 /\
                               parent s' = Some curr_item.2) succs /\
             fr = fold_left (heappush item_lt)
                    (pushed_item <$> filter (fun s' => Board_str (board s') ∉ v') succs) rest /\
             Forall (fun it : item => it.1 = depth it.2 + hfn it.2 /\ f it.2 = it.1)
                    (pushed_item <$> filter (fun s' => Board_str (board s') ∉ v') succs) /\
             fr ≡ₚ (pushed_item <$> filter (fun s' => Board_str (board s') ∉ v') succs) ++ rest /\
             astar_inv fr
       end).
Proof.
  split.
  - intros Hb. apply astar_inv_push; [apply astar_inv_nil | reflexivity | exact Hb].
  - intros Hinv Hne.
    destruct (heappop_nonempty item_lt heap_lst Hne) as (curr_item & rest & Hpop).
    destruct (astar_inv_pop _ _ _ Hinv Hpop) as (Hrest & Hkey & Hsound & Hmin).
    exists curr_item, rest. split; [exact Hpop|]. split; [exact Hmin|].
    split; [apply (heappop_Permutation item_lt), Hpop|]. split; [exact Hrest|].
    intros t. unfold astar_body. rewrite Hpop. cbn [mbind res_bind].
    case_decide as Hvis; [intros [= <-]; auto|].
    destruct (Board_eq _ _); [intros [= <-]; reflexivity|].
    destruct (generate_successors curr_item.2) as [succs|e] eqn:Hgen; [|discriminate].
    cbn [mbind res_bind]. intros [= <-].
    split; [reflexivity|]. exists succs. split; [reflexivity|].
    assert (Hsuccs : Forall (is_successor curr_item.2) succs).
    { apply Forall_forall. intros s' Hin. eapply generate_successors_sound; eassumption. }
    split; [|split; [apply astar_pushes|split; [|split]]].
    + eapply Forall_impl; [exact Hsuccs|]. intros s' Hs'.
      destruct (successor_sound _ _ Hsound Hs') as (_ & _ & Hd & _ & Hp). auto.
    + apply Forall_fmap, Forall_forall. intros s' _. split; reflexivity.
    + rewrite astar_pushes. apply heappushes_Permutation.
    + rewrite astar_pushes. apply astar_inv_pushes; [exact Hrest|].
      apply Forall_fmap, Forall_forall. intros s' Hin.
      apply list_elem_of_filter in Hin as [_ Hin].
      rewrite Forall_forall in Hsuccs.
      destruct (successor_sound _ _ Hsound (Hsuccs s' Hin)) as (Hb' & _).
      split; [reflexivity | exact Hb'].
Qed.

Lemma astar_expansion_witness :
  astar_inv example_heap /\
  exists fr v',
    astar_body example_goal example_heap ∅
      = Ok (Expanded (Board_str example_board) fr v') /\
    length fr = 3%nat /\ astar_inv fr.
Proof.
  destruct (astar_expansion example_goal example_state example_heap ∅) as [Hinit Hturn].
  pose proof (Hinit example_board_sound) as Hinv.
  split; [exact Hinv|].
  destruct (Hturn Hinv) as (curr_item & rest & Hpop & _ & _ & _ & Hbody); [discriminate|].
  destruct (astar_body example_goal example_heap ∅) as [t|e] eqn:Hrun;
    [|vm_compute in Hrun; discriminate].
  specialize (Hbody t eq_refl).
  destruct t as [c|fr v'|key fr v'].
  - vm_compute in Hrun. discriminate.
  - vm_compute in Hrun. discriminate.
  - destruct Hbody as (_ & succs & _ & _ & _ & _ & _ & Hfr).
    exists fr, v'. split; [|split; [|exact Hfr]].
    + f_equal. unfold astar_body in Hrun.
      assert (Hk : key = Board_str example_board).
      { vm_compute in Hrun. injection Hrun as <- _ _. reflexivity. }
      rewrite Hk. reflexivity.
    + vm_compute in Hrun. injection Hrun as _ <- _. reflexivity.
Defined.

(** ** The search loops: visited set and termination *)

Section LoopFacts.
Context {F : Type} (is_empty : F -> bool) (body : F -> gset string -> res (turn F)).

(** A turn marks a grid string as visited only by expanding it (or by
    returning), and expands only unvisited grid strings. *)
Definition turn_marks (visited : gset string) (t : turn F) : Prop :=
  match t with
  | Returned _ => True
  | Discarded _ visited' => visited' = visited
  | Expanded key _ visited' => (key ∉ visited) /\ visited' = (visited ∪ {[key]})
  end.

Hypothesis body_marks :
  forall frontier visited t, body frontier visited = Ok t -> turn_marks visited t.

Lemma search_trace_fresh (fuel : nat) (frontier : F) (visited : gset string) :
  NoDup (search_trace is_empty body fuel frontier visited) /\
  forall key, key ∈ search_trace is_empty body fuel frontier visited -> key ∉ visited.
Proof.
  revert frontier visited. induction fuel as [|fuel IH]; intros frontier visited; simpl.
  - split; [apply NoDup_nil_2 | intros key H; inversion H].
  - destruct (is_empty frontier); [split; [apply NoDup_nil_2 | intros key H; inversion H]|].
    destruct (body frontier visited) as [[c|fr v'|key fr v']|e] eqn:Hbody;
      try solve [split; [apply NoDup_nil_2 | intros k H; inversion H]].
    + pose proof (body_marks _ _ _ Hbody) as Hm. simpl in Hm. subst v'. apply IH.
    + pose proof (body_marks _ _ _ Hbody) as [Hfresh ->].
      destruct (IH fr (visited ∪ {[key]})) as [Hnd Hnot].
      split.
      * constructor; [|exact Hnd]. intros Hin. apply Hnot in Hin. set_solver.
      * intros k Hk. apply elem_of_cons in Hk as [->|Hin]; [exact Hfresh|].
        apply Hnot in Hin. set_solver.
Qed.
End LoopFacts.

Section LoopTermination.
Context {F : Type} (is_empty : F -> bool) (body : F -> gset string -> res (turn F)).
Context (size_of : F -> nat) (frontier_ok : F -> Prop) (result_ok : State -> Prop).
Context (universe : gset string).

(** A turn on a good frontier does not raise; it returns a good result,
    or shrinks the frontier without touching the visited set, or visits
    one more grid string of the universe. *)
Definition turn_progress (frontier : F) (visited : gset string) (t : turn F) : Prop :=
  match t with
  | Returned c => result_ok c
  | Discarded frontier' visited' =>
      frontier_ok frontier' /\ visited' = visited /\ (size_of frontier' < size_of frontier)%nat
  | Expanded key frontier' visited' =>
      frontier_ok frontier' /\ key ∈ universe /\ (key ∉ visited) /\
      visited' = (visited ∪ {[key]})
  end.

Hypothesis body_progress :
  forall frontier visited, frontier_ok frontier -> is_empty frontier = false ->
    exists t, body frontier visited = Ok t /\ turn_progress frontier visited t.

(** The loop ends: each turn either shrinks the frontier or consumes one
    of the finitely many unvisited grid strings. *)
Lemma search_loop_terminates (frontier : F) (visited : gset string) :
  frontier_ok frontier -> visited ⊆ universe ->
  exists fuel r, search_loop is_empty body fuel frontier visited = Some (Ok r) /\
    forall c, r = Some c -> result_ok c.
Proof.
  remember (size (universe ∖ visited)) as n eqn:Hn.
  revert frontier visited Hn.
  induction n as [n IHn] using lt_wf_ind. intros frontier.
  remember (size_of frontier) as m eqn:Hm. revert frontier Hm.
  induction m as [m IHm] using lt_wf_ind. intros frontier Hm visited Hn Hok Hsub.
  destruct (is_empty frontier) eqn:Hempty.
  - exists 1%nat, None. simpl. rewrite Hempty. split; [reflexivity | discriminate].
  - destruct (body_progress frontier visited Hok Hempty) as (t & Hbody & Hprog).
    destruct t as [c|fr v'|key fr v']; simpl in Hprog.
    + exists 1%nat, (Some c). simpl. rewrite Hempty, Hbody.
      split; [reflexivity|]. intros c' [= <-]. exact Hprog.
    + destruct Hprog as (Hfr & -> & Hlt).
      destruct (IHm (size_of fr) ltac:(lia) fr eq_refl visited Hn Hfr Hsub)
        as (fuel & r & Hrun & Hr).
      exists (S fuel), r. simpl. rewrite Hempty, Hbody. auto.
    + destruct Hprog as (Hfr & Hin & Hnot & ->).
      assert (Hlt : (size (universe ∖ (visited ∪ {[key]})) < n)%nat).
      { subst n. apply subset_size. set_solver. }
      destruct (IHn _ Hlt fr (visited ∪ {[key]}) eq_refl Hfr) as (fuel & r & Hrun & Hr);
        [set_solver|].
      exists (S fuel), r. simpl. rewrite Hempty, Hbody. auto.
Qed.

(** More fuel does not change the result. *)
Lemma search_loop_more_fuel (fuel extra : nat) (frontier : F) (visited : gset string)
    (r : res (option State)) :
  search_loop is_empty body fuel frontier visited = Some r ->
  search_loop is_empty body (fuel + extra) frontier visited = Some r.
Proof.
  revert frontier visited. induction fuel as [|fuel IH]; intros frontier visited; simpl;
    [discriminate|].
  destruct (is_empty frontier); [auto|].
  destruct (body frontier visited) as [[c|fr v'|key fr v']|e]; auto.
Qed.
End LoopTermination.

(** *** The finite universe of grid strings *)

Definition symbols : list ascii := ["."; "1"; "2"; "<"; ">"; "^"; "v"]%char.

Fixpoint all_rows (w : nat) : list (list ascii) :=
  match w with
  | O => [[]]
  | S w' => c ← symbols; row ← all_rows w'; [c :: row]
  end.

Fixpoint all_grids (w h : nat) : list (list (list ascii)) :=
  match h with
  | O => [[]]
  | S h' => row ← all_rows w; g ← all_grids w h'; [row :: g]
  end.

Definition render (g : Grid) : string :=
  fold_left (fun s arr => s +:+ str_row arr) g ""%string.

(** The grid strings of all grids of [h] rows of four symbols. *)
Definition universe (h : Z) : gset string :=
  list_to_set (render <$> all_grids 4 (Z.to_nat h)).

Lemma all_rows_complete (w : nat) (row : list ascii) :
  length row = w -> Forall (fun c => c ∈ symbols) row -> row ∈ all_rows w.
Proof.
  revert row. induction w as [|w IH]; intros [|c row] Hlen Hall; try discriminate.
  - simpl. left.
  - inversion Hall; subst. cbn [all_rows].
    apply list_elem_of_bind. exists c. split; [|assumption].
    apply list_elem_of_bind. exists row. split; [left|].
    apply IH; [simpl in Hlen; lia | assumption].
Qed.

Lemma all_grids_complete (w h : nat) (g : list (list ascii)) :
  length g = h ->
  Forall (fun row => length row = w /\ Forall (fun c => c ∈ symbols) row) g ->
  g ∈ all_grids w h.
Proof.
  revert g. induction h as [|h IH]; intros [|row g] Hlen Hall; try discriminate.
  - simpl. left.
  - inversion Hall as [|? ? [Hw Hsym] Hall']; subst. cbn [all_grids].
    apply list_elem_of_bind. exists row. split; [|apply all_rows_complete; auto].
    apply list_elem_of_bind. exists g. split; [left|].
    apply IH; [simpl in Hlen; lia | assumption].
Qed.

Definition symbols_only (g : Grid) : Prop :=
  Forall (Forall (fun c => c ∈ symbols)) g.

Lemma symbols_only_paint (g : Grid) (wr : (Z * Z) * ascii) :
  symbols_only g -> wr.2 ∈ symbols -> symbols_only (paint g wr).
Proof.
  intros Hg Hc. unfold symbols_only, paint. apply Forall_alter; [exact Hg|].
  intros row _ Hrow. apply Forall_insert; assumption.
Qed.

Lemma writes_symbols (p : Piece) :
  Forall (fun wr : (Z * Z) * ascii => wr.2 ∈ symbols) (writes p).
Proof.
  unfold writes, symbols, char_single.
  repeat case_match; repeat constructor; simpl; set_solver.
Qed.

Lemma symbols_only_derived (w h : Z) (ps : dict (Z * Z) Piece) (g : Grid) :
  Forall nonneg (dict_values ps) -> derive_grid w h ps = Ok g -> symbols_only g.
Proof.
  intros Hnn Hg. rewrite derive_grid_paint in Hg by assumption.
  case_bool_decide; [|discriminate]. injection Hg as <-.
  assert (Hall : Forall (fun wr : (Z * Z) * ascii => wr.2 ∈ symbols) (all_writes ps)).
  { unfold all_writes. apply Forall_bind, Forall_forall. intros p _. apply writes_symbols. }
  assert (Hblank : symbols_only (blank_grid w h)).
  { unfold symbols_only, blank_grid. apply Forall_replicate, Forall_replicate.
    unfold symbols. set_solver. }
  revert Hblank. generalize (blank_grid w h).
  induction Hall as [|wr ws Hwr _ IH]; intros g0 Hg0; simpl; [exact Hg0|].
  apply IH, symbols_only_paint; assumption.
Qed.

(** The grid string of a sound board belongs to the universe of its
    height. *)
Lemma sound_board_in_universe (b : Board) :
  sound_board b -> Board_str b ∈ universe (height b).
Proof.
  intros Hb. unfold universe. apply elem_of_list_to_set, list_elem_of_fmap.
  exists (grid b). split; [reflexivity|].
  pose proof (sound_board_dims b Hb) as [Hlen Hrows].
  pose proof (symbols_only_derived _ _ _ _ (valid_pieces_nonneg _ (sb_valid b Hb)) (sb_grid b Hb))
    as Hsym.
  rewrite (sb_width b Hb) in Hrows.
  apply all_grids_complete; [exact Hlen|].
  unfold symbols_only in Hsym. rewrite Forall_forall in Hrows, Hsym |- *.
  intros row Hrow. split; [rewrite (Hrows row Hrow); reflexivity | apply Hsym, Hrow].
Qed.

(** *** The two strategies *)

(** A state the search can hold, for a puzzle of height [h]. *)
Definition good_state (h : Z) (s : State) : Prop :=
  sound_board (board s) /\ goal_complete (board s) /\ height (board s) = h.

Lemma good_successors (h : Z) (curr : State) :
  good_state h curr ->
  exists succs, generate_successors curr = Ok succs /\ Forall (good_state h) succs.
Proof.
  intros (Hb & Hgc & Hh).
  destruct (generate_successors_Ok curr Hb (goal_complete_ready _ Hgc)) as (succs & Hrun & Hall).
  exists succs. split; [exact Hrun|].
  eapply Forall_impl; [exact Hall|]. intros s' Hs'.
  destruct (successor_keeps_goal curr s' Hb Hgc Hs') as (Hb' & Hgc' & _).
  destruct (successor_sound curr s' Hb Hs') as (_ & Hh' & _).
  split; [exact Hb'|]. split; [exact Hgc' | congruence].
Qed.

Lemma list_is_empty_false {A : Type} (l : list A) : list_is_empty l = false -> l <> [].
Proof. destruct l; [discriminate | discriminate]. Qed.

Definition goal_reached (goal_board : Board) (c : State) : Prop :=
  Board_eq (board c) (VBoard goal_board) = true.

Lemma dfs_body_progress (goal_board : Board) (h : Z) (stack : list State)
    (visited : gset string) :
  Forall (good_state h) stack -> list_is_empty stack = false ->
  exists t, dfs_body goal_board stack visited = Ok t /\
    turn_progress (@length State) (Forall (good_state h)) (goal_reached goal_board)
      (universe h) stack visited t.
Proof.
  intros Hstack Hne. apply list_is_empty_false in Hne.
  destruct (pop_last_nonempty stack Hne) as (curr & rest & Hpop).
  pose proof (proj1 (pop_last_Ok _ _ _) Hpop) as ->.
  apply Forall_app in Hstack as [Hrest Hcurr]. rewrite Forall_singleton in Hcurr.
  unfold dfs_body. rewrite Hpop. cbn [mbind res_bind].
  case_decide as Hvis.
  - eexists. split; [reflexivity|]. simpl.
    split; [exact Hrest|]. split; [reflexivity|]. rewrite length_app. simpl. lia.
  - destruct (Board_eq (board curr) (VBoard goal_board)) eqn:Heq.
    + eexists. split; [reflexivity|]. exact Heq.
    + destruct (good_successors h curr Hcurr) as (succs & Hgen & Hsuccs).
      rewrite Hgen. cbn [mbind res_bind]. eexists. split; [reflexivity|]. simpl.
      split; [|split; [|split; [exact Hvis | reflexivity]]].
      * apply (fold_left_invariant (Forall (good_state h)) (good_state h));
          [|exact Hrest|exact Hsuccs].
        intros acc s' Hacc Hs'. unfold dfs_push. case_decide; [exact Hacc|].
        apply Forall_app. split; [exact Hacc | constructor; [exact Hs' | constructor]].
      * destruct Hcurr as (Hb & _ & <-). apply sound_board_in_universe, Hb.
Qed.

Lemma good_push (h : Z) (visited : gset string) (heap_lst : list item) (s' : State) :
  Forall (fun it : item => good_state h it.2) heap_lst -> good_state h s' ->
  Forall (fun it : item => good_state h it.2) (astar_push visited heap_lst s').
Proof.
  intros Hheap Hs'. unfold astar_push. case_decide; [exact Hheap|].
  apply heappush_Forall; [exact Hheap | exact Hs'].
Qed.

Lemma astar_body_progress (goal_board : Board) (h : Z) (heap_lst : list item)
    (visited : gset string) :
  Forall (fun it : item => good_state h it.2) heap_lst -> list_is_empty heap_lst = false ->
  exists t, astar_body goal_board heap_lst visited = Ok t /\
    turn_progress (@length item) (Forall (fun it : item => good_state h it.2))
      (goal_reached goal_board) (universe h) heap_lst visited t.
Proof.
  intros Hheap Hne. apply list_is_empty_false in Hne.
  destruct (heappop_nonempty item_lt heap_lst Hne) as (curr_item & rest & Hpop).
  destruct (heappop_Forall item_lt _ _ _ _ Hheap Hpop) as [Hcurr Hrest].
  pose proof (heappop_length item_lt _ _ _ Hpop) as Hlen.
  unfold astar_body. rewrite Hpop. cbn [mbind res_bind].
  case_decide as Hvis.
  - eexists. split; [reflexivity|]. simpl.
    split; [exact Hrest|]. split; [reflexivity | lia].
  - destruct (Board_eq (board curr_item.2) (VBoard goal_board)) eqn:Heq.
    + eexists. split; [reflexivity|]. exact Heq.
    + destruct (good_successors h curr_item.2 Hcurr) as (succs & Hgen & Hsuccs).
      rewrite Hgen. cbn [mbind res_bind]. eexists. split; [reflexivity|]. simpl.
      split; [|split; [|split; [exact Hvis | reflexivity]]].
      * apply (fold_left_invariant (Forall (fun it : item => good_state h it.2))
                 (good_state h)); [|exact Hrest|exact Hsuccs].
        intros acc s' Hacc Hs'. apply good_push; assumption.
      * destruct Hcurr as (Hb & _ & <-). apply sound_board_in_universe, Hb.
Qed.

Lemma search_loop_result_unique {F : Type} (is_empty : F -> bool)
    (body : F -> gset string -> res (turn F)) (fuel fuel' : nat) (frontier : F)
    (visited : gset string) (r r' : res (option State)) :
  search_loop is_empty body fuel frontier visited = Some r ->
  search_loop is_empty body fuel' frontier visited = Some r' -> r' = r.
Proof.
  intros H H'.
  apply (search_loop_more_fuel is_empty body fuel fuel') in H.
  apply (search_loop_more_fuel is_empty body fuel' fuel) in H'.
  rewrite Nat.add_comm in H'. congruence.
Qed.

Lemma example_board_goal_complete : goal_complete example_board.
Proof.
  intros p Hp. apply list_elem_of_In in Hp. simpl in Hp.
  destruct Hp as [<-|[<-|[<-|[]]]]; eexists; reflexivity.
Qed.

(** *** The turns of a run *)

Section LoopRuns.
Context {F : Type} (is_empty : F -> bool) (body : F -> gset string -> res (turn F)).
Context (popped : F -> State -> F -> Prop) (goal_board : Board).

(** A turn after which the loop goes on, from the frontier and visited
    set [c] to [c']: the node popped is dropped, its grid string being
    visited; or its grid string is not visited, its grid is not the
    goal's, and it is expanded. *)
Definition passes (c c' : F * gset string) : Prop :=
  is_empty c.1 = false /\
  exists curr rest, popped c.1 curr rest /\
    ((Board_str (board curr) ∈ c.2 /\
      body c.1 c.2 = Ok (Discarded c'.1 c'.2) /\ c'.1 = rest /\ c'.2 = c.2) \/
     ((Board_str (board curr) ∉ c.2) /\ grid (board curr) <> grid goal_board /\
      body c.1 c.2 = Ok (Expanded (Board_str (board curr)) c'.1 c'.2) /\
      c'.2 = c.2 ∪ {[Board_str (board curr)]})).

(** How the loop ends at [c]: with [None], on an empty frontier; or with
    the node popped from a frontier that is not empty, whose grid string
    is not visited and whose grid is the goal's. *)
Definition ends (c : F * gset string) (r : option State) : Prop :=
  match r with
  | None => is_empty c.1 = true
  | Some s =>
      is_empty c.1 = false /\ body c.1 c.2 = Ok (Returned s) /\
      exists rest, popped c.1 s rest /\ (Board_str (board s) ∉ c.2) /\
        grid (board s) = grid goal_board
  end.

(** What a turn does with the node it pops. *)
Definition turn_pops (frontier : F) (visited : gset string) (t : turn F) : Prop :=
  exists curr rest, popped frontier curr rest /\
    match t with
    | Returned c =>
        c = curr /\ (Board_str (board curr) ∉ visited) /\ grid (board curr) = grid goal_board
    | Discarded frontier' visited' =>
        Board_str (board curr) ∈ visited /\ frontier' = rest /\ visited' = visited
    | Expanded key frontier' visited' =>
        key = Board_str (board curr) /\ (key ∉ visited) /\
        grid (board curr) <> grid goal_board /\ visited' = visited ∪ {[key]}
    end.

Hypothesis body_turn :
  forall frontier visited t, body frontier visited = Ok t -> turn_pops frontier visited t.

Lemma pass_turn (frontier frontier' : F) (visited visited' : gset string) (t : turn F) :
  is_empty frontier = false -> body frontier visited = Ok t ->
  match t with
  | Returned _ => True
  | Discarded fr v' | Expanded _ fr v' => fr = frontier' /\ v' = visited'
  end ->
  match t with
  | Returned c => ends (frontier, visited) (Some c)
  | _ => passes (frontier, visited) (frontier', visited')
  end.
Proof.
  intros Hne Hbody Ht. destruct (body_turn _ _ _ Hbody) as (curr & rest & Hpop & Hturn).
  destruct t as [c|fr v'|key fr v'].
  - destruct Hturn as (-> & Hvis & Hgoal). split; [exact Hne|]. split; [exact Hbody|].
    exists rest. auto.
  - destruct Ht as [<- <-]. destruct Hturn as (Hvis & Hfr & Hv).
    split; [exact Hne|]. exists curr, rest. split; [exact Hpop|]. left. cbn [fst snd].
    subst v'. auto.
  - destruct Ht as [<- <-]. destruct Hturn as (Hkey & Hvis & Hgoal & Hv).
    split; [exact Hne|]. exists curr, rest. split; [exact Hpop|]. right. cbn [fst snd].
    subst key. auto.
Qed.

(** A run that ends is a sequence of turns that pass, followed by the
    end of the loop. *)
Lemma search_loop_run (fuel : nat) (frontier : F) (visited : gset string) (r : option State) :
  search_loop is_empty body fuel frontier visited = Some (Ok r) ->
  exists last, rtc passes (frontier, visited) last /\ ends last r.
Proof.
  revert frontier visited. induction fuel as [|fuel IH]; intros frontier visited Hrun;
    [discriminate|].
  cbn [search_loop] in Hrun. destruct (is_empty frontier) eqn:Hempty.
  - injection Hrun as <-. exists (frontier, visited). split; [reflexivity | exact Hempty].
  - destruct (body frontier visited) as [[c|fr v'|key fr v']|e] eqn:Hbody.
    + injection Hrun as <-. exists (frontier, visited). split; [reflexivity|].
      exact (pass_turn frontier frontier visited visited _ Hempty Hbody I).
    + destruct (IH fr v' Hrun) as (last & Hrtc & Hends). exists last. split; [|exact Hends].
      eapply rtc_l; [|exact Hrtc].
      exact (pass_turn frontier fr visited v' _ Hempty Hbody (conj eq_refl eq_refl)).
    + destruct (IH fr v' Hrun) as (last & Hrtc & Hends). exists last. split; [|exact Hends].
      eapply rtc_l; [|exact Hrtc].
      exact (pass_turn frontier fr visited v' _ Hempty Hbody (conj eq_refl eq_refl)).
    + discriminate.
Qed.
End LoopRuns.

(** [stack.pop()] and [heappop(heap_lst)[1]]. *)
Definition dfs_popped (stack : list State) (curr : State) (rest : list State) : Prop :=
  pop_last stack = Ok (curr, rest).

Definition astar_popped (heap_lst : list item) (curr : State) (rest : list item) : Prop :=
  exists curr_item, heappop item_lt heap_lst = Ok (curr_item, rest) /\ curr = curr_item.2.

Lemma dfs_body_turn (goal_board : Board) (stack : list State) (visited : gset string)
    (t : turn (list State)) :
  dfs_body goal_board stack visited = Ok t -> turn_pops dfs_popped goal_board stack visited t.
Proof.
  unfold dfs_body. intros Hrun.
  apply bind_Ok in Hrun as ([curr rest] & Hpop & Hrun).
  exists curr, rest. split; [exact Hpop|].
  case_decide as Hvis; [injection Hrun as <-; auto|].
  destruct (Board_eq (board curr) (VBoard goal_board)) eqn:Heq.
  - injection Hrun as <-. split; [reflexivity|]. split; [exact Hvis|].
    apply grid_eqb_eq, Heq.
  - destruct (generate_successors curr) as [succs|e] eqn:Hgen; [|discriminate].
    injection Hrun as <-. split; [reflexivity|]. split; [exact Hvis|]. split; [|reflexivity].
    intros Hgrid. apply grid_eqb_eq in Hgrid.
    change (grid_eqb (grid (board curr)) (grid goal_board) = false) in Heq. congruence.
Qed.

Lemma astar_body_turn (goal_board : Board) (heap_lst : list item) (visited : gset string)
    (t : turn (list item)) :
  astar_body goal_board heap_lst visited = Ok t ->
  turn_pops astar_popped goal_board heap_lst visited t.
Proof.
  unfold astar_body. intros Hrun.
  apply bind_Ok in Hrun as ([curr_item rest] & Hpop & Hrun).
  exists curr_item.2, rest. split; [exists curr_item; auto|].
  case_decide as Hvis; [injection Hrun as <-; auto|].
  destruct (Board_eq (board curr_item.2) (VBoard goal_board)) eqn:Heq.
  - injection Hrun as <-. split; [reflexivity|]. split; [exact Hvis|].
    apply grid_eqb_eq, Heq.
  - destruct (generate_successors curr_item.2) as [succs|e] eqn:Hgen; [|discriminate].
    injection Hrun as <-. split; [reflexivity|]. split; [exact Hvis|]. split; [|reflexivity].
    intros Hgrid. apply grid_eqb_eq in Hgrid.
    change (grid_eqb (grid (board curr_item.2)) (grid goal_board) = false) in Heq. congruence.
Qed.

(** C6: from a state whose board is sound and whose goal map is
    complete, with any goal board, both strategies terminate without an
    exception: with enough turns each returns a result, the same for any
    larger number of turns. The run is a sequence of turns that pass
    (the node popped is dropped because its grid string is visited, or
    it is unvisited, fails the goal test and is expanded) up to a last
    frontier and visited set, where the loop ends: with the node popped
    there, when its grid string is not visited and its grid is the
    goal's (the first such node of the run), or with [None], when the
    frontier is empty, and only then. The turns are bounded because
    every turn either removes a node from the frontier without expanding
    it or expands a grid string not expanded before, and the grid
    strings of the boards of a puzzle all belong to the finite set
    [universe]. *)
Theorem search_terminates (initial : State) (goal_board : Board) :
  sound_board (board initial) -> goal_complete (board initial) ->
  (exists fuel r,
     dfs fuel initial goal_board = Some (Ok r) /\
     (forall fuel' r', dfs fuel' initial goal_board = Some r' -> r' = Ok r) /\
     (forall c, r = Some c -> grid (board c) = grid goal_board) /\
     exists last,
       rtc (passes list_is_empty (dfs_body goal_board) dfs_popped goal_board)
           ([initial], ∅) last /\
       ends list_is_empty (dfs_body goal_board) dfs_popped goal_board last r) /\
  (exists fuel r,
     astar fuel initial goal_board = Some (Ok r) /\
     (forall fuel' r', astar fuel' initial goal_board = Some r' -> r' = Ok r) /\
     (forall c, r = Some c -> grid (board c) = grid goal_board) /\
     exists last,
       rtc (passes list_is_empty (astar_body goal_board) astar_popped goal_board)
           (heappush item_lt [] (f initial, initial), ∅) last /\
       ends list_is_empty (astar_body goal_board) astar_popped goal_board last r).
Proof.
  intros Hb Hgc.
  assert (Hgood : good_state (height (board initial)) initial)
    by (split; [exact Hb | split; [exact Hgc | reflexivity]]).
  split.
  - destruct (search_loop_terminates list_is_empty (dfs_body goal_board) (@length State)
                (Forall (good_state (height (board initial)))) (goal_reached goal_board)
                (universe (height (board initial)))
                (dfs_body_progress goal_board (height (board initial)))
                [initial] ∅) as (fuel & r & Hrun & Hr).
    + constructor; [exact Hgood | constructor].
    + set_solver.
    + exists fuel, r. split; [exact Hrun|]. split; [|split].
      * intros fuel' r' Hrun'.
        exact (search_loop_result_unique _ _ _ _ _ _ _ _ Hrun Hrun').
      * intros c Hc. apply grid_eqb_eq. exact (Hr c Hc).
      * exact (search_loop_run list_is_empty (dfs_body goal_board) dfs_popped goal_board
                 (dfs_body_turn goal_board) fuel _ _ r Hrun).
  - destruct (search_loop_terminates list_is_empty (astar_body goal_board) (@length item)
                (Forall (fun it : item => good_state (height (board initial)) it.2))
                (goal_reached goal_board)
                (universe (height (board initial)))
                (astar_body_progress goal_board (height (board initial)))
                (heappush item_lt [] (f initial, initial)) ∅) as (fuel & r & Hrun & Hr).
    + apply heappush_Forall; [constructor | exact Hgood].
    + set_solver.
    + exists fuel, r. split; [exact Hrun|]. split; [|split].
      * intros fuel' r' Hrun'.
        exact (search_loop_result_unique _ _ _ _ _ _ _ _ Hrun Hrun').
      * intros c Hc. apply grid_eqb_eq. exact (Hr c Hc).
      * exact (search_loop_run list_is_empty (astar_body goal_board) astar_popped goal_board
                 (astar_body_turn goal_board) fuel _ _ r Hrun).
Qed.

Lemma search_terminates_witness :
  (exists c, dfs 100 example_state example_goal = Some (Ok (Some c)) /\
             grid (board c) = grid example_goal /\ depth c = 17) /\
  (exists c, astar 100 example_state example_goal = Some (Ok (Some c)) /\
             grid (board c) = grid example_goal /\ depth c = 3) /\
  (exists fuel, dfs fuel example_state example_board = Some (Ok (Some example_state))).
Proof.
  destruct (search_terminates example_state example_goal example_board_sound
              example_board_goal_complete)
    as [(fuel1 & r1 & Hrun1 & Huniq1 & Hgrid1 & _) (fuel2 & r2 & Hrun2 & Huniq2 & Hgrid2 & _)].
  split; [|split].
  - destruct (dfs 100 example_state example_goal) as [[[c|]|e]|] eqn:Hrun;
      try (vm_compute in Hrun; discriminate).
    pose proof (Huniq1 100%nat _ Hrun) as Hr. injection Hr as <-.
    exists c. split; [reflexivity|]. split; [apply Hgrid1; reflexivity|].
    vm_compute in Hrun. injection Hrun as <-. reflexivity.
  - destruct (astar 100 example_state example_goal) as [[[c|]|e]|] eqn:Hrun;
      try (vm_compute in Hrun; discriminate).
    pose proof (Huniq2 100%nat _ Hrun) as Hr. injection Hr as <-.
    exists c. split; [reflexivity|]. split; [apply Hgrid2; reflexivity|].
    vm_compute in Hrun. injection Hrun as <-. reflexivity.
  - destruct (search_terminates example_state example_board example_board_sound
                example_board_goal_complete)
      as [(fuel & r & Hrun & _ & _ & last & Hturns & Hends) _].
    exists fuel. rewrite Hrun. do 2 f_equal.
    assert (Hlast : last = ([example_state], ∅)).
    { apply rtc_inv in Hturns as [Heq|(mid & (_ & curr & rest & Hpop & Hturn) & _)];
        [symmetry; exact Heq|]. exfalso.
      apply pop_last_Ok in Hpop. cbn [fst] in Hpop.
      destruct rest as [|s [|s' rest]]; try discriminate Hpop.
      injection Hpop as <-.
      destruct Hturn as [(Hvis & _)|(_ & Hgrid & _)]; [set_solver | apply Hgrid; reflexivity]. }
    subst last. destruct r as [s|]; [|discriminate Hends].
    destruct Hends as (_ & _ & rest & Hpop & _).
    apply pop_last_Ok in Hpop. cbn [fst] in Hpop.
    destruct rest as [|s0 [|s' rest]]; try discriminate Hpop.
    injection Hpop as <-. reflexivity.
Defined.

(** What a turn does with the node it pops, whose grid string is [key]. *)
Definition turn_of_pop {F : Type} (curr : State) (rest : F) (visited : gset string)
    (t : turn F) : Prop :=
  let key := Board_str (board curr) in
  match t with
  | Discarded frontier' visited' => key ∈ visited /\ frontier' = rest /\ visited' = visited
  | Returned c => (key ∉ visited) /\ c = curr
  | Expanded k _ visited' =>
      k = key /\ (key ∉ visited) /\ visited' = (visited ∪ {[key]}) /\
      is_Ok (generate_successors curr)
  end.

Lemma dfs_body_pop (goal_board : Board) (stack : list State) (visited : gset string)
    (t : turn (list State)) :
  dfs_body goal_board stack visited = Ok t ->
  exists curr rest, pop_last stack = Ok (curr, rest) /\ turn_of_pop curr rest visited t.
Proof.
  unfold dfs_body. intros Hrun.
  apply bind_Ok in Hrun as ([curr rest] & Hpop & Hrun).
  exists curr, rest. split; [exact Hpop|]. unfold turn_of_pop.
  case_decide as Hvis; [injection Hrun as <-; auto|].
  destruct (Board_eq _ _); [injection Hrun as <-; auto|].
  destruct (generate_successors curr) as [succs|e] eqn:Hgen; [|discriminate].
  injection Hrun as <-. repeat split; [exact Hvis | eexists; reflexivity].
Qed.

Lemma astar_body_pop (goal_board : Board) (heap_lst : list item) (visited : gset string)
    (t : turn (list item)) :
  astar_body goal_board heap_lst visited = Ok t ->
  exists curr_item rest,
    heappop item_lt heap_lst = Ok (curr_item, rest) /\
    turn_of_pop curr_item.2 rest visited t.
Proof.
  unfold astar_body. intros Hrun.
  apply bind_Ok in Hrun as ([curr_item rest] & Hpop & Hrun).
  exists curr_item, rest. split; [exact Hpop|]. unfold turn_of_pop.
  case_decide as Hvis; [injection Hrun as <-; auto|].
  destruct (Board_eq _ _); [injection Hrun as <-; auto|].
  destruct (generate_successors curr_item.2) as [succs|e] eqn:Hgen; [|discriminate].
  injection Hrun as <-. repeat split; [exact Hvis | eexists; reflexivity].
Qed.

Lemma turn_of_pop_marks {F : Type} (curr : State) (rest : F) (visited : gset string)
    (t : turn F) :
  turn_of_pop curr rest visited t -> turn_marks visited t.
Proof.
  destruct t as [c|fr v'|k fr v']; simpl; [auto | tauto |].
  intros (-> & Hvis & -> & _). auto.
Qed.

(** C2: in either strategy, a turn pops one node. If its grid string is
    in the visited set, the node is discarded: the frontier is what the
    pop left, the visited set is unchanged and no successors are
    generated. Otherwise the grid string is added to the visited set at
    this point, and the node is returned or expanded; pushing the
    successors adds nothing to the visited set. Consequently, along any
    run from any frontier and visited set, the grid strings for which
    successors are generated are pairwise distinct and were not visited
    before. *)
Theorem visited_when_popped (goal_board : Board) (fuel : nat)
    (stack : list State) (heap_lst : list item) (visited : gset string) :
  (forall t, dfs_body goal_board stack visited = Ok t ->
     exists curr rest, pop_last stack = Ok (curr, rest) /\ turn_of_pop curr rest visited t) /\
  (forall t, astar_body goal_board heap_lst visited = Ok t ->
     exists curr_item rest, heappop item_lt heap_lst = Ok (curr_item, rest) /\
       turn_of_pop curr_item.2 rest visited t) /\
  NoDup (search_trace list_is_empty (dfs_body goal_board) fuel stack visited) /\
  NoDup (search_trace list_is_empty (astar_body goal_board) fuel heap_lst visited) /\
  (forall key, key ∈ search_trace list_is_empty (dfs_body goal_board) fuel stack visited ->
     key ∉ visited) /\
  (forall key, key ∈ search_trace list_is_empty (astar_body goal_board) fuel heap_lst visited ->
     key ∉ visited).
Proof.
  assert (Hdfs : forall frontier v t, dfs_body goal_board frontier v = Ok t -> turn_marks v t).
  { intros frontier v t Hrun.
    destruct (dfs_body_pop _ _ _ _ Hrun) as (curr & rest & _ & Hturn).
    eapply turn_of_pop_marks, Hturn. }
  assert (Hastar : forall frontier v t,
            astar_body goal_board frontier v = Ok t -> turn_marks v t).
  { intros frontier v t Hrun.
    destruct (astar_body_pop _ _ _ _ Hrun) as (curr & rest & _ & Hturn).
    eapply turn_of_pop_marks, Hturn. }
  destruct (search_trace_fresh list_is_empty (dfs_body goal_board) Hdfs fuel stack visited)
    as [Hnd1 Hfresh1].
  destruct (search_trace_fresh list_is_empty (astar_body goal_board) Hastar fuel heap_lst visited)
    as [Hnd2 Hfresh2].
  split; [apply dfs_body_pop|]. split; [apply astar_body_pop|]. auto.
Qed.

Lemma visited_when_popped_witness :
  NoDup (search_trace list_is_empty (dfs_body example_goal) 100 [example_state] ∅) /\
  length (search_trace list_is_empty (dfs_body example_goal) 100 [example_state] ∅) = 17%nat /\
  NoDup (search_trace list_is_empty (astar_body example_goal) 100 example_heap ∅).
Proof.
  destruct (visited_when_popped example_goal 100 [example_state] example_heap ∅)
    as (_ & _ & Hnd1 & Hnd2 & _).
  split; [exact Hnd1|]. split; [vm_compute; reflexivity | exact Hnd2].
Defined.

(** ** The loader: identities *)

(** The candidates of all pools. *)
Definition candidates (M : Matching) : list Piece :=
  pool Single M ++ pool Vertical M ++ pool Horizontal M ++ pool Block M.

(** The identities of the candidates [C] are distinct, drawn from the
    supply below [next], and not yet in the goal map [gd], whose own
    identities are drawn from the supply too. *)
Definition ids_ok (C : list Piece) (gd : gmap positive Piece) (next : positive) : Prop :=
  NoDup (uid <$> C) /\
  Forall (fun p => (uid p < next)%positive) C /\
  Forall (fun p => gd !! uid p = None) C /\
  (forall u, is_Some (gd !! u) -> (u < next)%positive).

(** What the loader maintains about identities: the candidates are
    [ids_ok]; the goal pieces have distinct identities, and the goal map
    holds exactly the goal pieces, each under its identity. *)
Record loader_ids (x : Z) (st : Loader) : Prop := {
  lid_candidates :
    ids_ok (candidates (matching_of st)) (ld_goal_board_dict st) (ld_next_uid st);
  lid_final_nodup : NoDup (uid <$> dict_values (ld_final_pieces st));
  lid_agree : forall u g,
    ld_goal_board_dict st !! u = Some g <-> g ∈ dict_values (ld_final_pieces st) /\ uid g = u;
  lid_keys : keys_before (ld_line_index st) x (ld_final_pieces st);
  lid_initial : ld_final st = false -> ld_final_pieces st = []
}.

Lemma ids_ok_sub (C C' : list Piece) (gd : gmap positive Piece) (next : positive) :
  C' ⊆+ C -> ids_ok C gd next -> ids_ok C' gd next.
Proof.
  intros Hsub (Hnd & Hlt & Hnone & Hgd).
  destruct (submseteq_Permutation _ _ Hsub) as [k Hperm].
  rewrite Hperm in Hnd, Hlt, Hnone. rewrite fmap_app in Hnd.
  apply NoDup_app in Hnd as (Hnd & _ & _).
  apply Forall_app in Hlt as [Hlt _]. apply Forall_app in Hnone as [Hnone _].
  repeat split; assumption.
Qed.

(** A piece loaded from the initial layout takes the next identity. *)
Lemma ids_ok_add (C C' : list Piece) (p : Piece) (gd : gmap positive Piece) (next : positive) :
  ids_ok C gd next -> uid p = next -> C' ⊆+ p :: C -> ids_ok C' gd (Pos.succ next).
Proof.
  intros (Hnd & Hlt & Hnone & Hgd) Hp Hsub.
  apply (ids_ok_sub (p :: C)); [exact Hsub|].
  split; [|split; [|split]].
  - rewrite fmap_cons. apply NoDup_cons. split; [|exact Hnd].
    intros Hin. apply list_elem_of_fmap in Hin as (q & Hq & Hin).
    rewrite Forall_forall in Hlt. specialize (Hlt q Hin). lia.
  - constructor; [lia|]. eapply Forall_impl; [exact Hlt|]. intros q Hq. simpl in Hq. lia.
  - constructor; [|exact Hnone].
    destruct (gd !! uid p) as [g|] eqn:Hg; [|reflexivity].
    assert (uid p < next)%positive by (apply Hgd; eauto). lia.
  - intros u Hu. specialize (Hgd u Hu). lia.
Qed.

(** A candidate matched to a goal piece enters the goal map. *)
Lemma ids_ok_match (C C' : list Piece) (m r : Piece) (gd : gmap positive Piece)
    (next : positive) :
  C ≡ₚ m :: C' -> ids_ok C gd next -> ids_ok C' (<[uid m := r]> gd) next.
Proof.
  intros Hperm (Hnd & Hlt & Hnone & Hgd).
  rewrite Hperm in Hnd, Hlt, Hnone. rewrite fmap_cons in Hnd.
  apply NoDup_cons in Hnd as [Hm Hnd].
  apply Forall_cons in Hlt as [Hmlt Hlt]. apply Forall_cons in Hnone as [_ Hnone].
  split; [exact Hnd|]. split; [exact Hlt|]. split.
  - rewrite Forall_forall in Hnone |- *. intros q Hq.
    rewrite lookup_insert_ne; [apply Hnone, Hq|].
    intros Heq. apply Hm. rewrite Heq. apply list_elem_of_fmap. eauto.
  - intros u Hu. destruct (decide (u = uid m)) as [->|Hne]; [exact Hmlt|].
    rewrite lookup_insert_ne in Hu by congruence. apply Hgd, Hu.
Qed.

Lemma uid_goal_record (s : shape) (x y : Z) (u : positive) : uid (goal_record s x y u) = u.
Proof. destruct s; reflexivity. Qed.

Lemma candidates_match (M M' : Matching) (s : shape) (i : nat) (m : Piece) :
  pool s M !! i = Some m ->
  pool s M' = delete i (pool s M) ->
  (forall s', s' <> s -> pool s' M' = pool s' M) ->
  candidates M ≡ₚ m :: candidates M'.
Proof.
  intros Hm Hdel Hothers. pose proof (delete_Permutation _ _ _ Hm) as Hperm.
  unfold candidates.
  destruct s;
    repeat match goal with
    | |- context [pool ?s' M'] =>
        first [ rewrite (Hothers s') by discriminate | rewrite Hdel ]
    end;
    rewrite Hperm at 1; cbn [app]; rewrite <- ?Permutation_middle; reflexivity.
Qed.

(** One character of the initial layout. *)
Lemma initial_char_ids (st : Loader) (x : Z) (ch : ascii) :
  loader_ids x st -> loader_ids (x + 1) (initial_char st x ch).
Proof.
  intros [Hids Hnd Hagree Hkeys Hinit].
  destruct st as [gd singles vert hori double li ps fps final found ffound h next].
  unfold candidates, matching_of, pool in Hids.
  cbn [ld_vert ld_hori ld_singles ld_double ld_finalfound_2by2 ld_goal_board_dict
       ld_next_uid ld_final_pieces ld_line_index ld_final
       m_vert m_hori m_singles m_double m_block_matched] in *.
  unfold initial_char.
  destruct (Ascii.eqb ch "^");
    [|destruct (Ascii.eqb ch "<");
      [|destruct (Ascii.eqb ch char_single);
        [|destruct (Ascii.eqb ch "1"); [destruct found|]]]];
    constructor;
    unfold candidates, matching_of, pool;
    cbn [ld_vert ld_hori ld_singles ld_double ld_finalfound_2by2 ld_goal_board_dict
         ld_next_uid ld_final_pieces ld_line_index ld_final
         m_vert m_hori m_singles m_double m_block_matched];
    try assumption;
    try (apply keys_before_skip; assumption).
  - eapply (ids_ok_add _ _ (mkPiece _ _ _ _ _ next)); [exact Hids | reflexivity |].
    apply Permutation_submseteq. rewrite <- !app_assoc. cbn [app].
    rewrite <- ?Permutation_middle. reflexivity.
  - eapply (ids_ok_add _ _ (mkPiece _ _ _ _ _ next)); [exact Hids | reflexivity |].
    apply Permutation_submseteq. rewrite <- !app_assoc. cbn [app].
    rewrite <- ?Permutation_middle. reflexivity.
  - eapply (ids_ok_add _ _ (mkPiece _ _ _ _ _ next)); [exact Hids | reflexivity |].
    apply Permutation_submseteq. rewrite <- !app_assoc. cbn [app].
    rewrite <- ?Permutation_middle. reflexivity.
  - eapply (ids_ok_add _ _ (mkPiece _ _ _ _ _ next)); [exact Hids | reflexivity |].
    destruct ffound.
    + apply submseteq_cons. do 3 apply submseteq_skips_l. apply submseteq_nil_l.
    + rewrite <- !Permutation_middle. apply submseteq_skip.
      do 3 apply submseteq_skips_l. apply submseteq_nil_l.
Qed.

(** One character of the goal layout. *)
Lemma goal_char_ids (st st' : Loader) (x : Z) (ch : ascii) :
  ld_final st = true ->
  loader_ids x st ->
  goal_char st x ch = Ok st' ->
  loader_ids (x + 1) st'.
Proof.
  intros Hfinal [Hids Hnd Hagree Hkeys _] Hrun.
  destruct (goal_char_step st st' x ch Hrun) as (Hframe & _ & Hstep).
  destruct Hframe as (Hli & Hfin & _ & _ & _ & Hnext).
  destruct (char_piece (ld_finalfound_2by2 st) ch) as [s|].
  - destruct Hstep as (i & m & Hnear & Hpool & Hothers & Hgd & Hfps).
    pose proof (candidates_match _ _ s i m (proj1 Hnear) Hpool Hothers) as Hperm.
    pose proof (keys_before_fresh _ _ _ Hkeys) as Hfresh.
    rewrite (dict_set_fresh _ _ _ Hfresh) in Hfps.
    assert (Hm : ld_goal_board_dict st !! uid m = None).
    { destruct Hids as (_ & _ & Hnone & _). rewrite Hperm in Hnone.
      apply Forall_cons in Hnone as [Hnone _]. exact Hnone. }
    constructor.
    + rewrite Hgd, Hnext. eapply ids_ok_match; [exact Hperm | exact Hids].
    + rewrite Hfps, dict_values_snoc, fmap_app. cbn [fmap list_fmap].
      rewrite uid_goal_record. apply NoDup_app. split; [exact Hnd|]. split.
      * intros u Hu Hin. apply list_elem_of_singleton in Hin as ->.
        apply list_elem_of_fmap in Hu as (g & Hg & Hin).
        assert (Hsome : ld_goal_board_dict st !! uid m = Some g)
          by (apply Hagree; split; [exact Hin | congruence]).
        congruence.
      * apply NoDup_singleton.
    + intros u g. rewrite Hgd, Hfps, dict_values_snoc. split.
      * destruct (decide (u = uid m)) as [->|Hne].
        -- rewrite lookup_insert_eq. intros [= <-]. rewrite uid_goal_record.
           split; [|reflexivity]. apply elem_of_app. right. apply list_elem_of_singleton.
           reflexivity.
        -- rewrite lookup_insert_ne by congruence. intros Hg.
           apply Hagree in Hg as [Hin Hu]. split; [|exact Hu].
           apply elem_of_app. left. exact Hin.
      * intros [Hin Hu]. apply elem_of_app in Hin as [Hin|Hin].
        -- assert (Hg : ld_goal_board_dict st !! u = Some g) by (apply Hagree; auto).
           rewrite lookup_insert_ne; [exact Hg|]. intros <-. congruence.
        -- apply list_elem_of_singleton in Hin as ->. rewrite uid_goal_record in Hu.
           subst u. apply lookup_insert_eq.
    + rewrite Hfps, Hli. apply keys_before_next. exact Hkeys.
    + intros Hf. congruence.
  - destruct Hstep as [HM Hfps].
    assert (Hgd : ld_goal_board_dict st' = ld_goal_board_dict st)
      by (change (m_goal (matching_of st') = m_goal (matching_of st)); rewrite HM; reflexivity).
    constructor.
    + rewrite HM, Hgd, Hnext. exact Hids.
    + rewrite Hfps. exact Hnd.
    + rewrite Hgd, Hfps. exact Hagree.
    + rewrite Hfps, Hli. apply keys_before_skip. exact Hkeys.
    + intros Hf. congruence.
Qed.

Lemma goal_chars_ids (chars : list ascii) (x : Z) (st st' : Loader) :
  ld_final st = true ->
  loader_ids x st ->
  for_each (fun s (xc : Z * ascii) => goal_char s xc.1 xc.2) (enumerate_from x chars) st
  = Ok st' ->
  exists x', loader_ids x' st'.
Proof.
  revert x st. induction chars as [|ch chars IH]; intros x st Hfinal Hst Hrun.
  - injection Hrun as <-. eauto.
  - cbn [enumerate_from for_each] in Hrun. apply bind_Ok in Hrun as (st1 & Hstep & Hrest).
    cbn [fst snd] in Hstep.
    apply (IH (x + 1) st1); [|eapply goal_char_ids; eassumption|exact Hrest].
    destruct (goal_char_step st st1 x ch Hstep) as ((_ & Hfin & _) & _). congruence.
Qed.

Lemma initial_chars_ids (chars : list ascii) (x : Z) (st : Loader) :
  loader_ids x st ->
  exists x', loader_ids x'
    (fold_left (fun s (xc : Z * ascii) => initial_char s xc.1 xc.2) (enumerate_from x chars) st).
Proof.
  revert x st. induction chars as [|ch chars IH]; intros x st Hst.
  - simpl. eauto.
  - cbn [enumerate_from fold_left fst snd]. apply (IH (x + 1)), initial_char_ids, Hst.
Qed.

Lemma bump_height_ids (x : Z) (st : Loader) : loader_ids x st -> loader_ids x (bump_height st).
Proof. intros []. destruct st. constructor; assumption. Qed.

Lemma next_line_ids (x : Z) (st : Loader) : loader_ids x st -> loader_ids 0 (next_line st).
Proof.
  intros [Hids Hnd Hagree Hkeys Hinit]. destruct st. constructor; try assumption.
  cbn [ld_line_index ld_final_pieces next_line] in *. unfold keys_before in *.
  eapply Forall_impl; [exact Hkeys|]. intros kp Hkp. simpl in *. lia.
Qed.

Lemma start_goal_ids (st : Loader) :
  ld_final st = false -> loader_ids 0 st -> loader_ids 0 (start_goal st).
Proof.
  intros Hfinal [Hids Hnd Hagree Hkeys Hinit]. specialize (Hinit Hfinal).
  destruct st. cbn [ld_final_pieces] in Hinit. subst.
  constructor; try assumption.
  - constructor.
  - discriminate.
Qed.

Lemma read_line_ids (st st' : Loader) (line : string) :
  loader_ids 0 st -> read_line st line = Ok st' -> loader_ids 0 st'.
Proof.
  intros Hst. unfold read_line.
  pose proof (bump_height_ids 0 st Hst) as Hb.
  destruct (String.eqb line newline).
  - intros [= <-]. destruct (ld_final (bump_height st)) eqn:Hfinal; [exact Hb|].
    apply start_goal_ids; assumption.
  - intros Hrun. apply bind_Ok in Hrun as (st1 & Hchars & [= <-]).
    destruct (ld_final (bump_height st)) eqn:Hfinal.
    + destruct (goal_chars_ids _ 0 _ _ Hfinal Hb Hchars) as [x' Hst1].
      eapply next_line_ids, Hst1.
    + injection Hchars as <-.
      destruct (initial_chars_ids (list_ascii_of_string line) 0 _ Hb) as [x' Hst1].
      eapply next_line_ids, Hst1.
Qed.

Lemma loader_init_ids : loader_ids 0 loader_init.
Proof.
  constructor; cbn.
  - split; [constructor|]. split; [constructor|]. split; [constructor|].
    intros u [g Hg]. rewrite lookup_empty in Hg. discriminate.
  - constructor.
  - intros u g. rewrite lookup_empty. split; [discriminate|].
    intros [Hin _]. apply elem_of_nil in Hin. contradiction.
  - constructor.
  - reflexivity.
Qed.

Lemma read_lines_ids (lines : list string) (st : Loader) :
  for_each read_line lines loader_init = Ok st -> loader_ids 0 st.
Proof.
  apply (for_each_preserves (loader_ids 0) (fun _ => True)).
  - intros s line s' Hs _ Hstep. eapply read_line_ids; eassumption.
  - apply loader_init_ids.
  - apply Forall_forall. auto.
Qed.

(** The goal map returned by [read_from_file] and the goal board describe
    the same pieces: the goal pieces have distinct identities and the map
    sends each identity to the goal piece that carries it. *)
Lemma read_from_file_goal_agrees (lines : list string) (b goal_board : Board) :
  read_from_file lines = Ok (b, goal_board) ->
  exists gd, goal_board_dict b = Some gd /\ goal_agrees gd goal_board.
Proof.
  unfold read_from_file. intros Hrun.
  apply bind_Ok in Hrun as (st & Hlines & Hrun).
  apply bind_Ok in Hrun as (b1 & Hb1 & Hrun).
  apply bind_Ok in Hrun as (b2 & Hb2 & [= <- <-]).
  destruct (read_lines_ids lines st Hlines) as [_ Hnd Hagree _ _].
  unfold Board_init, update_grid in Hb1, Hb2.
  cbn [width height pieces goal_board_dict] in Hb1, Hb2.
  apply bind_Ok in Hb1 as (g1 & _ & [= <-]). apply bind_Ok in Hb2 as (g2 & _ & [= <-]).
  exists (ld_goal_board_dict st). split; [reflexivity|].
  split; [exact Hnd | exact Hagree].
Qed.

(** X20: for the boards returned by [read_from_file], the root state
    that [output_solution] builds for [astar] carries the identity-aware
    heuristic of the initial board: the sum, over its pieces, of the
    Manhattan distance to the goal piece with the same identity. *)
Lemma astar_root_heuristic (lines : list string) (b goal_board : Board) :
  read_from_file lines = Ok (b, goal_board) ->
  hfn (astar_root b goal_board) = heuristic b.
Proof.
  intros Hrun. destruct (read_from_file_goal_agrees lines b goal_board Hrun) as (gd & Hgd & Hag).
  unfold astar_root. cbn [hfn]. eapply init_manhattan_distance_heuristic; eassumption.
Qed.

Lemma astar_root_heuristic_witness :
  read_from_file example_lines = Ok (example_board, example_goal) /\
  hfn (astar_root example_board example_goal) = heuristic example_board.
Proof.
  split; [exact example_lines_load|].
  exact (astar_root_heuristic example_lines example_board example_goal example_lines_load).
Defined.

(** ** Grid strings and grid equality *)

Lemma app_String (c : ascii) (s1 s2 : string) : String c s1 +:+ s2 = String c (s1 +:+ s2).
Proof. reflexivity. Qed.

Lemma app_empty (s : string) : ""%string +:+ s = s.
Proof. reflexivity. Qed.

Lemma string_app_assoc (s1 s2 s3 : string) : (s1 +:+ s2) +:+ s3 = s1 +:+ (s2 +:+ s3).
Proof.
  induction s1 as [|c s1 IH]; [reflexivity|]. rewrite !app_String, IH. reflexivity.
Qed.

Lemma string_app_empty_r (s : string) : s +:+ "" = s.
Proof. induction s as [|c s IH]; [reflexivity|]. rewrite app_String, IH. reflexivity. Qed.

Ltac str_norm := rewrite ?string_app_assoc, ?app_String, ?app_empty.
Ltac str_norm_in H := rewrite ?string_app_assoc, ?app_String, ?app_empty in H.

Lemma fold_append (rows : list (list ascii)) (s : string) :
  fold_left (fun s arr => s +:+ str_row arr) rows s = s +:+ render rows.
Proof.
  unfold render. revert s. induction rows as [|row rows IH]; intros s; simpl.
  - rewrite string_app_empty_r. reflexivity.
  - rewrite IH, (IH (""%string +:+ str_row row)). rewrite app_empty. apply string_app_assoc.
Qed.

Lemma render_cons (row : list ascii) (rows : list (list ascii)) :
  render (row :: rows) = str_row row +:+ render rows.
Proof. unfold render at 1. simpl. rewrite fold_append. reflexivity. Qed.

(** The text of a row determines the row and what follows it. *)
Lemma row_text_inj (r r' : list ascii) (s s' : string) :
  join_comma (map repr_char r) +:+ "]" +:+ s = join_comma (map repr_char r') +:+ "]" +:+ s' ->
  r = r' /\ s = s'.
Proof.
  revert r'. induction r as [|c r IH]; intros r' Heq.
  - destruct r' as [|c' [|c2' r']]; cbn [join_comma map repr_char] in Heq;
      str_norm_in Heq; [|discriminate..].
    injection Heq as <-. auto.
  - destruct r as [|c2 r].
    + destruct r' as [|c' [|c2' r']]; cbn [join_comma map repr_char] in Heq;
        str_norm_in Heq; [discriminate| |discriminate].
      injection Heq as <- <-. auto.
    + destruct r' as [|c' [|c2' r']];
        [cbn [join_comma map repr_char] in Heq; str_norm_in Heq; discriminate..|].
      change (join_comma (map repr_char (c :: c2 :: r)))
        with (repr_char c +:+ ", " +:+ join_comma (map repr_char (c2 :: r))) in Heq.
      change (join_comma (map repr_char (c' :: c2' :: r')))
        with (repr_char c' +:+ ", " +:+ join_comma (map repr_char (c2' :: r'))) in Heq.
      unfold repr_char at 1 3 in Heq. str_norm_in Heq.
      injection Heq as <- Heq.
      destruct (IH (c2' :: r') Heq) as [-> ->]. auto.
Qed.

Lemma str_row_inj (r r' : list ascii) (s s' : string) :
  str_row r +:+ s = str_row r' +:+ s' -> r = r' /\ s = s'.
Proof.
  unfold str_row. str_norm. intros [= Heq]. apply row_text_inj. exact Heq.
Qed.

Lemma str_row_nonempty (r : list ascii) (s : string) : str_row r +:+ s <> ""%string.
Proof. unfold str_row. str_norm. discriminate. Qed.

Lemma render_inj (g g' : list (list ascii)) : render g = render g' -> g = g'.
Proof.
  revert g'. induction g as [|row g IH]; intros [|row' g'] Heq.
  - reflexivity.
  - rewrite render_cons in Heq. symmetry in Heq. apply str_row_nonempty in Heq. contradiction.
  - rewrite render_cons in Heq. apply str_row_nonempty in Heq. contradiction.
  - rewrite !render_cons in Heq. apply str_row_inj in Heq as [-> Heq].
    rewrite (IH g' Heq). reflexivity.
Qed.

(** Two grids of the same dimensions with the same cells are equal. *)
Lemma grid_ext (w h : Z) (g1 g2 : list (list ascii)) :
  grid_dims w h g1 -> grid_dims w h g2 ->
  (forall c, in_grid w h c -> cell g1 c = cell g2 c) -> g1 = g2.
Proof.
  intros [Hl1 Hr1] [Hl2 Hr2] Hcells. apply list_eq. intros i.
  destruct (g1 !! i) as [r1|] eqn:E1.
  - assert (Hi : (i < length g1)%nat) by (apply lookup_lt_is_Some; eauto).
    destruct (lookup_lt_is_Some_2 g2 i) as [r2 E2]; [lia|]. rewrite E2. f_equal.
    rewrite Forall_forall in Hr1, Hr2.
    pose proof (Hr1 r1 (list_elem_of_lookup_2 _ _ _ E1)) as Hw1.
    pose proof (Hr2 r2 (list_elem_of_lookup_2 _ _ _ E2)) as Hw2.
    apply list_eq. intros j.
    destruct (decide (j < length r1)%nat) as [Hj|Hj].
    + specialize (Hcells (Z.of_nat j, Z.of_nat i)).
      unfold cell, in_grid in Hcells. cbn [fst snd] in Hcells.
      rewrite bool_decide_eq_true_2 in Hcells by lia.
      rewrite !Nat2Z.id, E1, E2 in Hcells. cbn in Hcells. apply Hcells. lia.
    + rewrite !lookup_ge_None_2 by lia. reflexivity.
  - symmetry. apply lookup_ge_None. apply lookup_ge_None in E1. lia.
Qed.

(** ** The cells of a well-formed board *)

Lemma last_write_notin (ws : list ((Z * Z) * ascii)) (c : Z * Z) (init : option ascii) :
  c ∉ ws.*1 -> last_write ws c init = init.
Proof.
  unfold last_write. revert init. induction ws as [|[c' a] ws IH]; intros init Hc; simpl.
  - reflexivity.
  - rewrite fmap_cons in Hc. apply not_elem_of_cons in Hc as [Hne Hc].
    destruct (decide (c' = c)) as [->|_]; [contradiction|]. apply IH, Hc.
Qed.

Lemma last_write_NoDup (ws : list ((Z * Z) * ascii)) (c : Z * Z) (a : ascii)
    (init : option ascii) :
  NoDup ws.*1 -> (c, a) ∈ ws -> last_write ws c init = Some a.
Proof.
  unfold last_write. revert init. induction ws as [|[c' a'] ws IH]; intros init Hnd Hin.
  - inversion Hin.
  - rewrite fmap_cons in Hnd. apply NoDup_cons in Hnd as [Hc' Hnd]. simpl.
    apply elem_of_cons in Hin as [[= <- <-]|Hin].
    + rewrite decide_True by reflexivity. apply (last_write_notin ws c (Some a)), Hc'.
    + apply IH; assumption.
Qed.

Lemma last_write_elem (ws : list ((Z * Z) * ascii)) (c : Z * Z) (a : ascii)
    (init : option ascii) :
  last_write ws c init = Some a -> init = Some a \/ (c, a) ∈ ws.
Proof.
  unfold last_write. revert init. induction ws as [|[c' a'] ws IH]; intros init H; simpl in H.
  - auto.
  - apply IH in H as [H|H]; [|right; right; exact H].
    cbn [fst snd] in H. destruct (decide (c' = c)) as [->|_]; [|auto].
    injection H as <-. right. left.
Qed.

Lemma elem_of_all_writes (ps : dict (Z * Z) Piece) (wr : (Z * Z) * ascii) :
  wr ∈ all_writes ps <-> exists p, p ∈ dict_values ps /\ wr ∈ writes p.
Proof.
  unfold all_writes. rewrite list_elem_of_bind. split; intros (p & H1 & H2); eauto.
Qed.

(** On a well-formed board every cell of a piece shows the symbol the
    piece writes there. *)
Lemma wf_cell_of_piece (b : Board) (p : Piece) (c : Z * Z) (a : ascii) :
  wf_board b -> p ∈ dict_values (pieces b) -> (c, a) ∈ writes p ->
  cell (grid b) c = Some a.
Proof.
  intros [Hb Hnd] Hp Hwr.
  destruct (derive_grid_Ok _ _ _ _ (valid_pieces_nonneg _ (sb_valid b Hb)) (sb_grid b Hb))
    as (Hfit & _ & Hcell).
  assert (Hc : c ∈ occupied (pieces b)).
  { rewrite <- occupied_all_writes. apply list_elem_of_fmap. exists (c, a). split; [reflexivity|].
    apply elem_of_all_writes. eauto. }
  rewrite Forall_forall in Hfit. rewrite (Hcell c (Hfit c Hc)).
  apply last_write_NoDup; [rewrite occupied_all_writes; exact Hnd|].
  apply elem_of_all_writes. eauto.
Qed.

(** On a sound board a symbol other than the empty one was written by a
    piece. *)
Lemma sound_cell_written (b : Board) (c : Z * Z) (a : ascii) :
  sound_board b -> cell (grid b) c = Some a -> a <> char_empty ->
  exists p, p ∈ dict_values (pieces b) /\ (c, a) ∈ writes p.
Proof.
  intros Hb Hc Ha.
  destruct (derive_grid_Ok _ _ _ _ (valid_pieces_nonneg _ (sb_valid b Hb)) (sb_grid b Hb))
    as (_ & Hdims & Hcell).
  pose proof (cell_Some_in_grid _ _ _ _ _ Hdims Hc) as Hin.
  rewrite (Hcell c Hin) in Hc. apply last_write_elem in Hc as [[= <-]|Hc].
  - contradiction Ha. reflexivity.
  - apply elem_of_all_writes. exact Hc.
Qed.

(** ** The grid after a move *)

Lemma occupied_remove (ps : dict (Z * Z) Piece) (k : Z * Z) (p : Piece) :
  dict_get k ps = Some p -> occupied ps ≡ₚ footprint p ++ occupied (dict_remove k ps).
Proof.
  intros Hget. rewrite (occupied_Permutation _ _ (dict_remove_Permutation _ _ _ Hget)).
  reflexivity.
Qed.

Lemma elem_of_occupied (ps : dict (Z * Z) Piece) (c : Z * Z) :
  c ∈ occupied ps <-> exists p, p ∈ dict_values ps /\ c ∈ footprint p.
Proof.
  unfold occupied. rewrite list_elem_of_bind. split; intros (p & H1 & H2); eauto.
Qed.

Lemma sound_cell_empty (b : Board) (c : Z * Z) :
  sound_board b ->
  cell (grid b) c = Some char_empty <-> in_grid (width b) (height b) c /\ c ∉ occupied (pieces b).
Proof.
  intros Hb. apply derive_grid_empty; [|apply (sb_grid b Hb)].
  apply valid_pieces_nonneg, (sb_valid b Hb).
Qed.

Lemma footprint_elem (p : Piece) (c : Z * Z) :
  c ∈ footprint p <-> exists a, (c, a) ∈ writes p.
Proof.
  unfold footprint. rewrite list_elem_of_fmap. split.
  - intros ([c' a] & -> & H). eauto.
  - intros (a & H). exists (c, a). auto.
Qed.

(** The cells of the board after a legal move of [p] to [k]: the moved
    piece shows at its new cells, the cells it left are empty, and every
    other cell is as before. *)
Lemma move_cells (b b' : Board) (p : Piece) (k : Z * Z) :
  wf_board b -> p ∈ dict_values (pieces b) -> k ∈ legal_destinations b p ->
  copy_board b k (position p) = Ok b' ->
  wf_board b' /\ width b' = width b /\ height b' = height b /\
  pieces b' = dict_remove (position p) (pieces b) ++ [(k, set_coords p k.1 k.2)] /\
  (forall c a, (c, a) ∈ writes (set_coords p k.1 k.2) -> cell (grid b') c = Some a) /\
  (forall c, c ∈ footprint p -> c ∉ footprint (set_coords p k.1 k.2) ->
     cell (grid b') c = Some char_empty) /\
  (forall c, c ∉ footprint p -> c ∉ footprint (set_coords p k.1 k.2) ->
     cell (grid b') c = cell (grid b) c).
Proof.
  intros Hwf Hp Hk Hcopy.
  destruct (copy_board_wf b p k Hwf Hp Hk) as (b1 & Hcopy1 & Hwf' & Hh & Hgd & Hps).
  rewrite Hcopy in Hcopy1. injection Hcopy1 as <-.
  pose proof Hwf as [Hb Hnd]. pose proof Hwf' as [Hb' Hnd'].
  assert (Hw : width b' = width b) by (rewrite (sb_width _ Hb), (sb_width _ Hb'); reflexivity).
  pose proof (sound_board_get b p Hb Hp) as Hget.
  assert (Hmoved : set_coords p k.1 k.2 ∈ dict_values (pieces b')).
  { rewrite Hps, dict_values_snoc. apply elem_of_app. right. left. }
  assert (Hocc' : forall c, c ∈ occupied (pieces b') <->
            c ∈ occupied (dict_remove (position p) (pieces b)) \/
            c ∈ footprint (set_coords p k.1 k.2)).
  { intros c. rewrite Hps, occupied_snoc, elem_of_app. reflexivity. }
  assert (Hocc : forall c, c ∈ occupied (pieces b) <->
            c ∈ footprint p \/ c ∈ occupied (dict_remove (position p) (pieces b))).
  { intros c. rewrite (occupied_remove _ _ _ Hget), elem_of_app. reflexivity. }
  assert (Hdisj : forall c, c ∈ footprint p ->
            c ∉ occupied (dict_remove (position p) (pieces b))).
  { intros c Hc Hc'. rewrite (occupied_remove _ _ _ Hget) in Hnd.
    apply NoDup_app in Hnd as (_ & Hd & _). exact (Hd c Hc Hc'). }
  split; [exact Hwf'|]. split; [exact Hw|]. split; [exact Hh|]. split; [exact Hps|].
  split; [|split].
  - intros c a Hwr. eapply wf_cell_of_piece; eassumption.
  - intros c Hc Hc'. apply (sound_cell_empty b' c Hb'). split.
    + rewrite Hw, Hh. pose proof (sound_board_footprint b p Hb Hp) as Hfit.
      rewrite Forall_forall in Hfit. apply Hfit, Hc.
    + rewrite Hocc'. intros [H|H]; [exact (Hdisj c Hc H) | exact (Hc' H)].
  - intros c Hc Hc'.
    destruct (decide (c ∈ occupied (dict_remove (position p) (pieces b)))) as [Hin|Hout].
    + apply elem_of_occupied in Hin as (q & Hq & Hcq).
      apply footprint_elem in Hcq as [a Hwr].
      assert (Hq1 : q ∈ dict_values (pieces b)).
      { unfold dict_values in Hq |- *. apply list_elem_of_fmap in Hq as (kq & -> & Hkq).
        apply list_elem_of_fmap. exists kq. split; [reflexivity|].
        eapply elem_dict_remove, Hkq. }
      assert (Hq2 : q ∈ dict_values (pieces b')).
      { rewrite Hps, dict_values_snoc. apply elem_of_app. left. exact Hq. }
      rewrite (wf_cell_of_piece b q c a Hwf Hq1 Hwr).
      apply (wf_cell_of_piece b' q c a Hwf' Hq2 Hwr).
    + destruct (decide (in_grid (width b) (height b) c)) as [Hg|Hg].
      * assert (E1 : cell (grid b) c = Some char_empty).
        { apply (sound_cell_empty b c Hb). split; [exact Hg|]. rewrite Hocc. tauto. }
        assert (E2 : cell (grid b') c = Some char_empty).
        { apply (sound_cell_empty b' c Hb'). split; [rewrite Hw, Hh; exact Hg|].
          rewrite Hocc'. tauto. }
        congruence.
      * destruct (cell (grid b) c) as [a|] eqn:E1.
        { exfalso. apply Hg. eapply cell_Some_in_grid; [apply (sound_board_dims b Hb)|exact E1]. }
        destruct (cell (grid b') c) as [a|] eqn:E2; [|reflexivity].
        exfalso. apply Hg. rewrite <- Hw, <- Hh.
        eapply cell_Some_in_grid; [apply (sound_board_dims b' Hb')|exact E2].
Qed.

(** ** Moves can be undone *)

Definition opposite (d : direction) : direction :=
  match d with
  | Leftward => Rightward
  | Rightward => Leftward
  | Upward => Downward
  | Downward => Upward
  end.

Lemma shift_opposite (d : direction) (c : Z * Z) : shift (opposite d) (shift d c) = c.
Proof. destruct c as [x y], d; simpl; f_equal; lia. Qed.

Lemma set_coords_back (p : Piece) (k : Z * Z) :
  set_coords (set_coords p k.1 k.2) (coord_x p) (coord_y p) = p.
Proof. destruct p; reflexivity. Qed.

Lemma position_set_coords (p : Piece) (k : Z * Z) : position (set_coords p k.1 k.2) = k.
Proof. destruct k; reflexivity. Qed.

Lemma sound_same_dims (b1 b2 : Board) :
  sound_board b1 -> sound_board b2 -> height b1 = height b2 ->
  grid_dims (width b1) (height b1) (grid b2).
Proof.
  intros H1 H2 Hh. rewrite (sb_width _ H1), <- (sb_width _ H2), Hh.
  apply sound_board_dims, H2.
Qed.

Lemma move_back (b b' : Board) (p : Piece) (k : Z * Z) :
  wf_board b -> p ∈ dict_values (pieces b) -> k ∈ legal_destinations b p ->
  copy_board b k (position p) = Ok b' ->
  set_coords p k.1 k.2 ∈ dict_values (pieces b') /\
  position p ∈ legal_destinations b' (set_coords p k.1 k.2) /\
  exists b'', copy_board b' (position p) k = Ok b'' /\ grid b'' = grid b.
Proof.
  intros Hwf Hp Hk Hcopy.
  destruct (move_cells b b' p k Hwf Hp Hk Hcopy)
    as (Hwf' & Hw & Hh & Hps & Hnew & Hleft & Hrest).
  pose proof Hwf as [Hb _]. pose proof Hwf' as [Hb' _].
  set (p' := set_coords p k.1 k.2) in *.
  assert (Hp' : p' ∈ dict_values (pieces b')).
  { rewrite Hps, dict_values_snoc. apply elem_of_app. right. left. }
  destruct (sound_board_valid b p Hb Hp) as [_ [s Hs]].
  assert (Hs' : shape_of p' = Some s) by exact Hs.
  pose proof (footprint_shape p s Hs) as Hfp.
  pose proof (footprint_set_coords p s k Hs) as Hfp'. fold p' in Hfp'.
  apply elem_of_legal_destinations in Hk as (d & -> & Hlegal).
  pose proof Hlegal as Hlegal0.
  unfold legal_move in Hlegal. rewrite Hs in Hlegal. destruct Hlegal as [Hfit Hfree].
  assert (Hpos' : position p' = shift d (position p)) by apply position_set_coords.
  assert (Hback : legal_move b' p' (opposite d)).
  { unfold legal_move. rewrite Hs', Hpos', shift_opposite. split.
    - rewrite Hw, Hh, <- Hfp. apply sound_board_footprint; assumption.
    - apply Forall_forall. intros c Hc.
      apply leading_edge_new in Hc as [Hc Hc']. rewrite shift_opposite in Hc.
      apply Hleft; [rewrite Hfp; exact Hc | rewrite Hfp'; exact Hc']. }
  assert (Hk' : position p ∈ legal_destinations b' p').
  { apply elem_of_legal_destinations. exists (opposite d). split; [|exact Hback].
    rewrite Hpos', shift_opposite. reflexivity. }
  split; [exact Hp'|]. split; [exact Hk'|].
  destruct (copy_board_wf b' p' (position p) Hwf' Hp' Hk') as (b'' & Hcopy' & _).
  rewrite Hpos' in Hcopy'. exists b''. split; [exact Hcopy'|].
  rewrite <- Hpos' in Hcopy'.
  destruct (move_cells b' b'' p' (position p) Hwf' Hp' Hk' Hcopy')
    as (Hwf'' & Hw' & Hh' & _ & Hnew' & Hleft' & Hrest').
  pose proof Hwf'' as [Hb'' _].
  change (set_coords p' (position p).1 (position p).2)
    with (set_coords p' (coord_x p) (coord_y p)) in *.
  unfold p' in Hnew', Hleft', Hrest'. rewrite set_coords_back in Hnew', Hleft', Hrest'.
  fold p' in Hleft', Hrest'.
  apply (grid_ext (width b) (height b)).
  - rewrite <- Hw, <- Hw', <- Hh, <- Hh'. apply sound_board_dims, Hb''.
  - apply sound_board_dims, Hb.
  - intros c Hc.
    destruct (decide (c ∈ footprint p)) as [Hin|Hout].
    + apply footprint_elem in Hin as [a Hwr].
      rewrite (Hnew' c a Hwr). symmetry. eapply wf_cell_of_piece; eassumption.
    + destruct (decide (c ∈ footprint p')) as [Hin'|Hout'].
      * rewrite (Hleft' c Hin' Hout). symmetry.
        rewrite Forall_forall in Hfree. apply Hfree.
        apply leading_edge_new. rewrite <- Hfp, <- Hfp'. auto.
      * rewrite (Hrest' c Hout' Hout). apply Hrest; assumption.
Qed.

(** ** Boards with the same grid *)

(** The symbols of a piece of shape [s] whose top-left cell is [c]. *)
Definition shape_writes (s : shape) (c : Z * Z) : list ((Z * Z) * ascii) :=
  let '(x, y) := c in
  match s with
  | Block => [((x, y), "1"); ((x + 1, y), "1"); ((x, y + 1), "1"); ((x + 1, y + 1), "1")]
  | Single => [((x, y), char_single)]
  | Horizontal => [((x, y), "<"); ((x + 1, y), ">")]
  | Vertical => [((x, y), "^"); ((x, y + 1), "v")]
  end%char.

Lemma writes_shape (p : Piece) (s : shape) :
  shape_of p = Some s -> writes p = shape_writes s (position p).
Proof.
  unfold shape_of, writes, shape_writes, position.
  destruct (is_2_by_2 p); [intros [= <-]; reflexivity|].
  destruct (is_single p); [intros [= <-]; reflexivity|].
  destruct (orientation_is p "h"); [intros [= <-]; reflexivity|].
  destruct (orientation_is p "v"); [intros [= <-]; reflexivity|discriminate].
Qed.

Lemma writes_no_shape (p : Piece) : shape_of p = None -> writes p = [].
Proof.
  unfold shape_of, writes.
  destruct (is_2_by_2 p); [discriminate|]. destruct (is_single p); [discriminate|].
  destruct (orientation_is p "h"); [discriminate|].
  destruct (orientation_is p "v"); [discriminate|reflexivity].
Qed.

(** The symbol at the top-left cell of a piece tells its shape. *)
Definition head_symbol (s : shape) : ascii :=
  match s with
  | Block => "1"
  | Single => char_single
  | Horizontal => "<"
  | Vertical => "^"
  end%char.

Lemma head_symbol_written (s : shape) (c : Z * Z) : (c, head_symbol s) ∈ shape_writes s c.
Proof. destruct c, s; left. Qed.

Lemma head_symbol_not_empty (s : shape) : head_symbol s <> char_empty.
Proof. destruct s; discriminate. Qed.

(** Who writes the head symbol of [s] at [c]: a piece of shape [s], at
    [c] itself unless it is a block. *)
Lemma head_symbol_writer (q : Piece) (s : shape) (c : Z * Z) :
  (c, head_symbol s) ∈ writes q ->
  shape_of q = Some s /\ (s <> Block -> position q = c) /\ c ∈ footprint q.
Proof.
  intros Hwr.
  assert (Hc : c ∈ footprint q) by (apply footprint_elem; eauto).
  destruct (shape_of q) as [s'|] eqn:Hs'; [|rewrite (writes_no_shape q Hs') in Hwr; inversion Hwr].
  rewrite (writes_shape q s' Hs') in Hwr. destruct (position q) as [x y].
  destruct s, s'; cbn [shape_writes head_symbol] in Hwr;
    apply list_elem_of_In in Hwr; cbn [In] in Hwr; decompose [or] Hwr; clear Hwr;
    try contradiction; try discriminate;
    (split; [reflexivity|]); (split; [|exact Hc]); intros Hne;
    try (contradiction Hne; reflexivity); congruence.
Qed.

Lemma block_cells_same (c c' : Z * Z) :
  (forall e, e ∈ shape_cells Block c -> e ∈ shape_cells Block c') -> c = c'.
Proof.
  destruct c as [x y], c' as [x' y']. intros Hsub.
  pose proof (Hsub (x, y)) as H1. pose proof (Hsub (x + 1, y + 1)) as H2.
  cbn [shape_cells] in H1, H2.
  assert (E1 : (x, y) ∈ [(x', y'); (x' + 1, y'); (x', y' + 1); (x' + 1, y' + 1)])
    by (apply H1; left).
  assert (E2 : (x + 1, y + 1) ∈ [(x', y'); (x' + 1, y'); (x', y' + 1); (x' + 1, y' + 1)])
    by (apply H2; do 3 right; left).
  apply list_elem_of_In in E1, E2. cbn [In] in E1, E2.
  decompose [or] E1; decompose [or] E2; try contradiction; simplify_eq; f_equal; lia.
Qed.

Lemma NoDup_bind_disjoint {A B : Type} (f : A -> list B) (l : list A) (x y : A) (b : B) :
  NoDup (l ≫= f) -> x ∈ l -> y ∈ l -> b ∈ f x -> b ∈ f y -> x = y.
Proof.
  induction l as [|a l IH]; intros Hnd Hx Hy Hbx Hby; [inversion Hx|].
  rewrite bind_cons in Hnd. apply NoDup_app in Hnd as (_ & Hdisj & Hnd).
  apply elem_of_cons in Hx as [->|Hx]; apply elem_of_cons in Hy as [->|Hy].
  - reflexivity.
  - exfalso. apply (Hdisj b Hbx). apply list_elem_of_bind. eauto.
  - exfalso. apply (Hdisj b Hby). apply list_elem_of_bind. eauto.
  - apply IH; assumption.
Qed.

(** On a well-formed board a cell belongs to one piece only. *)
Lemma wf_one_piece (b : Board) (p q : Piece) (c : Z * Z) :
  wf_board b -> p ∈ dict_values (pieces b) -> q ∈ dict_values (pieces b) ->
  c ∈ footprint p -> c ∈ footprint q -> p = q.
Proof. intros [_ Hnd]. apply NoDup_bind_disjoint. exact Hnd. Qed.

(** Two well-formed boards with the same grid have their blocks at the
    same places. *)
Lemma same_grid_block (n : nat) :
  forall (b1 b2 : Board) (p1 : Piece),
    wf_board b1 -> wf_board b2 -> grid b1 = grid b2 ->
    p1 ∈ dict_values (pieces b1) -> shape_of p1 = Some Block ->
    Z.to_nat (coord_x p1 + coord_y p1) = n ->
    exists p2, p2 ∈ dict_values (pieces b2) /\ shape_of p2 = Some Block /\
      position p2 = position p1.
Proof.
  induction n as [n IH] using lt_wf_ind. intros b1 b2 p1 Hwf1 Hwf2 Hgrid Hp1 Hs1 Hn.
  pose proof Hwf1 as [Hb1 _]. pose proof Hwf2 as [Hb2 _].
  assert (Hcell : cell (grid b1) (position p1) = Some (head_symbol Block)).
  { eapply wf_cell_of_piece; [exact Hwf1 | exact Hp1 |].
    rewrite (writes_shape p1 Block Hs1). apply head_symbol_written. }
  rewrite Hgrid in Hcell.
  destruct (sound_cell_written b2 _ _ Hb2 Hcell (head_symbol_not_empty Block))
    as (q2 & Hq2 & Hwr).
  apply head_symbol_writer in Hwr as (Hs2 & _ & Hc2).
  destruct (decide (position q2 = position p1)) as [Heq|Hne]; [eauto|].
  exfalso.
  destruct (sound_board_valid b1 p1 Hb1 Hp1) as [[Hx1 Hy1] _].
  destruct (sound_board_valid b2 q2 Hb2 Hq2) as [[Hx2 Hy2] _].
  rewrite (footprint_shape q2 Block Hs2) in Hc2.
  assert (Hlt : (Z.to_nat (coord_x q2 + coord_y q2) < n)%nat).
  { unfold position in Hc2, Hne. cbn [shape_cells] in Hc2.
    apply list_elem_of_In in Hc2. cbn [In] in Hc2.
    decompose [or] Hc2; try contradiction; simplify_eq; lia. }
  destruct (IH _ Hlt b2 b1 q2 Hwf2 Hwf1 (eq_sym Hgrid) Hq2 Hs2 eq_refl)
    as (p1' & Hp1' & Hs1' & Hpos).
  assert (p1' = p1).
  { apply (wf_one_piece b1 p1' p1 (position p1) Hwf1 Hp1' Hp1).
    - rewrite (footprint_shape p1' Block Hs1'), Hpos. exact Hc2.
    - rewrite (footprint_shape p1 Block Hs1). apply shape_cells_head. }
  subst p1'. congruence.
Qed.

(** Two well-formed boards with the same grid have pieces of the same
    shapes at the same places. *)
Lemma same_grid_piece (b1 b2 : Board) (p1 : Piece) (s : shape) :
  wf_board b1 -> wf_board b2 -> grid b1 = grid b2 ->
  p1 ∈ dict_values (pieces b1) -> shape_of p1 = Some s ->
  exists p2, p2 ∈ dict_values (pieces b2) /\ shape_of p2 = Some s /\
    position p2 = position p1.
Proof.
  intros Hwf1 Hwf2 Hgrid Hp1 Hs1.
  destruct (decide (s = Block)) as [->|Hne].
  { exact (same_grid_block _ b1 b2 p1 Hwf1 Hwf2 Hgrid Hp1 Hs1 eq_refl). }
  pose proof Hwf2 as [Hb2 _].
  assert (Hcell : cell (grid b1) (position p1) = Some (head_symbol s)).
  { eapply wf_cell_of_piece; [exact Hwf1 | exact Hp1 |].
    rewrite (writes_shape p1 s Hs1). apply head_symbol_written. }
  rewrite Hgrid in Hcell.
  destruct (sound_cell_written b2 _ _ Hb2 Hcell (head_symbol_not_empty s)) as (q2 & Hq2 & Hwr).
  apply head_symbol_writer in Hwr as (Hs2 & Hpos & _). eauto.
Qed.

(** One legal move: [b'] is the board [copy_board] builds for the slide
    of a piece of [b] to one of its legal destinations. *)
Definition move (b b' : Board) : Prop :=
  exists p k, p ∈ dict_values (pieces b) /\ k ∈ legal_destinations b p /\
    copy_board b k (position p) = Ok b'.

Lemma same_grid_height (b1 b2 : Board) (p : Piece) :
  sound_board b1 -> sound_board b2 -> grid b1 = grid b2 ->
  p ∈ dict_values (pieces b1) -> height b1 = height b2.
Proof.
  intros Hb1 Hb2 Hgrid Hp.
  destruct (sound_board_valid b1 p Hb1 Hp) as [_ [s Hs]].
  pose proof (sound_board_footprint b1 p Hb1 Hp) as Hfit.
  rewrite (footprint_shape p s Hs), Forall_forall in Hfit.
  destruct (Hfit (position p) (shape_cells_head s _)) as [_ Hy].
  destruct (sound_board_dims b1 Hb1) as [Hl1 _]. destruct (sound_board_dims b2 Hb2) as [Hl2 _].
  rewrite Hgrid in Hl1. lia.
Qed.

Lemma same_grid_legal (b1 b2 : Board) (p1 p2 : Piece) (d : direction) :
  grid b1 = grid b2 -> width b1 = width b2 -> height b1 = height b2 ->
  shape_of p1 = shape_of p2 -> position p1 = position p2 ->
  legal_move b1 p1 d -> legal_move b2 p2 d.
Proof.
  intros Hgrid Hw Hh Hs Hpos. unfold legal_move, is_empty_cell.
  rewrite Hs, Hpos, Hgrid, Hw, Hh. auto.
Qed.

(** The successors of two well-formed boards with the same grid have
    the same grids: what a board can reach depends on its grid only,
    not on the identities or the order of its pieces. *)
Lemma same_grid_moves (b1 b2 b1' : Board) :
  wf_board b1 -> wf_board b2 -> grid b1 = grid b2 -> move b1 b1' ->
  exists b2', move b2 b2' /\ grid b2' = grid b1'.
Proof.
  intros Hwf1 Hwf2 Hgrid (p1 & k & Hp1 & Hk & Hcopy1).
  pose proof Hwf1 as [Hb1 _]. pose proof Hwf2 as [Hb2 _].
  destruct (sound_board_valid b1 p1 Hb1 Hp1) as [_ [s Hs1]].
  destruct (same_grid_piece b1 b2 p1 s Hwf1 Hwf2 Hgrid Hp1 Hs1) as (p2 & Hp2 & Hs2 & Hpos).
  pose proof (same_grid_height b1 b2 p1 Hb1 Hb2 Hgrid Hp1) as Hh.
  assert (Hw : width b1 = width b2) by (rewrite (sb_width _ Hb1), (sb_width _ Hb2); reflexivity).
  assert (Hk2 : k ∈ legal_destinations b2 p2).
  { apply elem_of_legal_destinations in Hk as (d & -> & Hlegal).
    apply elem_of_legal_destinations. exists d. split; [congruence|].
    eapply same_grid_legal; [..|exact Hlegal]; congruence. }
  destruct (copy_board_wf b2 p2 k Hwf2 Hp2 Hk2) as (b2' & Hcopy2 & _).
  exists b2'. split; [exists p2, k; auto|].
  destruct (move_cells b1 b1' p1 k Hwf1 Hp1 Hk Hcopy1)
    as ([Hb1' _] & Hw1 & Hh1 & _ & Hnew1 & Hleft1 & Hrest1).
  destruct (move_cells b2 b2' p2 k Hwf2 Hp2 Hk2 Hcopy2)
    as ([Hb2' _] & Hw2 & Hh2 & _ & Hnew2 & Hleft2 & Hrest2).
  assert (Hf : footprint p2 = footprint p1).
  { rewrite (footprint_shape p1 s Hs1), (footprint_shape p2 s Hs2), Hpos. reflexivity. }
  assert (Hf' : footprint (set_coords p2 k.1 k.2) = footprint (set_coords p1 k.1 k.2)).
  { rewrite (footprint_set_coords p1 s k Hs1), (footprint_set_coords p2 s k Hs2). reflexivity. }
  assert (Hwr' : writes (set_coords p2 k.1 k.2) = writes (set_coords p1 k.1 k.2)).
  { rewrite (writes_shape (set_coords p1 k.1 k.2) s), (writes_shape (set_coords p2 k.1 k.2) s)
      by assumption.
    rewrite !position_set_coords. reflexivity. }
  rewrite Hf in Hleft2, Hrest2. rewrite Hf' in Hleft2, Hrest2. rewrite Hwr' in Hnew2.
  apply (grid_ext (width b1) (height b1)).
  - rewrite Hw, Hh, <- Hw2, <- Hh2. apply sound_board_dims, Hb2'.
  - rewrite <- Hw1, <- Hh1. apply sound_board_dims, Hb1'.
  - intros c _.
    destruct (decide (c ∈ footprint (set_coords p1 k.1 k.2))) as [Hin'|Hout'].
    + apply footprint_elem in Hin' as [a Hwr]. rewrite (Hnew1 c a Hwr), (Hnew2 c a Hwr).
      reflexivity.
    + destruct (decide (c ∈ footprint p1)) as [Hin|Hout].
      * rewrite (Hleft1 c Hin Hout'), (Hleft2 c Hin Hout'). reflexivity.
      * rewrite (Hrest1 c Hout Hout'), (Hrest2 c Hout Hout'), Hgrid. reflexivity.
Qed.

(** ** The list of successors *)

(** The moves of a board in the order [generate_successors] tries them:
    piece by piece in the order of the mapping, and for each piece left,
    up, right, down. *)
Definition moves_of (b : Board) : list (Piece * (Z * Z)) :=
  p ← dict_values (pieces b); k ← legal_destinations b p; [(p, k)].

Lemma successor_inv (self : State) (p : Piece) (acc acc1 : list State) (k : Z * Z) :
  successor self p acc k = Ok acc1 ->
  exists s', acc1 = acc ++ [s'] /\ successor_for self p k s'.
Proof.
  unfold successor. intros Hrun.
  apply bind_Ok in Hrun as (g & Hg & Hrun). apply bind_Ok in Hrun as (b' & Hcopy & [= <-]).
  eexists. split; [reflexivity|]. exists g, b'. auto.
Qed.

Lemma successors_inv (self : State) (p : Piece) (ks : list (Z * Z)) (acc acc' : list State) :
  for_each (successor self p) ks acc = Ok acc' ->
  exists new, acc' = acc ++ new /\ Forall2 (fun k s' => successor_for self p k s') ks new.
Proof.
  revert acc. induction ks as [|k ks IH]; intros acc Hrun.
  - injection Hrun as <-. exists []. rewrite app_nil_r. split; [reflexivity|constructor].
  - cbn [for_each] in Hrun. apply bind_Ok in Hrun as (acc1 & Hstep & Hrest).
    apply successor_inv in Hstep as (s' & -> & Hs').
    destruct (IH _ Hrest) as (new & -> & Hnew).
    exists (s' :: new). rewrite <- app_assoc. split; [reflexivity|]. constructor; assumption.
Qed.

Lemma expand_pieces_inv (self : State) (ps : list Piece) (acc acc' : list State) :
  sound_board (board self) ->
  Forall (fun p => p ∈ dict_values (pieces (board self))) ps ->
  for_each (expand_piece self) ps acc = Ok acc' ->
  exists new, acc' = acc ++ new /\
    Forall2 (fun pk s' => successor_for self pk.1 pk.2 s')
      (p ← ps; k ← legal_destinations (board self) p; [(p, k)]) new.
Proof.
  intros Hb. revert acc. induction ps as [|p ps IH]; intros acc Hps Hrun.
  - injection Hrun as <-. exists []. rewrite app_nil_r. split; [reflexivity|constructor].
  - apply Forall_cons in Hps as [Hp Hps].
    cbn [for_each] in Hrun. apply bind_Ok in Hrun as (acc1 & Hstep & Hrest).
    unfold expand_piece in Hstep.
    destruct (sound_board_valid _ p Hb Hp) as [_ [s Hs]].
    rewrite (new_keys_of_legal _ p s) in Hstep
      by (auto using sound_board_dims, sound_board_footprint).
    cbn [mbind res_bind] in Hstep.
    apply successors_inv in Hstep as (new1 & -> & Hnew1).
    destruct (IH _ Hps Hrest) as (new2 & -> & Hnew2).
    exists (new1 ++ new2). rewrite <- app_assoc. split; [reflexivity|].
    rewrite bind_cons. apply Forall2_app; [|exact Hnew2].
    clear -Hnew1. induction Hnew1; [constructor|].
    rewrite bind_cons. cbn [app]. constructor; assumption.
Qed.

(** [generate_successors] returns one state for each piece and each of
    its legal destinations, in the order of [moves_of]. *)
Lemma generate_successors_moves (self : State) (succs : list State) :
  sound_board (board self) -> generate_successors self = Ok succs ->
  Forall2 (fun pk s' => successor_for self pk.1 pk.2 s') (moves_of (board self)) succs.
Proof.
  intros Hb Hrun. unfold generate_successors in Hrun.
  destruct (expand_pieces_inv self (dict_values (pieces (board self))) [] succs Hb)
    as (new & -> & Hnew);
    [apply Forall_forall; auto | exact Hrun |].
  exact Hnew.
Qed.

Lemma elem_of_moves_of (b : Board) (p : Piece) (k : Z * Z) :
  (p, k) ∈ moves_of b <-> p ∈ dict_values (pieces b) /\ k ∈ legal_destinations b p.
Proof.
  unfold moves_of. rewrite list_elem_of_bind. split.
  - intros (q & Hk & Hq). apply list_elem_of_bind in Hk as (k' & Hin & Hk').
    apply list_elem_of_singleton in Hin. injection Hin as -> ->. auto.
  - intros [Hp Hk]. exists p. split; [|exact Hp].
    apply list_elem_of_bind. exists k. split; [left | exact Hk].
Qed.

(** Every legal move has its successor in the list. *)
Lemma generate_successors_complete (self : State) (succs : list State) (b' : Board) :
  sound_board (board self) -> generate_successors self = Ok succs ->
  move (board self) b' -> exists s', s' ∈ succs /\ board s' = b'.
Proof.
  intros Hb Hrun (p & k & Hp & Hk & Hcopy).
  pose proof (generate_successors_moves self succs Hb Hrun) as Hall.
  assert (Hin : (p, k) ∈ moves_of (board self)) by (apply elem_of_moves_of; auto).
  apply list_elem_of_lookup in Hin as [i Hi].
  destruct (Forall2_lookup_l _ _ _ _ _ Hall Hi) as (s' & Hs' & Hsucc).
  exists s'. split; [eapply list_elem_of_lookup_2, Hs'|].
  destruct Hsucc as (g & b1 & _ & Hcopy1 & ->). cbn [fst snd] in Hcopy1.
  rewrite Hcopy in Hcopy1. injection Hcopy1 as <-. reflexivity.
Qed.

Lemma is_successor_move (self s' : State) : is_successor self s' -> move (board self) (board s').
Proof.
  intros (p & k & Hp & Hk & g & b' & _ & Hcopy & ->). exists p, k. auto.
Qed.

(** ** The heuristic along a move *)

Lemma man_dist_shift (d : direction) (c : Z * Z) (g : Piece) :
  man_dist (shift d c).1 (shift d c).2 g = man_dist c.1 c.2 g + 1 \/
  man_dist (shift d c).1 (shift d c).2 g = man_dist c.1 c.2 g - 1.
Proof. destruct c as [x y], d; unfold man_dist; cbn [shift fst snd]; lia. Qed.

Lemma successor_step (self s' : State) :
  is_successor self s' ->
  (hfn s' = hfn self + 1 \/ hfn s' = hfn self - 1) /\
  depth s' = depth self + 1 /\ f s' = f self /\ parent s' = Some self.
Proof.
  intros (p & k & _ & Hk & g & b' & _ & _ & ->). cbn [hfn depth f parent].
  split; [|auto].
  apply elem_of_legal_destinations in Hk as (d & -> & _).
  pose proof (man_dist_shift d (position p) g) as H. unfold position in *.
  cbn [fst snd] in H. lia.
Qed.

(** ** The search loops: what a run establishes *)

Lemma Board_str_grid (b1 b2 : Board) : Board_str b1 = Board_str b2 <-> grid b1 = grid b2.
Proof.
  change (render (grid b1) = render (grid b2) <-> grid b1 = grid b2).
  split; [apply render_inj | intros ->; reflexivity].
Qed.

Lemma Board_eq_grid (b1 b2 : Board) : Board_eq b1 (VBoard b2) = true <-> grid b1 = grid b2.
Proof. apply grid_eqb_eq. Qed.

Lemma move_wf (b b' : Board) : wf_board b -> move b b' -> wf_board b'.
Proof.
  intros Hwf (p & k & Hp & Hk & Hcopy).
  destruct (copy_board_wf b p k Hwf Hp Hk) as (b1 & Hcopy1 & Hwf' & _).
  rewrite Hcopy in Hcopy1. injection Hcopy1 as <-. exact Hwf'.
Qed.

Section SearchFacts.
Context {F : Type} (states : F -> list State) (adjust : State -> State).
Context (is_empty : F -> bool) (body : F -> gset string -> res (turn F)).
Context (goal_board : Board).

(** One turn of a search loop, in terms of the states of the frontier:
    a state [curr] leaves the frontier; it is dropped when its grid
    string is visited; otherwise it is returned when its grid is the
    goal's, or expanded, and then the successors whose grid string is not
    visited enter the frontier (adjusted, for [astar], with their
    priority). *)
Definition pop_spec (frontier : F) (visited : gset string) (t : turn F) : Prop :=
  exists (curr : State) (rest : list State),
    (forall s, s ∈ states frontier <-> s = curr \/ s ∈ rest) /\
    match t with
    | Returned c =>
        c = curr /\ (Board_str (board curr) ∉ visited) /\ grid (board curr) = grid goal_board
    | Discarded frontier' visited' =>
        Board_str (board curr) ∈ visited /\ visited' = visited /\
        (forall s, s ∈ states frontier' <-> s ∈ rest)
    | Expanded key frontier' visited' =>
        key = Board_str (board curr) /\ (key ∉ visited) /\ visited' = (visited ∪ {[key]}) /\
        grid (board curr) <> grid goal_board /\
        exists succs, generate_successors curr = Ok succs /\
          forall s, s ∈ states frontier' <->
            s ∈ rest \/
            exists s', s' ∈ succs /\ (Board_str (board s') ∉ visited') /\ s = adjust s'
    end.

Hypothesis adjust_board : forall s, board (adjust s) = board s.
Hypothesis empty_states : forall frontier, is_empty frontier = true -> states frontier = [].
Hypothesis body_pops :
  forall frontier visited t, body frontier visited = Ok t -> pop_spec frontier visited t.

(** An invariant of the turns holds where the loop ends. *)
Lemma search_loop_inv (I : F -> gset string -> Prop) :
  (forall frontier visited t, I frontier visited -> body frontier visited = Ok t ->
     match t with
     | Returned _ => True
     | Discarded frontier' visited' | Expanded _ frontier' visited' => I frontier' visited'
     end) ->
  forall fuel frontier visited r,
    I frontier visited ->
    search_loop is_empty body fuel frontier visited = Some (Ok r) ->
    exists frontier' visited', I frontier' visited' /\
      match r with
      | None => is_empty frontier' = true
      | Some c => body frontier' visited' = Ok (Returned c)
      end.
Proof.
  intros Hstep. induction fuel as [|fuel IH]; intros frontier visited r HI Hrun;
    [discriminate|].
  cbn [search_loop] in Hrun. destruct (is_empty frontier) eqn:Hempty.
  - injection Hrun as <-. eauto.
  - destruct (body frontier visited) as [[c|fr v'|key fr v']|e] eqn:Hbody.
    + injection Hrun as <-. eauto.
    + apply (IH fr v' r); [|exact Hrun]. exact (Hstep _ _ _ HI Hbody).
    + apply (IH fr v' r); [|exact Hrun]. exact (Hstep _ _ _ HI Hbody).
    + discriminate.
Qed.

(** *** The returned state is reached by legal moves *)

(** The states a run can hold: the root, and the (adjusted) successors
    of such states. *)
Inductive linked (root : State) : State -> Prop :=
| linked_root : linked root root
| linked_next self s' :
    linked root self -> is_successor self s' -> linked root (adjust s').

Lemma linked_sound (root s : State) :
  sound_board (board root) -> linked root s -> sound_board (board s).
Proof.
  intros Hroot. induction 1 as [|self s' _ IH Hsucc]; [exact Hroot|].
  rewrite adjust_board. apply (successor_sound self s' IH Hsucc).
Qed.

Lemma linked_turn (root : State) (frontier : F) (visited : gset string) (t : turn F) :
  sound_board (board root) ->
  Forall (linked root) (states frontier) -> body frontier visited = Ok t ->
  match t with
  | Returned _ => True
  | Discarded frontier' _ | Expanded _ frontier' _ => Forall (linked root) (states frontier')
  end.
Proof.
  intros Hroot Hall Hbody. rewrite Forall_forall in Hall.
  destruct (body_pops _ _ _ Hbody) as (curr & rest & Hfr & Ht).
  destruct t as [c|fr v'|key fr v']; [exact I| |].
  - destruct Ht as (_ & _ & Hfr'). apply Forall_forall. intros s Hs.
    apply Hall, Hfr. right. apply Hfr', Hs.
  - destruct Ht as (_ & _ & _ & _ & succs & Hgen & Hfr'). apply Forall_forall. intros s Hs.
    apply Hfr' in Hs as [Hs|(s' & Hs' & _ & ->)]; [apply Hall, Hfr; auto|].
    assert (Hcurr : linked root curr) by (apply Hall, Hfr; auto).
    apply (linked_next root curr s' Hcurr).
    apply (generate_successors_sound curr succs s'); [|exact Hgen|exact Hs'].
    apply (linked_sound root); assumption.
Qed.

Lemma search_loop_linked (root : State) (fuel : nat) (frontier : F) (visited : gset string)
    (c : State) :
  sound_board (board root) -> Forall (linked root) (states frontier) ->
  search_loop is_empty body fuel frontier visited = Some (Ok (Some c)) ->
  linked root c /\ grid (board c) = grid goal_board.
Proof.
  intros Hroot Hall Hrun.
  destruct (search_loop_inv (fun fr _ => Forall (linked root) (states fr))
              (fun fr v t => linked_turn root fr v t Hroot) fuel frontier visited (Some c)
              Hall Hrun) as (fr' & v' & Hall' & Hbody).
  destruct (body_pops _ _ _ Hbody) as (curr & rest & Hfr & -> & _ & Hgrid).
  split; [|exact Hgrid]. rewrite Forall_forall in Hall'. apply Hall', Hfr. auto.
Qed.

(** *** When the frontier empties, the goal is out of reach *)

Definition covered (frontier : F) (visited : gset string) (b : Board) : Prop :=
  Board_str b ∈ visited \/ exists s, s ∈ states frontier /\ Board_str (board s) = Board_str b.

Record explored (root : State) (frontier : F) (visited : gset string) : Prop := {
  ex_wf : Forall (fun s => wf_board (board s)) (states frontier);
  ex_goal : Board_str goal_board ∉ visited;
  ex_root : covered frontier visited (board root);
  ex_closed : forall b b', wf_board b -> Board_str b ∈ visited -> move b b' ->
              covered frontier visited b'
}.

Lemma covered_turn (frontier : F) (visited : gset string) (t : turn F) (b : Board) :
  body frontier visited = Ok t -> covered frontier visited b ->
  match t with
  | Returned _ => True
  | Discarded frontier' visited' | Expanded _ frontier' visited' => covered frontier' visited' b
  end.
Proof.
  intros Hbody Hcov.
  destruct (body_pops _ _ _ Hbody) as (curr & rest & Hfr & Ht).
  destruct t as [c|fr v'|key fr v']; [exact I| |].
  - destruct Ht as (Hvis & -> & Hfr').
    destruct Hcov as [Hv|(s & Hs & Hstr)]; [left; exact Hv|].
    apply Hfr in Hs as [->|Hs].
    + left. rewrite <- Hstr. exact Hvis.
    + right. exists s. split; [apply Hfr', Hs | exact Hstr].
  - destruct Ht as (-> & _ & -> & _ & succs & _ & Hfr').
    destruct Hcov as [Hv|(s & Hs & Hstr)]; [left; set_solver|].
    apply Hfr in Hs as [->|Hs].
    + left. rewrite <- Hstr. set_solver.
    + right. exists s. split; [apply Hfr'; auto | exact Hstr].
Qed.

Lemma explored_turn (root : State) (frontier : F) (visited : gset string) (t : turn F) :
  explored root frontier visited -> body frontier visited = Ok t ->
  match t with
  | Returned _ => True
  | Discarded frontier' visited' | Expanded _ frontier' visited' =>
      explored root frontier' visited'
  end.
Proof.
  intros [Hwf Hgoal Hroot Hclosed] Hbody.
  pose proof (fun b => covered_turn frontier visited t b Hbody) as Hcov.
  destruct (body_pops _ _ _ Hbody) as (curr & rest & Hfr & Ht).
  rewrite Forall_forall in Hwf.
  destruct t as [c|fr v'|key fr v']; [exact I| |].
  - destruct Ht as (Hvis & -> & Hfr'). constructor.
    + apply Forall_forall. intros s Hs. apply Hwf, Hfr. right. apply Hfr', Hs.
    + exact Hgoal.
    + apply Hcov, Hroot.
    + intros b b' Hb Hv Hmove. apply Hcov. eapply Hclosed; eassumption.
  - destruct Ht as (-> & Hfresh & -> & Hnot & succs & Hgen & Hfr').
    assert (Hcurr : wf_board (board curr)) by (apply Hwf, Hfr; auto).
    constructor.
    + apply Forall_forall. intros s Hs.
      apply Hfr' in Hs as [Hs|(s' & Hs' & _ & ->)]; [apply Hwf, Hfr; auto|].
      rewrite adjust_board. apply (move_wf (board curr)); [exact Hcurr|].
      apply is_successor_move.
      apply (generate_successors_sound curr succs s'); [apply Hcurr | exact Hgen | exact Hs'].
    + intros Hin. apply elem_of_union in Hin as [Hin|Hin]; [exact (Hgoal Hin)|].
      apply elem_of_singleton in Hin. apply Hnot. symmetry. apply Board_str_grid, Hin.
    + apply Hcov, Hroot.
    + intros b b' Hb Hv Hmove. apply elem_of_union in Hv as [Hv|Hv].
      { apply Hcov. eapply Hclosed; eassumption. }
      apply elem_of_singleton in Hv. apply Board_str_grid in Hv.
      destruct (same_grid_moves b (board curr) b' Hb Hcurr Hv Hmove) as (b2 & Hmove2 & Hgrid).
      destruct (generate_successors_complete curr succs b2 (proj1 Hcurr) Hgen Hmove2)
        as (s' & Hs' & <-).
      apply Board_str_grid in Hgrid.
      destruct (decide (Board_str (board s') ∈ visited ∪ {[Board_str (board curr)]}))
        as [Hin|Hout].
      * left. rewrite <- Hgrid. exact Hin.
      * right. exists (adjust s'). split; [|rewrite adjust_board; exact Hgrid].
        apply Hfr'. right. exists s'. auto.
Qed.

Lemma search_loop_exhausts (root : State) (fuel : nat) (frontier : F) (visited : gset string) :
  wf_board (board root) -> explored root frontier visited ->
  search_loop is_empty body fuel frontier visited = Some (Ok None) ->
  forall b, rtc move (board root) b -> grid b <> grid goal_board.
Proof.
  intros Hroot Hex Hrun.
  destruct (search_loop_inv (explored root) (explored_turn root) fuel frontier visited None
              Hex Hrun) as (fr' & v' & [_ Hgoal Hcov Hclosed] & Hempty).
  apply empty_states in Hempty.
  assert (Hvis : forall b, covered fr' v' b -> Board_str b ∈ v').
  { intros b [Hv|(s & Hs & _)]; [exact Hv|]. rewrite Hempty in Hs. inversion Hs. }
  assert (Hall : forall b, rtc move (board root) b -> wf_board b /\ Board_str b ∈ v').
  { apply rtc_ind_r.
    - split; [exact Hroot | apply Hvis, Hcov].
    - intros b1 b2 _ Hmove [Hwf1 Hv1].
      split; [eapply move_wf; eassumption|]. apply Hvis. eapply Hclosed; eassumption. }
  intros b Hreach Hgrid. destruct (Hall b Hreach) as [_ Hv].
  apply Hgoal. apply Board_str_grid in Hgrid. rewrite <- Hgrid. exact Hv.
Qed.
End SearchFacts.

(** *** The two strategies *)

Definition stack_states (stack : list State) : list State := stack.

Definition heap_states (heap_lst : list item) : list State := snd <$> heap_lst.

(** The state [astar] pushes: the successor with its priority set. *)
Definition with_priority (s : State) : State := set_f s (depth s + hfn s).

Definition unchanged (s : State) : State := s.

Lemma dfs_body_pops (goal_board : Board) (stack : list State) (visited : gset string)
    (t : turn (list State)) :
  dfs_body goal_board stack visited = Ok t ->
  pop_spec stack_states unchanged goal_board stack visited t.
Proof.
  unfold dfs_body. intros Hrun. apply bind_Ok in Hrun as ([curr rest] & Hpop & Hrun).
  apply pop_last_Ok in Hpop. subst stack.
  exists curr, rest. split.
  { intros s. unfold stack_states. rewrite elem_of_app, list_elem_of_singleton. tauto. }
  destruct (decide (Board_str (board curr) ∈ visited)) as [Hin|Hout].
  - injection Hrun as <-. split; [exact Hin|]. split; [reflexivity|]. reflexivity.
  - destruct (Board_eq (board curr) (VBoard goal_board)) eqn:Heq.
    + injection Hrun as <-. split; [reflexivity|]. split; [exact Hout|].
      apply Board_eq_grid, Heq.
    + apply bind_Ok in Hrun as (succs & Hgen & [= <-]).
      split; [reflexivity|]. split; [exact Hout|]. split; [reflexivity|]. split.
      { intros Hgrid. apply Board_eq_grid in Hgrid. congruence. }
      exists succs. split; [exact Hgen|]. intros s.
      rewrite dfs_pushes. unfold stack_states, unchanged.
      rewrite elem_of_app, list_elem_of_filter. split.
      * intros [H|[H1 H2]]; [auto|]. right. exists s. auto.
      * intros [H|(s' & H1 & H2 & ->)]; auto.
Qed.

Lemma astar_body_pops (goal_board : Board) (heap_lst : list item) (visited : gset string)
    (t : turn (list item)) :
  astar_body goal_board heap_lst visited = Ok t ->
  pop_spec heap_states with_priority goal_board heap_lst visited t.
Proof.
  unfold astar_body. intros Hrun. apply bind_Ok in Hrun as ([curr_item rest] & Hpop & Hrun).
  pose proof (heappop_Permutation item_lt _ _ _ Hpop) as Hperm.
  exists curr_item.2, (heap_states rest). split.
  { intros s. unfold heap_states. rewrite Hperm, fmap_cons, elem_of_cons. reflexivity. }
  cbn [snd] in Hrun.
  destruct (decide (Board_str (board curr_item.2) ∈ visited)) as [Hin|Hout].
  - injection Hrun as <-. split; [exact Hin|]. split; [reflexivity|]. reflexivity.
  - destruct (Board_eq (board curr_item.2) (VBoard goal_board)) eqn:Heq.
    + injection Hrun as <-. split; [reflexivity|]. split; [exact Hout|].
      apply Board_eq_grid, Heq.
    + apply bind_Ok in Hrun as (succs & Hgen & [= <-]).
      split; [reflexivity|]. split; [exact Hout|]. split; [reflexivity|]. split.
      { intros Hgrid. apply Board_eq_grid in Hgrid. congruence. }
      exists succs. split; [exact Hgen|]. intros s.
      rewrite astar_pushes. unfold heap_states.
      rewrite (heappushes_Permutation rest), fmap_app, elem_of_app, <- list_fmap_compose.
      rewrite list_elem_of_fmap. split.
      * intros [(s' & -> & Hs')|H]; [|auto]. apply list_elem_of_filter in Hs' as [H1 H2].
        right. exists s'. auto.
      * intros [H|(s' & H1 & H2 & ->)]; [auto|]. left. exists s'. split; [reflexivity|].
        apply list_elem_of_filter. auto.
Qed.

(** *** The path of a returned state *)

(** [bs] is a sequence of boards from [root] to [last] in which every
    board is obtained from the one before by one legal move. *)
Inductive path_from (root : Board) : list Board -> Board -> Prop :=
| path_start : path_from root [root] root
| path_step bs b b' : path_from root bs b -> move b b' -> path_from root (bs ++ [b']) b'.

Lemma path_to_unfold (s : State) :
  path_to s = s :: match parent s with Some p => path_to p | None => [] end.
Proof. destruct s; reflexivity. Qed.

Lemma linked_path (adjust : State -> State) (root s : State) :
  (forall s, board (adjust s) = board s) ->
  (forall s, parent (adjust s) = parent s) ->
  (forall s, depth (adjust s) = depth s) ->
  parent root = None -> linked adjust root s ->
  path_from (board root) (board <$> reverse (path_to s)) (board s) /\
  Z.of_nat (length (path_to s)) = depth s - depth root + 1.
Proof.
  intros Hboard Hparent Hdepth Hroot. induction 1 as [|self s' _ [IHp IHd] Hsucc].
  - rewrite path_to_unfold, Hroot. split; [constructor | simpl; lia].
  - destruct (successor_step self s' Hsucc) as (_ & Hd & _ & Hpar).
    rewrite path_to_unfold, Hparent, Hpar, reverse_cons, fmap_app, Hdepth.
    cbn [fmap list_fmap]. rewrite !Hboard.
    split.
    + apply path_step with (b := board self); [exact IHp|].
      apply is_successor_move, Hsucc.
    + cbn [length]. lia.
Qed.

Lemma with_priority_board (s : State) : board (with_priority s) = board s.
Proof. reflexivity. Qed.

Lemma heap_states_empty (heap_lst : list item) :
  list_is_empty heap_lst = true -> heap_states heap_lst = [].
Proof. destruct heap_lst; [reflexivity | discriminate]. Qed.

Lemma stack_states_empty (stack : list State) :
  list_is_empty stack = true -> stack_states stack = [].
Proof. destruct stack; [reflexivity | discriminate]. Qed.

Lemma heap_states_root (initial : State) (s : State) :
  s ∈ heap_states (heappush item_lt [] (f initial, initial)) <-> s = initial.
Proof.
  unfold heap_states. rewrite (heappush_Permutation item_lt [] (f initial, initial)).
  cbn. apply list_elem_of_singleton.
Qed.

Lemma dfs_linked (fuel : nat) (initial : State) (goal_board : Board) (c : State) :
  sound_board (board initial) ->
  dfs fuel initial goal_board = Some (Ok (Some c)) ->
  linked unchanged initial c /\ grid (board c) = grid goal_board.
Proof.
  intros Hroot Hrun.
  apply (search_loop_linked stack_states unchanged list_is_empty (dfs_body goal_board)
           goal_board (fun s => eq_refl) (dfs_body_pops goal_board)
           initial fuel [initial] ∅ c Hroot); [|exact Hrun].
  repeat constructor.
Qed.

Lemma astar_linked (fuel : nat) (initial : State) (goal_board : Board) (c : State) :
  sound_board (board initial) ->
  astar fuel initial goal_board = Some (Ok (Some c)) ->
  linked with_priority initial c /\ grid (board c) = grid goal_board.
Proof.
  intros Hroot Hrun.
  apply (search_loop_linked heap_states with_priority list_is_empty (astar_body goal_board)
           goal_board with_priority_board (astar_body_pops goal_board)
           initial fuel (heappush item_lt [] (f initial, initial)) ∅ c Hroot); [|exact Hrun].
  apply Forall_forall. intros s Hs. apply heap_states_root in Hs as ->. constructor.
Qed.

Lemma dfs_exhausts (fuel : nat) (initial : State) (goal_board : Board) :
  wf_board (board initial) ->
  dfs fuel initial goal_board = Some (Ok None) ->
  forall b, rtc move (board initial) b -> grid b <> grid goal_board.
Proof.
  intros Hroot Hrun.
  apply (search_loop_exhausts stack_states unchanged list_is_empty (dfs_body goal_board)
           goal_board (fun s => eq_refl) stack_states_empty (dfs_body_pops goal_board)
           initial fuel [initial] ∅ Hroot); [|exact Hrun].
  constructor.
  - repeat constructor; apply Hroot.
  - set_solver.
  - right. exists initial. split; [left | reflexivity].
  - intros b b' _ Hv. set_solver.
Qed.

Lemma astar_exhausts (fuel : nat) (initial : State) (goal_board : Board) :
  wf_board (board initial) ->
  astar fuel initial goal_board = Some (Ok None) ->
  forall b, rtc move (board initial) b -> grid b <> grid goal_board.
Proof.
  intros Hroot Hrun.
  apply (search_loop_exhausts heap_states with_priority list_is_empty (astar_body goal_board)
           goal_board with_priority_board heap_states_empty (astar_body_pops goal_board)
           initial fuel (heappush item_lt [] (f initial, initial)) ∅ Hroot); [|exact Hrun].
  constructor.
  - apply Forall_forall. intros s Hs. apply heap_states_root in Hs as ->. exact Hroot.
  - set_solver.
  - right. exists initial. split; [apply heap_states_root; reflexivity | reflexivity].
  - intros b b' _ Hv. set_solver.
Qed.

(** ** The text written by [display] and [output_solution] *)

(** The text of a grid: its rows, each followed by a line end. *)
Definition lines_text (g : list (list ascii)) : string :=
  foldr (fun row acc => string_of_list_ascii row +:+ newline +:+ acc) ""%string g.

(** The text of a sequence of boards: each grid followed by an empty
    line. *)
Definition boards_text (bs : list Board) : string :=
  foldr (fun b acc => lines_text (grid b) +:+ newline +:+ acc) ""%string bs.

Lemma row_fold (row : list ascii) (out : string) :
  fold_left (fun out ch => out +:+ String ch EmptyString) row out
  = out +:+ string_of_list_ascii row.
Proof.
  revert out. induction row as [|ch row IH]; intros out; simpl.
  - rewrite string_app_empty_r. reflexivity.
  - rewrite IH, string_app_assoc. reflexivity.
Qed.

Lemma rows_fold (g : list (list ascii)) (out : string) :
  fold_left (fun out line =>
               fold_left (fun out ch => out +:+ String ch EmptyString) line out +:+ newline)
            g out
  = out +:+ lines_text g.
Proof.
  revert out. induction g as [|row g IH]; intros out; simpl.
  - rewrite string_app_empty_r. reflexivity.
  - rewrite IH, row_fold, !string_app_assoc. reflexivity.
Qed.

Lemma display_text (b : Board) (out : string) : display b out = out +:+ lines_text (grid b).
Proof. apply rows_fold. Qed.

Lemma grid_to_string_text (g : list (list ascii)) : grid_to_string g = lines_text g.
Proof. unfold grid_to_string. rewrite rows_fold. reflexivity. Qed.

Lemma boards_fold (bs : list Board) (out : string) :
  fold_left (fun out b => display b out +:+ newline) bs out = out +:+ boards_text bs.
Proof.
  revert out. induction bs as [|b bs IH]; intros out; simpl.
  - rewrite string_app_empty_r. reflexivity.
  - rewrite IH, display_text, !string_app_assoc. reflexivity.
Qed.

Lemma write_solution_text (s : State) :
  write_solution (Some s) = boards_text (board <$> reverse (path_to s)).
Proof.
  unfold write_solution. cbn zeta.
  rewrite <- (app_empty (boards_text _)), <- boards_fold.
  generalize (reverse (path_to s)) (""%string).
  induction l as [|st l IH]; intros out; simpl; [reflexivity|]. apply IH.
Qed.

(** The text of a grid determines the grid, when no cell holds a line
    end. *)
Definition line_end : ascii := ascii_of_nat 10.

Lemma row_text_split (r1 r2 : list ascii) (s1 s2 : string) :
  line_end ∉ r1 -> line_end ∉ r2 ->
  string_of_list_ascii r1 +:+ newline +:+ s1 = string_of_list_ascii r2 +:+ newline +:+ s2 ->
  r1 = r2 /\ s1 = s2.
Proof.
  revert r2. induction r1 as [|c1 r1 IH]; intros [|c2 r2] H1 H2 Heq;
    cbn [string_of_list_ascii] in Heq; unfold newline in Heq; str_norm_in Heq.
  - injection Heq as <-. auto.
  - injection Heq as <- _. contradiction H2. left.
  - injection Heq as -> _. contradiction H1. left.
  - injection Heq as <- Heq. apply not_elem_of_cons in H1 as [_ H1].
    apply not_elem_of_cons in H2 as [_ H2].
    destruct (IH r2 H1 H2) as [-> ->]; [|auto].
    unfold newline. str_norm. exact Heq.
Qed.

Lemma lines_text_inj (g1 g2 : list (list ascii)) :
  Forall (fun row => line_end ∉ row) g1 -> Forall (fun row => line_end ∉ row) g2 ->
  lines_text g1 = lines_text g2 -> g1 = g2.
Proof.
  intros H1. revert g2. induction H1 as [|r1 g1 Hr1 _ IH]; intros g2 H2 Heq.
  - destruct H2 as [|r2 g2 _ _]; [reflexivity|]. exfalso.
    cbn [lines_text foldr] in Heq. destruct r2; cbn [string_of_list_ascii] in Heq;
      unfold newline in Heq; str_norm_in Heq; discriminate.
  - destruct H2 as [|r2 g2 Hr2 H2].
    + exfalso. cbn [lines_text foldr] in Heq. destruct r1; cbn [string_of_list_ascii] in Heq;
        unfold newline in Heq; str_norm_in Heq; discriminate.
    + cbn [lines_text foldr] in Heq.
      apply row_text_split in Heq as [-> Heq]; [|assumption..].
      rewrite (IH g2 H2 Heq). reflexivity.
Qed.

Lemma sound_no_line_end (b : Board) :
  sound_board b -> Forall (fun row => line_end ∉ row) (grid b).
Proof.
  intros Hb.
  pose proof (symbols_only_derived _ _ _ _ (valid_pieces_nonneg _ (sb_valid b Hb)) (sb_grid b Hb))
    as Hsym.
  unfold symbols_only in Hsym. eapply Forall_impl; [exact Hsym|].
  intros row Hrow Hin. rewrite Forall_forall in Hrow. specialize (Hrow _ Hin).
  apply list_elem_of_In in Hrow. vm_compute in Hrow. intuition discriminate.
Qed.

(** *** No board twice on the path *)

Section SearchPaths.
Context {F : Type} (states : F -> list State) (adjust : State -> State).
Context (is_empty : F -> bool) (body : F -> gset string -> res (turn F)).
Context (goal_board : Board).
Hypothesis adjust_board : forall s, board (adjust s) = board s.
Hypothesis adjust_parent : forall s, parent (adjust s) = parent s.
Hypothesis body_pops :
  forall frontier visited t,
    body frontier visited = Ok t -> pop_spec states adjust goal_board frontier visited t.

(** The ancestors of [s] were expanded, one after the other: their grid
    strings are visited and pairwise distinct. *)
Definition expanded_above (visited : gset string) (s : State) : Prop :=
  match parent s with
  | Some p =>
      Forall (fun a => Board_str (board a) ∈ visited) (path_to p) /\
      NoDup ((fun a => Board_str (board a)) <$> path_to p) /\
      sound_board (board p)
  | None => True
  end.

Lemma expanded_above_mono (visited visited' : gset string) (s : State) :
  visited ⊆ visited' -> expanded_above visited s -> expanded_above visited' s.
Proof.
  unfold expanded_above. intros Hsub. destruct (parent s) as [p|]; [|auto].
  intros (Hall & Hnd & Hb). split; [|auto].
  eapply Forall_impl; [exact Hall|]. intros a Ha. apply Hsub, Ha.
Qed.

Lemma expanded_turn (frontier : F) (visited : gset string) (t : turn F) :
  Forall (fun s => expanded_above visited s /\ sound_board (board s)) (states frontier) ->
  body frontier visited = Ok t ->
  match t with
  | Returned _ => True
  | Discarded frontier' visited' | Expanded _ frontier' visited' =>
      Forall (fun s => expanded_above visited' s /\ sound_board (board s)) (states frontier')
  end.
Proof.
  intros Hall Hbody. rewrite Forall_forall in Hall.
  destruct (body_pops _ _ _ Hbody) as (curr & rest & Hfr & Ht).
  destruct t as [c|fr v'|key fr v']; [exact I| |].
  - destruct Ht as (_ & -> & Hfr'). apply Forall_forall. intros s Hs.
    apply Hall, Hfr. right. apply Hfr', Hs.
  - destruct Ht as (-> & Hfresh & -> & _ & succs & Hgen & Hfr').
    destruct (Hall curr) as [Hcurr Hb]; [apply Hfr; auto|].
    apply Forall_forall. intros s Hs.
    apply Hfr' in Hs as [Hs|(s' & Hs' & _ & ->)].
    + destruct (Hall s) as [Hexp Hsb]; [apply Hfr; auto|].
      split; [|exact Hsb]. eapply expanded_above_mono; [|exact Hexp].
      apply union_subseteq_l.
    + pose proof (generate_successors_sound curr succs s' Hb Hgen Hs') as Hsucc.
      destruct (successor_sound curr s' Hb Hsucc) as (Hb' & _ & _ & _ & Hpar).
      split; [|rewrite adjust_board; exact Hb'].
      unfold expanded_above. rewrite adjust_parent, Hpar, path_to_unfold.
      unfold expanded_above in Hcurr.
      destruct (parent curr) as [p|].
      * destruct Hcurr as (Hall' & Hnd & _). split; [|split; [|exact Hb]].
        -- constructor; [apply elem_of_union_r, elem_of_singleton; reflexivity|].
           eapply Forall_impl; [exact Hall'|]. intros a Ha. apply elem_of_union_l, Ha.
        -- rewrite fmap_cons. constructor; [|exact Hnd].
           intros Hin. apply list_elem_of_fmap in Hin as (a & Ha & Hin).
           rewrite Forall_forall in Hall'. apply Hfresh. rewrite Ha. apply Hall', Hin.
      * split; [|split; [|exact Hb]].
        -- constructor; [apply elem_of_union_r, elem_of_singleton; reflexivity|constructor].
        -- cbn. apply NoDup_singleton.
Qed.

Lemma search_loop_simple_path (fuel : nat) (frontier : F) (visited : gset string) (c : State) :
  Forall (fun s => expanded_above visited s /\ sound_board (board s)) (states frontier) ->
  search_loop is_empty body fuel frontier visited = Some (Ok (Some c)) ->
  NoDup ((fun a => Board_str (board a)) <$> path_to c).
Proof.
  intros Hall Hrun.
  destruct (search_loop_inv is_empty body
              (fun fr v => Forall (fun s => expanded_above v s /\ sound_board (board s))
                             (states fr))
              expanded_turn fuel frontier visited (Some c) Hall Hrun)
    as (fr' & v' & Hall' & Hbody).
  destruct (body_pops _ _ _ Hbody) as (curr & rest & Hfr & -> & Hfresh & _).
  rewrite Forall_forall in Hall'. destruct (Hall' curr) as [Hexp _]; [apply Hfr; auto|].
  rewrite path_to_unfold. unfold expanded_above in Hexp.
  destruct (parent curr) as [p|]; [|cbn; apply NoDup_singleton].
  destruct Hexp as (Hvis & Hnd & _). rewrite fmap_cons. constructor; [|exact Hnd].
  intros Hin. apply list_elem_of_fmap in Hin as (a & Ha & Hin).
  rewrite Forall_forall in Hvis. apply Hfresh. rewrite Ha. apply Hvis, Hin.
Qed.
End SearchPaths.

Lemma dfs_simple_path (fuel : nat) (b goal_board : Board) (c : State) :
  sound_board b ->
  dfs fuel (dfs_root b) goal_board = Some (Ok (Some c)) ->
  NoDup ((fun a => Board_str (board a)) <$> path_to c).
Proof.
  intros Hb Hrun.
  apply (search_loop_simple_path stack_states unchanged list_is_empty (dfs_body goal_board)
           goal_board (fun s => eq_refl) (fun s => eq_refl) (dfs_body_pops goal_board)
           fuel [dfs_root b] ∅ c); [|exact Hrun].
  constructor; [|constructor]. split; [exact I | exact Hb].
Qed.

Lemma astar_simple_path (fuel : nat) (b goal_board : Board) (c : State) :
  sound_board b ->
  astar fuel (astar_root b goal_board) goal_board = Some (Ok (Some c)) ->
  NoDup ((fun a => Board_str (board a)) <$> path_to c).
Proof.
  intros Hb Hrun.
  apply (search_loop_simple_path heap_states with_priority list_is_empty
           (astar_body goal_board) goal_board with_priority_board (fun s => eq_refl)
           (astar_body_pops goal_board) fuel
           (heappush item_lt [] (f (astar_root b goal_board), astar_root b goal_board)) ∅ c);
    [|exact Hrun].
  apply Forall_forall. intros s Hs. apply heap_states_root in Hs as ->.
  split; [exact I | exact Hb].
Qed.

(** ** The loader: the pieces of the two layouts *)

(** [p] is the record of the piece [gp] of a layout, with some identity. *)
Definition is_record (gp : shape * Z * Z) (p : Piece) : Prop :=
  p = goal_record gp.1.1 gp.1.2 gp.2 (uid p).

Lemma is_record_goal_record (s : shape) (x y : Z) (u : positive) :
  is_record (s, x, y) (goal_record s x y u).
Proof. unfold is_record. cbn [fst snd]. rewrite uid_goal_record. reflexivity. Qed.

Lemma is_record_shape (gp : shape * Z * Z) (p : Piece) :
  is_record gp p -> shape_of p = Some gp.1.1 /\ position p = (gp.1.2, gp.2).
Proof.
  destruct gp as [[s x] y]. unfold is_record. cbn [fst snd]. intros ->.
  destruct s; split; reflexivity.
Qed.

Lemma goal_pieces_snoc (block_seen : bool) (cells : list ((Z * Z) * ascii)) (x y : Z)
    (ch : ascii) :
  goal_pieces block_seen (cells ++ [((x, y), ch)])
  = goal_pieces block_seen cells
    ++ match char_piece (seen_after block_seen cells) ch with
       | Some s => [(s, x, y)]
       | None => []
       end.
Proof.
  rewrite goal_pieces_app. cbn [goal_pieces].
  destruct (char_piece (seen_after block_seen cells) ch); reflexivity.
Qed.

Lemma seen_after_snoc (block_seen : bool) (cells : list ((Z * Z) * ascii)) (c : (Z * Z) * ascii) :
  seen_after block_seen (cells ++ [c]) = block_seen_after (seen_after block_seen cells) c.2.
Proof. unfold seen_after. rewrite fold_left_app. reflexivity. Qed.

(** During the initial layout: the pieces loaded so far are the records
    of the pieces of the cells read so far, in reading order. *)
Record initial_parsed (cells : list ((Z * Z) * ascii)) (st : Loader) : Prop := {
  ip_pieces : Forall2 is_record (goal_pieces false cells) (dict_values (ld_pieces st));
  ip_found : ld_found_2by2 st = seen_after false cells;
  ip_final_pieces : ld_final_pieces st = []
}.

Lemma initial_char_parsed (cells : list ((Z * Z) * ascii)) (st : Loader) (x : Z) (ch : ascii) :
  initial_ok x st -> initial_parsed cells st ->
  initial_parsed (cells ++ [((x, ld_line_index st), ch)]) (initial_char st x ch).
Proof.
  intros [_ _ _ _ _ Hkeys] [Hps Hfound Hfps].
  pose proof (keys_before_fresh _ _ _ Hkeys) as Hfresh.
  destruct st as [gd singles vert hori double li ps fps final found ffound h next].
  cbn [ld_pieces ld_found_2by2 ld_final_pieces ld_line_index] in *.
  unfold initial_char.
  destruct (Ascii.eqb ch "^") eqn:E1;
    [|destruct (Ascii.eqb ch "<") eqn:E2;
      [|destruct (Ascii.eqb ch char_single) eqn:E3;
        [|destruct (Ascii.eqb ch "1") eqn:E4; [destruct found eqn:Ef|]]]];
    (constructor;
     [ rewrite goal_pieces_snoc, <- Hfound; unfold char_piece; rewrite ?E1, ?E2, ?E3, ?E4
     | rewrite seen_after_snoc, <- Hfound; unfold block_seen_after; cbn [snd];
       rewrite ?E1, ?E2, ?E3, ?E4
     | ]);
    cbn [ld_pieces ld_found_2by2 ld_final_pieces];
    rewrite ?(dict_set_fresh _ _ _ Hfresh), ?dict_values_snoc, ?app_nil_r, ?orb_false_r,
      ?orb_true_r;
    try assumption; try reflexivity;
    try (apply Forall2_app; [exact Hps|]; constructor; [|constructor];
         first [ exact (is_record_goal_record Vertical x li next)
               | exact (is_record_goal_record Horizontal x li next)
               | exact (is_record_goal_record Single x li next)
               | exact (is_record_goal_record Block x li next) ]);
    first [apply Ascii.eqb_eq in E1 | apply Ascii.eqb_eq in E2 | apply Ascii.eqb_eq in E3];
    subst ch; rewrite orb_false_r; reflexivity.
Qed.

Lemma initial_chars_parsed (chars : list ascii) (x : Z) (st : Loader)
    (cells : list ((Z * Z) * ascii)) :
  initial_ok x st -> initial_parsed cells st ->
  initial_parsed
    (cells ++ ((fun xc : Z * ascii => ((xc.1, ld_line_index st), xc.2))
                 <$> enumerate_from x chars))
    (fold_left (fun s (xc : Z * ascii) => initial_char s xc.1 xc.2) (enumerate_from x chars) st).
Proof.
  revert x st cells. induction chars as [|ch chars IH]; intros x st cells Hok Hp.
  - simpl. rewrite app_nil_r. exact Hp.
  - cbn [enumerate_from fold_left fst snd]. rewrite fmap_cons. cbn [fst snd].
    destruct (initial_char_initial_ok st x ch Hok) as [Hok1 Hli].
    pose proof (initial_char_parsed cells st x ch Hok Hp) as Hp1.
    specialize (IH (x + 1) _ _ Hok1 Hp1). rewrite Hli, <- app_assoc in IH. exact IH.
Qed.

Lemma initial_parsed_frame (cells : list ((Z * Z) * ascii)) (st st' : Loader) :
  ld_pieces st' = ld_pieces st -> ld_found_2by2 st' = ld_found_2by2 st ->
  ld_final_pieces st' = ld_final_pieces st ->
  initial_parsed cells st -> initial_parsed cells st'.
Proof. intros H1 H2 H3 [? ? ?]. constructor; congruence. Qed.

Lemma initial_ok_bump (st : Loader) : initial_ok 0 st -> initial_ok 0 (bump_height st).
Proof. intros []. destruct st; constructor; assumption. Qed.

(** The lines of the initial layout. *)
Lemma initial_lines_parsed (lines : list string) (st st' : Loader)
    (cells : list ((Z * Z) * ascii)) :
  newline ∉ lines -> initial_ok 0 st -> initial_parsed cells st ->
  for_each read_line lines st = Ok st' ->
  initial_ok 0 st' /\ initial_parsed (cells ++ goal_cells (ld_line_index st) lines) st'.
Proof.
  revert st cells. induction lines as [|line lines IH]; intros st cells Hno Hok Hp Hrun.
  - injection Hrun as <-. simpl. rewrite app_nil_r. auto.
  - apply not_elem_of_cons in Hno as [Hne Hno].
    cbn [for_each] in Hrun. apply bind_Ok in Hrun as (st1 & Hline & Hrest).
    destruct (initial_line_ok st line Hok) as (st1' & Hline' & Hok1); [congruence|].
    rewrite Hline in Hline'. injection Hline' as <-.
    unfold read_line in Hline. cbn [goal_cells].
    destruct (String.eqb_spec line newline) as [E|_]; [congruence|].
    pose proof (initial_ok_bump st Hok) as Hb.
    rewrite (io_final _ _ Hb) in Hline. cbn [mbind res_bind] in Hline.
    injection Hline as Hst1.
    assert (Hpb : initial_parsed cells (bump_height st)).
    { apply (initial_parsed_frame cells st); [destruct st; reflexivity..|exact Hp]. }
    pose proof (initial_chars_parsed (list_ascii_of_string line) 0 _ cells Hb Hpb) as Hp1.
    destruct (initial_chars_initial_ok (list_ascii_of_string line) 0 _ Hb) as [_ Hli].
    cbn zeta in Hli.
    set (st2 := fold_left _ _ (bump_height st)) in *.
    assert (Hp1' : initial_parsed (cells ++ line_cells (ld_line_index st) line) st1).
    { apply (initial_parsed_frame _ st2); [subst st1; destruct st2; reflexivity..|].
      replace (ld_line_index (bump_height st)) with (ld_line_index st) in Hp1
        by (destruct st; reflexivity).
      exact Hp1. }
    destruct (IH st1 _ Hno Hok1 Hp1' Hrest) as [Hok' Hp'].
    split; [exact Hok'|]. rewrite <- app_assoc in Hp'.
    replace (ld_line_index st1) with (ld_line_index st + 1) in Hp'; [exact Hp'|].
    subst st1. replace (ld_line_index (bump_height st)) with (ld_line_index st) in Hli
      by (destruct st; reflexivity).
    rewrite <- Hli. destruct st2; reflexivity.
Qed.

(** The goal piece [g] carries the identity of the initial piece [m],
    and has its shape. *)
Definition same_tag (m g : Piece) : Prop := uid g = uid m /\ shape_of g = shape_of m.

Lemma shape_goal_record (s : shape) (x y : Z) (u : positive) :
  shape_of (goal_record s x y u) = Some s.
Proof. destruct s; reflexivity. Qed.

(** During the goal layout: the goal pieces loaded so far are the
    records of the pieces of the cells read so far, in reading order;
    the candidates have the shape of their pool; the initial pieces are
    the candidates and the pieces matched so far, which gave their
    identities to the goal pieces, in order. *)
Record goal_parsed (cells : list ((Z * Z) * ascii)) (st : Loader) : Prop := {
  gp_pieces : Forall2 is_record (goal_pieces false cells) (dict_values (ld_final_pieces st));
  gp_seen : ld_finalfound_2by2 st = seen_after false cells;
  gp_shapes : forall s, Forall (fun p => shape_of p = Some s) (pool s (matching_of st));
  gp_matched : exists matched,
    dict_values (ld_pieces st) ≡ₚ candidates (matching_of st) ++ matched /\
    Forall2 same_tag matched (dict_values (ld_final_pieces st))
}.

Lemma goal_char_parsed (cells : list ((Z * Z) * ascii)) (st st' : Loader) (x : Z) (ch : ascii) :
  loader_ids x st -> goal_parsed cells st ->
  goal_char st x ch = Ok st' ->
  goal_parsed (cells ++ [((x, ld_line_index st), ch)]) st'.
Proof.
  intros Hids [Hps Hseen Hshapes (matched & Hperm & Htags)] Hrun.
  destruct (goal_char_step st st' x ch Hrun) as (Hframe & Hseen' & Hstep).
  destruct Hframe as (Hli & _ & Hpieces & _).
  pose proof (keys_before_fresh _ _ _ (lid_keys _ _ Hids)) as Hfresh.
  rewrite Hseen in Hstep, Hseen'.
  destruct (char_piece (seen_after false cells) ch) as [s|] eqn:Hch.
  - destruct Hstep as (i & m & Hnear & Hpool & Hothers & _ & Hfps).
    rewrite (dict_set_fresh _ _ _ Hfresh) in Hfps.
    pose proof (candidates_match _ _ s i m (proj1 Hnear) Hpool Hothers) as Hcand.
    assert (Hm : shape_of m = Some s).
    { specialize (Hshapes s). rewrite Forall_forall in Hshapes.
      apply Hshapes. eapply list_elem_of_lookup_2, (proj1 Hnear). }
    constructor.
    + rewrite goal_pieces_snoc, Hch, Hfps, dict_values_snoc.
      apply Forall2_app; [exact Hps|]. constructor; [|constructor].
      apply is_record_goal_record.
    + rewrite seen_after_snoc. exact Hseen'.
    + intros s'. destruct (decide (s' = s)) as [->|Hne].
      * rewrite Hpool. apply Forall_delete, Hshapes.
      * rewrite (Hothers s' Hne). apply Hshapes.
    + exists (matched ++ [m]). split.
      * rewrite Hpieces, Hperm, Hcand. cbn [app].
        rewrite (Permutation_app_comm matched [m]), Permutation_middle. reflexivity.
      * rewrite Hfps, dict_values_snoc. apply Forall2_app; [exact Htags|].
        constructor; [|constructor]. split; [apply uid_goal_record|].
        rewrite shape_goal_record, Hm. reflexivity.
  - destruct Hstep as [HM Hfps]. constructor.
    + rewrite goal_pieces_snoc, Hch, app_nil_r, Hfps. exact Hps.
    + rewrite seen_after_snoc. exact Hseen'.
    + rewrite HM. exact Hshapes.
    + exists matched. rewrite Hpieces, HM, Hfps. auto.
Qed.

Lemma goal_chars_parsed (chars : list ascii) (x : Z) (st st' : Loader)
    (cells : list ((Z * Z) * ascii)) :
  ld_final st = true -> loader_ids x st -> goal_parsed cells st ->
  for_each (fun s (xc : Z * ascii) => goal_char s xc.1 xc.2) (enumerate_from x chars) st
  = Ok st' ->
  (exists x', loader_ids x' st') /\
  goal_parsed
    (cells ++ ((fun xc : Z * ascii => ((xc.1, ld_line_index st), xc.2))
                 <$> enumerate_from x chars)) st' /\
  same_frame st st'.
Proof.
  revert x st cells. induction chars as [|ch chars IH]; intros x st cells Hfinal Hids Hp Hrun.
  - injection Hrun as <-. simpl. rewrite app_nil_r.
    split; [eauto|]. split; [exact Hp | apply same_frame_refl].
  - cbn [enumerate_from for_each] in Hrun. apply bind_Ok in Hrun as (st1 & Hstep & Hrest).
    cbn [fst snd] in Hstep.
    pose proof (goal_char_ids st st1 x ch Hfinal Hids Hstep) as Hids1.
    pose proof (goal_char_parsed cells st st1 x ch Hids Hp Hstep) as Hp1.
    destruct (goal_char_step st st1 x ch Hstep) as (Hframe & _).
    assert (Hfinal1 : ld_final st1 = true) by (destruct Hframe as (_ & -> & _); exact Hfinal).
    destruct (IH (x + 1) st1 _ Hfinal1 Hids1 Hp1 Hrest) as (Hids' & Hp' & Hframe').
    split; [exact Hids'|]. split; [|eapply same_frame_trans; eassumption].
    cbn [enumerate_from]. rewrite fmap_cons. cbn [fst snd].
    destruct Hframe as (Hli & _). rewrite Hli, <- app_assoc in Hp'. exact Hp'.
Qed.

Lemma goal_parsed_frame (cells : list ((Z * Z) * ascii)) (st st' : Loader) :
  ld_pieces st' = ld_pieces st -> ld_final_pieces st' = ld_final_pieces st ->
  ld_finalfound_2by2 st' = ld_finalfound_2by2 st -> matching_of st' = matching_of st ->
  goal_parsed cells st -> goal_parsed cells st'.
Proof.
  intros H1 H2 H3 H4 [Hps Hseen Hshapes Hmatched].
  constructor; rewrite ?H1, ?H2, ?H3, ?H4; assumption.
Qed.

(** The lines of the goal layout: every line counts for the height,
    blank lines do not count as rows. *)
Lemma goal_lines_parsed (lines : list string) (st st' : Loader)
    (cells : list ((Z * Z) * ascii)) :
  ld_final st = true -> loader_ids 0 st -> goal_parsed cells st ->
  for_each read_line lines st = Ok st' ->
  goal_parsed (cells ++ goal_cells (ld_line_index st) lines) st' /\
  ld_height st' = ld_height st + Z.of_nat (length lines) /\
  ld_pieces st' = ld_pieces st.
Proof.
  revert st cells. induction lines as [|line lines IH]; intros st cells Hfinal Hids Hp Hrun.
  - injection Hrun as <-. simpl. rewrite app_nil_r. split; [exact Hp|]. split; [lia|reflexivity].
  - cbn [for_each] in Hrun. apply bind_Ok in Hrun as (st1 & Hline & Hrest).
    pose proof (read_line_ids st st1 line Hids Hline) as Hids1.
    unfold read_line in Hline. cbn [goal_cells].
    assert (Hb : ld_final (bump_height st) = true) by (destruct st; exact Hfinal).
    assert (Hidsb : loader_ids 0 (bump_height st)) by (apply bump_height_ids, Hids).
    assert (Hpb : goal_parsed cells (bump_height st)).
    { apply (goal_parsed_frame cells st); [destruct st; reflexivity..|exact Hp]. }
    rewrite Hb in Hline.
    destruct (String.eqb line newline).
    + injection Hline as <-.
      destruct (IH (bump_height st) cells Hb Hidsb Hpb Hrest) as (Hp' & Hh & Hps).
      replace (ld_line_index (bump_height st)) with (ld_line_index st) in Hp'
        by (destruct st; reflexivity).
      split; [exact Hp'|]. rewrite Hh, Hps. cbn [length]. destruct st; cbn. split; [lia|reflexivity].
    + apply bind_Ok in Hline as (st2 & Hchars & [= <-]).
      destruct (goal_chars_parsed _ 0 _ _ cells Hb Hidsb Hpb Hchars) as (_ & Hp2 & Hframe).
      destruct Hframe as (Hli & Hfin & Hps2 & Hh2 & _).
      replace (ld_line_index (bump_height st)) with (ld_line_index st) in *
        by (destruct st; reflexivity).
      fold (line_cells (ld_line_index st) line) in Hp2.
      destruct (IH (next_line st2) (cells ++ line_cells (ld_line_index st) line))
        as (Hp' & Hh & Hps); [| exact Hids1 | | exact Hrest |].
      { destruct st2; cbn in *. congruence. }
      { apply (goal_parsed_frame _ st2); [destruct st2; reflexivity..|exact Hp2]. }
      replace (ld_line_index (next_line st2)) with (ld_line_index st + 1) in Hp'
        by (destruct st2; cbn in *; congruence).
      rewrite <- app_assoc in Hp'. split; [exact Hp'|].
      rewrite Hh, Hps. cbn [length].
      replace (ld_height (next_line st2)) with (ld_height st2) by (destruct st2; reflexivity).
      replace (ld_pieces (next_line st2)) with (ld_pieces st2) by (destruct st2; reflexivity).
      rewrite Hh2, Hps2. destruct st; cbn. split; [lia|reflexivity].
Qed.

Lemma shapes_partition (l : list Piece) :
  Forall (fun p => is_Some (shape_of p)) l ->
  l ≡ₚ filter (fun p => shape_of p = Some Single) l
       ++ filter (fun p => shape_of p = Some Vertical) l
       ++ filter (fun p => shape_of p = Some Horizontal) l
       ++ filter (fun p => shape_of p = Some Block) l.
Proof.
  induction 1 as [|p l [s Hs] _ IH]; [reflexivity|].
  rewrite !filter_cons, Hs.
  destruct s;
    repeat match goal with
    | |- context [decide (Some ?a = Some ?b)] =>
        first [ rewrite (decide_True (P := Some a = Some b)) by reflexivity
              | rewrite (decide_False (P := Some a = Some b)) by discriminate ]
    end;
    cbn [app]; rewrite <- ?Permutation_middle; constructor; exact IH.
Qed.

Lemma Forall2_record_shapes (gps : list (shape * Z * Z)) (ps : list Piece) :
  Forall2 is_record gps ps -> Forall (fun p => is_Some (shape_of p)) ps.
Proof.
  induction 1 as [|gp p gps ps Hrec _ IH]; constructor; [|exact IH].
  destruct (is_record_shape gp p Hrec) as [Hs _]. eauto.
Qed.

(** The state of the loader after the initial layout, the blank line
    and the goal layout. *)
Lemma load_facts (init_lines goal_lines : list string) (st : Loader) :
  newline ∉ init_lines ->
  for_each read_line (init_lines ++ newline :: goal_lines) loader_init = Ok st ->
  Forall2 is_record (goal_pieces false (goal_cells 0 init_lines)) (dict_values (ld_pieces st)) /\
  goal_parsed (goal_cells 0 goal_lines) st /\
  ld_height st = Z.of_nat (length goal_lines) /\
  loader_ids 0 st.
Proof.
  intros Hno Hrun.
  pose proof (read_lines_ids _ _ Hrun) as Hids.
  rewrite for_each_app in Hrun. apply bind_Ok in Hrun as (st0 & Hinit & Hrun).
  cbn [for_each] in Hrun. apply bind_Ok in Hrun as (st1 & Hblank & Hgoal).
  assert (Hp0 : initial_parsed [] loader_init) by (constructor; [constructor|reflexivity..]).
  destruct (initial_lines_parsed init_lines loader_init st0 [] Hno loader_init_initial_ok
              Hp0 Hinit) as [Hok0 Hparsed0].
  cbn [app ld_line_index loader_init] in Hparsed0.
  destruct Hparsed0 as [Hps0 _ Hfps0].
  assert (Hids1 : loader_ids 0 st1).
  { apply (read_lines_ids (init_lines ++ [newline])). rewrite for_each_app, Hinit.
    cbn [mbind res_bind for_each]. rewrite Hblank. reflexivity. }
  unfold read_line in Hblank. rewrite String.eqb_refl in Hblank.
  assert (Hfb : ld_final (bump_height st0) = false).
  { destruct Hok0. destruct st0; assumption. }
  rewrite Hfb in Hblank. injection Hblank as <-.
  assert (Hp1 : goal_parsed [] (start_goal (bump_height st0))).
  { destruct Hok0 as [_ _ Hff _ Hpools _].
    apply (goal_parsed_frame [] st0); [destruct st0; reflexivity..|].
    constructor.
    - rewrite Hfps0. constructor.
    - exact Hff.
    - intros s. rewrite (Hpools s). apply Forall_forall. intros p Hp.
      apply list_elem_of_filter in Hp as [Hp _]. exact Hp.
    - exists []. rewrite Hfps0, app_nil_r. split; [|constructor].
      unfold candidates. rewrite !Hpools. apply shapes_partition.
      eapply Forall2_record_shapes, Hps0. }
  assert (Hf1 : ld_final (start_goal (bump_height st0)) = true) by (destruct st0; reflexivity).
  destruct (goal_lines_parsed goal_lines _ st [] Hf1 Hids1 Hp1 Hgoal) as (Hparsed & Hh & Hps).
  cbn [app] in Hparsed.
  replace (ld_line_index (start_goal (bump_height st0))) with 0 in Hparsed
    by (destruct st0; reflexivity).
  replace (ld_height (start_goal (bump_height st0))) with 0 in Hh by (destruct st0; reflexivity).
  replace (ld_pieces (start_goal (bump_height st0))) with (ld_pieces st0) in Hps
    by (destruct st0; reflexivity).
  rewrite Hps. split; [exact Hps0|]. split; [exact Hparsed|]. split; [lia | exact Hids].
Qed.

Lemma sound_keys_positions (b : Board) :
  sound_board b -> dict_keys (pieces b) = position <$> dict_values (pieces b).
Proof.
  intros Hb. pose proof (sb_keys b Hb) as Hkeys. unfold dict_keys, dict_values.
  induction Hkeys as [|[k p] ps Hk _ IH]; [reflexivity|].
  rewrite !fmap_cons, IH. cbn [fst snd] in *. rewrite Hk. reflexivity.
Qed.

Lemma read_from_file_state (lines : list string) (b goal_board : Board) :
  read_from_file lines = Ok (b, goal_board) ->
  exists st, for_each read_line lines loader_init = Ok st /\
    pieces b = ld_pieces st /\ height b = ld_height st /\
    goal_board_dict b = Some (ld_goal_board_dict st) /\
    pieces goal_board = ld_final_pieces st /\ height goal_board = ld_height st /\
    goal_board_dict goal_board = None.
Proof.
  unfold read_from_file. intros Hrun.
  apply bind_Ok in Hrun as (st & Hlines & Hrun).
  apply bind_Ok in Hrun as (b1 & Hb1 & Hrun).
  apply bind_Ok in Hrun as (b2 & Hb2 & [= <- <-]).
  unfold Board_init, update_grid in Hb1, Hb2.
  cbn [width height pieces goal_board_dict] in Hb1, Hb2.
  apply bind_Ok in Hb1 as (g1 & _ & [= <-]). apply bind_Ok in Hb2 as (g2 & _ & [= <-]).
  exists st. cbn. auto 10.
Qed.

(** The number of pieces of shape [s] in a layout. *)
Definition count_shape (s : shape) (ps : dict (Z * Z) Piece) : nat :=
  length (filter (fun p => shape_of p = Some s) (dict_values ps)).

Lemma same_tag_count (s : shape) (ms gs : list Piece) :
  Forall2 same_tag ms gs ->
  length (filter (fun p => shape_of p = Some s) ms)
  = length (filter (fun p => shape_of p = Some s) gs).
Proof.
  induction 1 as [|m g ms gs [_ Hs] _ IH]; [reflexivity|].
  rewrite !filter_cons, Hs.
  destruct (decide (shape_of m = Some s)); cbn [length]; rewrite IH; reflexivity.
Qed.

Lemma same_tag_uids (ms gs : list Piece) : Forall2 same_tag ms gs -> uid <$> ms = uid <$> gs.
Proof.
  induction 1 as [|m g ms gs [Hu _] _ IH]; [reflexivity|].
  rewrite !fmap_cons, IH, Hu. reflexivity.
Qed.

Lemma filter_length_Permutation (s : shape) (l1 l2 : list Piece) :
  l1 ≡ₚ l2 ->
  length (filter (fun p => shape_of p = Some s) l1)
  = length (filter (fun p => shape_of p = Some s) l2).
Proof. intros H. rewrite H. reflexivity. Qed.

Lemma same_tag_lookup (gd : gmap positive Piece) (ms gs : list Piece) :
  Forall2 same_tag ms gs -> (forall g, g ∈ gs -> gd !! uid g = Some g) ->
  Forall2 (fun m g => gd !! uid m = Some g) ms gs.
Proof.
  induction 1 as [|m g ms gs [Hu _] _ IH]; intros Hall; constructor.
  - rewrite <- Hu. apply Hall. left.
  - apply IH. intros g' Hg'. apply Hall. right. exact Hg'.
Qed.

(** The identities after a load. *)
Lemma load_identities (init_lines goal_lines : list string) (st : Loader) :
  newline ∉ init_lines ->
  for_each read_line (init_lines ++ newline :: goal_lines) loader_init = Ok st ->
  exists unmatched matched,
    dict_values (ld_pieces st) ≡ₚ unmatched ++ matched /\
    Forall2 same_tag matched (dict_values (ld_final_pieces st)) /\
    Forall (fun p => ld_goal_board_dict st !! uid p = None) unmatched /\
    Forall2 (fun m g => ld_goal_board_dict st !! uid m = Some g) matched
      (dict_values (ld_final_pieces st)) /\
    NoDup (uid <$> dict_values (ld_pieces st)).
Proof.
  intros Hno Hrun.
  destruct (load_facts init_lines goal_lines st Hno Hrun)
    as (Hps & [_ _ _ (matched & Hperm & Htags)] & _ & [Hids Hnd Hagree _ _]).
  destruct Hids as (Hndc & _ & Hnone & _).
  exists (candidates (matching_of st)), matched.
  split; [exact Hperm|]. split; [exact Htags|]. split; [exact Hnone|]. split.
  - apply (same_tag_lookup _ _ _ Htags). intros g Hg. apply Hagree. auto.
  - rewrite Hperm, fmap_app, (same_tag_uids _ _ Htags). apply NoDup_app.
    split; [exact Hndc|]. split; [|exact Hnd].
    intros u Hu Hu'. apply list_elem_of_fmap in Hu as (p & -> & Hp).
    apply list_elem_of_fmap in Hu' as (g & Hug & Hg).
    rewrite Forall_forall in Hnone. specialize (Hnone p Hp).
    assert (Hsome : ld_goal_board_dict st !! uid p = Some g) by (apply Hagree; auto).
    congruence.
Qed.

(** ** The exceptions of the loader *)

Lemma for_each_Raise_inv {A S : Type} (I : S -> Prop) (body : S -> A -> res S)
    (xs : list A) (s : S) (e : exn) :
  I s -> (forall s x s', I s -> body s x = Ok s' -> I s') ->
  for_each body xs s = Raise e ->
  exists x s1, x ∈ xs /\ I s1 /\ body s1 x = Raise e.
Proof.
  intros Hs Hstep. revert s Hs. induction xs as [|x xs IH]; intros s Hs Hrun; [discriminate|].
  cbn [for_each] in Hrun. destruct (body s x) as [s'|e'] eqn:Hbody.
  - cbn [mbind res_bind] in Hrun.
    destruct (IH s' (Hstep _ _ _ Hs Hbody) Hrun) as (y & s1 & Hy & Hs1 & Hraise).
    exists y, s1. split; [right; exact Hy | auto].
  - injection Hrun as <-. exists x, s. split; [left | auto].
Qed.

Lemma list_pop_Raise {A : Type} (l : list A) (i : nat) (e : exn) :
  list_pop l i = Raise e -> e = IndexError /\ (length l <= i)%nat.
Proof.
  unfold list_pop. destruct (l !! i) eqn:E; [discriminate|]. intros [= <-].
  split; [reflexivity | apply lookup_ge_None, E].
Qed.

(** One character of the goal layout raises [IndexError] when the pool
    of its shape is empty, [AttributeError] for the first ['1'] when no
    block was loaded. *)
Lemma goal_char_Raise (st : Loader) (x : Z) (ch : ascii) (e : exn) :
  goal_char st x ch = Raise e ->
  exists s, char_piece (ld_finalfound_2by2 st) ch = Some s /\ pool s (matching_of st) = [] /\
    ((s <> Block /\ e = IndexError) \/ (s = Block /\ e = AttributeError /\ ld_double st = None)).
Proof.
  destruct st as [gd singles vert hori double li ps fps final found ffound h next].
  unfold goal_char, char_piece, matching_of, pool.
  cbn [ld_finalfound_2by2 ld_double ld_vert ld_hori ld_singles m_vert m_hori m_singles
       m_double m_block_matched].
  destruct (Ascii.eqb ch "^");
    [|destruct (Ascii.eqb ch "<");
      [|destruct (Ascii.eqb ch char_single);
        [|destruct (Ascii.eqb ch "1"); [destruct ffound|]]]];
    intros Hrun; try discriminate.
  - destruct (list_pop vert (find_min_index vert x li)) as [[m vert']|e'] eqn:Hpop;
      [discriminate|]. injection Hrun as <-.
    apply list_pop_Raise in Hpop as [-> Hlen].
    exists Vertical. split; [reflexivity|]. split; [|left; split; [discriminate|reflexivity]].
    destruct vert as [|p vert]; [reflexivity|]. exfalso.
    destruct (find_min_index_nearest (p :: vert) x li) as (m & Hm & _); [discriminate|].
    apply lookup_lt_Some in Hm. lia.
  - destruct (list_pop hori (find_min_index hori x li)) as [[m hori']|e'] eqn:Hpop;
      [discriminate|]. injection Hrun as <-.
    apply list_pop_Raise in Hpop as [-> Hlen].
    exists Horizontal. split; [reflexivity|]. split; [|left; split; [discriminate|reflexivity]].
    destruct hori as [|p hori]; [reflexivity|]. exfalso.
    destruct (find_min_index_nearest (p :: hori) x li) as (m & Hm & _); [discriminate|].
    apply lookup_lt_Some in Hm. lia.
  - destruct (list_pop singles (find_min_index singles x li)) as [[m singles']|e'] eqn:Hpop;
      [discriminate|]. injection Hrun as <-.
    apply list_pop_Raise in Hpop as [-> Hlen].
    exists Single. split; [reflexivity|]. split; [|left; split; [discriminate|reflexivity]].
    destruct singles as [|p singles]; [reflexivity|]. exfalso.
    destruct (find_min_index_nearest (p :: singles) x li) as (m & Hm & _); [discriminate|].
    apply lookup_lt_Some in Hm. lia.
  - destruct double as [d|]; [discriminate|]. injection Hrun as <-.
    exists Block. split; [reflexivity|]. split; [reflexivity|]. right. auto.
Qed.

Lemma seen_after_true (cells : list ((Z * Z) * ascii)) : seen_after true cells = true.
Proof.
  unfold seen_after. induction cells as [|c cells IH]; [reflexivity|]. exact IH.
Qed.

Lemma seen_after_cons (seen : bool) (c : (Z * Z) * ascii) (cells : list ((Z * Z) * ascii)) :
  seen_after seen (c :: cells) = seen_after (block_seen_after seen c.2) cells.
Proof. reflexivity. Qed.

Lemma no_block_seen (seen : bool) (cells : list ((Z * Z) * ascii)) :
  seen_after seen cells = false ->
  Forall (fun gp : shape * Z * Z => gp.1.1 <> Block) (goal_pieces seen cells).
Proof.
  revert seen. induction cells as [|[[x y] ch] cells IH]; intros seen Hseen; [constructor|].
  rewrite seen_after_cons in Hseen. cbn [snd] in Hseen. cbn [goal_pieces].
  assert (Hch : Ascii.eqb ch "1" = false).
  { destruct (Ascii.eqb ch "1") eqn:E; [|reflexivity].
    unfold block_seen_after in Hseen. rewrite E, orb_true_r, seen_after_true in Hseen.
    discriminate. }
  destruct (char_piece seen ch) as [s|] eqn:Hs; [|apply IH, Hseen].
  constructor; [|apply IH, Hseen]. cbn [fst]. intros ->.
  unfold char_piece in Hs. rewrite Hch in Hs.
  destruct (Ascii.eqb ch "^"); [discriminate|]. destruct (Ascii.eqb ch "<"); [discriminate|].
  destruct (Ascii.eqb ch char_single); discriminate.
Qed.

Lemma Board_init_Raise (h : Z) (ps : dict (Z * Z) Piece) (gd : option (gmap positive Piece))
    (e : exn) :
  layout_ok ps -> Board_init h ps gd = Raise e ->
  e = IndexError /\ ~ Forall (in_grid 4 h) (occupied ps).
Proof.
  intros [Hall _] Hrun. unfold Board_init, update_grid in Hrun.
  cbn [width height pieces] in Hrun.
  rewrite derive_grid_paint in Hrun.
  - destruct (bool_decide (Forall (in_grid 4 h) (occupied ps))) eqn:E; [discriminate|].
    injection Hrun as <-. split; [reflexivity|]. apply bool_decide_eq_false in E. exact E.
  - apply Forall_dict_values. eapply Forall_impl; [exact Hall|].
    intros kp [_ [Hn _]]. exact Hn.
Qed.

Lemma read_line_goal_frame (st st' : Loader) (line : string) :
  ld_final st = true -> read_line st line = Ok st' ->
  ld_final st' = true /\ ld_double st' = ld_double st.
Proof.
  intros Hfinal Hrun. unfold read_line in Hrun.
  assert (Hb : ld_final (bump_height st) = true) by (destruct st; exact Hfinal).
  rewrite Hb in Hrun. destruct (String.eqb line newline).
  - injection Hrun as <-. destruct st; auto.
  - apply bind_Ok in Hrun as (st2 & Hchars & [= <-]).
    destruct (goal_chars_match _ _ _ Hchars) as ((_ & Hfin & _ & _ & Hd & _) & _).
    destruct st2, st; cbn in *. split; congruence.
Qed.

(** The exceptions of the lines: [IndexError] when a pool is empty, and
    [AttributeError] for a block of the goal layout when the initial
    layout has none. *)
Lemma read_lines_Raise (init_lines goal_lines : list string) (e : exn) :
  newline ∉ init_lines ->
  for_each read_line (init_lines ++ newline :: goal_lines) loader_init = Raise e ->
  e = IndexError \/
  (e = AttributeError /\
   Forall (fun gp : shape * Z * Z => gp.1.1 <> Block)
     (goal_pieces false (goal_cells 0 init_lines))).
Proof.
  intros Hno Hrun. rewrite for_each_app in Hrun.
  destruct (initial_lines_ok init_lines loader_init loader_init_initial_ok Hno)
    as (st0 & Hinit & Hok0).
  assert (Hp0 : initial_parsed [] loader_init) by (constructor; [constructor|reflexivity..]).
  destruct (initial_lines_parsed init_lines loader_init st0 [] Hno loader_init_initial_ok
              Hp0 Hinit) as [_ [_ Hfound _]].
  cbn [app ld_line_index loader_init] in Hfound.
  rewrite Hinit in Hrun. cbn [mbind res_bind for_each] in Hrun.
  assert (Hfb : ld_final (bump_height st0) = false).
  { destruct Hok0. destruct st0; assumption. }
  assert (Hblank : read_line st0 newline = Ok (start_goal (bump_height st0))).
  { unfold read_line. rewrite String.eqb_refl, Hfb. reflexivity. }
  rewrite Hblank in Hrun. cbn [mbind res_bind] in Hrun.
  destruct (for_each_Raise_inv
              (fun s => ld_final s = true /\ ld_double s = ld_double st0)
              read_line goal_lines (start_goal (bump_height st0)) e)
    as (line & s1 & _ & [Hf1 Hd1] & Hline); [| |exact Hrun|].
  { destruct st0; auto. }
  { intros s x s' [Hf Hd] Hstep.
    destruct (read_line_goal_frame s s' x Hf Hstep) as [Hf' Hd']. split; congruence. }
  unfold read_line in Hline.
  assert (Hb1 : ld_final (bump_height s1) = true) by (destruct s1; exact Hf1).
  rewrite Hb1 in Hline. destruct (String.eqb line newline); [discriminate|].
  destruct (for_each (fun s (xc : Z * ascii) => goal_char s xc.1 xc.2)
              (enumerate_from 0 (list_ascii_of_string line)) (bump_height s1))
    as [s2|e'] eqn:Hchars; [discriminate|].
  injection Hline as <-.
  assert (Hdb : ld_double (bump_height s1) = ld_double st0) by (destruct s1; exact Hd1).
  assert (Hkeep : forall s (xc : Z * ascii) s',
            ld_double s = ld_double st0 -> goal_char s xc.1 xc.2 = Ok s' ->
            ld_double s' = ld_double st0).
  { intros s xc s' Hd Hstep.
    destruct (goal_char_step s s' xc.1 xc.2 Hstep) as ((_ & _ & _ & _ & Hd' & _) & _).
    congruence. }
  destruct (for_each_Raise_inv (fun s => ld_double s = ld_double st0)
              (fun s (xc : Z * ascii) => goal_char s xc.1 xc.2)
              (enumerate_from 0 (list_ascii_of_string line)) (bump_height s1) e'
              Hdb Hkeep Hchars) as ([x ch] & s3 & _ & Hd3 & Hchar).
  cbn [fst snd] in Hchar.
  destruct (goal_char_Raise s3 x ch e' Hchar) as (s & _ & _ & [[_ ->]|(_ & -> & Hnone)]);
    [left; reflexivity|].
  right. split; [reflexivity|]. apply no_block_seen. rewrite <- Hfound.
  rewrite (io_found _ _ Hok0). apply bool_decide_eq_false_2.
  rewrite <- Hd3, Hnone. intros [d Hd]. discriminate.
Qed.

Lemma initial_chars_height (chars : list (Z * ascii)) (st : Loader) :
  ld_height (fold_left (fun s (xc : Z * ascii) => initial_char s xc.1 xc.2) chars st)
  = ld_height st.
Proof.
  revert st. induction chars as [|[x ch] chars IH]; intros st; [reflexivity|].
  cbn [fold_left fst snd]. rewrite IH.
  destruct st as [gd singles vert hori double li ps fps final found ffound h next].
  unfold initial_char.
  destruct (Ascii.eqb ch "^"); [reflexivity|]. destruct (Ascii.eqb ch "<"); [reflexivity|].
  destruct (Ascii.eqb ch char_single); [reflexivity|].
  destruct (Ascii.eqb ch "1"); [destruct found|]; reflexivity.
Qed.

(** Without a blank line every line counts for the height. *)
Lemma initial_lines_height (lines : list string) (st st' : Loader) :
  newline ∉ lines -> initial_ok 0 st ->
  for_each read_line lines st = Ok st' ->
  ld_height st' = ld_height st + Z.of_nat (length lines).
Proof.
  revert st. induction lines as [|line lines IH]; intros st Hno Hok Hrun.
  - injection Hrun as <-. simpl. lia.
  - apply not_elem_of_cons in Hno as [Hne Hno].
    cbn [for_each] in Hrun. apply bind_Ok in Hrun as (st1 & Hline & Hrest).
    destruct (initial_line_ok st line Hok) as (st1' & Hline' & Hok1); [congruence|].
    rewrite Hline in Hline'. injection Hline' as <-.
    rewrite (IH st1 Hno Hok1 Hrest). cbn [length].
    unfold read_line in Hline.
    destruct (String.eqb_spec line newline) as [E|_]; [congruence|].
    rewrite (io_final _ _ (initial_ok_bump st Hok)) in Hline. cbn [mbind res_bind] in Hline.
    injection Hline as <-.
    replace (ld_height (next_line _)) with (ld_height st + 1); [lia|].
    match goal with |- _ = ld_height (next_line ?s) =>
      replace (ld_height (next_line s)) with (ld_height s) by (destruct s; reflexivity)
    end.
    rewrite initial_chars_height. destruct st; reflexivity.
Qed.

(** ** Negative coordinates *)

(** Python's negative indices: [i] stands for [i + n] when [-n <= i < 0]. *)
Definition wrap (n i : Z) : Z := if 0 <=? i then i else i + n.

Definition in_span (w h : Z) (c : Z * Z) : Prop :=
  (- w <= c.1 < w) /\ (- h <= c.2 < h).

#[global] Instance in_span_dec w h c : Decision (in_span w h c).
Proof. unfold in_span. apply _. Defined.

Definition wrap_write (w h : Z) (wr : (Z * Z) * ascii) : (Z * Z) * ascii :=
  ((wrap w wr.1.1, wrap h wr.1.2), wr.2).

Lemma py_index_wrap (len : nat) (i : Z) :
  py_index len i =
    if bool_decide (- Z.of_nat len <= i < Z.of_nat len)
    then Ok (Z.to_nat (wrap (Z.of_nat len) i)) else Raise IndexError.
Proof.
  unfold py_index, wrap.
  destruct (Z.leb_spec 0 i); destruct (Z.ltb_spec i (Z.of_nat len));
    destruct (Z.leb_spec (- Z.of_nat len) i); destruct (Z.ltb_spec i 0);
    cbn [andb]; try lia;
    first [ rewrite bool_decide_eq_true_2 by lia | rewrite bool_decide_eq_false_2 by lia ];
    try reflexivity.
  f_equal. f_equal. lia.
Qed.

Lemma wrap_range (n i : Z) : - n <= i < n -> 0 <= wrap n i < n.
Proof. unfold wrap. destruct (Z.leb_spec 0 i); lia. Qed.

Lemma py_getitem_wrap {A : Type} (l : list A) (i : Z) :
  py_getitem l i =
    if bool_decide (- Z.of_nat (length l) <= i < Z.of_nat (length l))
    then py_getitem l (wrap (Z.of_nat (length l)) i) else Raise IndexError.
Proof.
  unfold py_getitem. rewrite (py_index_wrap _ i).
  case_bool_decide as Hi; [|reflexivity].
  rewrite (py_index_nonneg _ (wrap _ i)) by (apply wrap_range in Hi; lia).
  rewrite bool_decide_eq_true_2 by (apply wrap_range in Hi; lia). reflexivity.
Qed.

Lemma py_setitem_wrap {A : Type} (l : list A) (i : Z) (a : A) :
  py_setitem l i a =
    if bool_decide (- Z.of_nat (length l) <= i < Z.of_nat (length l))
    then py_setitem l (wrap (Z.of_nat (length l)) i) a else Raise IndexError.
Proof.
  unfold py_setitem. rewrite (py_index_wrap _ i).
  case_bool_decide as Hi; [|reflexivity].
  rewrite (py_index_nonneg _ (wrap _ i)) by (apply wrap_range in Hi; lia).
  rewrite bool_decide_eq_true_2 by (apply wrap_range in Hi; lia). reflexivity.
Qed.

(** Writing a cell, for any coordinates. *)
Lemma grid_set_span (w h : Z) (g : list (list ascii)) (y x : Z) (a : ascii) :
  grid_dims w h g -> 0 <= w -> 0 <= h ->
  grid_set g y x a =
    if bool_decide (in_span w h (x, y))
    then Ok (paint g ((wrap w x, wrap h y), a)) else Raise IndexError.
Proof.
  intros Hd Hw Hh. pose proof Hd as [Hlen Hrows].
  assert (Hl : Z.of_nat (length g) = h) by lia.
  destruct (decide (- h <= y < h)) as [Hy|Hy].
  - pose proof (wrap_range h y Hy) as Hy'.
    destruct (decide (- w <= x < w)) as [Hx|Hx].
    + pose proof (wrap_range w x Hx) as Hx'.
      rewrite (bool_decide_eq_true_2 (in_span w h (x, y))) by (split; assumption).
      transitivity (grid_set g (wrap h y) (wrap w x) a).
      * unfold grid_set. rewrite (py_getitem_wrap g y), Hl, bool_decide_eq_true_2 by lia.
        destruct (py_getitem g (wrap h y)) as [row|e] eqn:Hrow; [|reflexivity].
        cbn [mbind res_bind].
        assert (Hr : Z.of_nat (length row) = w).
        { rewrite py_getitem_nonneg in Hrow by lia.
          destruct (g !! Z.to_nat (wrap h y)) as [row'|] eqn:E; [|discriminate].
          injection Hrow as <-. rewrite Forall_forall in Hrows.
          rewrite (Hrows row' (list_elem_of_lookup_2 _ _ _ E)). lia. }
        rewrite (py_setitem_wrap row x), Hr, bool_decide_eq_true_2 by lia.
        destruct (py_setitem row (wrap w x) a) as [row'|e]; [|reflexivity].
        cbn [mbind res_bind].
        rewrite (py_setitem_wrap g y), Hl, bool_decide_eq_true_2 by lia. reflexivity.
      * rewrite (grid_set_paint w h g (wrap h y) (wrap w x) a Hd) by lia.
        rewrite bool_decide_eq_true_2 by (unfold in_grid; cbn; lia). reflexivity.
    + rewrite (bool_decide_eq_false_2 (in_span w h (x, y))) by (intros [H _]; auto).
      unfold grid_set. rewrite (py_getitem_wrap g y), Hl, bool_decide_eq_true_2 by lia.
      rewrite py_getitem_nonneg by lia.
      destruct (grid_dims_row w h g (wrap h y) Hd Hy') as (row & Hrow & Hr).
      rewrite Hrow. cbn [mbind res_bind].
      rewrite (py_setitem_wrap row x), bool_decide_eq_false_2 by lia. reflexivity.
  - rewrite (bool_decide_eq_false_2 (in_span w h (x, y))) by (intros [_ H]; auto).
    unfold grid_set. rewrite (py_getitem_wrap g y), Hl, bool_decide_eq_false_2 by lia.
    reflexivity.
Qed.

Lemma write_all_span (w h : Z) (ws : list ((Z * Z) * ascii)) (g : list (list ascii)) :
  grid_dims w h g -> 0 <= w -> 0 <= h ->
  write_all g ws =
    if bool_decide (Forall (in_span w h) ws.*1)
    then Ok (fold_left paint (wrap_write w h <$> ws) g)
    else Raise IndexError.
Proof.
  intros Hd Hw Hh. revert g Hd. induction ws as [|[[x y] a] ws IH]; intros g Hd.
  - rewrite bool_decide_eq_true_2 by constructor. reflexivity.
  - unfold write_all in *. cbn [for_each fst snd].
    rewrite (grid_set_span w h) by assumption.
    rewrite !fmap_cons. cbn [fst fold_left].
    destruct (decide (in_span w h (x, y))) as [Hin|Hin].
    + rewrite (bool_decide_eq_true_2 _ Hin). cbn [mbind res_bind].
      rewrite IH by (auto using grid_dims_paint).
      destruct (decide (Forall (in_span w h) ws.*1)) as [Hall|Hall].
      * rewrite (bool_decide_eq_true_2 _ Hall).
        rewrite bool_decide_eq_true_2 by (constructor; assumption). reflexivity.
      * rewrite (bool_decide_eq_false_2 _ Hall).
        rewrite bool_decide_eq_false_2; [reflexivity|].
        intros Hc. inversion Hc; subst. contradiction.
    + rewrite (bool_decide_eq_false_2 _ Hin). cbn [mbind res_bind].
      rewrite bool_decide_eq_false_2; [reflexivity|].
      intros Hc. inversion Hc; subst. contradiction.
Qed.

Lemma derive_grid_span (w h : Z) (ps : dict (Z * Z) Piece) :
  0 <= w -> 0 <= h ->
  derive_grid w h ps =
    if bool_decide (Forall (in_span w h) (occupied ps))
    then Ok (fold_left paint (wrap_write w h <$> all_writes ps) (blank_grid w h))
    else Raise IndexError.
Proof.
  intros Hw Hh. unfold derive_grid. rewrite for_each_stamp.
  rewrite (write_all_span w h) by (auto using grid_dims_blank).
  fold (all_writes ps). rewrite occupied_all_writes. reflexivity.
Qed.

(** ** Loading the text of a grid *)

(** The lines of the file that shows a grid: one line per row. *)
Definition lines_of (g : list (list ascii)) : list string :=
  (fun row => string_of_list_ascii row +:+ newline) <$> g.

(** The cells the loader reads from these lines: the cells of the rows,
    and the line end after each row. *)
Fixpoint rows_cells (li : Z) (g : list (list ascii)) : list ((Z * Z) * ascii) :=
  match g with
  | [] => []
  | row :: g' =>
      ((fun xc : Z * ascii => ((xc.1, li), xc.2)) <$> enumerate_from 0 (row ++ [line_end]))
      ++ rows_cells (li + 1) g'
  end.

Lemma list_ascii_app (s1 s2 : string) :
  list_ascii_of_string (s1 +:+ s2) = list_ascii_of_string s1 ++ list_ascii_of_string s2.
Proof.
  induction s1 as [|c s1 IH]; [reflexivity|].
  rewrite app_String. cbn [list_ascii_of_string app]. rewrite IH. reflexivity.
Qed.

Lemma goal_cells_lines_of (li : Z) (g : list (list ascii)) :
  Forall (fun row => row <> []) g -> goal_cells li (lines_of g) = rows_cells li g.
Proof.
  intros Hg. revert li. induction Hg as [|row g Hrow _ IH]; intros li; [reflexivity|].
  unfold lines_of. rewrite fmap_cons. fold (lines_of g). cbn [goal_cells rows_cells].
  destruct (String.eqb_spec (string_of_list_ascii row +:+ newline) newline) as [E|_].
  - exfalso. apply (f_equal list_ascii_of_string) in E.
    rewrite list_ascii_app, list_ascii_of_string_of_list_ascii in E.
    destruct row as [|c [|c' row]]; [contradiction|discriminate..].
  - rewrite IH. unfold line_cells.
    rewrite list_ascii_app, list_ascii_of_string_of_list_ascii. reflexivity.
Qed.

Lemma elem_of_enumerate_from {A : Type} (x0 x : Z) (a : A) (l : list A) :
  (x, a) ∈ enumerate_from x0 l <-> x0 <= x /\ l !! Z.to_nat (x - x0) = Some a.
Proof.
  revert x0. induction l as [|b l IH]; intros x0; cbn [enumerate_from].
  - split; [intros H; inversion H | intros [_ H]; discriminate].
  - rewrite elem_of_cons, IH. split.
    + intros [[= -> ->]|[Hle Hl]].
      * split; [lia|]. replace (x0 - x0) with 0 by lia. reflexivity.
      * split; [lia|]. replace (Z.to_nat (x - x0)) with (S (Z.to_nat (x - (x0 + 1)))) by lia.
        exact Hl.
    + intros [Hle Hl]. destruct (decide (x = x0)) as [->|Hne].
      * left. replace (x0 - x0) with 0 in Hl by lia.
        change (Z.to_nat 0) with 0%nat in Hl. cbn [lookup list_lookup] in Hl. congruence.
      * right. split; [lia|].
        replace (Z.to_nat (x - x0)) with (S (Z.to_nat (x - (x0 + 1)))) in Hl by lia.
        exact Hl.
Qed.

Lemma elem_of_rows_cells (li : Z) (g : list (list ascii)) (x y : Z) (ch : ascii) :
  ((x, y), ch) ∈ rows_cells li g <->
  li <= y /\ 0 <= x /\
  exists row, g !! Z.to_nat (y - li) = Some row /\ (row ++ [line_end]) !! Z.to_nat x = Some ch.
Proof.
  revert li. induction g as [|row g IH]; intros li; cbn [rows_cells].
  - split; [intros H; inversion H | intros (_ & _ & r & H & _); discriminate].
  - rewrite elem_of_app, IH, list_elem_of_fmap. split.
    + intros [([x' a] & [= -> -> ->] & Hin)|(Hle & Hx & r & Hr & Hch)].
      * apply elem_of_enumerate_from in Hin as [Hx Hl]. rewrite Z.sub_0_r in Hl.
        split; [lia|]. split; [exact Hx|]. exists row.
        replace (li - li) with 0 by lia. auto.
      * split; [lia|]. split; [exact Hx|]. exists r. split; [|exact Hch].
        replace (Z.to_nat (y - li)) with (S (Z.to_nat (y - (li + 1)))) by lia. exact Hr.
    + intros (Hle & Hx & r & Hr & Hch). destruct (decide (y = li)) as [->|Hne].
      * left. exists (x, ch). split; [reflexivity|].
        replace (li - li) with 0 in Hr by lia.
        change (Z.to_nat 0) with 0%nat in Hr. cbn [lookup list_lookup] in Hr. injection Hr as <-.
        apply elem_of_enumerate_from. rewrite Z.sub_0_r. auto.
      * right. split; [lia|]. split; [exact Hx|]. exists r. split; [|exact Hch].
        replace (Z.to_nat (y - li)) with (S (Z.to_nat (y - (li + 1)))) in Hr by lia. exact Hr.
Qed.

Lemma cell_lookup (g : list (list ascii)) (x y : Z) (ch : ascii) :
  cell g (x, y) = Some ch <->
  0 <= x /\ 0 <= y /\ exists row, g !! Z.to_nat y = Some row /\ row !! Z.to_nat x = Some ch.
Proof.
  unfold cell. cbn [fst snd]. case_bool_decide as Hxy.
  - destruct (g !! Z.to_nat y) as [row|] eqn:E; cbn.
    + split; [intros H; split; [lia|]; split; [lia|]; eauto|].
      intros (_ & _ & r & [= <-] & H). exact H.
    + split; [discriminate | intros (_ & _ & r & H & _); discriminate].
  - split; [discriminate | intros (Hx & Hy & _); lia].
Qed.

(** The cells read from the lines are the cells of the grid, and line
    ends. *)
Lemma rows_cells_cell (g : list (list ascii)) (c : Z * Z) (ch : ascii) :
  (c, ch) ∈ rows_cells 0 g -> ch <> line_end -> cell g c = Some ch.
Proof.
  destruct c as [x y]. intros Hin Hch.
  apply elem_of_rows_cells in Hin as (Hy & Hx & row & Hrow & Hl).
  rewrite Z.sub_0_r in Hrow. apply cell_lookup. split; [exact Hx|]. split; [exact Hy|].
  exists row. split; [exact Hrow|].
  apply lookup_app_Some in Hl as [Hl|[_ Hl]]; [exact Hl|].
  apply list_lookup_singleton_Some in Hl as [_ <-]. contradiction.
Qed.

Lemma cell_rows_cells (g : list (list ascii)) (c : Z * Z) (ch : ascii) :
  cell g c = Some ch -> (c, ch) ∈ rows_cells 0 g.
Proof.
  destruct c as [x y]. intros Hc. apply cell_lookup in Hc as (Hx & Hy & row & Hrow & Hl).
  apply elem_of_rows_cells. split; [exact Hy|]. split; [exact Hx|].
  exists row. rewrite Z.sub_0_r. split; [exact Hrow|]. apply lookup_app_l_Some, Hl.
Qed.

(** Reading order: row by row, left to right. *)
Definition before (c1 c2 : Z * Z) : Prop := c1.2 < c2.2 \/ (c1.2 = c2.2 /\ c1.1 < c2.1).

Fixpoint reading_order (cells : list ((Z * Z) * ascii)) : Prop :=
  match cells with
  | [] => True
  | a :: cells' => Forall (fun b => before a.1 b.1) cells' /\ reading_order cells'
  end.

Lemma reading_order_app (l1 l2 : list ((Z * Z) * ascii)) :
  reading_order l1 -> reading_order l2 ->
  (forall a b, a ∈ l1 -> b ∈ l2 -> before a.1 b.1) -> reading_order (l1 ++ l2).
Proof.
  induction l1 as [|a l1 IH]; intros H1 H2 H12; [exact H2|].
  destruct H1 as [Ha H1]. cbn [app reading_order]. split.
  - apply Forall_app. split; [exact Ha|]. apply Forall_forall. intros b Hb.
    apply H12; [left | exact Hb].
  - apply IH; [exact H1 | exact H2|]. intros a' b Ha' Hb. apply H12; [right; exact Ha' | exact Hb].
Qed.

Lemma reading_order_split (l1 l2 : list ((Z * Z) * ascii)) (a b : (Z * Z) * ascii) :
  reading_order (l1 ++ a :: l2) -> b ∈ l1 -> before b.1 a.1.
Proof.
  induction l1 as [|a' l1 IH]; intros Ho Hb; [inversion Hb|].
  destruct Ho as [Ha' Ho]. apply elem_of_cons in Hb as [->|Hb].
  - rewrite Forall_forall in Ha'. apply Ha'. apply elem_of_app. right. left.
  - apply IH; assumption.
Qed.

Lemma reading_order_app_r (l1 l2 : list ((Z * Z) * ascii)) (a b : (Z * Z) * ascii) :
  reading_order (l1 ++ a :: l2) -> b ∈ l2 -> before a.1 b.1.
Proof.
  induction l1 as [|a' l1 IH]; intros Ho Hb.
  - destruct Ho as [Ha _]. rewrite Forall_forall in Ha. apply Ha, Hb.
  - destruct Ho as [_ Ho]. apply IH; assumption.
Qed.

Lemma line_order (li x0 : Z) (l : list ascii) :
  reading_order ((fun xc : Z * ascii => ((xc.1, li), xc.2)) <$> enumerate_from x0 l).
Proof.
  revert x0. induction l as [|a l IH]; intros x0; [exact I|].
  cbn [enumerate_from]. rewrite fmap_cons. split; [|apply IH].
  apply Forall_forall. intros b Hb. apply list_elem_of_fmap in Hb as ([x c] & -> & Hin).
  apply elem_of_enumerate_from in Hin as [Hx _]. right. cbn [fst snd]. lia.
Qed.

Lemma rows_cells_order (li : Z) (g : list (list ascii)) : reading_order (rows_cells li g).
Proof.
  revert li. induction g as [|row g IH]; intros li; [exact I|].
  cbn [rows_cells]. apply reading_order_app; [apply line_order | apply IH|].
  intros a [[x y] ch] Ha Hb. apply list_elem_of_fmap in Ha as ([x' c'] & -> & _).
  apply elem_of_rows_cells in Hb as (Hy & _). left. cbn [fst snd]. lia.
Qed.

(** The pieces the loader reads out of a list of cells. *)
Lemma char_piece_head (seen : bool) (ch : ascii) (s : shape) :
  s <> Block -> char_piece seen ch = Some s <-> ch = head_symbol s.
Proof.
  intros Hs. unfold char_piece, char_single.
  destruct (Ascii.eqb_spec ch "^") as [->|H1];
    [destruct s; cbn [head_symbol]; unfold char_single; split; intros H;
     first [congruence | discriminate H]|].
  destruct (Ascii.eqb_spec ch "<") as [->|H2];
    [destruct s; cbn [head_symbol]; unfold char_single; split; intros H;
     first [congruence | discriminate H]|].
  destruct (Ascii.eqb_spec ch "2") as [->|H3];
    [destruct s; cbn [head_symbol]; unfold char_single; split; intros H;
     first [congruence | discriminate H]|].
  destruct (Ascii.eqb_spec ch "1") as [->|H4];
    [destruct seen, s; cbn [head_symbol]; unfold char_single; split; intros H;
     first [congruence | discriminate H]|].
  destruct s; cbn [head_symbol]; unfold char_single; split; intros H;
    first [congruence | discriminate H].
Qed.

Lemma goal_pieces_other (seen : bool) (cells : list ((Z * Z) * ascii)) (s : shape) (x y : Z) :
  s <> Block -> (s, x, y) ∈ goal_pieces seen cells <-> ((x, y), head_symbol s) ∈ cells.
Proof.
  intros Hs. revert seen. induction cells as [|[[x0 y0] ch] cells IH]; intros seen.
  - cbn [goal_pieces]. split; intros H; inversion H.
  - cbn [goal_pieces]. rewrite (elem_of_cons cells).
    destruct (char_piece seen ch) as [s'|] eqn:E.
    + rewrite elem_of_cons, IH. split.
      * intros [[= -> -> ->]|H]; [|right; exact H]. left.
        apply (char_piece_head _ _ _ Hs) in E. congruence.
      * intros [[= -> -> Hch]|H]; [|right; exact H]. left.
        symmetry in Hch. apply (char_piece_head seen _ _ Hs) in Hch. congruence.
    + rewrite IH. split; [intros H; right; exact H|].
      intros [[= -> -> Hch]|H]; [|exact H]. exfalso.
      symmetry in Hch. apply (char_piece_head seen _ _ Hs) in Hch. congruence.
Qed.

Lemma goal_pieces_seen (cells : list ((Z * Z) * ascii)) (x y : Z) :
  (Block, x, y) ∉ goal_pieces true cells.
Proof.
  induction cells as [|[[x0 y0] ch] cells IH]; cbn [goal_pieces]; [intros H; inversion H|].
  change (block_seen_after true ch) with true.
  destruct (char_piece true ch) as [s|] eqn:E; [|exact IH].
  apply not_elem_of_cons. split; [|exact IH]. intros [= <- _ _].
  unfold char_piece in E. repeat (destruct (Ascii.eqb ch _); try discriminate).
Qed.

Lemma goal_pieces_block_inv (cells : list ((Z * Z) * ascii)) (x y : Z) :
  (Block, x, y) ∈ goal_pieces false cells ->
  exists l1 l2, cells = l1 ++ ((x, y), "1"%char) :: l2 /\ forall c, (c, "1"%char) ∉ l1.
Proof.
  induction cells as [|[[x0 y0] ch] cells IH]; cbn [goal_pieces]; [intros H; inversion H|].
  destruct (Ascii.eqb_spec ch "1") as [->|Hch].
  - change (char_piece false "1") with (Some Block).
    change (block_seen_after false "1") with true.
    intros [[= -> ->]|H]%elem_of_cons; [|destruct (goal_pieces_seen _ _ _ H)].
    exists [], cells. split; [reflexivity|]. intros c H. inversion H.
  - assert (Hseen : block_seen_after false ch = false).
    { unfold block_seen_after. apply Ascii.eqb_neq in Hch. rewrite Hch. reflexivity. }
    rewrite Hseen. intros Hin.
    assert (Hin' : (Block, x, y) ∈ goal_pieces false cells).
    { destruct (char_piece false ch) as [s|] eqn:E; [|exact Hin].
      apply elem_of_cons in Hin as [[= <- _ _]|Hin]; [|exact Hin]. exfalso.
      unfold char_piece in E. apply Ascii.eqb_neq in Hch. rewrite Hch in E.
      repeat (destruct (Ascii.eqb ch _); try discriminate). }
    destruct (IH Hin') as (l1 & l2 & -> & Hno).
    exists (((x0, y0), ch) :: l1), l2. split; [reflexivity|].
    intros c [[= _ <-]|H]%elem_of_cons; [congruence | exact (Hno c H)].
Qed.

Lemma goal_pieces_block_intro (l1 l2 : list ((Z * Z) * ascii)) (x y : Z) :
  (forall c, (c, "1"%char) ∉ l1) ->
  (Block, x, y) ∈ goal_pieces false (l1 ++ ((x, y), "1"%char) :: l2).
Proof.
  induction l1 as [|[[x0 y0] ch] l1 IH]; intros Hno; cbn [app goal_pieces].
  - change (char_piece false "1") with (Some Block). left.
  - assert (Hch : Ascii.eqb ch "1" = false).
    { apply Ascii.eqb_neq. intros ->. apply (Hno (x0, y0)). left. }
    assert (Hseen : block_seen_after false ch = false).
    { unfold block_seen_after. rewrite Hch. reflexivity. }
    rewrite Hseen.
    assert (IH' : (Block, x, y) ∈ goal_pieces false (l1 ++ ((x, y), "1"%char) :: l2)).
    { apply IH. intros c Hc. apply (Hno c). right. exact Hc. }
    destruct (char_piece false ch); [right|]; exact IH'.
Qed.

(** ** The layout of a board, read back *)

Definition one_block (b : Board) : Prop :=
  forall p q, p ∈ dict_values (pieces b) -> q ∈ dict_values (pieces b) ->
    shape_of p = Some Block -> shape_of q = Some Block -> p = q.

Lemma block_corner (q : Piece) (c : Z * Z) :
  shape_of q = Some Block -> c ∈ footprint q -> ~ before c (position q).
Proof.
  intros Hs Hc. unfold footprint in Hc. rewrite (writes_shape _ _ Hs) in Hc.
  destruct (position q) as [x y]. cbn in Hc.
  unfold before. cbn [fst snd].
  repeat (apply elem_of_cons in Hc as [->|Hc]; [cbn [fst snd]; lia|]).
  inversion Hc.
Qed.

Lemma head_symbol_no_line_end (s : shape) : head_symbol s <> line_end.
Proof. destruct s; discriminate. Qed.

(** Every piece read out of the text of a board's grid is a piece of the
    board. *)
Lemma parsed_on_board (B : Board) (s : shape) (x y : Z) :
  wf_board B -> (s, x, y) ∈ goal_pieces false (rows_cells 0 (grid B)) ->
  exists q, q ∈ dict_values (pieces B) /\ shape_of q = Some s /\ position q = (x, y).
Proof.
  intros HB Hin. pose proof HB as [Hs _].
  destruct (decide (s = Block)) as [->|Hne].
  - apply goal_pieces_block_inv in Hin as (l1 & l2 & Hcells & Hno).
    assert (Hc : cell (grid B) (x, y) = Some "1"%char).
    { apply rows_cells_cell; [|discriminate]. rewrite Hcells. apply elem_of_app. right. left. }
    destruct (sound_cell_written B (x, y) "1" Hs Hc) as (q & Hq & Hw); [discriminate|].
    destruct (head_symbol_writer q Block (x, y) Hw) as (Hshape & _ & Hfoot).
    exists q. split; [exact Hq|]. split; [exact Hshape|].
    assert (Hw' : (position q, "1"%char) ∈ writes q).
    { rewrite (writes_shape _ _ Hshape). apply (head_symbol_written Block). }
    pose proof (wf_cell_of_piece B q _ _ HB Hq Hw') as Hc'.
    apply cell_rows_cells in Hc'. rewrite Hcells in Hc'.
    apply elem_of_app in Hc' as [Hc'|Hc']; [destruct (Hno _ Hc')|].
    apply elem_of_cons in Hc' as [Heq|Hc']; [congruence|]. exfalso.
    apply (block_corner q (x, y) Hshape Hfoot).
    pose proof (rows_cells_order 0 (grid B)) as Ho. rewrite Hcells in Ho.
    apply (reading_order_app_r _ _ _ _ Ho Hc').
  - apply (goal_pieces_other _ _ _ _ _ Hne) in Hin.
    apply rows_cells_cell in Hin; [|apply head_symbol_no_line_end].
    destruct (sound_cell_written B (x, y) _ Hs Hin (head_symbol_not_empty s)) as (q & Hq & Hw).
    destruct (head_symbol_writer q s (x, y) Hw) as (Hshape & Hpos & _).
    exists q. auto.
Qed.

(** Every piece of a board with at most one block is read out of the
    text of its grid. *)
Lemma board_parsed (B : Board) (q : Piece) (s : shape) :
  wf_board B -> one_block B -> q ∈ dict_values (pieces B) -> shape_of q = Some s ->
  (s, (position q).1, (position q).2) ∈ goal_pieces false (rows_cells 0 (grid B)).
Proof.
  intros HB Hone Hq Hshape. pose proof HB as [Hs _].
  assert (Hw : (position q, head_symbol s) ∈ writes q).
  { rewrite (writes_shape _ _ Hshape). apply head_symbol_written. }
  pose proof (wf_cell_of_piece B q _ _ HB Hq Hw) as Hc.
  apply cell_rows_cells in Hc. destruct (position q) as [x y] eqn:Hpos. cbn [fst snd].
  destruct (decide (s = Block)) as [->|Hne]; [|apply goal_pieces_other; assumption].
  apply list_elem_of_split in Hc as (l1 & l2 & Hcells). rewrite Hcells.
  apply goal_pieces_block_intro. intros c Hc.
  assert (Hc' : cell (grid B) c = Some "1"%char).
  { apply rows_cells_cell; [|discriminate]. rewrite Hcells. apply elem_of_app. left. exact Hc. }
  destruct (sound_cell_written B c "1" Hs Hc') as (q' & Hq' & Hw'); [discriminate|].
  destruct (head_symbol_writer q' Block c Hw') as (Hshape' & _ & Hfoot).
  assert (q' = q) as -> by (apply Hone; assumption).
  apply (block_corner q c Hshape Hfoot). rewrite Hpos.
  pose proof (rows_cells_order 0 (grid B)) as Ho. rewrite Hcells in Ho.
  apply (reading_order_split _ _ _ _ Ho Hc).
Qed.

Lemma NoDup_bind_intro {A B : Type} (f : A -> list B) (l : list A) :
  NoDup l -> (forall x, x ∈ l -> NoDup (f x)) ->
  (forall x y b, x ∈ l -> y ∈ l -> b ∈ f x -> b ∈ f y -> x = y) ->
  NoDup (l ≫= f).
Proof.
  induction l as [|a l IH]; intros Hnd Hf Hdisj; [constructor|].
  apply NoDup_cons in Hnd as [Ha Hnd]. rewrite bind_cons. apply NoDup_app.
  split; [apply Hf; left|]. split.
  - intros b Hb Hin. apply list_elem_of_bind in Hin as (y & Hby & Hy).
    apply Ha. rewrite (Hdisj a y b); [exact Hy | left | right; exact Hy | exact Hb | exact Hby].
  - apply IH; [exact Hnd | intros x Hx; apply Hf; right; exact Hx|].
    intros x y b Hx Hy. apply Hdisj; right; assumption.
Qed.

Lemma NoDup_bind_part {A B : Type} (f : A -> list B) (l : list A) (x : A) :
  NoDup (l ≫= f) -> x ∈ l -> NoDup (f x).
Proof.
  induction l as [|a l IH]; intros Hnd Hx; [inversion Hx|].
  rewrite bind_cons in Hnd. apply NoDup_app in Hnd as (Ha & _ & Hnd).
  apply elem_of_cons in Hx as [->|Hx]; [exact Ha | apply IH; assumption].
Qed.

Lemma NoDup_fmap_eq {A B : Type} (f : A -> B) (l : list A) (x y : A) :
  NoDup (f <$> l) -> x ∈ l -> y ∈ l -> f x = f y -> x = y.
Proof.
  induction l as [|a l IH]; intros Hnd Hx Hy Heq; [inversion Hx|].
  rewrite fmap_cons in Hnd. apply NoDup_cons in Hnd as [Ha Hnd].
  apply elem_of_cons in Hx as [->|Hx]; apply elem_of_cons in Hy as [->|Hy].
  - reflexivity.
  - exfalso. apply Ha. rewrite Heq. apply list_elem_of_fmap. eauto.
  - exfalso. apply Ha. rewrite <- Heq. apply list_elem_of_fmap. eauto.
  - apply IH; assumption.
Qed.

Lemma Forall2_elem_r {A B : Type} (R : A -> B -> Prop) (l : list A) (k : list B) (y : B) :
  Forall2 R l k -> y ∈ k -> exists x, x ∈ l /\ R x y.
Proof.
  induction 1 as [|x y' l k HR _ IH]; intros Hy; [inversion Hy|].
  apply elem_of_cons in Hy as [->|Hy]; [exists x; split; [left | exact HR]|].
  destruct (IH Hy) as (x' & Hx' & HR'). exists x'. split; [right; exact Hx' | exact HR'].
Qed.

Lemma Forall2_elem_l {A B : Type} (R : A -> B -> Prop) (l : list A) (k : list B) (x : A) :
  Forall2 R l k -> x ∈ l -> exists y, y ∈ k /\ R x y.
Proof.
  induction 1 as [|x' y l k HR _ IH]; intros Hx; [inversion Hx|].
  apply elem_of_cons in Hx as [->|Hx]; [exists y; split; [left | exact HR]|].
  destruct (IH Hx) as (y' & Hy' & HR'). exists y'. split; [right; exact Hy' | exact HR'].
Qed.

(** A sound board whose pieces are those read out of the text of the
    grid of [B] has the grid of [B]. *)
Lemma layout_grid (B b : Board) :
  wf_board B -> one_block B -> sound_board b ->
  Forall2 is_record (goal_pieces false (rows_cells 0 (grid B))) (dict_values (pieces b)) ->
  Z.to_nat (height b) = length (grid B) ->
  grid b = grid B.
Proof.
  intros HB Hone Hb Hrec Hh. pose proof HB as [Hs HndB].
  assert (HA : forall p, p ∈ dict_values (pieces b) ->
            exists q, q ∈ dict_values (pieces B) /\ writes p = writes q /\
                      position p = position q).
  { intros p Hp. destruct (Forall2_elem_r _ _ _ _ Hrec Hp) as ([[s x] y] & Hin & Hr).
    apply is_record_shape in Hr as [Hshape Hpos]. cbn [fst snd] in Hshape, Hpos.
    destruct (parsed_on_board B s x y HB Hin) as (q & Hq & Hshape' & Hpos').
    exists q. split; [exact Hq|]. split; [|congruence].
    rewrite (writes_shape _ _ Hshape), (writes_shape _ _ Hshape'). congruence. }
  assert (HBb : forall q, q ∈ dict_values (pieces B) ->
            exists p, p ∈ dict_values (pieces b) /\ writes p = writes q).
  { intros q Hq.
    assert (Hv : valid_piece q).
    { pose proof (sb_valid _ Hs) as Hv. rewrite Forall_forall in Hv. apply Hv, Hq. }
    destruct Hv as [_ [s Hshape]].
    pose proof (board_parsed B q s HB Hone Hq Hshape) as Hin.
    destruct (Forall2_elem_l _ _ _ _ Hrec Hin) as (p & Hp & Hr).
    apply is_record_shape in Hr as [Hshape' Hpos]. cbn [fst snd] in Hshape', Hpos.
    exists p. split; [exact Hp|].
    rewrite (writes_shape _ _ Hshape), (writes_shape _ _ Hshape'), Hpos.
    destruct (position q); reflexivity. }
  assert (Hpos : NoDup (position <$> dict_values (pieces b))).
  { rewrite <- sound_keys_positions by exact Hb. apply (sb_nodup _ Hb). }
  assert (Hwf : wf_board b).
  { split; [exact Hb|]. unfold occupied. apply NoDup_bind_intro.
    - apply (NoDup_fmap_1 position). exact Hpos.
    - intros p Hp. destruct (HA p Hp) as (q & Hq & Hw & _).
      unfold footprint. rewrite Hw. apply (NoDup_bind_part footprint _ q HndB Hq).
    - intros p p' c Hp Hp' Hc Hc'.
      destruct (HA p Hp) as (q & Hq & Hw & Hpq).
      destruct (HA p' Hp') as (q' & Hq' & Hw' & Hpq').
      unfold footprint in Hc, Hc'. rewrite Hw in Hc. rewrite Hw' in Hc'.
      assert (q = q') as <- by (apply (wf_one_piece B q q' c); assumption).
      apply (NoDup_fmap_eq position _ _ _ Hpos Hp Hp'). congruence. }
  pose proof (sound_board_dims _ Hb) as Hdb. pose proof (sound_board_dims _ Hs) as HdB.
  rewrite (sb_width _ Hb) in Hdb. rewrite (sb_width _ Hs) in HdB.
  assert (HdB' : grid_dims 4 (height b) (grid B)).
  { destruct HdB as [Hl Hr]. split; [lia | exact Hr]. }
  apply (grid_ext 4 (height b)); [exact Hdb | exact HdB'|].
  intros c Hc. destruct (cell_in_grid _ _ _ _ HdB' Hc) as [a Ha]. rewrite Ha.
  destruct (decide (a = char_empty)) as [->|Hne].
  - apply sound_cell_empty; [exact Hb|]. rewrite (sb_width _ Hb). split; [exact Hc|].
    intros Hocc. apply elem_of_occupied in Hocc as (p & Hp & Hfoot).
    destruct (HA p Hp) as (q & Hq & Hw & _).
    apply (sound_cell_empty B c Hs) in Ha as [_ Hfree]. apply Hfree.
    apply elem_of_occupied. exists q. split; [exact Hq|].
    unfold footprint in *. rewrite <- Hw. exact Hfoot.
  - destruct (sound_cell_written B c a Hs Ha Hne) as (q & Hq & Hw).
    destruct (HBb q Hq) as (p & Hp & Hwp).
    apply (wf_cell_of_piece b p c a Hwf Hp). rewrite Hwp. exact Hw.
Qed.

(** * Further properties *)

(** ** Grid strings *)

Lemma twin_left_sound : sound_board twin_left.
Proof. constructor; solve_concrete. Qed.

Lemma twin_right_sound : sound_board twin_right.
Proof. constructor; solve_concrete. Qed.

(** X1: for boards built by the program, [str] gives the same string
    exactly when [==] holds: the visited set of the searches, keyed by
    [str(board)], identifies the boards that [Board.__eq__] identifies. *)
Theorem grid_string_identifies_grid (b1 b2 : Board) :
  sound_board b1 -> sound_board b2 ->
  (Board_str b1 = Board_str b2 <-> Board_eq b1 (VBoard b2) = true).
Proof.
  intros _ _. rewrite Board_str_grid, Board_eq_grid. reflexivity.
Qed.

Lemma grid_string_identifies_grid_witness :
  Board_str twin_left = Board_str twin_right /\ Board_str twin_left <> Board_str example_board.
Proof.
  split.
  - apply (grid_string_identifies_grid twin_left twin_right twin_left_sound twin_right_sound).
    reflexivity.
  - intros H.
    apply (grid_string_identifies_grid twin_left example_board twin_left_sound
             example_board_sound) in H.
    discriminate H.
Defined.

(** ** Moves *)

(** X2: a legal move changes the grid only at the cells of the moved
    piece: in the board [copy_board] returns, the piece shows its
    symbols at its new cells, the cells it left are empty, every other
    cell is as it was; the board is again well-formed, of the same
    dimensions. *)
Theorem copy_board_changes_moved_cells_only (b b' : Board) (p : Piece) (k : Z * Z) :
  wf_board b -> p ∈ dict_values (pieces b) -> k ∈ legal_destinations b p ->
  copy_board b k (position p) = Ok b' ->
  wf_board b' /\ width b' = width b /\ height b' = height b /\
  (forall c a, (c, a) ∈ writes (set_coords p k.1 k.2) -> cell (grid b') c = Some a) /\
  (forall c, c ∈ footprint p -> c ∉ footprint (set_coords p k.1 k.2) ->
     cell (grid b') c = Some char_empty) /\
  (forall c, c ∉ footprint p -> c ∉ footprint (set_coords p k.1 k.2) ->
     cell (grid b') c = cell (grid b) c).
Proof.
  intros Hwf Hp Hk Hcopy.
  destruct (move_cells b b' p k Hwf Hp Hk Hcopy) as (H1 & H2 & H3 & _ & H4 & H5 & H6).
  auto 10.
Qed.

Ltac solve_In :=
  apply list_elem_of_In; vm_compute;
  repeat first [ left; reflexivity | right ].

Lemma copy_board_changes_moved_cells_only_witness :
  exists b', copy_board example_board (2, 0) (2, 1) = Ok b' /\
    wf_board b' /\
    cell (grid b') (2, 0) = Some "^"%char /\
    cell (grid b') (2, 2) = Some char_empty /\
    cell (grid b') (0, 0) = cell (grid example_board) (0, 0).
Proof.
  destruct (copy_board example_board (2, 0) (2, 1)) as [b'|e] eqn:Hcopy;
    [|vm_compute in Hcopy; discriminate].
  exists b'. split; [reflexivity|].
  destruct (copy_board_changes_moved_cells_only example_board b'
              (mkPiece false false 2 1 (Some "v"%string) 3) (2, 0) example_board_wf)
    as (Hwf & _ & _ & Hnew & Hleft & Hrest); [solve_In | solve_In | exact Hcopy |].
  split; [exact Hwf|]. split; [|split].
  - apply Hnew. solve_In.
  - apply Hleft; [solve_In|]. vm_compute. set_solver.
  - apply Hrest; vm_compute; set_solver.
Defined.

(** X3: on a well-formed board (built by the program, no two pieces
    covering a common cell), every legal move can be undone by a legal
    move: after the slide of [p] to [k], the old position of [p] is a
    legal destination of the moved piece, and moving it back gives the
    grid of the board before the move. On well-formed boards the graph
    the searches explore is undirected. *)
Theorem moves_can_be_undone (b b' : Board) (p : Piece) (k : Z * Z) :
  wf_board b -> p ∈ dict_values (pieces b) -> k ∈ legal_destinations b p ->
  copy_board b k (position p) = Ok b' ->
  set_coords p k.1 k.2 ∈ dict_values (pieces b') /\
  position p ∈ legal_destinations b' (set_coords p k.1 k.2) /\
  exists b'', copy_board b' (position p) k = Ok b'' /\
    Board_eq b'' (VBoard b) = true /\ Board_str b'' = Board_str b.
Proof.
  intros Hwf Hp Hk Hcopy.
  destruct (move_back b b' p k Hwf Hp Hk Hcopy) as (H1 & H2 & b'' & H3 & Hgrid).
  split; [exact H1|]. split; [exact H2|]. exists b''. split; [exact H3|].
  split; [apply Board_eq_grid, Hgrid | apply Board_str_grid, Hgrid].
Qed.

Lemma moves_can_be_undone_witness :
  exists b' b'', copy_board example_board (2, 0) (2, 1) = Ok b' /\
    copy_board b' (2, 1) (2, 0) = Ok b'' /\ Board_str b'' = Board_str example_board.
Proof.
  destruct (copy_board example_board (2, 0) (2, 1)) as [b'|e] eqn:Hcopy;
    [|vm_compute in Hcopy; discriminate].
  destruct (moves_can_be_undone example_board b'
              (mkPiece false false 2 1 (Some "v"%string) 3) (2, 0) example_board_wf)
    as (_ & _ & b'' & Hback & _ & Hstr); [solve_In | solve_In | exact Hcopy |].
  exists b', b''. auto.
Defined.

(** ** Successors *)

(** X4: the grids of the successors of a state depend on the grid of
    its board only, not on the identities or the order of its pieces:
    two states whose well-formed boards have the same grid have
    successors with the same grids. (This is what makes it sound to
    skip a popped state whose grid string is visited.) *)
Theorem successors_depend_on_grid_only (s1 s2 : State) (l1 l2 : list State) :
  wf_board (board s1) -> wf_board (board s2) -> grid (board s1) = grid (board s2) ->
  generate_successors s1 = Ok l1 -> generate_successors s2 = Ok l2 ->
  forall s1', s1' ∈ l1 -> exists s2', s2' ∈ l2 /\ grid (board s2') = grid (board s1').
Proof.
  intros Hwf1 Hwf2 Hgrid Hgen1 Hgen2 s1' Hs1'.
  pose proof (generate_successors_sound s1 l1 s1' (proj1 Hwf1) Hgen1 Hs1') as Hsucc.
  apply is_successor_move in Hsucc.
  destruct (same_grid_moves (board s1) (board s2) (board s1') Hwf1 Hwf2 Hgrid Hsucc)
    as (b2 & Hmove & Hg).
  destruct (generate_successors_complete s2 l2 b2 (proj1 Hwf2) Hgen2 Hmove) as (s2' & Hs2' & <-).
  eauto.
Qed.

(** The board of the running example with its pieces in another order. *)
Definition example_board_reordered : Board :=
  {| width := 4; height := 3;
     pieces := [((2, 1), mkPiece false false 2 1 (Some "v"%string) 3);
                ((0, 1), mkPiece true false 0 1 None 2);
                ((0, 0), mkPiece false true 0 0 None 1)];
     goal_board_dict := Some example_goal_map;
     grid := [["2"; "."; "."; "."]; ["1"; "1"; "^"; "."]; ["1"; "1"; "v"; "."]]%char |}.

Lemma example_board_reordered_wf : wf_board example_board_reordered.
Proof.
  split; [constructor; solve_concrete|].
  unfold occupied, footprint. simpl.
  repeat (constructor; [set_solver|]). constructor.
Qed.

Lemma successors_depend_on_grid_only_witness :
  exists l1 l2,
    generate_successors example_state = Ok l1 /\
    generate_successors (dfs_root example_board_reordered) = Ok l2 /\
    (grid ∘ board <$> l1) <> (grid ∘ board <$> l2) /\
    Forall (fun s1' => exists s2', s2' ∈ l2 /\ grid (board s2') = grid (board s1')) l1.
Proof.
  destruct (generate_successors example_state) as [l1|e1] eqn:H1;
    [|vm_compute in H1; discriminate].
  destruct (generate_successors (dfs_root example_board_reordered)) as [l2|e2] eqn:H2;
    [|vm_compute in H2; discriminate].
  exists l1, l2. split; [reflexivity|]. split; [reflexivity|]. split.
  - vm_compute in H1, H2. injection H1 as <-. injection H2 as <-. vm_compute. discriminate.
  - apply Forall_forall.
    exact (successors_depend_on_grid_only example_state (dfs_root example_board_reordered)
             l1 l2 example_board_wf example_board_reordered_wf eq_refl H1 H2).
Defined.

(** X5: [generate_successors] returns exactly one state for each piece
    and each of its legal destinations, in this order: piece by piece in
    the order of the mapping and, for one piece, left, up, right, down.
    Each state holds the board of the move, the parent's heuristic
    adjusted by the two distances of the moved piece, the parent's [f],
    the depth plus one, and the parent. *)
Theorem generate_successors_enumerates_moves (self : State) (succs : list State) :
  sound_board (board self) -> generate_successors self = Ok succs ->
  Forall2
    (fun (pk : Piece * (Z * Z)) (s' : State) =>
       exists g b',
         goal_lookup (board self) (uid pk.1) = Ok g /\
         copy_board (board self) pk.2 (position pk.1) = Ok b' /\
         s' = mkState b'
                (hfn self - man_dist (coord_x pk.1) (coord_y pk.1) g
                 + man_dist pk.2.1 pk.2.2 g)
                (f self) (depth self + 1) (Some self))
    (p ← dict_values (pieces (board self)); k ← legal_destinations (board self) p; [(p, k)])
    succs.
Proof. apply generate_successors_moves. Qed.

Lemma generate_successors_enumerates_moves_witness :
  exists succs, generate_successors example_state = Ok succs /\
    (fun s' => (depth s', parent s')) <$> succs
    = [(1, Some example_state); (1, Some example_state); (1, Some example_state)] /\
    (p ← dict_values (pieces example_board); k ← legal_destinations example_board p; [(p, k)])
    = [(mkPiece false true 0 0 None 1, (1, 0));
       (mkPiece false false 2 1 (Some "v"%string) 3, (2, 0));
       (mkPiece false false 2 1 (Some "v"%string) 3, (3, 1))].
Proof.
  destruct (generate_successors example_state) as [succs|e] eqn:Hgen;
    [|vm_compute in Hgen; discriminate].
  exists succs. split; [reflexivity|].
  pose proof (generate_successors_enumerates_moves example_state succs example_board_sound Hgen)
    as Hall.
  split; [|vm_compute; reflexivity].
  change (board example_state) with example_board in Hall.
  replace (p ← dict_values (pieces example_board);
           k ← legal_destinations example_board p; [(p, k)])
    with [(mkPiece false true 0 0 None 1, (1, 0));
          (mkPiece false false 2 1 (Some "v"%string) 3, (2, 0));
          (mkPiece false false 2 1 (Some "v"%string) 3, (3, 1))] in Hall
    by (vm_compute; reflexivity).
  repeat match goal with
  | H : Forall2 _ (_ :: _) _ |- _ =>
      apply Forall2_cons_inv_l in H as (? & ? & (? & ? & _ & _ & ->) & H & ->)
  | H : Forall2 _ [] _ |- _ => apply Forall2_nil_inv_l in H as ->
  end.
  reflexivity.
Defined.

(** X6: the heuristic is consistent along the moves the program makes:
    a successor's heuristic differs from its parent's by exactly one, its
    depth is one more, so the priority [depth + hfn] that [astar] gives
    it is the parent's or the parent's plus two, never less; the [f]
    field of a fresh successor is still the parent's. *)
Theorem successor_priority_never_decreases (self : State) (succs : list State) (s' : State) :
  sound_board (board self) -> generate_successors self = Ok succs -> s' ∈ succs ->
  (hfn s' = hfn self + 1 \/ hfn s' = hfn self - 1) /\
  depth s' = depth self + 1 /\
  (depth s' + hfn s' = depth self + hfn self \/
   depth s' + hfn s' = depth self + hfn self + 2) /\
  f s' = f self /\ parent s' = Some self.
Proof.
  intros Hb Hgen Hin.
  destruct (successor_step self s' (generate_successors_sound self succs s' Hb Hgen Hin))
    as (Hh & Hd & Hf & Hp).
  repeat split; try assumption. lia.
Qed.

Lemma successor_priority_never_decreases_witness :
  Forall (fun s' => depth s' + hfn s' = 3 \/ depth s' + hfn s' = 5) example_successors.
Proof.
  apply Forall_forall. intros s' Hin.
  destruct (successor_priority_never_decreases example_state example_successors s'
              example_board_sound example_successors_eq Hin) as (_ & _ & H & _).
  exact H.
Defined.

(** ** The searches *)

(** X7: the state a search returns is reached from the initial board by
    legal moves: the boards on the chain of parents of the returned
    state, read from the root, start with the initial board, each is
    obtained from the one before by one legal move, the last has the
    grid of the goal board, their number is the depth of the returned
    state plus one, and no two of them have the same grid. *)
Theorem search_result_is_reachable (fuel : nat) (b goal_board : Board) (c : State) :
  sound_board b ->
  dfs fuel (dfs_root b) goal_board = Some (Ok (Some c)) \/
  astar fuel (astar_root b goal_board) goal_board = Some (Ok (Some c)) ->
  path_from b (board <$> reverse (path_to c)) (board c) /\
  grid (board c) = grid goal_board /\
  Z.of_nat (length (path_to c)) = depth c + 1 /\
  NoDup ((fun a => Board_str (board a)) <$> path_to c).
Proof.
  intros Hb [Hrun|Hrun].
  - destruct (dfs_linked fuel (dfs_root b) goal_board c Hb Hrun) as [Hlink Hgrid].
    destruct (linked_path unchanged (dfs_root b) c) as [Hpath Hlen]; auto.
    split; [exact Hpath|]. split; [exact Hgrid|].
    split; [cbn [dfs_root depth] in Hlen; lia|].
    exact (dfs_simple_path fuel b goal_board c Hb Hrun).
  - destruct (astar_linked fuel (astar_root b goal_board) goal_board c Hb Hrun)
      as [Hlink Hgrid].
    destruct (linked_path with_priority (astar_root b goal_board) c) as [Hpath Hlen]; auto.
    split; [exact Hpath|]. split; [exact Hgrid|].
    split; [cbn [astar_root depth] in Hlen; lia|].
    exact (astar_simple_path fuel b goal_board c Hb Hrun).
Qed.

Lemma search_result_is_reachable_witness :
  exists c, astar 100 (astar_root example_board example_goal) example_goal = Some (Ok (Some c)) /\
    path_from example_board (board <$> reverse (path_to c)) (board c) /\
    grid (board c) = grid example_goal /\
    length (path_to c) = 4%nat.
Proof.
  destruct (astar 100 (astar_root example_board example_goal) example_goal)
    as [[[c|]|e]|] eqn:Hrun; try (vm_compute in Hrun; discriminate).
  exists c. split; [reflexivity|].
  destruct (search_result_is_reachable 100 example_board example_goal c example_board_sound
              (or_intror Hrun)) as (Hpath & Hgrid & Hlen & _).
  split; [exact Hpath|]. split; [exact Hgrid|].
  vm_compute in Hrun. injection Hrun as <-. reflexivity.
Defined.

(** X8: when a search returns [None], the goal is out of reach: no
    board that legal moves lead to from the (well-formed) initial board
    has the grid of the goal board. *)
Theorem search_none_means_unreachable (fuel : nat) (b goal_board : Board) :
  wf_board b ->
  dfs fuel (dfs_root b) goal_board = Some (Ok None) \/
  astar fuel (astar_root b goal_board) goal_board = Some (Ok None) ->
  forall b', rtc move b b' -> grid b' <> grid goal_board.
Proof.
  intros Hb [Hrun|Hrun].
  - exact (dfs_exhausts fuel (dfs_root b) goal_board Hb Hrun).
  - exact (astar_exhausts fuel (astar_root b goal_board) goal_board Hb Hrun).
Qed.

(** A puzzle without solution: one single on one row, and a goal layout
    with a horizontal piece. *)
Definition lone_single : Board :=
  {| width := 4; height := 1;
     pieces := [((0, 0), mkPiece false true 0 0 None 1)];
     goal_board_dict := Some {[1%positive := mkPiece false true 3 0 None 1]};
     grid := [["2"; "."; "."; "."]]%char |}.

Definition lone_horizontal : Board :=
  {| width := 4; height := 1;
     pieces := [((0, 0), mkPiece false false 0 0 (Some "h"%string) 1)];
     goal_board_dict := None;
     grid := [["<"; ">"; "."; "."]]%char |}.

Lemma lone_single_wf : wf_board lone_single.
Proof.
  split; [constructor; solve_concrete|].
  unfold occupied, footprint. simpl.
  repeat (constructor; [set_solver|]). constructor.
Qed.

Lemma search_none_means_unreachable_witness :
  dfs 10 (dfs_root lone_single) lone_horizontal = Some (Ok None) /\
  forall b', rtc move lone_single b' -> grid b' <> grid lone_horizontal.
Proof.
  assert (Hrun : dfs 10 (dfs_root lone_single) lone_horizontal = Some (Ok None))
    by (vm_compute; reflexivity).
  split; [exact Hrun|].
  exact (search_none_means_unreachable 10 lone_single lone_horizontal lone_single_wf
           (or_introl Hrun)).
Defined.

(** ** The output *)

(** X9: what [output_solution] writes, for a well-formed initial
    board, when the search ends: either the line [No solution], and then
    no board that legal moves lead to has the grid of the goal board; or
    the grids of a sequence of boards, each followed by an empty line,
    that starts with the initial board, proceeds by legal moves and ends
    with a board that has the grid of the goal board. *)
Theorem output_solution_writes_a_solution (fuel : nat) (b goal_board : Board) (algo text : string) :
  wf_board b ->
  output_solution fuel b goal_board algo = Some (Ok text) ->
  (text = "No solution" +:+ newline /\
   forall b', rtc move b b' -> grid b' <> grid goal_board) \/
  (exists bs last,
     path_from b bs last /\ grid last = grid goal_board /\ text = boards_text bs).
Proof.
  intros Hwf. unfold output_solution. cbn zeta.
  destruct (String.eqb algo "dfs").
  - destruct (dfs fuel (dfs_root b) goal_board) as [[[c|]|e]|] eqn:Hrun; intros [= <-].
    + right. destruct (dfs_linked fuel (dfs_root b) goal_board c (proj1 Hwf) Hrun)
        as [Hlink Hgrid].
      destruct (linked_path unchanged (dfs_root b) c) as [Hpath _]; auto.
      exists (board <$> reverse (path_to c)), (board c).
      split; [exact Hpath|]. split; [exact Hgrid | apply write_solution_text].
    + left. split; [reflexivity|]. exact (dfs_exhausts fuel (dfs_root b) goal_board Hwf Hrun).
  - destruct (astar fuel (astar_root b goal_board) goal_board) as [[[c|]|e]|] eqn:Hrun;
      intros [= <-].
    + right. destruct (astar_linked fuel (astar_root b goal_board) goal_board c (proj1 Hwf) Hrun)
        as [Hlink Hgrid].
      destruct (linked_path with_priority (astar_root b goal_board) c) as [Hpath _]; auto.
      exists (board <$> reverse (path_to c)), (board c).
      split; [exact Hpath|]. split; [exact Hgrid | apply write_solution_text].
    + left. split; [reflexivity|].
      exact (astar_exhausts fuel (astar_root b goal_board) goal_board Hwf Hrun).
Qed.

(** ** The loader *)

Lemma example_lines_split :
  example_lines
  = ["2..." +:+ newline; "11^." +:+ newline; "11v." +:+ newline]%string
    ++ newline :: ["..2." +:+ newline; "11.^" +:+ newline; "11.v" +:+ newline]%string.
Proof. reflexivity. Qed.

Lemma example_lines_initial :
  newline ∉ ["2..." +:+ newline; "11^." +:+ newline; "11v." +:+ newline]%string.
Proof. intros H. apply list_elem_of_In in H. vm_compute in H. intuition discriminate. Qed.

(** X10: [read_from_file] reads each layout into the pieces its symbols
    stand for, in reading order (row by row, left to right; blank lines
    of the goal layout are skipped and are no rows): ['^'] is a
    vertical piece, ['<'] a horizontal one, ['2'] a single, the first
    ['1'] of a layout the block, every other character nothing. Each
    piece has the record of its shape at the cell of the symbol and is
    stored under that cell. *)
Theorem read_from_file_reads_layouts (init_lines goal_lines : list string)
    (b goal_board : Board) :
  newline ∉ init_lines ->
  read_from_file (init_lines ++ newline :: goal_lines) = Ok (b, goal_board) ->
  Forall2 (fun (gp : shape * Z * Z) (p : Piece) => p = goal_record gp.1.1 gp.1.2 gp.2 (uid p))
    (goal_pieces false (goal_cells 0 init_lines)) (dict_values (pieces b)) /\
  Forall2 (fun (gp : shape * Z * Z) (p : Piece) => p = goal_record gp.1.1 gp.1.2 gp.2 (uid p))
    (goal_pieces false (goal_cells 0 goal_lines)) (dict_values (pieces goal_board)) /\
  dict_keys (pieces b) = position <$> dict_values (pieces b) /\
  dict_keys (pieces goal_board) = position <$> dict_values (pieces goal_board).
Proof.
  intros Hno Hrun.
  destruct (read_from_file_sound _ _ _ Hrun) as (Hb & Hg & _).
  destruct (read_from_file_state _ _ _ Hrun) as (st & Hlines & Hps & _ & _ & Hfps & _).
  destruct (load_facts init_lines goal_lines st Hno Hlines) as (Hinit & [Hgoal _ _ _] & _).
  rewrite Hps, Hfps. split; [exact Hinit|]. split; [exact Hgoal|].
  rewrite <- Hps, <- Hfps. split; apply sound_keys_positions; assumption.
Qed.

Lemma read_from_file_reads_layouts_witness :
  goal_pieces false
    (goal_cells 0 ["2..." +:+ newline; "11^." +:+ newline; "11v." +:+ newline]%string)
  = [(Single, 0, 0); (Block, 0, 1); (Vertical, 2, 1)] /\
  Forall2 (fun (gp : shape * Z * Z) (p : Piece) => p = goal_record gp.1.1 gp.1.2 gp.2 (uid p))
    [(Single, 0, 0); (Block, 0, 1); (Vertical, 2, 1)] (dict_values (pieces example_board)).
Proof.
  assert (Hcells : goal_pieces false
            (goal_cells 0 ["2..." +:+ newline; "11^." +:+ newline; "11v." +:+ newline]%string)
          = [(Single, 0, 0); (Block, 0, 1); (Vertical, 2, 1)]) by (vm_compute; reflexivity).
  split; [exact Hcells|]. rewrite <- Hcells.
  refine (proj1 (read_from_file_reads_layouts _
                   ["..2." +:+ newline; "11.^" +:+ newline; "11.v" +:+ newline]%string
                   example_board example_goal example_lines_initial _)).
  rewrite <- example_lines_split. exact example_lines_load.
Defined.

(** X11: the height of both boards is the number of lines that follow
    the first blank line, blank lines included; the number of rows of
    the initial layout plays no role. *)
Theorem read_from_file_height (init_lines goal_lines : list string) (b goal_board : Board) :
  newline ∉ init_lines ->
  read_from_file (init_lines ++ newline :: goal_lines) = Ok (b, goal_board) ->
  height b = Z.of_nat (length goal_lines) /\ height goal_board = Z.of_nat (length goal_lines) /\
  width b = 4 /\ width goal_board = 4.
Proof.
  intros Hno Hrun.
  destruct (read_from_file_sound _ _ _ Hrun) as (Hb & Hg & _).
  destruct (read_from_file_state _ _ _ Hrun) as (st & Hlines & _ & Hh & _ & _ & Hh' & _).
  destruct (load_facts init_lines goal_lines st Hno Hlines) as (_ & _ & Hheight & _).
  rewrite Hh, Hh', Hheight. repeat split; [apply (sb_width _ Hb) | apply (sb_width _ Hg)].
Qed.

(** A file whose initial layout has one row and whose goal layout has
    two lines. *)
Definition short_initial_lines : list string :=
  ["2..." +:+ newline]%string ++ newline :: ["...." +:+ newline; "2..." +:+ newline]%string.

Lemma read_from_file_height_witness :
  exists b goal_board, read_from_file short_initial_lines = Ok (b, goal_board) /\
    height b = 2 /\ height goal_board = 2.
Proof.
  destruct (read_from_file short_initial_lines) as [[b goal_board]|e] eqn:Hrun;
    [|vm_compute in Hrun; discriminate].
  exists b, goal_board. split; [reflexivity|].
  destruct (read_from_file_height ["2..." +:+ newline]%string
              ["...." +:+ newline; "2..." +:+ newline]%string b goal_board)
    as (H1 & H2 & _); [|exact Hrun|auto].
  intros H. apply list_elem_of_In in H. vm_compute in H. intuition discriminate.
Defined.

(** X12: the identities after a load: the initial pieces have pairwise
    distinct identities; every goal piece carries the identity of one
    initial piece of its own shape, different goal pieces of different
    initial pieces; the goal map sends the identity of each matched
    initial piece to its goal piece and has no entry for the initial
    pieces left unmatched. *)
Theorem read_from_file_identities (init_lines goal_lines : list string) (b goal_board : Board) :
  newline ∉ init_lines ->
  read_from_file (init_lines ++ newline :: goal_lines) = Ok (b, goal_board) ->
  NoDup (uid <$> dict_values (pieces b)) /\
  exists gd unmatched matched,
    goal_board_dict b = Some gd /\
    dict_values (pieces b) ≡ₚ unmatched ++ matched /\
    Forall2 (fun m g => uid g = uid m /\ shape_of g = shape_of m /\ gd !! uid m = Some g)
      matched (dict_values (pieces goal_board)) /\
    Forall (fun p => gd !! uid p = None) unmatched.
Proof.
  intros Hno Hrun.
  destruct (read_from_file_state _ _ _ Hrun) as (st & Hlines & Hps & _ & Hgd & Hfps & _).
  destruct (load_identities init_lines goal_lines st Hno Hlines)
    as (unmatched & matched & Hperm & Htags & Hnone & Hsome & Hnd).
  rewrite Hps, Hfps. split; [exact Hnd|].
  exists (ld_goal_board_dict st), unmatched, matched.
  split; [exact Hgd|]. split; [exact Hperm|]. split; [|exact Hnone].
  clear -Htags Hsome. induction Htags as [|m g ms gs [Hu Hs] _ IH]; [constructor|].
  apply Forall2_cons in Hsome as [Hm Hsome]. constructor; auto.
Qed.

Lemma read_from_file_identities_witness :
  NoDup (uid <$> dict_values (pieces example_board)) /\
  exists gd, goal_board_dict example_board = Some gd.
Proof.
  destruct (read_from_file_identities
              ["2..." +:+ newline; "11^." +:+ newline; "11v." +:+ newline]%string
              ["..2." +:+ newline; "11.^" +:+ newline; "11.v" +:+ newline]%string
              example_board example_goal example_lines_initial)
    as (Hnd & gd & _ & _ & Hgd & _).
  - rewrite <- example_lines_split. exact example_lines_load.
  - split; [exact Hnd | exists gd; exact Hgd].
Defined.

(** X13: after a load, the goal map has an entry for every piece of the
    initial board (so that no expansion raises [KeyError]) exactly when
    the two layouts have the same number of pieces of each shape. *)
Theorem goal_map_complete_iff_same_inventory (init_lines goal_lines : list string)
    (b goal_board : Board) :
  newline ∉ init_lines ->
  read_from_file (init_lines ++ newline :: goal_lines) = Ok (b, goal_board) ->
  (forall s, count_shape s (pieces goal_board) <= count_shape s (pieces b))%nat /\
  (goal_complete b <->
   forall s, count_shape s (pieces b) = count_shape s (pieces goal_board)).
Proof.
  intros Hno Hrun.
  destruct (read_from_file_sound _ _ _ Hrun) as (Hb & _ & _).
  destruct (read_from_file_state _ _ _ Hrun) as (st & Hlines & Hps & _ & Hgd & Hfps & _).
  destruct (load_identities init_lines goal_lines st Hno Hlines)
    as (unmatched & matched & Hperm & Htags & Hnone & Hsome & _).
  rewrite <- Hps, <- Hfps in *.
  assert (Hcount : forall s, count_shape s (pieces b)
            = (length (filter (fun p => shape_of p = Some s) unmatched)
               + count_shape s (pieces goal_board))%nat).
  { intros s. unfold count_shape.
    rewrite (filter_length_Permutation s _ _ Hperm), filter_app, length_app.
    rewrite (same_tag_count s _ _ Htags). reflexivity. }
  assert (Hlookup : forall p, goal_lookup b (uid p) = match ld_goal_board_dict st !! uid p with
                                                      | Some g => Ok g
                                                      | None => Raise KeyError
                                                      end).
  { intros p. unfold goal_lookup. rewrite Hgd. reflexivity. }
  split; [intros s; rewrite (Hcount s); lia|].
  split.
  - intros Hcomplete s. rewrite (Hcount s).
    destruct unmatched as [|p unmatched]; [reflexivity|]. exfalso.
    apply Forall_cons in Hnone as [Hp _].
    destruct (Hcomplete p) as [g Hg].
    + rewrite Hperm. left.
    + rewrite Hlookup, Hp in Hg. discriminate.
  - intros Hsame p Hp.
    assert (Hempty : unmatched = []).
    { destruct unmatched as [|q unmatched]; [reflexivity|]. exfalso.
      destruct (sound_board_valid b q Hb) as [_ [s Hs]]; [rewrite Hperm; left|].
      specialize (Hsame s). rewrite (Hcount s), filter_cons, decide_True in Hsame by exact Hs.
      cbn [length] in Hsame. lia. }
    subst unmatched. rewrite Hperm in Hp. cbn [app] in Hp.
    apply list_elem_of_lookup in Hp as [i Hi].
    destruct (Forall2_lookup_l _ _ _ _ _ Hsome Hi) as (g & _ & Hg).
    exists g. rewrite Hlookup, Hg. reflexivity.
Qed.

Lemma goal_map_complete_iff_same_inventory_witness :
  goal_complete example_board /\
  (exists b goal_board, read_from_file unmatched_lines = Ok (b, goal_board) /\
     ~ goal_complete b).
Proof.
  split.
  - apply (goal_map_complete_iff_same_inventory
             ["2..." +:+ newline; "11^." +:+ newline; "11v." +:+ newline]%string
             ["..2." +:+ newline; "11.^" +:+ newline; "11.v" +:+ newline]%string
             example_board example_goal example_lines_initial).
    + rewrite <- example_lines_split. exact example_lines_load.
    + intros []; vm_compute; reflexivity.
  - destruct (read_from_file unmatched_lines) as [[b goal_board]|e] eqn:Hrun;
      [|vm_compute in Hrun; discriminate].
    exists b, goal_board. split; [reflexivity|]. intros Hcomplete.
    assert (Hno : newline ∉ ["2..." +:+ newline]%string).
    { intros H. apply list_elem_of_In in H. vm_compute in H. intuition discriminate. }
    destruct (goal_map_complete_iff_same_inventory ["2..." +:+ newline]%string
                ["...." +:+ newline]%string b goal_board Hno Hrun) as [_ Hiff].
    pose proof (proj1 Hiff Hcomplete Single) as Hcount. clear Hiff Hcomplete.
    vm_compute in Hrun. injection Hrun as <- <-. vm_compute in Hcount. discriminate.
Defined.

(** X14: once the file is open and decoded into lines with a blank line
    after the initial layout, what the body of the loop over the lines
    and the construction of the two boards can raise: neither
    [KeyError] nor [TypeError], only [IndexError] (a goal piece of a
    shape with no unmatched initial piece left, or a piece that does not
    fit the grid) and [AttributeError]; the latter only when the initial
    layout has no block. ([open] and the decoding of the file are
    outside the model.) *)
Theorem read_from_file_exceptions (init_lines goal_lines : list string) (e : exn) :
  newline ∉ init_lines ->
  read_from_file (init_lines ++ newline :: goal_lines) = Raise e ->
  e = IndexError \/
  (e = AttributeError /\
   Forall (fun gp : shape * Z * Z => gp.1.1 <> Block)
     (goal_pieces false (goal_cells 0 init_lines))).
Proof.
  intros Hno Hrun. unfold read_from_file in Hrun.
  destruct (for_each read_line (init_lines ++ newline :: goal_lines) loader_init)
    as [st|e'] eqn:Hlines.
  - left. pose proof (read_lines_ok _ _ Hlines) as [_ Hps Hfps _].
    cbn [mbind res_bind] in Hrun.
    destruct (Board_init (ld_height st) (ld_pieces st) (Some (ld_goal_board_dict st)))
      as [b|e1] eqn:Hb.
    + cbn [mbind res_bind] in Hrun.
      destruct (Board_init (ld_height st) (ld_final_pieces st) None) as [g|e2] eqn:Hg;
        [discriminate|].
      injection Hrun as <-. apply (Board_init_Raise _ _ _ _ Hfps Hg).
    + injection Hrun as <-. apply (Board_init_Raise _ _ _ _ Hps Hb).
  - injection Hrun as <-. apply (read_lines_Raise init_lines goal_lines e' Hno Hlines).
Qed.

Lemma read_from_file_exceptions_witness :
  read_from_file (["...." +:+ newline]%string ++ newline :: ["1..." +:+ newline]%string)
  = Raise AttributeError /\
  read_from_file (["...." +:+ newline]%string ++ newline :: ["2..." +:+ newline]%string)
  = Raise IndexError /\
  Forall (fun gp : shape * Z * Z => gp.1.1 <> Block)
    (goal_pieces false (goal_cells 0 ["...." +:+ newline]%string)).
Proof.
  assert (Hno : newline ∉ ["...." +:+ newline]%string).
  { intros H. apply list_elem_of_In in H. vm_compute in H. intuition discriminate. }
  assert (Hrun : read_from_file
                   (["...." +:+ newline]%string ++ newline :: ["1..." +:+ newline]%string)
                 = Raise AttributeError) by (vm_compute; reflexivity).
  split; [exact Hrun|]. split; [vm_compute; reflexivity|].
  destruct (read_from_file_exceptions _ _ _ Hno Hrun) as [H|[_ H]]; [discriminate H|exact H].
Defined.

(** X15: a file without blank line has no goal layout: when the load
    succeeds, every line counts for the height, the goal board has no
    piece and the goal map no entry; then the expansion of a state with
    the initial board, if some piece can move, raises [KeyError]. *)
Theorem read_from_file_without_blank_line (lines : list string) (b goal_board : Board)
    (root : State) :
  newline ∉ lines ->
  read_from_file lines = Ok (b, goal_board) ->
  pieces goal_board = [] /\ goal_board_dict b = Some ∅ /\
  height b = Z.of_nat (length lines) /\
  (board root = b ->
   (exists p, p ∈ dict_values (pieces b) /\ legal_destinations b p <> []) ->
   generate_successors root = Raise KeyError).
Proof.
  intros Hno Hrun.
  destruct (read_from_file_sound _ _ _ Hrun) as (Hb & _ & _).
  destruct (read_from_file_state _ _ _ Hrun) as (st & Hlines & Hps & Hh & Hgd & Hfps & _).
  assert (Hp0 : initial_parsed [] loader_init) by (constructor; [constructor|reflexivity..]).
  destruct (initial_lines_parsed lines loader_init st [] Hno loader_init_initial_ok Hp0 Hlines)
    as [Hok [_ _ Hfinal]].
  pose proof (initial_lines_height lines loader_init st Hno loader_init_initial_ok Hlines)
    as Hheight.
  rewrite (io_goal _ _ Hok) in Hgd.
  split; [congruence|]. split; [exact Hgd|]. split; [rewrite Hh, Hheight; reflexivity|].
  intros <- (p & Hp & Hmoves).
  destruct (generate_successors root) as [succs|e] eqn:Hgen.
  - exfalso. destruct (generate_successors_ready root succs Hb Hgen p Hp Hmoves) as [g Hg].
    unfold goal_lookup in Hg. rewrite Hgd, lookup_empty in Hg. discriminate.
  - destruct (generate_successors_Raise root e Hb Hgen) as (q & _ & _ & Hq).
    unfold goal_lookup in Hq. rewrite Hgd, lookup_empty in Hq. congruence.
Qed.

Lemma read_from_file_without_blank_line_witness :
  exists b goal_board,
    read_from_file ["2..." +:+ newline; "...." +:+ newline]%string = Ok (b, goal_board) /\
    height b = 2 /\ pieces goal_board = [] /\
    generate_successors (dfs_root b) = Raise KeyError.
Proof.
  destruct (read_from_file ["2..." +:+ newline; "...." +:+ newline]%string)
    as [[b goal_board]|e] eqn:Hrun; [|vm_compute in Hrun; discriminate].
  exists b, goal_board. split; [reflexivity|].
  assert (Hno : newline ∉ ["2..." +:+ newline; "...." +:+ newline]%string).
  { intros H. apply list_elem_of_In in H. vm_compute in H. intuition discriminate. }
  destruct (read_from_file_without_blank_line _ b goal_board (dfs_root b) Hno Hrun)
    as (Hgoal & _ & Hh & Hraise).
  split; [exact Hh|]. split; [exact Hgoal|]. apply Hraise; [reflexivity|].
  vm_compute in Hrun. injection Hrun as <- <-.
  exists (mkPiece false true 0 0 None 1). split; [left|]. vm_compute. discriminate.
Defined.

(** ** Grids, for any coordinates *)

(** X16: [update_grid] for pieces with any integer coordinates: it
    raises [IndexError] exactly when some cell of a footprint is outside
    [-width, width) x [-height, height); otherwise it returns, and a
    cell with a negative coordinate is written at that coordinate plus
    the dimension (Python's negative indexing): a piece at column [-1]
    shows in the last column. *)
Theorem update_grid_any_coordinates (b : Board) :
  0 <= width b -> 0 <= height b ->
  update_grid b =
    if bool_decide (Forall (in_span (width b) (height b)) (occupied (pieces b)))
    then Ok (with_grid b
               (fold_left paint (wrap_write (width b) (height b) <$> all_writes (pieces b))
                  (blank_grid (width b) (height b))))
    else Raise IndexError.
Proof.
  intros Hw Hh. unfold update_grid. rewrite derive_grid_span by assumption.
  case_bool_decide; reflexivity.
Qed.

Lemma update_grid_any_coordinates_witness :
  update_grid {| width := 4; height := 2;
                 pieces := [((-1, 0), mkPiece false false (-1) 0 (Some "v"%string) 1)];
                 goal_board_dict := None; grid := [] |}
  = Ok {| width := 4; height := 2;
          pieces := [((-1, 0), mkPiece false false (-1) 0 (Some "v"%string) 1)];
          goal_board_dict := None;
          grid := [["."; "."; "."; "^"]; ["."; "."; "."; "v"]]%char |}.
Proof.
  rewrite update_grid_any_coordinates by (cbn; lia).
  vm_compute. reflexivity.
Defined.

(** ** [copy_board] with a missing key *)

(** X17: [copy_board] for an [old] that is no key of the mapping: the
    board is constructed before the entry is popped, so the call raises
    [IndexError] when some piece of the source does not fit the grid,
    and [KeyError] otherwise; it never returns a board. *)
Theorem copy_board_missing_key (self : Board) (new_key old : Z * Z) :
  Forall nonneg (dict_values (pieces self)) ->
  dict_get old (pieces self) = None ->
  copy_board self new_key old =
    if bool_decide (Forall (in_grid 4 (height self)) (occupied (pieces self)))
    then Raise KeyError else Raise IndexError.
Proof.
  intros Hnn Hget. rewrite copy_board_unfold, Hget.
  unfold Board_init, update_grid. cbn [width height pieces].
  rewrite derive_grid_paint by exact Hnn.
  case_bool_decide; reflexivity.
Qed.

Lemma copy_board_missing_key_witness :
  copy_board example_board (3, 0) (3, 2) = Raise KeyError.
Proof.
  rewrite copy_board_missing_key; [vm_compute; reflexivity | | reflexivity].
  apply valid_pieces_nonneg, (sb_valid _ example_board_sound).
Defined.

(** ** The printed text *)

(** X18: [display] appends to the output the text [grid_to_string]
    gives for the grid, and for boards built by the program that text
    determines the grid: two boards print the same exactly when they
    are equal for [==]. *)
Theorem display_prints_the_grid (b1 b2 : Board) (out : string) :
  sound_board b1 -> sound_board b2 ->
  display b1 out = out +:+ grid_to_string (grid b1) /\
  (display b1 out = display b2 out <-> Board_eq b1 (VBoard b2) = true).
Proof.
  intros H1 H2. rewrite !display_text, grid_to_string_text. split; [reflexivity|].
  rewrite Board_eq_grid. split.
  - intros Heq. apply String.app_inj in Heq.
    apply lines_text_inj; [apply sound_no_line_end; assumption..|exact Heq].
  - intros ->. reflexivity.
Qed.

Lemma display_prints_the_grid_witness :
  display example_board "" = ("2..." +:+ newline +:+ "11^." +:+ newline +:+ "11v." +:+ newline)
  /\ display example_board "" <> display example_goal "".
Proof.
  assert (Hgoal : sound_board example_goal) by (constructor; solve_concrete).
  destruct (display_prints_the_grid example_board example_goal "" example_board_sound Hgoal)
    as [Htext Hiff].
  split; [rewrite Htext; vm_compute; reflexivity|].
  intros Heq. apply Hiff in Heq. discriminate Heq.
Defined.

Lemma output_solution_writes_a_solution_witness :
  output_solution 10 lone_single lone_horizontal "dfs" = Some (Ok ("No solution" +:+ newline)) /\
  exists text bs last,
    output_solution 100 example_board example_goal "astar" = Some (Ok text) /\
    path_from example_board bs last /\ grid last = grid example_goal /\
    text = boards_text bs /\ String.length text = 64%nat.
Proof.
  split; [vm_compute; reflexivity|].
  destruct (output_solution 100 example_board example_goal "astar") as [[text|e]|] eqn:Hrun;
    try (vm_compute in Hrun; discriminate).
  destruct (output_solution_writes_a_solution 100 example_board example_goal "astar" text
              example_board_wf Hrun) as [[Htext _]|(bs & last & Hpath & Hgrid & Htext)].
  - exfalso. subst text. vm_compute in Hrun. discriminate.
  - exists text, bs, last. split; [reflexivity|]. split; [exact Hpath|].
    split; [exact Hgrid|]. split; [exact Htext|].
    clear -Hrun. vm_compute in Hrun. injection Hrun as <-. vm_compute. reflexivity.
Defined.

(** ** A printed layout, read back *)

Lemma lines_of_text (g : list (list ascii)) :
  foldr String.append ""%string (lines_of g) = grid_to_string g.
Proof.
  rewrite grid_to_string_text. induction g as [|row g IH]; [reflexivity|].
  unfold lines_of. rewrite fmap_cons. fold (lines_of g). cbn [foldr lines_text].
  rewrite IH, string_app_assoc. reflexivity.
Qed.

Lemma lines_of_not_blank (b : Board) : sound_board b -> newline ∉ lines_of (grid b).
Proof.
  intros Hb Hin. apply list_elem_of_fmap in Hin as (row & Heq & Hrow).
  destruct (sound_board_dims _ Hb) as [_ Hrows]. rewrite Forall_forall in Hrows.
  pose proof (Hrows _ Hrow) as Hlen. rewrite (sb_width _ Hb) in Hlen.
  apply (f_equal list_ascii_of_string) in Heq.
  rewrite list_ascii_app, list_ascii_of_string_of_list_ascii in Heq.
  destruct row as [|c [|c' row]]; [discriminate Hlen | discriminate Hlen | discriminate Heq].
Qed.

Lemma lines_of_cells (b : Board) :
  sound_board b -> goal_cells 0 (lines_of (grid b)) = rows_cells 0 (grid b).
Proof.
  intros Hb. apply goal_cells_lines_of.
  destruct (sound_board_dims _ Hb) as [_ Hrows]. eapply Forall_impl; [exact Hrows|].
  intros row Hlen ->. rewrite (sb_width _ Hb) in Hlen. discriminate Hlen.
Qed.

(** X19: a printed layout reads back. For well-formed boards [B] and [G]
    of the same height with at most one block each, when
    [read_from_file] accepts the file made of the printed grid of [B],
    a blank line and the printed grid of [G] (the lines that
    [grid_to_string] and [display] write), the boards it returns have
    the grids of [B] and of [G]. *)
Theorem read_from_file_reads_back (B G b goal_board : Board) :
  wf_board B -> wf_board G -> one_block B -> one_block G -> height B = height G ->
  read_from_file (lines_of (grid B) ++ newline :: lines_of (grid G)) = Ok (b, goal_board) ->
  grid b = grid B /\ grid goal_board = grid G.
Proof.
  intros HB HG HoneB HoneG Hh Hrun.
  pose proof HB as [HsB _]. pose proof HG as [HsG _].
  destruct (read_from_file_sound _ _ _ Hrun) as (Hb & Hg & _).
  destruct (read_from_file_state _ _ _ Hrun) as (st & Hlines & Hps & Hhb & _ & Hfps & Hhg & _).
  destruct (load_facts _ _ st (lines_of_not_blank B HsB) Hlines)
    as (Hinit & [Hgoal _ _ _] & Hheight & _).
  rewrite (lines_of_cells B HsB), <- Hps in Hinit.
  rewrite (lines_of_cells G HsG), <- Hfps in Hgoal.
  unfold lines_of in Hheight. rewrite length_fmap in Hheight.
  destruct (sound_board_dims _ HsB) as [HlB _]. destruct (sound_board_dims _ HsG) as [HlG _].
  split; apply layout_grid; try assumption; lia.
Qed.

Lemma example_goal_wf : wf_board example_goal.
Proof.
  split; [apply (read_from_file_sound _ _ _ example_lines_load)|].
  unfold occupied, footprint. simpl.
  repeat (constructor; [set_solver|]). constructor.
Qed.

Lemma example_one_block (b : Board) :
  b = example_board_reordered \/ b = example_goal -> one_block b.
Proof.
  intros [->| ->] p q Hp Hq Hsp Hsq; cbn in Hp, Hq;
    repeat (apply elem_of_cons in Hp as [->|Hp]); try (inversion Hp; fail);
    repeat (apply elem_of_cons in Hq as [->|Hq]); try (inversion Hq; fail);
    first [reflexivity | discriminate Hsp | discriminate Hsq].
Qed.

Lemma read_from_file_reads_back_witness :
  read_from_file
    (lines_of (grid example_board_reordered) ++ newline :: lines_of (grid example_goal))
  = Ok (example_board, example_goal) /\
  grid example_board = grid example_board_reordered /\ grid example_goal = grid example_goal.
Proof.
  assert (Hrun : read_from_file
                   (lines_of (grid example_board_reordered)
                    ++ newline :: lines_of (grid example_goal))
                 = Ok (example_board, example_goal)) by (vm_compute; reflexivity).
  split; [exact Hrun|].
  apply (read_from_file_reads_back example_board_reordered example_goal
           example_board example_goal
           example_board_reordered_wf example_goal_wf
           (example_one_block _ (or_introl eq_refl)) (example_one_block _ (or_intror eq_refl))
           eq_refl Hrun).
Defined.
